(** * DeCode: the Python-like interpreter and trace builder of [src/App.jsx]

    A shallow embedding of the interpreter that the visualizer runs over the
    pasted script ([safeEval], [parseListComprehension],
    [handleFunctionCall], [processLine], [parseCode]) and of its second,
    near-duplicate implementation, followed by the properties of the trace
    it builds.

    Conventions of the embedding.
    - Source text is a [string] of 8-bit characters; the character classes
      of the regular expressions ([\w], [\d], [\s], [\b]) are the ASCII ones,
      and [trim] strips the ASCII blanks.
    - JavaScript numbers are modelled on the integers ([Z]).  The source
      computes on doubles, which carry the integers up to [2^53] in
      magnitude exactly: beyond that, and for fractions, the model does not
      follow it, and a statement about the arithmetic of the source carries
      the bound as a hypothesis.
    - The message of an exception that the engine raises is modelled by
      its first line.
    - Arrays, dictionaries and function objects live in a heap and are
      referred to by location, so that in-place updates ([push], [splice])
      and sharing are visible.  The [vars] object of [processLine] is never
      shared (it is copied on entry, [{ ...currentVars }]) and is threaded
      by value as an insertion-ordered association list.
    - What the JavaScript engine itself provides ([new Function],
      [JSON.parse], [JSON.stringify], the arithmetic operators) is a
      parameter, the record [host]; [Mini.mini_host] is an executable
      engine for a fragment of the expression language.
    - Variable names are taken not to collide with the members of
      [Object.prototype]. *)

From Stdlib Require Import String Ascii ZArith List Lia Bool Arith DecimalString.
From stdpp Require Import base list strings.
Import ListNotations.

Set Implicit Arguments.

(** ** Strings, as the methods of [String.prototype] the source uses *)

Module Str.

Definition chars (s : string) : list ascii := list_ascii_of_string s.
Definition of_chars (l : list ascii) : string := string_of_list_ascii l.

Definition code (c : ascii) : nat := nat_of_ascii c.

(** The double quote, as a character and as a string *)
Definition dquote : ascii := Eval cbv in ascii_of_nat 34.
Definition dq : string := String dquote EmptyString.

Definition is_digit (c : ascii) : bool := (48 <=? code c) && (code c <=? 57).
Definition is_alpha (c : ascii) : bool :=
  ((65 <=? code c) && (code c <=? 90)) || ((97 <=? code c) && (code c <=? 122)).
(** [\w] *)
Definition is_word (c : ascii) : bool := is_alpha c || is_digit c || (code c =? 95).
(** [\s], and the characters [trim] strips: tab, LF, VT, FF, CR, space. *)
Definition is_space (c : ascii) : bool :=
  ((9 <=? code c) && (code c <=? 13)) || (code c =? 32).

Fixpoint drop_space (l : list ascii) : list ascii :=
  match l with
  | c :: l' => if is_space c then drop_space l' else l
  | [] => []
  end.

Definition trimStart (s : string) : string := of_chars (drop_space (chars s)).
Definition trim (s : string) : string :=
  of_chars (rev (drop_space (rev (drop_space (chars s))))).

Fixpoint prefix_of (p l : list ascii) : bool :=
  match p, l with
  | [], _ => true
  | a :: p', b :: l' => Ascii.eqb a b && prefix_of p' l'
  | _ :: _, [] => false
  end.

Definition startsWith (s p : string) : bool := prefix_of (chars p) (chars s).
Definition endsWith (s p : string) : bool := prefix_of (rev (chars p)) (rev (chars s)).

Fixpoint includes_chars (p l : list ascii) : bool :=
  prefix_of p l || match l with [] => false | _ :: l' => includes_chars p l' end.
Definition includes (s p : string) : bool := includes_chars (chars p) (chars s).

(** [s.split(c)] for a one-character separator. *)
Fixpoint split_chars (sep : ascii) (cur : list ascii) (l : list ascii) : list string :=
  match l with
  | [] => [of_chars (rev cur)]
  | c :: l' =>
      if Ascii.eqb c sep then of_chars (rev cur) :: split_chars sep [] l'
      else split_chars sep (c :: cur) l'
  end.
Definition split (sep : ascii) (s : string) : list string := split_chars sep [] (chars s).

(** [parts.join(sep)] *)
Fixpoint join (sep : string) (parts : list string) : string :=
  match parts with
  | [] => ""
  | [p] => p
  | p :: rest => p +:+ sep +:+ join sep rest
  end.

(** [s.slice(n)] and [s.slice(a, -b)] for non-negative [n], [a], [b]. *)
Definition slice_from (n : nat) (s : string) : string := of_chars (drop n (chars s)).
Definition slice_between (a b : nat) (s : string) : string :=
  let l := chars s in
  of_chars (drop a (take (length l - b) l)).

(** [s.indexOf(c)] *)
Fixpoint index_of (c : ascii) (l : list ascii) : option nat :=
  match l with
  | [] => None
  | d :: l' => if Ascii.eqb c d then Some 0 else option_map S (index_of c l')
  end.

Definition len (s : string) : nat := length (chars s).

Definition of_Z (z : Z) : string := NilZero.string_of_int (Z.to_int z).
Definition of_nat (n : nat) : string := of_Z (Z.of_nat n).

End Str.

(** ** Regular expressions

    A backtracking matcher with capture groups for the constructs that
    occur in the source's regular expressions: literals, classes, [.],
    sequence, alternation, greedy and lazy [*], groups, [\b], [^], [$]. *)

Module Re.

Inductive regex : Type :=
| Eps
| Chr (c : ascii)
| Cls (p : ascii -> bool)
| Seq (a b : regex)
| Alt (a b : regex)
| Star (greedy : bool) (a : regex)
| Grp (n : nat) (a : regex)
| WordB
| Bol
| Eol.

(** The matcher's position: the characters already consumed, last first,
    the characters ahead, and the captures made so far. *)
Record mstate : Type := MState {
  behind : list ascii;
  ahead : list ascii;
  caps : list (nat * string)
}.

Definition word_at (l : list ascii) : bool :=
  match l with c :: _ => Str.is_word c | [] => false end.

(** [.] matches any character but a line terminator. *)
Definition not_newline (c : ascii) : bool :=
  negb ((Str.code c =? 10) || (Str.code c =? 13)).

Definition set_cap (n : nat) (s : string) (cs : list (nat * string)) : list (nat * string) :=
  (n, s) :: List.filter (fun p => negb (fst p =? n)) cs.

Definition get_cap (n : nat) (cs : list (nat * string)) : option string :=
  snd <$> find (fun p => fst p =? n) cs.

Fixpoint run (r : regex) (k : mstate -> option mstate) (st : mstate) : option mstate :=
  match r with
  | Eps => k st
  | Chr c =>
      match ahead st with
      | d :: l => if Ascii.eqb c d then k (MState (d :: behind st) l (caps st)) else None
      | [] => None
      end
  | Cls p =>
      match ahead st with
      | d :: l => if p d then k (MState (d :: behind st) l (caps st)) else None
      | [] => None
      end
  | Seq a b => run a (run b k) st
  | Alt a b =>
      match run a k st with
      | Some st' => Some st'
      | None => run b k st
      end
  | Star greedy a =>
      (fix loop (n : nat) (st : mstate) {struct n} : option mstate :=
         match n with
         | 0 => k st
         | S n' =>
             let more :=
               run a (fun st' =>
                        if length (ahead st') <? length (ahead st)
                        then loop n' st' else None) st in
             if greedy
             then match more with Some st' => Some st' | None => k st end
             else match k st with Some st' => Some st' | None => more end
         end) (S (length (ahead st))) st
  | Grp n a =>
      run a (fun st' =>
               let taken := length (behind st') - length (behind st) in
               k (MState (behind st') (ahead st')
                         (set_cap n (Str.of_chars (rev (take taken (behind st')))) (caps st'))))
          st
  | WordB => if xorb (word_at (behind st)) (word_at (ahead st)) then k st else None
  | Bol => match behind st with [] => k st | _ => None end
  | Eol => match ahead st with [] => k st | _ => None end
  end.

(** A match: the text before it, the matched text, the text after it, and
    the captures. *)
Record found : Type := Found {
  before : list ascii;
  matched : list ascii;
  after : list ascii;
  groups : list (nat * string)
}.

Definition match_here (r : regex) (bh ah : list ascii) : option found :=
  match run r Some (MState bh ah []) with
  | Some st =>
      let n := length (behind st) - length bh in
      Some (Found (rev bh) (rev (take n (behind st))) (ahead st) (caps st))
  | None => None
  end.

(** The leftmost match at or after the current position. *)
Fixpoint search (r : regex) (bh ah : list ascii) : option found :=
  match match_here r bh ah with
  | Some f => Some f
  | None =>
      match ah with
      | [] => None
      | c :: ah' => search r (c :: bh) ah'
      end
  end.

(** [s.match(re)] for a regular expression without the [g] flag. *)
Definition exec (r : regex) (s : string) : option found := search r [] (Str.chars s).
Definition test (r : regex) (s : string) : bool :=
  match exec r s with Some _ => true | None => false end.

Definition group (n : nat) (f : found) : option string := get_cap n (groups f).
(** A group that took part in the match, [""] standing for a group the
    source never reads when it did not. *)
Definition group_or_empty (n : nat) (f : found) : string :=
  match group n f with Some s => s | None => "" end.

(** The replacement pattern: [$1] .. [$9] stand for a group when the
    expression has that many groups, and for themselves otherwise. *)
Fixpoint expand (ngroups : nat) (tmpl : list ascii) (f : found) : list ascii :=
  match tmpl with
  | [] => []
  | c :: rest =>
      if Ascii.eqb c "$"
      then match rest with
           | d :: rest' =>
               let i := Str.code d - 48 in
               if Str.is_digit d && (1 <=? i) && (i <=? ngroups)
               then Str.chars (group_or_empty i f) ++ expand ngroups rest' f
               else c :: expand ngroups rest f
           | [] => [c]
           end
      else c :: expand ngroups rest f
  end.

(** [s.replace(re, tmpl)] for a regular expression with the [g] flag: every
    match, left to right, the search resuming after the previous match (one
    character further after an empty match). *)
Fixpoint replace_from (fuel : nat) (r : regex) (ngroups : nat) (tmpl : list ascii)
    (bh ah : list ascii) : list ascii :=
  match fuel with
  | 0 => ah
  | S fuel' =>
      match search r bh ah with
      | None => ah
      | Some f =>
          let skipped := drop (length bh) (before f) in
          let out := skipped ++ expand ngroups tmpl f in
          let bh' := rev (matched f) ++ rev (before f) in
          match matched f, after f with
          | [], [] => out
          | [], c :: ah' => out ++ c :: replace_from fuel' r ngroups tmpl (c :: bh') ah'
          | _ :: _, _ => out ++ replace_from fuel' r ngroups tmpl bh' (after f)
          end
      end
  end.

Definition replace_all (r : regex) (ngroups : nat) (tmpl : string) (s : string) : string :=
  let l := Str.chars s in
  Str.of_chars (replace_from (S (length l)) r ngroups (Str.chars tmpl) [] l).

(** Building blocks *)
Fixpoint lit_chars (l : list ascii) : regex :=
  match l with
  | [] => Eps
  | [c] => Chr c
  | c :: l' => Seq (Chr c) (lit_chars l')
  end.
Definition lit (s : string) : regex := lit_chars (Str.chars s).
Definition plus (greedy : bool) (a : regex) : regex := Seq a (Star greedy a).
Definition opt (a : regex) : regex := Alt a Eps.
Definition any : regex := Cls not_newline.
Definition w : regex := Cls Str.is_word.
Definition d : regex := Cls Str.is_digit.
Definition s : regex := Cls Str.is_space.
Fixpoint seqs (l : list regex) : regex :=
  match l with
  | [] => Eps
  | [r] => r
  | r :: l' => Seq r (seqs l')
  end.
Fixpoint alts (l : list regex) : regex :=
  match l with
  | [] => Eps
  | [r] => r
  | r :: l' => Alt r (alts l')
  end.

End Re.

(** ** Values, the heap and the trace *)

(** A location: the index of an object in the heap *)
Abbreviation loc := nat (only parsing).

(** A JavaScript value: a primitive, or a reference to a heap object. *)
Inductive value : Type :=
| VUndef
| VNull
| VBool (b : bool)
| VNum (z : Z)
| VNaN
| VStr (s : string)
| VRef (l : loc).

(** A logical line, as [parseCode] builds it from the source text. *)
Record line : Type := Line {
  content : string;
  originalIndex : nat;
  trimmed : string;
  indent : nat
}.

(** A heap object: an array, a plain object (a dictionary, or a snapshot of
    the variables), or the function object
    [{ name, params, body, closure, isFunction: true }] that a [def] header
    creates. *)
Inductive obj : Type :=
| OArr (elems : list value)
| OObj (fields : list (string * value))
| OFun (name : string) (params : list string) (body : list line) (closure : value).

Abbreviation heap := (list obj) (only parsing).

(** The variables: own properties of the [vars] object, in property order. *)
Abbreviation env := (list (string * value)) (only parsing).

Inductive action : Type :=
| assign | reassign | augmented_assign | list_operation | dict_operation
| print | function_definition | function_call
| for_loop_start | for_loop_iteration | for_loop_end
| if_statement | while_loop_start | execute | error
| control_structure_start | control_structure_end.

(** One step of the trace.  [s_fields] holds the action-specific properties
    of the step object, in the order of the source's object literal;
    [s_variables] is the [variables] property, a reference to the snapshot
    object; [s_output] is the [output] property, a fresh array of strings. *)
Record step : Type := Step {
  s_line : nat;
  s_action : action;
  s_fields : list (string * value);
  s_variables : value;
  s_output : list string
}.

Definition action_eqb (a b : action) : bool :=
  match a, b with
  | assign, assign | reassign, reassign | augmented_assign, augmented_assign
  | list_operation, list_operation | dict_operation, dict_operation
  | print, print | function_definition, function_definition
  | function_call, function_call | for_loop_start, for_loop_start
  | for_loop_iteration, for_loop_iteration | for_loop_end, for_loop_end
  | if_statement, if_statement | while_loop_start, while_loop_start
  | execute, execute | error, error
  | control_structure_start, control_structure_start
  | control_structure_end, control_structure_end => true
  | _, _ => false
  end.

Definition field (k : string) (s : step) : option value :=
  snd <$> find (fun p => String.eqb (fst p) k) (s_fields s).

(** ** Computations over the heap that may throw

    [Ok a h] is a normal return, [Err msg h] an exception whose [message]
    is [msg] (the heap keeps the updates made before the throw), [NoRet]
    a call that does not return or that lies outside what is modelled. *)

Inductive res (A : Type) : Type :=
| Ok (a : A) (h : heap)
| Err (msg : string) (h : heap)
| NoRet.
Arguments Ok {A} a h.
Arguments Err {A} msg h.
Arguments NoRet {A}.

Definition M (A : Type) : Type := heap -> res A.

Definition ret {A} (a : A) : M A := fun h => Ok a h.
Definition throw {A} (msg : string) : M A := fun h => Err msg h.
Definition noret {A} : M A := fun _ => NoRet.
Definition bind {A B} (m : M A) (k : A -> M B) : M B :=
  fun h => match m h with
           | Ok a h' => k a h'
           | Err msg h' => Err msg h'
           | NoRet => NoRet
           end.
(** [try { m } catch (err) { handler err.message }] *)
Definition try_catch {A} (m : M A) (handler : string -> M A) : M A :=
  fun h => match m h with
           | Ok a h' => Ok a h'
           | Err msg h' => handler msg h'
           | NoRet => NoRet
           end.

Notation "'do' x <- m ; k" := (bind m (fun x => k))
  (at level 10, x name, m at level 100, k at level 200).
Notation "'do' ' p <- m ; k" := (bind m (fun x => let 'p := x in k))
  (at level 10, p pattern, m at level 100, k at level 200).

Definition get_heap : M heap := fun h => Ok h h.
Definition alloc (o : obj) : M value := fun h => Ok (VRef (length h)) (h ++ [o]).
Definition store (l : loc) (o : obj) : M unit := fun h => Ok tt (<[l := o]> h).

Fixpoint mapM {A B} (f : A -> M B) (l : list A) : M (list B) :=
  match l with
  | [] => ret []
  | x :: l' => do y <- f x; do ys <- mapM f l'; ret (y :: ys)
  end.

(** ** Objects as property lists *)

(** An array index: the canonical decimal form of a number below 2^32 - 1.
    Such keys come first in property order, in ascending order. *)
Definition digits_value (l : list ascii) : N :=
  fold_left (fun acc c => (acc * 10 + N.of_nat (Str.code c - 48))%N) l 0%N.

Definition array_index (k : string) : option N :=
  match Str.chars k with
  | [] => None
  | c :: rest =>
      if forallb Str.is_digit (c :: rest)
         && (negb (Ascii.eqb c "0") || match rest with [] => true | _ => false end)
         && (length (c :: rest) <=? 10)
         && (digits_value (c :: rest) <? 4294967295)%N
      then Some (digits_value (c :: rest)) else None
  end.

Definition key_before (k k' : string) : bool :=
  match array_index k, array_index k' with
  | Some n, Some n' => (n <? n')%N
  | Some _, None => true
  | None, _ => false
  end.

Section Properties.
Context {A : Type}.

(** [o[k]], own properties only *)
Fixpoint obj_get (k : string) (o : list (string * A)) : option A :=
  match o with
  | [] => None
  | (k', v) :: o' => if String.eqb k k' then Some v else obj_get k o'
  end.

(** [o[k] = v] *)
Fixpoint obj_set (k : string) (v : A) (o : list (string * A)) : list (string * A) :=
  match o with
  | [] => [(k, v)]
  | (k', v') :: o' =>
      if String.eqb k k' then (k, v) :: o'
      else if key_before k k' then (k, v) :: (k', v') :: o'
      else (k', v') :: obj_set k v o'
  end.

(** [delete o[k]] *)
Definition obj_delete (k : string) (o : list (string * A)) : list (string * A) :=
  List.filter (fun p => negb (String.eqb (fst p) k)) o.

(** [{ ...a, ...b }] and [Object.assign(a, b)] *)
Definition obj_assign (a b : list (string * A)) : list (string * A) :=
  fold_left (fun acc p => obj_set (fst p) (snd p) acc) b a.

End Properties.

(** [o[k]] as an expression: [undefined] when there is no such property *)
Definition prop (k : string) (o : env) : value :=
  match obj_get k o with Some v => v | None => VUndef end.

(** ** Primitive operations on values *)

Definition typeof (v : value) : string :=
  match v with
  | VUndef => "undefined"
  | VNull => "object"
  | VBool _ => "boolean"
  | VNum _ | VNaN => "number"
  | VStr _ => "string"
  | VRef _ => "object"
  end.

(** [Boolean(v)] *)
Definition truthy (v : value) : bool :=
  match v with
  | VUndef | VNull | VNaN => false
  | VBool b => b
  | VNum z => negb (z =? 0)%Z
  | VStr s => negb (String.eqb s "")
  | VRef _ => true
  end.

(** [a === b] *)
Definition strict_eq (a b : value) : bool :=
  match a, b with
  | VUndef, VUndef | VNull, VNull => true
  | VBool x, VBool y => Bool.eqb x y
  | VNum x, VNum y => (x =? y)%Z
  | VStr x, VStr y => String.eqb x y
  | VRef x, VRef y => x =? y
  | _, _ => false
  end.

Definition is_array (v : value) (h : heap) : bool :=
  match v with
  | VRef l => match h !! l with Some (OArr _) => true | _ => false end
  | _ => false
  end.

(** [func && typeof func === 'object' && func.isFunction]: the object is
    one that a [def] header created (or a copy of one). *)
Definition is_function (v : value) (h : heap) : bool :=
  match v with
  | VRef l => match h !! l with Some (OFun _ _ _ _) => true | _ => false end
  | _ => false
  end.

(** ** The JavaScript engine

    What the source obtains from the engine rather than computes itself.
    [new_function bindings body] is
    [new Function(...Object.keys(all), body)(...Object.values(all))];
    a binding is a value or one of the source's helper functions. *)

Inductive binding : Type :=
| BVal (v : value)
| BNative (f : list value -> M value).

Record host : Type := Host {
  new_function : list (string * binding) -> string -> M value;
  json_parse : string -> M value;
  json_stringify : value -> M string;
  (** [String(v)] for an object [v] *)
  object_to_string : loc -> M string;
  (** [a op b] for the operators [+ - * / %] *)
  binop : string -> value -> value -> M value;
  (** [isNaN(s)], [parseFloat(s)] for a string and [parseInt(v)] *)
  is_nan : string -> M bool;
  parse_float : string -> M value;
  parse_int : value -> M value
}.

(** ** [JSON.parse(JSON.stringify(x))]

    The idiom by which the source copies the variables into a step and
    into a closure.  [JSON.stringify] walks the object graph from [x] in
    the heap [h0] as it is at the call (a property whose value is
    [undefined] is left out, [undefined] and [NaN] inside an array become
    [null], an object that contains itself makes it throw, with a message
    that starts with the one given here) and
    [JSON.parse] then builds the same structure out of new objects.  The
    depth a graph without a cycle can reach is bounded by the number of
    objects in the heap. *)

Fixpoint copy_elems (copy : value -> heap -> option (value * heap))
    (els : list value) (h : heap) : option (list value * heap) :=
  match els with
  | [] => Some ([], h)
  | e :: els' =>
      match copy e h with
      | Some (e', h1) =>
          match copy_elems copy els' h1 with
          | Some (r, h2) => Some (e' :: r, h2)
          | None => None
          end
      | None => None
      end
  end.

Fixpoint copy_fields (copy : value -> heap -> option (value * heap))
    (fs : list (string * value)) (h : heap) : option (list (string * value) * heap) :=
  match fs with
  | [] => Some ([], h)
  | (k, VUndef) :: fs' => copy_fields copy fs' h
  | (k, v) :: fs' =>
      match copy v h with
      | Some (v', h1) =>
          match copy_fields copy fs' h1 with
          | Some (r, h2) => Some ((k, v') :: r, h2)
          | None => None
          end
      | None => None
      end
  end.

Fixpoint copy_value (depth : nat) (h0 : heap) (v : value) (h : heap) : option (value * heap) :=
  match depth with
  | 0 => None
  | S depth' =>
      match v with
      | VUndef | VNaN => Some (VNull, h)
      | VNull | VBool _ | VNum _ | VStr _ => Some (v, h)
      | VRef l =>
          match h0 !! l with
          | Some (OArr els) =>
              match copy_elems (copy_value depth' h0) els h with
              | Some (els', h1) => Some (VRef (length h1), h1 ++ [OArr els'])
              | None => None
              end
          | Some (OObj fs) =>
              match copy_fields (copy_value depth' h0) fs h with
              | Some (fs', h1) => Some (VRef (length h1), h1 ++ [OObj fs'])
              | None => None
              end
          | Some (OFun name params body closure) =>
              match copy_value depth' h0 closure h with
              | Some (closure', h1) =>
                  Some (VRef (length h1), h1 ++ [OFun name params body closure'])
              | None => None
              end
          | None => None
          end
      end
  end.

Definition json_copy (vars : env) : M value :=
  fun h =>
    match copy_fields (copy_value (S (length h)) h) vars h with
    | Some (fs, h1) => Ok (VRef (length h1)) (h1 ++ [OObj fs])
    | None => Err "Converting circular structure to JSON" h
    end.

(** [[...list]], [{ ...dict }] *)
Definition copy_array (els : list value) : M value := alloc (OArr els).

(** ** [helperFunctions] *)

Section Helpers.
Variable H : host.

(** [String(v)] *)
Definition js_String (v : value) : M string :=
  match v with
  | VUndef => ret "undefined"
  | VNull => ret "null"
  | VBool true => ret "true"
  | VBool false => ret "false"
  | VNum z => ret (Str.of_Z z)
  | VNaN => ret "NaN"
  | VStr s => ret s
  | VRef l => object_to_string H l
  end.

(** [__repr]; [depth] bounds the recursion through nested arrays, which
    only a list that contains itself exhausts. *)
Fixpoint repr (depth : nat) (v : value) : M string :=
  match v with
  | VNull => ret "None"
  | VBool true => ret "True"
  | VBool false => ret "False"
  | VStr s => ret ("'" +:+ s +:+ "'")
  | VNum z => ret (Str.of_Z z)
  | VNaN => ret "NaN"
  | VUndef => ret "undefined"
  | VRef l =>
      do h <- get_heap;
      match h !! l with
      | Some (OArr els) =>
          match depth with
          | 0 => throw "Maximum call stack size exceeded"
          | S depth' =>
              do parts <- mapM (repr depth') els;
              ret ("[" +:+ Str.join ", " parts +:+ "]")
          end
      | Some _ => json_stringify H v
      | None => noret
      end
  end.

Definition __repr (v : value) : M string :=
  do h <- get_heap; repr (length h) v.

(** The rendering of one argument by [__print] and by the [print]
    statement: [`[${arg.map(item => __repr(item)).join(', ')}]`]. *)
Definition repr_items (els : list value) : M string :=
  do parts <- mapM __repr els;
  ret ("[" +:+ Str.join ", " parts +:+ "]").

Definition print_arg (arg : value) : M string :=
  match arg with
  | VNull => ret "None"
  | VRef l =>
      do h <- get_heap;
      match h !! l with
      | Some (OArr els) => repr_items els
      | Some _ => json_stringify H arg
      | None => noret
      end
  | _ => js_String arg
  end.

Definition __print (args : list value) : M value :=
  do parts <- mapM print_arg args;
  ret (VStr (Str.join " " parts)).

Definition range_from (start : Z) (n : nat) : list value :=
  map (fun i => VNum (start + Z.of_nat i)) (seq 0 n).

(** [Array.from({length: n}, (_, i) => i + start)] *)
Definition array_from (n start : Z) : M value :=
  if (4294967295 <? n)%Z then throw "Invalid array length"
  else alloc (OArr (range_from start (Z.to_nat n))).

(** [for (let i = start; step > 0 ? i < stop : i > stop; i += step)] *)
Fixpoint range_loop (n : nat) (i stop step : Z) : list value :=
  match n with
  | 0 => []
  | S n' =>
      if (if (0 <? step)%Z then (i <? stop)%Z else (stop <? i)%Z)
      then VNum i :: range_loop n' (i + step) stop step
      else []
  end.

(** [__range].  Arguments that are not numbers are not modelled; with a
    step of 0 and [start > stop] the loop of the source does not end.  The
    numbers are integers, so that the loop follows the source as long as
    the numbers it adds up stay within [2^53] in magnitude and the array
    within the greatest length of an array. *)
Definition __range (args : list value) : M value :=
  match args with
  | [VNum n] => array_from n 0
  | [VNum a; VNum b] => array_from (b - a) a
  | [VNum start; VNum stop; VNum step] =>
      if (step =? 0)%Z && (stop <? start)%Z then noret
      else alloc (OArr (range_loop (S (Z.to_nat (Z.abs (stop - start)))) start stop step))
  | [_] | [_; _] | [_; _; _] => noret
  | _ => alloc (OArr [])
  end.

Definition __len (args : list value) : M value :=
  let o := match args with a :: _ => a | [] => VUndef end in
  match o with
  | VStr s => ret (VNum (Z.of_nat (Str.len s)))
  | VRef l =>
      do h <- get_heap;
      match h !! l with
      | Some (OArr els) => ret (VNum (Z.of_nat (length els)))
      | Some (OObj fs) => ret (VNum (Z.of_nat (length fs)))
      | Some (OFun _ _ _ _) => ret (VNum 5)
      | None => noret
      end
  | _ => throw ("object of type '" +:+ typeof o +:+ "' has no len()")
  end.

Definition helperFunctions : list (string * binding) :=
  [ ("__print", BNative __print);
    ("__repr", BNative (fun args =>
        do s <- __repr (match args with a :: _ => a | [] => VUndef end); ret (VStr s)));
    ("__range", BNative __range);
    ("__len", BNative __len) ].

(** [{ ...variables, ...helperFunctions }] *)
Definition allVariables (variables : env) : list (string * binding) :=
  obj_assign (map (fun p => (fst p, BVal (snd p))) variables) helperFunctions.

End Helpers.

(** ** Pieces the two implementations share *)

(** The result of [processLine]: [{ steps, variables, output }]. *)
Record result : Type := Result {
  r_steps : list step;
  r_variables : env;
  r_output : list string
}.

(** The step a statement is about to push: everything of the object
    literal but its [variables] property, with the variables and the
    output as the statement leaves them.  [p_rethrow] is what an enclosing
    [try] of the statement makes of a failure while the step is built. *)
Record pending : Type := Pending {
  p_action : action;
  p_fields : list (string * value);
  p_vars : env;
  p_out : list string;
  p_rethrow : string -> string
}.

(** The loop by which the source splits the arguments of a call at the
    commas that are outside quotes and brackets. *)
Fixpoint split_args_loop (l : list ascii) (current : list ascii) (depth : Z)
    (inString : option ascii) (argParts : list string) : list string * list ascii :=
  match l with
  | [] => (argParts, current)
  | char :: l' =>
      match inString with
      | None =>
          if Ascii.eqb char Str.dquote || Ascii.eqb char "'"
          then split_args_loop l' (char :: current) depth (Some char) argParts
          else if Ascii.eqb char "(" || Ascii.eqb char "[" || Ascii.eqb char "{"
          then split_args_loop l' (char :: current) (depth + 1) None argParts
          else if Ascii.eqb char ")" || Ascii.eqb char "]" || Ascii.eqb char "}"
          then split_args_loop l' (char :: current) (depth - 1) None argParts
          else if Ascii.eqb char "," && (depth =? 0)%Z
          then split_args_loop l' [] depth None
                 (argParts ++ [Str.trim (Str.of_chars (rev current))])
          else split_args_loop l' (char :: current) depth None argParts
      | Some stringChar =>
          if Ascii.eqb char stringChar
          then split_args_loop l' (char :: current) depth None argParts
          else split_args_loop l' (char :: current) depth inString argParts
      end
  end.

Definition split_args (argsStr : string) : list string :=
  if String.eqb (Str.trim argsStr) "" then []
  else
    let '(argParts, current) := split_args_loop (Str.chars argsStr) [] 0%Z None [] in
    let last := Str.trim (Str.of_chars (rev current)) in
    if String.eqb last "" then argParts else argParts ++ [last].

(** [params.split(',').map(p => p.trim()).filter(p => p)] *)
Definition split_params (params : string) : list string :=
  List.filter (fun p => negb (String.eqb p "")) (map Str.trim (Str.split "," params)).

(** [codeString.split('\n').map((line, i) => ({ content, originalIndex,
    trimmed, indent }))] *)
Definition make_line (i : nat) (text : string) : line :=
  Line text i (Str.trim text) (Str.len text - Str.len (Str.trimStart text)).

Definition make_lines (codeString : string) : list line :=
  imap make_line (Str.split (ascii_of_nat 10) codeString).

(** The lines after a header that are blank or indented deeper than it:
    [while (j < lines.length && (lines[j].trimmed === '' || lines[j].indent > indent))].
    The result is the body (blank lines left out) and the number of lines
    passed over. *)
Fixpoint block_after (rest : list line) (indent0 : nat) : list line * nat :=
  match rest with
  | [] => ([], 0)
  | l :: rest' =>
      if String.eqb (trimmed l) "" || (indent0 <? indent l)
      then let '(body, n) := block_after rest' indent0 in
           (if String.eqb (trimmed l) "" then body else l :: body, S n)
      else ([], 0)
  end.

(** [list.splice(index, count)]'s start position for a relative index. *)
Definition splice_start (index : value) (len : nat) : nat :=
  match index with
  | VNum z => if (z <? 0)%Z then Z.to_nat (Z.max 0 (Z.of_nat len + z))
              else Nat.min (Z.to_nat z) len
  | _ => 0
  end.

(** [list.indexOf(value)] *)
Fixpoint indexOf (v : value) (els : list value) : option nat :=
  match els with
  | [] => None
  | e :: els' => if strict_eq e v then Some 0 else option_map S (indexOf v els')
  end.

Definition read_array (v : value) : M (list value) :=
  fun h => match v with
           | VRef l => match h !! l with
                       | Some (OArr els) => Ok els h
                       | _ => NoRet
                       end
           | _ => NoRet
           end.

Definition write_array (v : value) (els : list value) : M unit :=
  match v with
  | VRef l => store l (OArr els)
  | _ => noret
  end.

(** The characters of a string, as the one-character strings an iteration
    over it yields. *)
Definition string_items (s : string) : list value :=
  map (fun c => VStr (String c EmptyString)) (Str.chars s).

(** [iterableValue.length] and [iterableValue[i]] for an array or a string *)
Definition iter_length (v : value) : M nat :=
  match v with
  | VStr s => ret (Str.len s)
  | _ => do els <- read_array v; ret (length els)
  end.

Definition iter_item (v : value) (i : nat) : M value :=
  match v with
  | VStr s => ret (default VUndef (string_items s !! i))
  | _ => do els <- read_array v; ret (default VUndef (els !! i))
  end.

Definition is_iterable (v : value) (h : heap) : bool :=
  is_array v h || match v with VStr _ => true | _ => false end.

Definition quote_strip (arg : string) : option string :=
  if (Str.startsWith arg Str.dq && Str.endsWith arg Str.dq)
     || (Str.startsWith arg "'" && Str.endsWith arg "'")
  then Some (Str.slice_between 1 1 arg) else None.

(** The test of a loop over an iterable, [i < iterableValue.length]: the
    loop goes on with the length it has just read, or is done. *)
Definition loop_test {A} (iterableValue : value) (i : nat) (turn : nat -> M A)
    (done : M A) : M A :=
  do len <- iter_length iterableValue;
  if len <=? i then done else turn len.

(** The [catch] of [processLine]: one [error] step with the variables and
    the output as they are when the failure is caught. *)
Definition error_result (originalIndex : nat) (msg : string) (vars : env)
    (out : list string) : M result :=
  do snap <- json_copy vars;
  ret (Result [Step originalIndex error [("error", VStr msg)] snap out] vars out).

(** The [try] of [processLine] around a statement: the statement pushes
    its step, or fails and the [catch] pushes an [error] step instead.  A
    statement assigns to [vars] and appends to [out] only just before it
    builds its step, so a failure before that finds them as they were on
    entry. *)
Definition guarded (originalIndex : nat) (vars : env) (out : list string)
    (statement : M (option pending)) : M result :=
  fun h =>
    match statement h with
    | Ok None h1 => Ok (Result [] vars out) h1
    | Ok (Some p) h1 =>
        match json_copy (p_vars p) h1 with
        | Ok snap h2 =>
            Ok (Result [Step originalIndex (p_action p) (p_fields p) snap (p_out p)]
                       (p_vars p) (p_out p)) h2
        | Err msg h2 => error_result originalIndex (p_rethrow p msg) (p_vars p) (p_out p) h2
        | NoRet => NoRet
        end
    | Err msg h1 => error_result originalIndex msg vars out h1
    | NoRet => NoRet
    end.

Definition plain (a : action) (fields : list (string * value)) (vars : env)
    (out : list string) : option pending :=
  Some (Pending a fields vars out (fun msg => msg)).

(** ** The regular expressions of the source *)

Module Rx.

Import Re.

(** The regular expressions of [safeEval].  Where the source has a star
    next to a parenthesis, the comments below put a space between them. *)
Definition re_word (word : string) : regex := seqs [WordB; lit word; WordB].
Definition re_call (name : string) : regex := seqs [WordB; lit name; Chr "("].
(** [/\bnot\s+/] *)
Definition re_not : regex := seqs [WordB; lit "not"; plus true s].
(** [/(\d+|\w+)\s*\*\*\s*(\d+|\w+)/] *)
Definition re_power : regex :=
  seqs [Grp 1 (Alt (plus true d) (plus true w)); Star true s; lit "**"; Star true s;
        Grp 2 (Alt (plus true d) (plus true w))].
(** [/'([^']* )'/] *)
Definition re_single_quoted : regex :=
  seqs [Chr "'"; Grp 1 (Star true (Cls (fun c => negb (Ascii.eqb c "'")))); Chr "'"].

(** The regular expressions of [processLine] and [parseCode] *)
(** [/\[(.*?)\s+for\s+(\w+)\s+in\s+(.*?)(?:\s+if\s+(.*?))?\]/] *)
Definition re_list_comp : regex :=
  seqs [Chr "["; Grp 1 (Star false any); plus true s; lit "for"; plus true s;
        Grp 2 (plus true w); plus true s; lit "in"; plus true s; Grp 3 (Star false any);
        opt (seqs [plus true s; lit "if"; plus true s; Grp 4 (Star false any)]);
        Chr "]"].
(** [/\[.*?\s+for\s+\w+\s+in\s+.*?\]/] *)
Definition re_list_comp_test : regex :=
  seqs [Chr "["; Star false any; plus true s; lit "for"; plus true s;
        plus true w; plus true s; lit "in"; plus true s; Star false any; Chr "]"].
(** [/(\w+)\((.* )\)/], which also stands for [/\w+\(.*\)/] *)
Definition re_call_expr : regex :=
  seqs [Grp 1 (plus true w); Chr "("; Grp 2 (Star true any); Chr ")"].
(** [/^(\w+)\((.* )\)$/], which also stands for [/^\w+\(.*\)$/] *)
Definition re_call_stmt : regex :=
  seqs [Bol; Grp 1 (plus true w); Chr "("; Grp 2 (Star true any); Chr ")"; Eol].
(** [/(\w+):/] *)
Definition re_key : regex := seqs [Grp 1 (plus true w); Chr ":"].
Definition is_operator (c : ascii) : bool :=
  Ascii.eqb c "+" || Ascii.eqb c "-" || Ascii.eqb c "*" || Ascii.eqb c "/" || Ascii.eqb c "%".
(** [/[\w]+\s*[\+\-\*\/%]=\s*.+/] *)
Definition re_augmented_test : regex :=
  seqs [plus true w; Star true s; Cls is_operator; Chr "="; Star true s; plus true any].
(** [/(\w+)\s*([\+\-\*\/%])=(.+)/] *)
Definition re_augmented : regex :=
  seqs [Grp 1 (plus true w); Star true s; Grp 2 (Cls is_operator); Chr "=";
        Grp 3 (plus true any)].
(** [/\w+\.(append|extend|remove|pop|insert|index|count)\(/] *)
Definition re_list_op_test : regex :=
  seqs [plus true w; Chr ".";
        Grp 1 (alts [lit "append"; lit "extend"; lit "remove"; lit "pop"; lit "insert";
                     lit "index"; lit "count"]);
        Chr "("].
(** [/(\w+)\.(\w+)\((.* )\)/] *)
Definition re_method_call : regex :=
  seqs [Grp 1 (plus true w); Chr "."; Grp 2 (plus true w); Chr "(";
        Grp 3 (Star true any); Chr ")"].
(** [/print\((.* )\)/] *)
Definition re_print : regex := seqs [lit "print("; Grp 1 (Star true any); Chr ")"].
(** [/def\s+(\w+)\((.*?)\):/] *)
Definition re_def : regex :=
  seqs [lit "def"; plus true s; Grp 1 (plus true w); Chr "("; Grp 2 (Star false any);
        lit "):"].
(** [/for\s+(\w+)\s+in\s+(.*?):/] *)
Definition re_for : regex :=
  seqs [lit "for"; plus true s; Grp 1 (plus true w); plus true s; lit "in"; plus true s;
        Grp 2 (Star false any); Chr ":"].

End Rx.

(** ** The statements that the two implementations treat alike

    [safeEval] differs between the two; the statements below are the same
    text in both but for the [safeEval] they call. *)

Module Shared.

Import Re Rx.

Definition single_to_double (text : string) : string :=
  replace_all (Chr "'") 0 Str.dq text.

Section Statements.
Variable H : host.
Variable safeEval : string -> env -> M value.

(** [safeEval(undefined, vars)]: [expression.replace] fails inside the
    [try]. *)
Definition safeEval_undefined : M value :=
  throw ("Error evaluating: undefined - "
         +:+ "Cannot read properties of undefined (reading 'replace')").

Definition augmented_assignment (trimmed : string) (vars : env) (out : list string)
    : M (option pending) :=
  match exec re_augmented trimmed with
  | None => ret None
  | Some m =>
      let varName := group_or_empty 1 m in
      let operator := group_or_empty 2 m in
      let rightExpr := group_or_empty 3 m in
      let oldValue := prop varName vars in
      do rightValue <- try_catch (safeEval (Str.trim rightExpr) vars)
                         (fun _ => ret (VStr (Str.trim rightExpr)));
      do newValue <-
        (if String.eqb operator "+"
            && (String.eqb (typeof oldValue) "string"
                || String.eqb (typeof rightValue) "string")
         then do a <- js_String H oldValue; do b <- js_String H rightValue;
              ret (VStr (a +:+ b))
         else binop H operator oldValue rightValue);
      let vars := obj_set varName newValue vars in
      ret (plain augmented_assign
             [("variable", VStr varName); ("operator", VStr operator);
              ("value", newValue); ("oldValue", oldValue); ("rightValue", rightValue)]
             vars out)
  end.

(** The operations on a list; the result is [operationResult] and
    [resultValue]. *)
Definition list_method (operation listName args : string) (list : value) (vars : env)
    : M (string * value) :=
  if String.eqb operation "append" then
    do value <- safeEval args vars;
    do els <- read_array list;
    do _ <- write_array list (els ++ [value]);
    do r <- __repr H value;
    ret ("Appended " +:+ r +:+ " to " +:+ listName, VNull)
  else if String.eqb operation "extend" then
    do iterable <- safeEval args vars;
    do h <- get_heap;
    if is_array iterable h then
      do more <- read_array iterable;
      do els <- read_array list;
      do _ <- write_array list (els ++ more);
      do r <- __repr H iterable;
      ret ("Extended " +:+ listName +:+ " with " +:+ r, VNull)
    else throw ("'" +:+ typeof iterable +:+ "' object is not iterable")
  else if String.eqb operation "remove" then
    do value <- safeEval args vars;
    do els <- read_array list;
    match indexOf value els with
    | Some index =>
        do _ <- write_array list (take index els ++ drop (S index) els);
        do r <- __repr H value;
        ret ("Removed first occurrence of " +:+ r +:+ " from " +:+ listName, VNull)
    | None =>
        do r <- __repr H value;
        throw ("Value " +:+ r +:+ " not found in list")
    end
  else if String.eqb operation "pop" then
    if String.eqb (Str.trim args) "" then
      do els <- read_array list;
      let resultValue := default VUndef (last els) in
      do _ <- write_array list (take (length els - 1) els);
      do r <- __repr H resultValue;
      ret ("Popped last element (" +:+ r +:+ ") from " +:+ listName, resultValue)
    else
      do v <- safeEval args vars;
      do index <- parse_int H v;
      do els <- read_array list;
      let start := splice_start index (length els) in
      let resultValue := default VUndef (els !! start) in
      do _ <- write_array list (take start els ++ drop (S start) els);
      do i <- js_String H index;
      do r <- __repr H resultValue;
      ret ("Popped element at index " +:+ i +:+ " (" +:+ r +:+ ") from " +:+ listName,
           resultValue)
  else if String.eqb operation "insert" then
    let parts := map Str.trim (Str.split "," args) in
    do v <- safeEval (hd "" parts) vars;
    do index <- parse_int H v;
    do value <- match tl parts with
                | valueStr :: _ => safeEval valueStr vars
                | [] => safeEval_undefined
                end;
    do els <- read_array list;
    let start := splice_start index (length els) in
    do _ <- write_array list (take start els ++ value :: drop start els);
    do i <- js_String H index;
    do r <- __repr H value;
    ret ("Inserted " +:+ r +:+ " at index " +:+ i +:+ " in " +:+ listName, VNull)
  else ret ("", VNull).

Definition list_operation_statement (trimmed : string) (vars : env) (out : list string)
    : M (option pending) :=
  match exec re_method_call trimmed with
  | None => ret None
  | Some m =>
      let listName := group_or_empty 1 m in
      let operation := group_or_empty 2 m in
      let args := group_or_empty 3 m in
      let list := prop listName vars in
      do h <- get_heap;
      if negb (is_array list h)
      then throw ("'" +:+ typeof list +:+ "' object has no attribute '" +:+ operation +:+ "'")
      else
        do els <- read_array list;
        do oldList <- copy_array els;
        do '(operationResult, resultValue) <- list_method operation listName args list vars;
        let vars := obj_set listName list vars in
        ret (plain list_operation
               [("list", VStr listName); ("operation", VStr operation); ("value", list);
                ("oldValue", oldList); ("operationResult", VStr operationResult);
                ("resultValue", resultValue)]
               vars out)
  end.

(** The iterable of a [for] header: an expression that fails to evaluate
    counts as the empty list. *)
Definition for_iterable (iterableExpr : string) (vars : env) : M value :=
  do iterableValue <- try_catch (safeEval iterableExpr vars) (fun _ => alloc (OArr []));
  do h <- get_heap;
  if negb (is_iterable iterableValue h)
  then throw ("'" +:+ typeof iterableValue +:+ "' object is not iterable")
  else ret iterableValue.

Definition for_statement (trimmed : string) (vars : env) (out : list string)
    : M (option pending) :=
  match exec re_for trimmed with
  | None => ret None
  | Some forMatch =>
      let iterVar := group_or_empty 1 forMatch in
      let iterableExpr := group_or_empty 2 forMatch in
      do iterableValue <- for_iterable iterableExpr vars;
      ret (plain for_loop_start
             [("iterVar", VStr iterVar); ("iterable", iterableValue)] vars out)
  end.

(** The guard of an [if] or [while] header, which starts [skip] characters
    into the line: [trimmed.slice(skip, -1).trim()]. *)
Definition guard_statement (a : action) (skip : nat) (trimmed : string) (vars : env)
    (out : list string) : M (option pending) :=
  let condition := Str.trim (Str.slice_between skip 1 trimmed) in
  do conditionResult <- try_catch (safeEval condition vars) (fun _ => ret (VBool false));
  ret (plain a
         [("condition", VStr condition); ("conditionResult", VBool (truthy conditionResult))]
         vars out).

End Statements.

End Shared.

(** * The first implementation *)

Module First.

Import Re Rx.

(** The rewriting of a Python expression into the JavaScript text
    [safeEval] hands to [new Function]. *)
Definition jsExpression (expression : string) : string :=
  let e := replace_all (re_word "True") 0 "true" expression in
  let e := replace_all (re_word "False") 0 "false" e in
  let e := replace_all (re_word "None") 0 "null" e in
  let e := replace_all (re_call "print") 0 "__print(" e in
  let e := replace_all (re_call "range") 0 "__range(" e in
  let e := replace_all (re_call "len") 0 "__len(" e in
  let e := replace_all re_not 0 "!" e in
  let e := replace_all (re_word "and") 0 "&&" e in
  let e := replace_all (re_word "or") 0 "||" e in
  let e := replace_all (lit "//") 0 "Math.floor" e in
  let e := replace_all (lit "**") 0 "**" e in
  let e := replace_all re_power 2 "Math.pow($1, $2)" e in
  replace_all re_single_quoted 1 (Str.dq +:+ "$1" +:+ Str.dq) e.

(** [['==', '!=', '<=', '>=', '+=', '-=', '*=', '/=', '%=']] *)
Definition compound_operators : list string :=
  ["=="; "!="; "<="; ">="; "+="; "-="; "*="; "/="; "%="].

Definition is_plain_assignment (trimmed : string) : bool :=
  Str.includes trimmed "="
  && negb (existsb (fun op => Str.includes trimmed op) compound_operators).

(** The kind of statement a line is taken for: the tests of
    [processLine]'s chain of [if ... else if], first match first. *)
Inductive kind : Type :=
| KAssign | KAugmented | KListOp | KPrint | KDef | KCall | KFor | KIf | KWhile
| KExecute | KNone.

Definition classify (trimmed : string) : kind :=
  if is_plain_assignment trimmed then KAssign
  else if test re_augmented_test trimmed then KAugmented
  else if test re_list_op_test trimmed then KListOp
  else if Str.startsWith trimmed "print(" then KPrint
  else if Str.startsWith trimmed "def " then KDef
  else if test re_call_stmt trimmed && negb (Str.startsWith trimmed "print(") then KCall
  else if Str.startsWith trimmed "for " then KFor
  else if Str.startsWith trimmed "if " then KIf
  else if Str.startsWith trimmed "while " then KWhile
  else if (0 <? Str.len trimmed) && negb (Str.endsWith trimmed ":") then KExecute
  else KNone.

Section Impl.
Variable H : host.
(** A bound on the number of turns of one loop over an iterable; the
    loops of the source have none. *)
Variable fuel : nat.

Definition safeEval (expression : string) (variables : env) : M value :=
  try_catch
    (new_function H (allVariables H variables)
       ("return " +:+ jsExpression expression +:+ ";"))
    (fun msg => throw ("Error evaluating: " +:+ expression +:+ " - " +:+ msg)).

(** The statements shared with the second implementation *)
Definition single_to_double := Shared.single_to_double.
Definition augmented_assignment := Shared.augmented_assignment H safeEval.
Definition list_operation_statement := Shared.list_operation_statement H safeEval.
Definition for_iterable := Shared.for_iterable safeEval.
Definition for_statement := Shared.for_statement safeEval.
Definition guard_statement := Shared.guard_statement safeEval.

Fixpoint count_brackets (l : list ascii) (braceCount bracketCount : Z) : Z * Z :=
  match l with
  | [] => (braceCount, bracketCount)
  | char :: l' =>
      let braceCount := if Ascii.eqb char "{" then (braceCount + 1)%Z
                        else if Ascii.eqb char "}" then (braceCount - 1)%Z
                        else braceCount in
      let bracketCount := if Ascii.eqb char "[" then (bracketCount + 1)%Z
                          else if Ascii.eqb char "]" then (bracketCount - 1)%Z
                          else bracketCount in
      count_brackets l' braceCount bracketCount
  end.

Fixpoint multi_line_loop (rest : list line) (structure : string)
    (braceCount bracketCount : Z) : string :=
  match rest with
  | [] => structure
  | l :: rest' =>
      let structure := structure +:+ trimmed l in
      let '(braceCount, bracketCount) :=
        count_brackets (Str.chars (trimmed l)) braceCount bracketCount in
      if (braceCount =? 0)%Z && (bracketCount =? 0)%Z then structure
      else match rest' with
           | [] => structure
           | _ => multi_line_loop rest' (structure +:+ " ") braceCount bracketCount
           end
  end.

(** The [structure] that [parseMultiLineStructure(lines, startIndex)]
    returns. *)
Definition parseMultiLineStructure (lines : list line) (startIndex : nat) : string :=
  multi_line_loop (drop startIndex lines) "" 0%Z 0%Z.

(** The loop of [parseListComprehension] over the iterable, which is read
    again at each turn. *)
Fixpoint comprehension_turns (n : nat) (i : nat) (iterableValue : value)
    (variables : env) (iterVar expr : string) (condition : option string)
    (acc : list value) : M (list value) :=
  match n with
  | 0 => noret
  | S n' =>
      do item <- iter_item iterableValue i;
      let tempVars := obj_set iterVar item variables in
      do keep <- match condition with
                 | Some c =>
                     if String.eqb c "" then ret true
                     else do r <- safeEval c tempVars; ret (truthy r)
                 | None => ret true
                 end;
      do acc <- (if keep then do v <- safeEval expr tempVars; ret (acc ++ [v])
                 else ret acc);
      loop_test iterableValue (S i)
        (fun _ => comprehension_turns n' (S i) iterableValue variables iterVar expr
                    condition acc)
        (ret acc)
  end.

Definition comprehension_loop (iterableValue : value) (variables : env)
    (iterVar expr : string) (condition : option string) : M (list value) :=
  loop_test iterableValue 0
    (fun _ => comprehension_turns fuel 0 iterableValue variables iterVar expr condition [])
    (ret []).

Definition parseListComprehension (expression : string) (variables : env) : M value :=
  match exec re_list_comp expression with
  | None => ret VNull
  | Some m =>
      let expr := group_or_empty 1 m in
      let iterVar := group_or_empty 2 m in
      let iterableExpr := group_or_empty 3 m in
      let condition := group 4 m in
      try_catch
        (do iterableValue <- safeEval iterableExpr variables;
         do h <- get_heap;
         if negb (is_iterable iterableValue h)
         then throw ("'" +:+ typeof iterableValue +:+ "' object is not iterable")
         else
           do items <- comprehension_loop iterableValue variables iterVar expr condition;
           alloc (OArr items))
        (fun msg => throw ("List comprehension error: " +:+ msg))
  end.

(** [functionScope[func.params[i]] = args[i]] for the [i] below both
    lengths *)
Fixpoint bind_params (params : list string) (args : list value) (scope : env) : env :=
  match params, args with
  | p :: params', a :: args' => bind_params params' args' (obj_set p a scope)
  | _, _ => scope
  end.

(** [{ ...func.closure }] *)
Definition spread_object (v : value) : M env :=
  fun h => match v with
           | VRef l => match h !! l with
                       | Some (OObj fs) => Ok fs h
                       | _ => NoRet
                       end
           | _ => Ok [] h
           end.

(** The loop of [handleFunctionCall] over [func.body].  A line that is not
    a [return] is handed to [processLine] together with [lines], a name
    that nothing binds where [handleFunctionCall] is defined ([lines] is a
    parameter of [processLine] and a local of [parseCode]): evaluating the
    arguments of that call raises a ReferenceError, which the [catch] of
    the loop rethrows, so the loop never reaches a second line. *)
Definition function_body (funcName : string) (body : list line) (functionScope : env)
    : M value :=
  match body with
  | [] => ret VNull
  | bodyLine :: _ =>
      try_catch
        (if Str.startsWith (trimmed bodyLine) "return "
         then safeEval (Str.trim (Str.slice_from 7 (trimmed bodyLine))) functionScope
         else throw "lines is not defined")
        (fun msg => throw ("Error in function '" +:+ funcName +:+ "': " +:+ msg))
  end.

(** [handleFunctionCall(funcName, args, variables, output)]: the value
    returned, and [output] after [output.push(...functionOutput)]. *)
Definition handleFunctionCall (funcName : string) (args : list value) (variables : env)
    (output : list string) : M (value * list string) :=
  do h <- get_heap;
  match prop funcName variables with
  | VRef l =>
      match h !! l with
      | Some (OFun _ params body closure) =>
          do scope <- spread_object closure;
          let functionScope := bind_params params args scope in
          let functionOutput : list string := [] in
          do returnValue <- function_body funcName body functionScope;
          ret (returnValue, output ++ functionOutput)
      | _ => throw ("'" +:+ funcName +:+ "' is not defined or not a function")
      end
  | _ => throw ("'" +:+ funcName +:+ "' is not defined or not a function")
  end.

(** *** [processLine] *)

(** The right-hand side of an assignment, in the order the source tries
    its forms; with the value comes [out], to which a call of a defined
    function appends. *)
Definition assigned_value (expression : string) (vars : env) (out : list string)
    (lines : list line) (originalIndex : nat) : M (value * list string) :=
  let keep_out (m : M value) : M (value * list string) := do v <- m; ret (v, out) in
  if test re_list_comp_test expression then
    keep_out (try_catch (parseListComprehension expression vars)
                (fun msg => throw ("List comprehension error: " +:+ msg)))
  else
    match exec re_call_expr expression with
    | Some funcMatch =>
        let funcName := group_or_empty 1 funcMatch in
        let argsStr := group_or_empty 2 funcMatch in
        do h <- get_heap;
        if is_function (prop funcName vars) h then
          do args <- mapM (fun arg => safeEval arg vars) (split_args argsStr);
          try_catch (handleFunctionCall funcName args vars out)
            (fun msg => throw ("Function call error: " +:+ msg))
        else
          keep_out (try_catch (safeEval expression vars) (fun _ => ret (VStr expression)))
    | None =>
        if (Str.startsWith expression "{" || Str.startsWith expression "[")
           && (negb (Str.endsWith expression "}") && negb (Str.endsWith expression "]"))
        then
          let structure := parseMultiLineStructure lines originalIndex in
          let first := match Str.chars expression with c :: _ => c | [] => " "%char end in
          let fullExpression :=
            match Str.index_of first (Str.chars structure) with
            | Some n => Str.slice_from n structure
            | None => Str.slice_from (Str.len structure - 1) structure
            end in
          keep_out
            (try_catch
               (if Str.startsWith fullExpression "{"
                then json_parse H (replace_all re_key 1 (Str.dq +:+ "$1" +:+ Str.dq +:+ ":")
                                     (single_to_double fullExpression))
                else if Str.startsWith fullExpression "["
                then json_parse H (single_to_double fullExpression)
                else ret VUndef)
               (fun _ => ret (VStr fullExpression)))
        else if Str.startsWith expression "[" && Str.endsWith expression "]" then
          keep_out
            (try_catch (json_parse H (single_to_double expression))
               (fun _ => try_catch (safeEval expression vars)
                           (fun _ => ret (VStr expression))))
        else if Str.startsWith expression "{" && Str.endsWith expression "}" then
          let jsonStr :=
            replace_all (lit "None") 0 "null"
              (replace_all (lit "False") 0 "false"
                 (replace_all (lit "True") 0 "true"
                    (replace_all re_key 1 (Str.dq +:+ "$1" +:+ Str.dq +:+ ":") (single_to_double expression)))) in
          keep_out
            (try_catch (json_parse H jsonStr)
               (fun _ => try_catch (safeEval expression vars)
                           (fun _ => ret (VStr expression))))
        else
          keep_out
            (try_catch (safeEval expression vars)
               (fun _ =>
                  do nan <- is_nan H expression;
                  if negb nan then parse_float H expression
                  else if String.eqb expression "True" then ret (VBool true)
                  else if String.eqb expression "False" then ret (VBool false)
                  else if String.eqb expression "None" then ret VNull
                  else match quote_strip expression with
                       | Some text => ret (VStr text)
                       | None => ret (VStr expression)
                       end))
    end.

Definition assignment (trimmed : string) (vars : env) (out : list string)
    (lines : list line) (originalIndex : nat) : M (option pending) :=
  let parts := Str.split "=" trimmed in
  let varName := Str.trim (hd "" parts) in
  let expression := Str.trim (Str.join "=" (tl parts)) in
  do '(value, out) <- assigned_value expression vars out lines originalIndex;
  let oldValue := prop varName vars in
  let vars := obj_set varName value vars in
  ret (plain (match oldValue with VUndef => assign | _ => reassign end)
         [("variable", VStr varName); ("value", value); ("oldValue", oldValue);
          ("expression", VStr expression)]
         vars out).

Definition print_statement (trimmed : string) (vars : env) (out : list string)
    : M (option pending) :=
  match exec re_print trimmed with
  | None => ret None
  | Some printMatch =>
      let args := group_or_empty 1 printMatch in
      do printArgs <-
        mapM (fun arg =>
                try_catch (safeEval arg vars)
                  (fun _ => ret (VStr (default arg (quote_strip arg)))))
             (split_args args);
      do rendered <-
        mapM (fun arg =>
                do h <- get_heap;
                if is_array arg h
                then do els <- read_array arg; repr_items H els
                else __repr H arg)
             printArgs;
      let outputText := Str.join " " rendered in
      let out := out ++ [outputText] in
      do value <- alloc (OArr printArgs);
      ret (plain print [("value", value); ("outputText", VStr outputText)] vars out)
  end.

(** A [def] header met by [processLine]: the function gets an empty body. *)
Definition def_statement (trimmed : string) (vars : env) (out : list string)
    : M (option pending) :=
  match exec re_def trimmed with
  | None => ret None
  | Some funcMatch =>
      let funcName := group_or_empty 1 funcMatch in
      let params := split_params (group_or_empty 2 funcMatch) in
      do closure <- json_copy vars;
      do func <- alloc (OFun funcName params [] closure);
      let vars := obj_set funcName func vars in
      do paramsArray <- alloc (OArr (map VStr params));
      ret (plain function_definition
             [("functionName", VStr funcName); ("params", paramsArray);
              ("bodyLines", VNum 0)]
             vars out)
  end.

Definition call_statement (trimmed : string) (vars : env) (out : list string)
    : M (option pending) :=
  match exec re_call_stmt trimmed with
  | None => ret None
  | Some funcMatch =>
      let funcName := group_or_empty 1 funcMatch in
      let argsStr := group_or_empty 2 funcMatch in
      do h <- get_heap;
      if is_function (prop funcName vars) h then
        do args <- mapM (fun arg => safeEval (Str.trim arg) vars) (split_args argsStr);
        try_catch
          (do '(result, out) <- handleFunctionCall funcName args vars out;
           do argsArray <- alloc (OArr args);
           ret (Some (Pending function_call
                        [("functionName", VStr funcName); ("args", argsArray);
                         ("returnValue", result)]
                        vars out (fun msg => "Function call error: " +:+ msg))))
          (fun msg => throw ("Function call error: " +:+ msg))
      else throw ("'" +:+ funcName +:+ "' is not defined")
  end.

Definition statement (lineData : line) (vars : env) (out : list string)
    (lines : list line) : M (option pending) :=
  let trimmed := trimmed lineData in
  match classify trimmed with
  | KAssign => assignment trimmed vars out lines (originalIndex lineData)
  | KAugmented => augmented_assignment trimmed vars out
  | KListOp => list_operation_statement trimmed vars out
  | KPrint => print_statement trimmed vars out
  | KDef => def_statement trimmed vars out
  | KCall => call_statement trimmed vars out
  | KFor => for_statement trimmed vars out
  | KIf => guard_statement if_statement 3 trimmed vars out
  | KWhile => guard_statement while_loop_start 6 trimmed vars out
  | KExecute => ret (plain execute [("code", VStr trimmed)] vars out)
  | KNone => ret None
  end.

Definition processLine (lineData : line) (currentVars : env) (currentOutput : list string)
    (lines : list line) : M result :=
  let vars := currentVars in
  let out := currentOutput in
  if String.eqb (trimmed lineData) "" || Str.startsWith (trimmed lineData) "#"
  then ret (Result [] vars out)
  else guarded (originalIndex lineData) vars out (statement lineData vars out lines).

(** *** [parseCode] *)

(** [for (const bodyLine of loopBody)]: the body of a loop, each line
    through [processLine]. *)
Fixpoint loop_body (loopBody : list line) (lines : list line) (variables : env)
    (output : list string) : M result :=
  match loopBody with
  | [] => ret (Result [] variables output)
  | bodyLine :: loopBody' =>
      do r <- processLine bodyLine variables output lines;
      do r' <- loop_body loopBody' lines (r_variables r) (r_output r);
      ret (Result (r_steps r ++ r_steps r') (r_variables r') (r_output r'))
  end.

(** [for (let iterIndex = 0; iterIndex < iterableValue.length; iterIndex++)]:
    the turn at [iterIndex], entered with the length just read, and the
    turns after it. *)
Fixpoint turns (n : nat) (iterIndex len : nat) (originalIndex : nat) (iterVar : string)
    (iterableValue : value) (loopBody : list line) (lines : list line)
    (variables : env) (output : list string) : M result :=
  match n with
  | 0 => noret
  | S n' =>
      do item <- iter_item iterableValue iterIndex;
      let variables := obj_set iterVar item variables in
      do snap <- json_copy variables;
      let iteration :=
        Step originalIndex for_loop_iteration
          [("iterVar", VStr iterVar); ("currentValue", item);
           ("iterationIndex", VNum (Z.of_nat iterIndex));
           ("totalIterations", VNum (Z.of_nat len))]
          snap output in
      do r <- loop_body loopBody lines variables output;
      do r' <- loop_test iterableValue (S iterIndex)
                 (fun len' => turns n' (S iterIndex) len' originalIndex iterVar
                                iterableValue loopBody lines (r_variables r) (r_output r))
                 (ret (Result [] (r_variables r) (r_output r)));
      ret (Result (iteration :: r_steps r ++ r_steps r') (r_variables r') (r_output r'))
  end.

Definition iterations (originalIndex : nat) (iterVar : string) (iterableValue : value)
    (loopBody : list line) (lines : list line) (variables : env) (output : list string)
    : M result :=
  loop_test iterableValue 0
    (fun len => turns fuel 0 len originalIndex iterVar iterableValue loopBody lines
                  variables output)
    (ret (Result [] variables output)).

(** A [for] header at the top level: the steps of the whole loop. *)
Definition for_block (lineData : line) (forMatch : found) (loopBody : list line)
    (lines : list line) (variables : env) (output : list string) : M result :=
  let iterVar := group_or_empty 1 forMatch in
  let iterableExpr := group_or_empty 2 forMatch in
  do iterableValue <- for_iterable iterableExpr variables;
  do bodyIndices <- alloc (OArr (map (fun l => VNum (Z.of_nat (originalIndex l))) loopBody));
  do snap <- json_copy variables;
  let start :=
    Step (originalIndex lineData) for_loop_start
      [("iterVar", VStr iterVar); ("iterable", iterableValue); ("loopBody", bodyIndices)]
      snap output in
  do r <- iterations (originalIndex lineData) iterVar iterableValue loopBody lines
            variables output;
  do snap' <- json_copy (r_variables r);
  let finish :=
    Step (originalIndex lineData) for_loop_end [("iterVar", VStr iterVar)]
      snap' (r_output r) in
  ret (Result (start :: r_steps r ++ [finish]) (r_variables r) (r_output r)).

(** A [def] header at the top level: the function object with its body
    and a copy of the variables as its closure. *)
Definition def_block (lineData : line) (funcMatch : found) (functionBody : list line)
    (variables : env) (output : list string) : M result :=
  let funcName := group_or_empty 1 funcMatch in
  let params := split_params (group_or_empty 2 funcMatch) in
  do closure <- json_copy variables;
  do func <- alloc (OFun funcName params functionBody closure);
  let variables := obj_set funcName func variables in
  do paramsArray <- alloc (OArr (map VStr params));
  do snap <- json_copy variables;
  ret (Result
         [Step (originalIndex lineData) function_definition
            [("functionName", VStr funcName); ("params", paramsArray);
             ("bodyLines", VNum (Z.of_nat (length functionBody)))]
            snap output]
         variables output).

(** One turn of the main loop at line [i]: the steps it pushes, the
    variables and the output after it, and the index of the next turn. *)
Definition turn (lines : list line) (i : nat) (lineData : line) (variables : env)
    (output : list string) : M (result * nat) :=
  let trimmed := trimmed lineData in
  let '(body, passed) := block_after (drop (S i) lines) (indent lineData) in
  if String.eqb trimmed "" || Str.startsWith trimmed "#"
  then ret (Result [] variables output, S i)
  else
    match (if Str.startsWith trimmed "for " then exec re_for trimmed else None) with
    | Some forMatch =>
        do r <- for_block lineData forMatch body lines variables output;
        ret (r, S i + passed)
    | None =>
        match (if Str.startsWith trimmed "def " then exec re_def trimmed else None) with
        | Some funcMatch =>
            do r <- def_block lineData funcMatch body variables output;
            ret (r, S i + passed)
        | None =>
            do r <- processLine lineData variables output lines;
            ret (r, S i)
        end
    end.

(** [for (let i = 0; i < lines.length; i++)]; every turn moves [i]
    forward, so [n = lines.length] turns are enough. *)
Fixpoint main_loop (n : nat) (lines : list line) (i : nat) (variables : env)
    (output : list string) : M (list step) :=
  match n with
  | 0 => ret []
  | S n' =>
      match lines !! i with
      | None => ret []
      | Some lineData =>
          do '(r, next) <- turn lines i lineData variables output;
          do rest <- main_loop n' lines next (r_variables r) (r_output r);
          ret (r_steps r ++ rest)
      end
  end.

Definition parseCode (codeString : string) : M (list step) :=
  let lines := make_lines codeString in
  main_loop (length lines) lines 0 [] [].

End Impl.

End First.

(** * An executable engine for a fragment of JavaScript

    [mini_host] evaluates the expressions that are built from integer and
    string literals, [true], [false], [null], identifiers, array literals,
    indexing, [.length], the operators [! - + * / % ** < > <= >= == !=
    === !== && ||] and the comma, and calls of the source's helper
    functions, of [Math.pow] and of [Math.floor], over integers within the
    range in which double arithmetic is exact.  Its global object holds
    [undefined], [NaN] and [Math].  On a text or a value outside the
    fragment it gives no result ([NoRet]); it reports an exception only
    where the engine is sure to throw one. *)

Module Mini.

Inductive token : Type :=
| TNum (z : Z)
| TStr (s : string)
| TId (s : string)
| TPunct (s : string).

(** [Val a]: a result; [Thrown msg]: an exception; [Outside]: not in the
    fragment. *)
Inductive outcome (A : Type) : Type :=
| Val (a : A)
| Thrown (msg : string)
| Outside.
Arguments Val {A} a.
Arguments Thrown {A} msg.
Arguments Outside {A}.

Definition max_safe : Z := 9007199254740991.
Definition safe (z : Z) : bool := (Z.abs z <=? max_safe)%Z.

Definition is_ident_char (c : ascii) : bool := Str.is_word c || Ascii.eqb c "$".

Definition keywords : list string :=
  ["break"; "case"; "catch"; "class"; "const"; "continue"; "debugger"; "default";
   "delete"; "do"; "else"; "enum"; "export"; "extends"; "finally"; "for"; "function";
   "if"; "import"; "in"; "instanceof"; "new"; "return"; "super"; "switch"; "this";
   "throw"; "try"; "typeof"; "var"; "void"; "while"; "with"].
Definition contextual : list string :=
  ["let"; "static"; "yield"; "await"; "async"; "of"; "get"; "set"; "implements";
   "interface"; "package"; "private"; "protected"; "public"; "arguments"; "eval"].

Definition mem (x : string) (l : list string) : bool := existsb (String.eqb x) l.

Fixpoint span (p : ascii -> bool) (l : list ascii) : list ascii * list ascii :=
  match l with
  | c :: l' => if p c then let '(a, b) := span p l' in (c :: a, b) else ([], l)
  | [] => ([], [])
  end.

Definition digits_Z (l : list ascii) : Z :=
  fold_left (fun acc c => (acc * 10 + Z.of_nat (Str.code c - 48))%Z) l 0%Z.

Definition punct3 : list string := ["==="; "!=="].
Definition punct2 : list string := ["=="; "!="; "<="; ">="; "&&"; "||"; "**"].
Definition punct1 : list string :=
  ["+"; "-"; "*"; "/"; "%"; "<"; ">"; "!"; "("; ")"; "["; "]"; ","; "."].

Definition take_str (n : nat) (l : list ascii) : string := Str.of_chars (take n l).

Fixpoint tokenize (n : nat) (l : list ascii) : outcome (list token) :=
  match n with
  | 0 => match l with [] => Val [] | _ => Outside end
  | S n' =>
      match l with
      | [] => Val []
      | c :: l' =>
          let cons t rest :=
            match tokenize n' rest with
            | Val ts => Val (t :: ts)
            | Thrown msg => Thrown msg
            | Outside => Outside
            end in
          if Ascii.eqb c " " || (Str.code c =? 9) then tokenize n' l'
          else if Str.is_digit c then
            let '(ds, rest) := span Str.is_digit l in
            let leading_zero := Ascii.eqb c "0" && (1 <? length ds) in
            let glued := match rest with
                         | r :: _ => is_ident_char r || Ascii.eqb r "."
                         | [] => false
                         end in
            if leading_zero || glued || negb (safe (digits_Z ds)) then Outside
            else cons (TNum (digits_Z ds)) rest
          else if is_ident_char c then
            let '(cs, rest) := span is_ident_char l in
            let name := Str.of_chars cs in
            if mem name keywords || mem name contextual then Outside
            else cons (TId name) rest
          else if Ascii.eqb c Str.dquote || Ascii.eqb c "'" then
            let '(body, rest) := span (fun x => negb (Ascii.eqb x c)) l' in
            match rest with
            | [] => if forallb (fun x => (31 <? Str.code x) && negb (Ascii.eqb x "\")) body
                    then Thrown "Invalid or unexpected token" else Outside
            | _ :: rest' =>
                if forallb (fun x => (31 <? Str.code x) && (Str.code x <? 128)
                                     && negb (Ascii.eqb x "\")) body
                then cons (TStr (Str.of_chars body)) rest'
                else Outside
            end
          else if mem (take_str 3 l) punct3 then cons (TPunct (take_str 3 l)) (drop 3 l)
          else if mem (take_str 2 l) ["++"; "--"; "//"; "/*"; "=>"; "<<"; ">>"; "?."; "??"]
          then Outside
          else if mem (take_str 2 l) punct2 then cons (TPunct (take_str 2 l)) (drop 2 l)
          else if mem (take_str 1 l) punct1 then cons (TPunct (take_str 1 l)) l'
          else Outside
      end
  end.

#[local] Unset Elimination Schemes.
Inductive expr : Type :=
| ENum (z : Z)
| EStr (s : string)
| EId (x : string)
| EArr (items : list expr)
| EUn (op : string) (e : expr)
| EBin (op : string) (a b : expr)
| ECall (f : expr) (args : list expr)
| EMember (e : expr) (name : string)
| EIndex (e i : expr)
| EComma (a b : expr).
#[local] Set Elimination Schemes.

Inductive parsed (A : Type) : Type :=
| POk (a : A) (rest : list token)
| PFail.
Arguments POk {A} a rest.
Arguments PFail {A}.

(** The binding strength of a binary operator, and whether it groups to
    the right. *)
Definition precedence (op : string) : option (nat * bool) :=
  if String.eqb op "||" then Some (4, false)
  else if String.eqb op "&&" then Some (5, false)
  else if mem op ["=="; "!="; "==="; "!=="] then Some (9, false)
  else if mem op ["<"; ">"; "<="; ">="] then Some (10, false)
  else if mem op ["+"; "-"] then Some (12, false)
  else if mem op ["*"; "/"; "%"] then Some (13, false)
  else if String.eqb op "**" then Some (14, true)
  else None.

Fixpoint parse_binary (n : nat) (minprec : nat) (ts : list token) : parsed expr :=
  match n with
  | 0 => PFail
  | S n' =>
      match parse_unary n' ts with
      | POk lhs rest => parse_operators n' minprec lhs rest
      | PFail => PFail
      end
  end
with parse_operators (n : nat) (minprec : nat) (lhs : expr) (ts : list token)
    : parsed expr :=
  match n with
  | 0 => PFail
  | S n' =>
      match ts with
      | TPunct op :: rest =>
          match precedence op with
          | Some (prec, rassoc) =>
              if prec <? minprec then POk lhs ts
              else
                match lhs, String.eqb op "**" with
                | EUn _ _, true => PFail
                | _, _ =>
                    match parse_binary n' (if rassoc then prec else S prec) rest with
                    | POk rhs rest' => parse_operators n' minprec (EBin op lhs rhs) rest'
                    | PFail => PFail
                    end
                end
          | None => POk lhs ts
          end
      | _ => POk lhs ts
      end
  end
with parse_unary (n : nat) (ts : list token) : parsed expr :=
  match n with
  | 0 => PFail
  | S n' =>
      match ts with
      | TPunct op :: rest =>
          if mem op ["!"; "-"; "+"] then
            match parse_unary n' rest with
            | POk e rest' => POk (EUn op e) rest'
            | PFail => PFail
            end
          else parse_primary n' ts
      | _ => parse_primary n' ts
      end
  end
with parse_primary (n : nat) (ts : list token) : parsed expr :=
  match n with
  | 0 => PFail
  | S n' =>
      match ts with
      | TNum z :: rest => parse_postfix n' (ENum z) rest
      | TStr s :: rest => parse_postfix n' (EStr s) rest
      | TId x :: rest => parse_postfix n' (EId x) rest
      | TPunct p :: rest =>
          if String.eqb p "(" then
            match parse_comma n' rest with
            | POk e (TPunct q :: rest') =>
                if String.eqb q ")" then parse_postfix n' e rest' else PFail
            | _ => PFail
            end
          else if String.eqb p "[" then
            match rest with
            | TPunct q :: rest' =>
                if String.eqb q "]" then parse_postfix n' (EArr []) rest'
                else match parse_items n' rest "]" with
                     | POk items rest'' => parse_postfix n' (EArr items) rest''
                     | PFail => PFail
                     end
            | _ => match parse_items n' rest "]" with
                   | POk items rest'' => parse_postfix n' (EArr items) rest''
                   | PFail => PFail
                   end
            end
          else PFail
      | [] => PFail
      end
  end
with parse_postfix (n : nat) (e : expr) (ts : list token) : parsed expr :=
  match n with
  | 0 => PFail
  | S n' =>
      match ts with
      | TPunct p :: rest =>
          if String.eqb p "." then
            match rest with
            | TId name :: rest' => parse_postfix n' (EMember e name) rest'
            | _ => PFail
            end
          else if String.eqb p "[" then
            match parse_comma n' rest with
            | POk i (TPunct q :: rest') =>
                if String.eqb q "]" then parse_postfix n' (EIndex e i) rest' else PFail
            | _ => PFail
            end
          else if String.eqb p "(" then
            match rest with
            | TPunct q :: rest' =>
                if String.eqb q ")" then parse_postfix n' (ECall e []) rest'
                else match parse_items n' rest ")" with
                     | POk args rest'' => parse_postfix n' (ECall e args) rest''
                     | PFail => PFail
                     end
            | _ => match parse_items n' rest ")" with
                   | POk args rest'' => parse_postfix n' (ECall e args) rest''
                   | PFail => PFail
                   end
            end
          else POk e ts
      | _ => POk e ts
      end
  end
with parse_items (n : nat) (ts : list token) (close : string) : parsed (list expr) :=
  match n with
  | 0 => PFail
  | S n' =>
      match parse_binary n' 0 ts with
      | POk e (TPunct p :: rest) =>
          if String.eqb p close then POk [e] rest
          else if String.eqb p "," then
            match parse_items n' rest close with
            | POk es rest' => POk (e :: es) rest'
            | PFail => PFail
            end
          else PFail
      | _ => PFail
      end
  end
with parse_comma (n : nat) (ts : list token) : parsed expr :=
  match n with
  | 0 => PFail
  | S n' =>
      match parse_binary n' 0 ts with
      | POk e (TPunct p :: rest) =>
          if String.eqb p "," then
            match parse_comma n' rest with
            | POk e' rest' => POk (EComma e e') rest'
            | PFail => PFail
            end
          else POk e (TPunct p :: rest)
      | r => r
      end
  end.

(** The expression of [return <text>;].  Two operands in a row are a
    syntax error; whatever else does not parse is left outside. *)
Definition parse (ts : list token) : outcome (option expr) :=
  match ts with
  | [] => Val None
  | _ =>
      match parse_comma (10 * S (length ts)) ts with
      | POk e [] => Val (Some e)
      | POk _ (TId x :: _) => Thrown ("Unexpected identifier '" +:+ x +:+ "'")
      | POk _ (TNum _ :: _) => Thrown "Unexpected number"
      | POk _ (TStr _ :: _) => Thrown "Unexpected string"
      | _ => Outside
      end
  end.

(** Arithmetic on the integers that doubles represent exactly *)
Definition checked (z : Z) : M value := if safe z then ret (VNum z) else noret.

(** [ToNumber] of a primitive that is not a string *)
Definition to_number (v : value) : option value :=
  match v with
  | VNum _ | VNaN => Some v
  | VUndef => Some VNaN
  | VNull => Some (VNum 0)
  | VBool b => Some (VNum (if b then 1 else 0))
  | VStr _ | VRef _ => None
  end.

(** [ToString] of a primitive *)
Definition to_string (v : value) : option string :=
  match v with
  | VUndef => Some "undefined"
  | VNull => Some "null"
  | VBool true => Some "true"
  | VBool false => Some "false"
  | VNum z => Some (Str.of_Z z)
  | VNaN => Some "NaN"
  | VStr s => Some s
  | VRef _ => None
  end.

Definition is_string (v : value) : bool :=
  match v with VStr _ => true | _ => false end.

Definition power (x y : Z) : M value :=
  if (y <? 0)%Z then noret
  else if (y =? 0)%Z then ret (VNum 1)
  else if (Z.abs x <=? 1)%Z then ret (VNum (x ^ (if Z.even y then 2 else 1)))
  else if (53 <? y)%Z then noret
  else checked (x ^ y).

Definition arith (op : string) (a b : value) : M value :=
  if String.eqb op "+" && (is_string a || is_string b) then
    match to_string a, to_string b with
    | Some x, Some y => ret (VStr (x +:+ y))
    | _, _ => noret
    end
  else
    match to_number a, to_number b with
    | Some (VNum x), Some (VNum y) =>
        if String.eqb op "+" then checked (x + y)
        else if String.eqb op "-" then checked (x - y)
        else if String.eqb op "*" then checked (x * y)
        else if String.eqb op "/" then
          if (y =? 0)%Z || negb (Z.rem x y =? 0)%Z then noret else ret (VNum (Z.quot x y))
        else if String.eqb op "%" then
          if (y =? 0)%Z then ret VNaN else ret (VNum (Z.rem x y))
        else if String.eqb op "**" then power x y
        else noret
    | Some _, Some _ => if String.eqb op "**" then noret else ret VNaN
    | _, _ => noret
    end.

Fixpoint chars_ltb (a b : list ascii) : bool :=
  match a, b with
  | _, [] => false
  | [], _ :: _ => true
  | x :: a', y :: b' =>
      (Str.code x <? Str.code y) || ((Str.code x =? Str.code y) && chars_ltb a' b')
  end.

(** [a < b] *)
Definition less (a b : value) : M bool :=
  match a, b with
  | VStr x, VStr y => ret (chars_ltb (Str.chars x) (Str.chars y))
  | _, _ =>
      match to_number a, to_number b with
      | Some (VNum x), Some (VNum y) => ret (x <? y)%Z
      | Some _, Some _ => ret false
      | _, _ => noret
      end
  end.

(** [a <= b] *)
Definition less_eq (a b : value) : M bool :=
  match a, b with
  | VStr x, VStr y => ret (negb (chars_ltb (Str.chars y) (Str.chars x)))
  | _, _ =>
      match to_number a, to_number b with
      | Some (VNum x), Some (VNum y) => ret (x <=? y)%Z
      | Some _, Some _ => ret false
      | _, _ => noret
      end
  end.

(** [a == b] *)
Definition loose_eq (a b : value) : M bool :=
  match a, b with
  | (VUndef | VNull), (VUndef | VNull) => ret true
  | (VUndef | VNull), _ | _, (VUndef | VNull) => ret false
  | VBool _, VBool _ | VStr _, VStr _ | VRef _, VRef _
  | (VNum _ | VNaN), (VNum _ | VNaN) => ret (strict_eq a b)
  | _, _ => noret
  end.

Definition binary (op : string) (a b : value) : M value :=
  if mem op ["+"; "-"; "*"; "/"; "%"; "**"] then arith op a b
  else if String.eqb op "<" then do r <- less a b; ret (VBool r)
  else if String.eqb op ">" then do r <- less b a; ret (VBool r)
  else if String.eqb op "<=" then do r <- less_eq a b; ret (VBool r)
  else if String.eqb op ">=" then do r <- less_eq b a; ret (VBool r)
  else if String.eqb op "===" then ret (VBool (strict_eq a b))
  else if String.eqb op "!==" then ret (VBool (negb (strict_eq a b)))
  else if String.eqb op "==" then do r <- loose_eq a b; ret (VBool r)
  else if String.eqb op "!=" then do r <- loose_eq a b; ret (VBool (negb r))
  else noret.

Definition type_error (what name : string) : string :=
  "Cannot read properties of " +:+ what +:+ " (reading '" +:+ name +:+ "')".

(** [v.name] *)
Definition member (v : value) (name : string) : M value :=
  match v with
  | VUndef => throw (type_error "undefined" name)
  | VNull => throw (type_error "null" name)
  | VStr s => if String.eqb name "length" then ret (VNum (Z.of_nat (Str.len s))) else noret
  | VRef l =>
      do h <- get_heap;
      match h !! l with
      | Some (OArr els) =>
          if String.eqb name "length" then ret (VNum (Z.of_nat (length els))) else noret
      | Some (OObj fs) =>
          match obj_get name fs with Some x => ret x | None => noret end
      | _ => noret
      end
  | _ => noret
  end.

(** [v[i]] *)
Definition index (v i : value) : M value :=
  match v, i with
  | VUndef, _ => throw "Cannot read properties of undefined"
  | VNull, _ => throw "Cannot read properties of null"
  | VStr s, VNum k =>
      ret (if (k <? 0)%Z then VUndef else default VUndef (string_items s !! Z.to_nat k))
  | VRef l, _ =>
      do h <- get_heap;
      match h !! l, i with
      | Some (OArr els), VNum k =>
          ret (if (k <? 0)%Z then VUndef else default VUndef (els !! Z.to_nat k))
      | Some (OObj fs), VStr k =>
          match obj_get k fs with Some x => ret x | None => noret end
      | _, _ => noret
      end
  | _, _ => noret
  end.

Fixpoint eval (n : nat) (bindings : list (string * binding)) (e : expr) : M value :=
  match n with
  | 0 => noret
  | S n' =>
      let ev := eval n' bindings in
      match e with
      | ENum z => ret (VNum z)
      | EStr s => ret (VStr s)
      | EId x =>
          match obj_get x bindings with
          | Some (BVal v) => ret v
          | Some (BNative _) => noret
          | None =>
              if String.eqb x "true" then ret (VBool true)
              else if String.eqb x "false" then ret (VBool false)
              else if String.eqb x "null" then ret VNull
              else if String.eqb x "undefined" then ret VUndef
              else if String.eqb x "NaN" then ret VNaN
              else if mem x ["Math"; "Infinity"] then noret
              else throw (x +:+ " is not defined")
          end
      | EArr items => do vs <- mapM ev items; alloc (OArr vs)
      | EUn op a =>
          do v <- ev a;
          if String.eqb op "!" then ret (VBool (negb (truthy v)))
          else match to_number v with
               | Some (VNum z) =>
                   ret (VNum (if String.eqb op "-" then (- z)%Z else z))
               | Some w => ret w
               | None => noret
               end
      | EBin op a b =>
          if String.eqb op "&&" then
            do v <- ev a; if truthy v then ev b else ret v
          else if String.eqb op "||" then
            do v <- ev a; if truthy v then ret v else ev b
          else do v <- ev a; do w <- ev b; binary op v w
      | ECall (EId f) args =>
          match obj_get f bindings with
          | Some (BNative g) => do vs <- mapM ev args; g vs
          | Some (BVal _) => do vs <- mapM ev args; throw (f +:+ " is not a function")
          | None =>
              if mem f ["true"; "false"; "null"; "undefined"; "NaN"; "Math"; "Infinity"]
              then noret
              else throw (f +:+ " is not defined")
          end
      | ECall (EMember (EId m) name) args =>
          match obj_get m bindings with
          | None =>
              if String.eqb m "Math" then
                do vs <- mapM ev args;
                match vs with
                | [VNum x; VNum y] => if String.eqb name "pow" then power x y else noret
                | [VNum x] => if String.eqb name "floor" then ret (VNum x) else noret
                | [VNaN] => if String.eqb name "floor" then ret VNaN else noret
                | _ => noret
                end
              else noret
          | Some _ => noret
          end
      | ECall _ _ => noret
      | EMember a name => do v <- ev a; member v name
      | EIndex a i => do v <- ev a; do k <- ev i; index v k
      | EComma a b => do _ <- ev a; ev b
      end
  end.

Fixpoint expr_size (e : expr) : nat :=
  match e with
  | ENum _ | EStr _ | EId _ => 1
  | EArr items => S (list_sum (map expr_size items))
  | EUn _ a => S (expr_size a)
  | EBin _ a b | EIndex a b | EComma a b => S (expr_size a + expr_size b)
  | ECall f args => S (expr_size f + list_sum (map expr_size args))
  | EMember a _ => S (expr_size a)
  end.

(** The names that may stand as a parameter of [new Function]. *)
Definition check_param (k : string) : outcome unit :=
  match Str.chars k with
  | [] => Outside
  | c :: rest =>
      if forallb is_ident_char (c :: rest) then
        if Str.is_digit c || mem k keywords || mem k ["true"; "false"; "null"]
        then Thrown "Unexpected token"
        else if mem k contextual then Outside
        else Val tt
      else Outside
  end.

Fixpoint check_params (ks : list string) : outcome unit :=
  match ks with
  | [] => Val tt
  | k :: ks' =>
      match check_param k with
      | Val _ => check_params ks'
      | r => r
      end
  end.

Definition lift {A} (o : outcome A) : M A :=
  match o with
  | Val a => ret a
  | Thrown msg => throw msg
  | Outside => noret
  end.

(** [new Function(...keys, body)(...values)] for a body of the form
    [return <expression>;]. *)
Definition mini_new_function (bindings : list (string * binding)) (body : string)
    : M value :=
  if Str.startsWith body "return " && Str.endsWith body ";" then
    do _ <- lift (check_params (map fst bindings));
    let text := Str.chars (Str.slice_between 7 1 body) in
    do ts <- lift (tokenize (S (length text)) text);
    do e <- lift (parse ts);
    match e with
    | None => ret VUndef
    | Some e => eval (S (expr_size e)) bindings e
    end
  else noret.

(** [JSON.parse]: integers, strings without escapes, [true], [false],
    [null], arrays and objects. *)
Fixpoint skip_ws (l : list ascii) : list ascii :=
  match l with
  | c :: l' =>
      if Ascii.eqb c " " || (Str.code c =? 9) || (Str.code c =? 10) || (Str.code c =? 13)
      then skip_ws l' else l
  | [] => []
  end.

Definition json_error : string := "Unexpected token in JSON".

Definition json_string (l : list ascii) : M (string * list ascii) :=
  let '(body, rest) := span (fun x => negb (Ascii.eqb x Str.dquote)) l in
  match rest with
  | [] => if existsb (fun x => Ascii.eqb x "\") body then noret else throw json_error
  | _ :: rest' =>
      if existsb (fun x => Ascii.eqb x "\") body then noret
      else if forallb (fun x => 31 <? Str.code x) body then ret (Str.of_chars body, rest')
      else throw json_error
  end.

Definition json_number (negative : bool) (l : list ascii) : M (value * list ascii) :=
  let '(ds, rest) := span Str.is_digit l in
  match ds with
  | [] => throw json_error
  | c :: ds' =>
      if Ascii.eqb c "0" && (0 <? length ds') then throw json_error
      else if match rest with
              | r :: _ => Ascii.eqb r "." || Ascii.eqb r "e" || Ascii.eqb r "E"
              | [] => false
              end
      then noret
      else if safe (digits_Z ds)
      then ret (VNum (if negative then (- digits_Z ds)%Z else digits_Z ds), rest)
      else noret
  end.

Fixpoint json_value (n : nat) (l : list ascii) : M (value * list ascii) :=
  match n with
  | 0 => noret
  | S n' =>
      match skip_ws l with
      | [] => throw json_error
      | c :: rest =>
          if Ascii.eqb c Str.dquote then
            do '(s, rest') <- json_string rest; ret (VStr s, rest')
          else if Ascii.eqb c "-" then json_number true rest
          else if Str.is_digit c then json_number false (c :: rest)
          else if Str.prefix_of (Str.chars "true") (c :: rest)
          then ret (VBool true, drop 4 (c :: rest))
          else if Str.prefix_of (Str.chars "false") (c :: rest)
          then ret (VBool false, drop 5 (c :: rest))
          else if Str.prefix_of (Str.chars "null") (c :: rest)
          then ret (VNull, drop 4 (c :: rest))
          else if Ascii.eqb c "[" then
            match skip_ws rest with
            | d :: rest' =>
                if Ascii.eqb d "]" then do a <- alloc (OArr []); ret (a, rest')
                else do '(els, rest'') <- json_elements n' n' rest;
                     do a <- alloc (OArr els); ret (a, rest'')
            | [] => throw json_error
            end
          else if Ascii.eqb c "{" then
            match skip_ws rest with
            | d :: rest' =>
                if Ascii.eqb d "}" then do o <- alloc (OObj []); ret (o, rest')
                else do '(fs, rest'') <- json_members n' n' rest [];
                     do o <- alloc (OObj fs); ret (o, rest'')
            | [] => throw json_error
            end
          else throw json_error
      end
  end
with json_elements (n : nat) (k : nat) (l : list ascii) : M (list value * list ascii) :=
  match n with
  | 0 => noret
  | S n' =>
      do '(v, rest) <- json_value n' l;
      match skip_ws rest with
      | c :: rest' =>
          if Ascii.eqb c "]" then ret ([v], rest')
          else if Ascii.eqb c "," then
            do '(vs, rest'') <- json_elements n' k rest'; ret (v :: vs, rest'')
          else throw json_error
      | [] => throw json_error
      end
  end
with json_members (n : nat) (k : nat) (l : list ascii) (acc : env) : M (env * list ascii) :=
  match n with
  | 0 => noret
  | S n' =>
      match skip_ws l with
      | q :: rest =>
          if Ascii.eqb q Str.dquote then
            do '(key, rest1) <- json_string rest;
            match skip_ws rest1 with
            | colon :: rest2 =>
                if Ascii.eqb colon ":" then
                  do '(v, rest3) <- json_value n' rest2;
                  let acc := obj_set key v acc in
                  match skip_ws rest3 with
                  | c :: rest4 =>
                      if Ascii.eqb c "}" then ret (acc, rest4)
                      else if Ascii.eqb c "," then json_members n' k rest4 acc
                      else throw json_error
                  | [] => throw json_error
                  end
                else throw json_error
            | [] => throw json_error
            end
          else throw json_error
      | [] => throw json_error
      end
  end.

Definition mini_json_parse (text : string) : M value :=
  let l := Str.chars text in
  do '(v, rest) <- json_value (2 * S (length l)) l;
  match skip_ws rest with
  | [] => ret v
  | _ => throw json_error
  end.

(** [JSON.stringify] *)
Definition json_quote (s : string) : outcome string :=
  if forallb (fun x => (31 <? Str.code x) && (Str.code x <? 128)
                       && negb (Ascii.eqb x Str.dquote) && negb (Ascii.eqb x "\"))
       (Str.chars s)
  then Val (Str.dq +:+ s +:+ Str.dq) else Outside.

Fixpoint sequence {A} (l : list (outcome A)) : outcome (list A) :=
  match l with
  | [] => Val []
  | Val a :: l' =>
      match sequence l' with
      | Val r => Val (a :: r)
      | other => other
      end
  | Thrown msg :: _ => Thrown msg
  | Outside :: _ => Outside
  end.

Definition json_member (p : string * outcome string) : outcome string :=
  match json_quote (fst p), snd p with
  | Val k, Val x => Val (k +:+ ":" +:+ x)
  | Thrown msg, _ | Val _, Thrown msg => Thrown msg
  | _, _ => Outside
  end.

Definition json_object (ms : list (string * outcome string)) : outcome string :=
  match sequence (map json_member ms) with
  | Val parts => Val ("{" +:+ Str.join "," parts +:+ "}")
  | Thrown msg => Thrown msg
  | Outside => Outside
  end.

Definition json_array (xs : list (outcome string)) : outcome string :=
  match sequence xs with
  | Val parts => Val ("[" +:+ Str.join "," parts +:+ "]")
  | Thrown msg => Thrown msg
  | Outside => Outside
  end.

Definition json_line (l : line) : outcome string :=
  json_object
    [("content", json_quote (content l));
     ("originalIndex", Val (Str.of_nat (originalIndex l)));
     ("trimmed", json_quote (trimmed l));
     ("indent", Val (Str.of_nat (indent l)))].

Definition defined_fields (fs : env) : env :=
  List.filter (fun p => match snd p with VUndef => false | _ => true end) fs.

Fixpoint stringify (n : nat) (h : heap) (v : value) : outcome string :=
  match v with
  | VUndef | VNull | VNaN => Val "null"
  | VBool true => Val "true"
  | VBool false => Val "false"
  | VNum z => Val (Str.of_Z z)
  | VStr s => json_quote s
  | VRef l =>
      match n with
      | 0 => Thrown "Converting circular structure to JSON"
      | S n' =>
          match h !! l with
          | Some (OArr els) => json_array (map (stringify n' h) els)
          | Some (OObj fs) =>
              json_object (map (fun p => (fst p, stringify n' h (snd p))) (defined_fields fs))
          | Some (OFun name params body closure) =>
              json_object
                [("name", json_quote name);
                 ("params", json_array (map json_quote params));
                 ("body", json_array (map json_line body));
                 ("closure", stringify n' h closure);
                 ("isFunction", Val "true")]
          | None => Outside
          end
      end
  end.

Definition mini_json_stringify (v : value) : M string :=
  do h <- get_heap;
  match v with
  | VUndef => noret
  | _ => lift (stringify (length h) h v)
  end.

(** [String(v)] for an object: the elements of an array joined by commas,
    [[object Object]] for any other object. *)
Fixpoint join_array (n : nat) (h : heap) (l : loc) : outcome string :=
  match n with
  | 0 => Outside
  | S n' =>
      match h !! l with
      | Some (OArr els) =>
          match sequence (map (fun e => match e with
                                        | VUndef | VNull => Val ""
                                        | VRef l' => join_array n' h l'
                                        | _ => match to_string e with
                                               | Some x => Val x
                                               | None => Outside
                                               end
                                        end) els) with
          | Val parts => Val (Str.join "," parts)
          | _ => Outside
          end
      | Some _ => Val "[object Object]"
      | None => Outside
      end
  end.

Definition mini_object_to_string (l : loc) : M string :=
  do h <- get_heap; lift (join_array (S (length h)) h l).

(** [isNaN(s)] and [parseFloat(s)] for a string, [parseInt(v)] *)
Definition mini_is_nan (text : string) : M bool :=
  match Str.chars (Str.trim text) with
  | [] => ret false
  | c :: rest =>
      if forallb Str.is_digit (c :: rest) then ret false
      else if Str.is_digit c || mem (String c EmptyString) ["+"; "-"; "."; "I"] then noret
      else ret true
  end.

Definition mini_parse_float (text : string) : M value :=
  match Str.chars (Str.trim text) with
  | [] => ret VNaN
  | c :: rest =>
      if forallb Str.is_digit (c :: rest) then checked (digits_Z (c :: rest))
      else if Str.is_digit c || mem (String c EmptyString) ["+"; "-"; "."; "I"] then noret
      else ret VNaN
  end.

Definition mini_parse_int (v : value) : M value :=
  match v with
  | VNum z => checked z
  | VUndef | VNull | VBool _ | VNaN => ret VNaN
  | VStr text =>
      match Str.chars (Str.trim text) with
      | [] => ret VNaN
      | c :: rest =>
          if Str.is_digit c then
            let '(ds, after) := span Str.is_digit (c :: rest) in
            if Ascii.eqb c "0" && match rest with
                                  | x :: _ => negb (Str.is_digit x)
                                  | [] => false
                                  end
            then noret else checked (digits_Z ds)
          else if mem (String c EmptyString) ["+"; "-"] then noret
          else ret VNaN
      end
  | VRef _ => noret
  end.

Definition mini_host : host :=
  {| new_function := mini_new_function;
     json_parse := mini_json_parse;
     json_stringify := mini_json_stringify;
     object_to_string := mini_object_to_string;
     binop := arith;
     is_nan := mini_is_nan;
     parse_float := mini_parse_float;
     parse_int := mini_parse_int |}.

End Mini.

(** * The second implementation *)

Module Second.

Import Re Rx.

(** [/\w+\.(get|keys|values|items|update|pop)\(/] *)
Definition re_dict_op_test : regex :=
  seqs [plus true w; Chr ".";
        Grp 1 (alts [lit "get"; lit "keys"; lit "values"; lit "items"; lit "update";
                     lit "pop"]);
        Chr "("].

(** The rewriting of [safeEval]; the replacement texts for the two
    operators name groups that their expressions do not have. *)
Definition jsExpression (expression : string) : string :=
  let e := replace_all (re_word "True") 0 "true" expression in
  let e := replace_all (re_word "False") 0 "false" e in
  let e := replace_all (re_word "None") 0 "null" e in
  let e := replace_all (re_call "print") 0 "__print(" e in
  let e := replace_all (re_call "range") 0 "__range(" e in
  let e := replace_all (re_call "len") 0 "__len(" e in
  let e := replace_all re_not 0 "!" e in
  let e := replace_all (re_word "and") 0 "&&" e in
  let e := replace_all (re_word "or") 0 "||" e in
  let e := replace_all (lit "//") 0 "Math.floor($1/$2)" e in
  let e := replace_all (lit "**") 0 "Math.pow($1,$2)" e in
  replace_all re_single_quoted 1 (Str.dq +:+ "$1" +:+ Str.dq) e.

(** [['==', '!=', '<=', '>=', '+=']] *)
Definition compound_operators : list string := ["=="; "!="; "<="; ">="; "+="].

Definition is_plain_assignment (text : string) : bool :=
  Str.includes text "="
  && negb (existsb (fun op => Str.includes text op) compound_operators).

Inductive kind : Type :=
| KAssign | KAugmented | KListOp | KDictOp | KPrint | KFor | KIf | KWhile | KDef
| KCall | KExecute | KNone.

Definition classify (trimmed : string) : kind :=
  if is_plain_assignment trimmed then KAssign
  else if test re_augmented_test trimmed then KAugmented
  else if test re_list_op_test trimmed then KListOp
  else if test re_dict_op_test trimmed then KDictOp
  else if Str.startsWith trimmed "print(" then KPrint
  else if Str.startsWith trimmed "for " then KFor
  else if Str.startsWith trimmed "if " then KIf
  else if Str.startsWith trimmed "while " then KWhile
  else if Str.startsWith trimmed "def " then KDef
  else if test re_call_expr trimmed && negb (Str.startsWith trimmed "print(") then KCall
  else if (0 <? Str.len trimmed) && negb (Str.endsWith trimmed ":") then KExecute
  else KNone.

Section Impl.
Variable H : host.
Variable fuel : nat.

Definition safeEval (expression : string) (variables : env) : M value :=
  try_catch
    (new_function H (allVariables H variables)
       ("return " +:+ jsExpression expression +:+ ";"))
    (fun msg =>
       let failed : M value :=
         throw ("Error evaluating: " +:+ expression +:+ " - " +:+ msg) in
       if is_plain_assignment expression then
         match Str.split "=" expression with
         | [_; rhs] =>
             let rightSide := Str.trim rhs in
             match obj_get rightSide variables with
             | Some v => ret v
             | None =>
                 do nan <- is_nan H rightSide;
                 if negb nan then parse_float H rightSide
                 else match quote_strip rightSide with
                      | Some text => ret (VStr text)
                      | None =>
                          if String.eqb rightSide "True" then ret (VBool true)
                          else if String.eqb rightSide "False" then ret (VBool false)
                          else if String.eqb rightSide "None" then ret VNull
                          else failed
                      end
             end
         | _ => failed
         end
       else failed).

Definition single_to_double := Shared.single_to_double.
Definition augmented_assignment := Shared.augmented_assignment H safeEval.
Definition list_operation_statement := Shared.list_operation_statement H safeEval.
Definition for_iterable := Shared.for_iterable safeEval.
Definition for_statement := Shared.for_statement safeEval.
Definition guard_statement := Shared.guard_statement safeEval.

Definition assignment (trimmed : string) (vars : env) (out : list string)
    : M (option pending) :=
  let parts := Str.split "=" trimmed in
  let varName := Str.trim (hd "" parts) in
  let expression := Str.trim (Str.join "=" (tl parts)) in
  do value <-
    (if (Str.startsWith expression "[" && Str.endsWith expression "]")
        || (Str.startsWith expression "{" && Str.endsWith expression "}")
     then try_catch (json_parse H (single_to_double expression))
            (fun _ => ret (VStr expression))
     else try_catch (safeEval expression vars) (fun _ => ret (VStr expression)));
  let oldValue := prop varName vars in
  let vars := obj_set varName value vars in
  ret (plain (match oldValue with VUndef => assign | _ => reassign end)
         [("variable", VStr varName); ("value", value); ("oldValue", oldValue);
          ("expression", VStr expression)]
         vars out).

(** The property key a value stands for: [ToPropertyKey]. *)
Definition property_key (key : value) : M string := js_String H key.

Definition read_dict (dict : value) : M env :=
  fun h => match dict with
           | VRef l => match h !! l with
                       | Some (OObj fs) => Ok fs h
                       | _ => NoRet
                       end
           | _ => NoRet
           end.

Definition write_dict (dict : value) (fs : env) : M unit :=
  match dict with
  | VRef l => store l (OObj fs)
  | _ => noret
  end.

(** The own enumerable properties that [Object.assign] copies from a
    value *)
Definition own_properties (v : value) : M env :=
  fun h => match v with
           | VRef l =>
               match h !! l with
               | Some (OObj fs) => Ok fs h
               | Some (OArr els) => Ok (imap (fun i e => (Str.of_nat i, e)) els) h
               | _ => NoRet
               end
           | VStr s => Ok (imap (fun i e => (Str.of_nat i, e)) (string_items s)) h
           | _ => Ok [] h
           end.

(** The operations on a dictionary; the result is [operationResult] and
    [resultValue]. *)
Definition dict_method (operation dictName args : string) (dict : value) (vars : env)
    : M (string * value) :=
  let parts := map Str.trim (Str.split "," args) in
  let keyStr := hd "" parts in
  let defaultValue := match tl parts with d :: _ => d | [] => "" end in
  if String.eqb operation "get" then
    do key <- safeEval keyStr vars;
    do k <- property_key key;
    do fs <- read_dict dict;
    do resultValue <- match obj_get k fs with
                      | Some v => ret v
                      | None => if String.eqb defaultValue "" then ret VNull
                                else safeEval defaultValue vars
                      end;
    do rk <- __repr H key;
    do rv <- __repr H resultValue;
    ret ("Got value for key " +:+ rk +:+ ": " +:+ rv, resultValue)
  else if String.eqb operation "keys" then
    do fs <- read_dict dict;
    do resultValue <- alloc (OArr (map (fun p => VStr (fst p)) fs));
    ret ("Retrieved keys from " +:+ dictName, resultValue)
  else if String.eqb operation "values" then
    do fs <- read_dict dict;
    do resultValue <- alloc (OArr (map snd fs));
    ret ("Retrieved values from " +:+ dictName, resultValue)
  else if String.eqb operation "items" then
    do fs <- read_dict dict;
    do entries <- mapM (fun p => alloc (OArr [VStr (fst p); snd p])) fs;
    do resultValue <- alloc (OArr entries);
    ret ("Retrieved items from " +:+ dictName, resultValue)
  else if String.eqb operation "update" then
    do newItems <- safeEval args vars;
    do more <- own_properties newItems;
    do fs <- read_dict dict;
    do _ <- write_dict dict (obj_assign fs more);
    ret ("Updated " +:+ dictName +:+ " with new items", VNull)
  else if String.eqb operation "pop" then
    do key <- safeEval keyStr vars;
    do k <- property_key key;
    do fs <- read_dict dict;
    match obj_get k fs with
    | Some resultValue =>
        do _ <- write_dict dict (obj_delete k fs);
        do rk <- __repr H key;
        do rv <- __repr H resultValue;
        ret ("Popped key " +:+ rk +:+ " with value " +:+ rv, resultValue)
    | None =>
        if String.eqb defaultValue "" then
          do rk <- __repr H key;
          throw ("KeyError: " +:+ rk)
        else
          do resultValue <- safeEval defaultValue vars;
          do rk <- __repr H key;
          do rv <- __repr H resultValue;
          ret ("Key " +:+ rk +:+ " not found, returned default value " +:+ rv,
               resultValue)
    end
  else ret ("", VNull).

Definition is_dict (v : value) (h : heap) : bool :=
  match v with
  | VRef l => match h !! l with Some (OArr _) | None => false | Some _ => true end
  | _ => false
  end.

Definition dict_operation_statement (trimmed : string) (vars : env) (out : list string)
    : M (option pending) :=
  match exec re_method_call trimmed with
  | None => ret None
  | Some m =>
      let dictName := group_or_empty 1 m in
      let operation := group_or_empty 2 m in
      let args := group_or_empty 3 m in
      let dict := prop dictName vars in
      do h <- get_heap;
      if negb (is_dict dict h)
      then throw ("'" +:+ typeof dict +:+ "' object has no attribute '" +:+ operation +:+ "'")
      else
        do fs <- read_dict dict;
        do oldDict <- alloc (OObj fs);
        do '(operationResult, resultValue) <- dict_method operation dictName args dict vars;
        let vars := obj_set dictName dict vars in
        ret (plain dict_operation
               [("dict", VStr dictName); ("operation", VStr operation); ("value", dict);
                ("oldValue", oldDict); ("operationResult", VStr operationResult);
                ("resultValue", resultValue)]
               vars out)
  end.

Definition is_quote (c : ascii) : bool := Ascii.eqb c "'" || Ascii.eqb c Str.dquote.

Definition print_statement (trimmed : string) (vars : env) (out : list string)
    : M (option pending) :=
  match exec re_print trimmed with
  | None => ret None
  | Some printMatch =>
      let args := group_or_empty 1 printMatch in
      do printValue <- try_catch (safeEval args vars)
                         (fun _ => ret (VStr (replace_all (Cls is_quote) 0 "" args)));
      do h <- get_heap;
      do outputText <- (if is_array printValue h
                        then do els <- read_array printValue; repr_items H els
                        else __repr H printValue);
      let out := out ++ [outputText] in
      ret (plain print [("value", printValue); ("outputText", VStr outputText)] vars out)
  end.

(** A [def] header: the object [{ name, params, variables }]. *)
Definition def_statement (trimmed : string) (vars : env) (out : list string)
    : M (option pending) :=
  match exec re_def trimmed with
  | None => ret None
  | Some funcMatch =>
      let funcName := group_or_empty 1 funcMatch in
      let params := split_params (group_or_empty 2 funcMatch) in
      do paramsArray <- alloc (OArr (map VStr params));
      do captured <- json_copy vars;
      do func <- alloc (OObj [("name", VStr funcName); ("params", paramsArray);
                              ("variables", captured)]);
      let vars := obj_set funcName func vars in
      ret (plain function_definition [("functionName", VStr funcName)] vars out)
  end.

Definition call_statement (trimmed : string) (vars : env) (out : list string)
    : M (option pending) :=
  match exec re_call_expr trimmed with
  | None => ret None
  | Some funcMatch =>
      let funcName := group_or_empty 1 funcMatch in
      let args := group_or_empty 2 funcMatch in
      match prop funcName vars with
      | VRef _ =>
          do argValues <- mapM (fun arg => safeEval (Str.trim arg) vars) (Str.split "," args);
          do argsArray <- alloc (OArr argValues);
          ret (plain function_call
                 [("functionName", VStr funcName); ("args", argsArray)] vars out)
      | _ => throw ("'" +:+ funcName +:+ "' is not defined")
      end
  end.

Definition statement (lineData : line) (vars : env) (out : list string)
    : M (option pending) :=
  let trimmed := trimmed lineData in
  match classify trimmed with
  | KAssign => assignment trimmed vars out
  | KAugmented => augmented_assignment trimmed vars out
  | KListOp => list_operation_statement trimmed vars out
  | KDictOp => dict_operation_statement trimmed vars out
  | KPrint => print_statement trimmed vars out
  | KFor => for_statement trimmed vars out
  | KIf => guard_statement if_statement 3 trimmed vars out
  | KWhile => guard_statement while_loop_start 6 trimmed vars out
  | KDef => def_statement trimmed vars out
  | KCall => call_statement trimmed vars out
  | KExecute => ret (plain execute [("code", VStr trimmed)] vars out)
  | KNone => ret None
  end.

Definition processLine (lineData : line) (currentVars : env) (currentOutput : list string)
    : M result :=
  let vars := currentVars in
  let out := currentOutput in
  if String.eqb (trimmed lineData) "" || Str.startsWith (trimmed lineData) "#"
  then ret (Result [] vars out)
  else guarded (originalIndex lineData) vars out (statement lineData vars out).

(** The lines after a header that are indented deeper than it:
    [while (j < lines.length && lines[j].indent > indent)]. *)
Fixpoint deeper (rest : list line) (indent0 : nat) : list line :=
  match rest with
  | l :: rest' => if indent0 <? indent l then l :: deeper rest' indent0 else []
  | [] => []
  end.

(** The body of a block, each line through [processLine] *)
Fixpoint block (body : list line) (variables : env) (output : list string) : M result :=
  match body with
  | [] => ret (Result [] variables output)
  | bodyLine :: body' =>
      do r <- processLine bodyLine variables output;
      do r' <- block body' (r_variables r) (r_output r);
      ret (Result (r_steps r ++ r_steps r') (r_variables r') (r_output r'))
  end.

Fixpoint turns (n : nat) (iterIndex len : nat) (originalIndex : nat) (iterVar : string)
    (iterableValue : value) (loopBody : list line) (variables : env)
    (output : list string) : M result :=
  match n with
  | 0 => noret
  | S n' =>
      do item <- iter_item iterableValue iterIndex;
      let variables := obj_set iterVar item variables in
      do snap <- json_copy variables;
      let iteration :=
        Step originalIndex for_loop_iteration
          [("iterVar", VStr iterVar); ("currentValue", item);
           ("iterationIndex", VNum (Z.of_nat iterIndex));
           ("totalIterations", VNum (Z.of_nat len))]
          snap output in
      do r <- block loopBody variables output;
      do r' <- loop_test iterableValue (S iterIndex)
                 (fun len' => turns n' (S iterIndex) len' originalIndex iterVar
                                iterableValue loopBody (r_variables r) (r_output r))
                 (ret (Result [] (r_variables r) (r_output r)));
      ret (Result (iteration :: r_steps r ++ r_steps r') (r_variables r') (r_output r'))
  end.

Definition iterations (originalIndex : nat) (iterVar : string) (iterableValue : value)
    (loopBody : list line) (variables : env) (output : list string) : M result :=
  loop_test iterableValue 0
    (fun len => turns fuel 0 len originalIndex iterVar iterableValue loopBody
                  variables output)
    (ret (Result [] variables output)).

Definition for_block (lineData : line) (forMatch : found) (loopBody : list line)
    (variables : env) (output : list string) : M result :=
  let iterVar := group_or_empty 1 forMatch in
  let iterableExpr := group_or_empty 2 forMatch in
  do iterableValue <- for_iterable iterableExpr variables;
  do bodyIndices <- alloc (OArr (map (fun l => VNum (Z.of_nat (originalIndex l))) loopBody));
  do snap <- json_copy variables;
  let start :=
    Step (originalIndex lineData) for_loop_start
      [("iterVar", VStr iterVar); ("iterable", iterableValue); ("loopBody", bodyIndices)]
      snap output in
  do r <- iterations (originalIndex lineData) iterVar iterableValue loopBody
            variables output;
  do snap' <- json_copy (r_variables r);
  let finish :=
    Step (originalIndex lineData) for_loop_end [("iterVar", VStr iterVar)]
      snap' (r_output r) in
  ret (Result (start :: r_steps r ++ [finish]) (r_variables r) (r_output r)).

(** Any other header that ends in a colon: the lines of its block between
    a [control_structure_start] and a [control_structure_end] step. *)
Definition control_block (lineData : line) (body : list line) (variables : env)
    (output : list string) : M result :=
  do snap <- json_copy variables;
  let start :=
    Step (originalIndex lineData) control_structure_start
      [("code", VStr (trimmed lineData))] snap output in
  do r <- block body variables output;
  do snap' <- json_copy (r_variables r);
  let finish :=
    Step (originalIndex lineData) control_structure_end
      [("code", VStr (trimmed lineData))] snap' (r_output r) in
  ret (Result (start :: r_steps r ++ [finish]) (r_variables r) (r_output r)).

Definition turn (lines : list line) (i : nat) (lineData : line) (variables : env)
    (output : list string) : M (result * nat) :=
  let trimmed := trimmed lineData in
  let body := deeper (drop (S i) lines) (indent lineData) in
  if String.eqb trimmed "" || Str.startsWith trimmed "#"
  then ret (Result [] variables output, S i)
  else
    match (if Str.startsWith trimmed "for " then exec re_for trimmed else None) with
    | Some forMatch =>
        do r <- for_block lineData forMatch body variables output;
        ret (r, S i + length body)
    | None =>
        if Str.endsWith trimmed ":" then
          do r <- control_block lineData body variables output;
          ret (r, S i + length body)
        else
          do r <- processLine lineData variables output;
          ret (r, S i)
    end.

Fixpoint main_loop (n : nat) (lines : list line) (i : nat) (variables : env)
    (output : list string) : M (list step) :=
  match n with
  | 0 => ret []
  | S n' =>
      match lines !! i with
      | None => ret []
      | Some lineData =>
          do '(r, next) <- turn lines i lineData variables output;
          do rest <- main_loop n' lines next (r_variables r) (r_output r);
          ret (r_steps r ++ rest)
      end
  end.

Definition parseCode (codeString : string) : M (list step) :=
  let lines := make_lines codeString in
  main_loop (length lines) lines 0 [] [].

End Impl.

End Second.

(** * The stepper

    [executionState] and the functions that update it, which are the same
    text in both implementations.  Each function below is the updater the
    source hands to [setExecutionState]; a result of [None] is the
    [TypeError] of reading a property of [undefined].  The step counter
    and the index that the slider gives are integers. *)

Module Stepper.

(** [executionState].  [e_variables] is [None] for the [{}] of the initial
    state and of a reset, and the snapshot of a step otherwise. *)
Record state : Type := State {
  e_step : Z;
  e_variables : option value;
  e_currentLine : Z;
  e_isRunning : bool;
  e_executionSteps : list step;
  e_output : list string;
  e_callStack : list value;
  e_breakpoints : list nat
}.

(** [useState({ step: 0, variables: {}, currentLine: -1, ... })] *)
Definition initial : state := State 0 None (-1) false [] [] [] [].

(** [prev.executionSteps[i]] *)
Definition step_at (steps : list step) (i : Z) : option step :=
  if (i <? 0)%Z then None else steps !! Z.to_nat i.

(** [{ ...prev, step: i, variables: stepData.variables || prev.variables,
    currentLine: stepData.line, output: stepData.output || prev.output }];
    an array is truthy, so the output is that of the step. *)
Definition show (prev : state) (i : Z) : option state :=
  match step_at (e_executionSteps prev) i with
  | Some stepData =>
      Some (State i
              (if truthy (s_variables stepData) then Some (s_variables stepData)
               else e_variables prev)
              (Z.of_nat (s_line stepData))
              (e_isRunning prev)
              (e_executionSteps prev)
              (s_output stepData)
              (e_callStack prev)
              (e_breakpoints prev))
  | None => None
  end.

(** The update of [resetVisualization] when [parseCode] has returned
    [steps]; when it throws the state is left as it is. *)
Definition resetVisualization (steps : list step) (prev : state) : state :=
  State 0 None
    (match steps with stepData :: _ => Z.of_nat (s_line stepData) | [] => (-1)%Z end)
    false steps [] [] (e_breakpoints prev).

Definition nextStep (prev : state) : option state :=
  if (Z.of_nat (length (e_executionSteps prev)) - 1 <=? e_step prev)%Z
  then Some (State (e_step prev) (e_variables prev) (e_currentLine prev) false
               (e_executionSteps prev) (e_output prev) (e_callStack prev)
               (e_breakpoints prev))
  else show prev (e_step prev + 1).

Definition prevStep (prev : state) : option state :=
  if (e_step prev <=? 0)%Z then Some prev
  else show prev (e_step prev - 1).

Definition jumpToStep (stepIndex : Z) (prev : state) : option state :=
  if (stepIndex <? 0)%Z || (Z.of_nat (length (e_executionSteps prev)) <=? stepIndex)%Z
  then Some prev
  else show prev stepIndex.

Definition toggleBreakpoint (lineIndex : nat) (prev : state) : state :=
  let newBreakpoints :=
    if existsb (Nat.eqb lineIndex) (e_breakpoints prev)
    then List.filter (fun bp => negb (Nat.eqb bp lineIndex)) (e_breakpoints prev)
    else e_breakpoints prev ++ [lineIndex] in
  State (e_step prev) (e_variables prev) (e_currentLine prev) (e_isRunning prev)
    (e_executionSteps prev) (e_output prev) (e_callStack prev) newBreakpoints.

(** [togglePlay], where [steps] is what [parseCode] returns for the code
    as it is: a run is stopped, or started, after a reset if the counter is
    at the last step. *)
Definition togglePlay (steps : list step) (st : state) : state :=
  let running (b : bool) (prev : state) : state :=
    State (e_step prev) (e_variables prev) (e_currentLine prev) b
      (e_executionSteps prev) (e_output prev) (e_callStack prev) (e_breakpoints prev) in
  if e_isRunning st then running false st
  else
    running true
      (if (Z.of_nat (length (e_executionSteps st)) - 1 <=? e_step st)%Z
       then resetVisualization steps st else st).

(** The ticks of the timer that [togglePlay] starts: [nextStep], again
    and again. *)
Fixpoint ticks (n : nat) (st : state) : option state :=
  match n with
  | 0 => Some st
  | S n' => match nextStep st with Some st' => ticks n' st' | None => None end
  end.

End Stepper.

(** * Properties of the trace *)

Definition newline : string := String (ascii_of_nat 10) EmptyString.

(** A script, given line by line *)
Definition script (lines : list string) : string := Str.join newline lines.

(** The variables a step shows: the properties of its snapshot object *)
Definition shown (h : heap) (s : step) : option env :=
  match s_variables s with
  | VRef l => match h !! l with Some (OObj fs) => Some fs | _ => None end
  | _ => None
  end.

Definition has_action (a : action) (s : step) : bool := action_eqb (s_action s) a.

Set Implicit Arguments.

(** ** The vocabulary of the statements *)

(** *** What a copy adds to the heap *)

(** A value, and an object, whose references all lie between [lo] and
    [hi] *)
Definition val_in (lo hi : nat) (v : value) : Prop :=
  match v with VRef l => lo <= l < hi | _ => True end.

Definition obj_in (lo hi : nat) (o : obj) : Prop :=
  match o with
  | OArr els => Forall (val_in lo hi) els
  | OObj fs => Forall (fun p => val_in lo hi (snd p)) fs
  | OFun _ _ _ closure => val_in lo hi closure
  end.

(** [h'] is [h] with new objects after it that refer to new objects only;
    [P] is what else is known of them. *)
Definition appended (h h' : heap) (P : Prop) : Prop :=
  exists ext, h' = h ++ ext /\ Forall (obj_in (length h) (length h')) ext /\ P.

(** A function that copies a value into new objects *)
Definition copies (copy : value -> heap -> option (value * heap)) : Prop :=
  forall v h v' h', copy v h = Some (v', h') ->
    appended h h' (val_in (length h) (length h') v').

(** Every object of [h0] is in [h0'], at the same location. *)
Definition heap_sub (h0 h0' : heap) : Prop :=
  forall l o, h0 !! l = Some o -> h0' !! l = Some o.

(** Where [c] makes a copy, so does [c'], whatever the heap it appends to. *)
Definition copies_where (c c' : value -> heap -> option (value * heap)) : Prop :=
  forall v ha r, c v ha = Some r -> forall hb, exists r', c' v hb = Some r'.

(** *** Headers with a guard *)

(** The action of the step an [if] or [while] header records, and where
    its guard starts in the line *)
Definition guard_header (k : First.kind) : option (action * nat) :=
  match k with
  | First.KIf => Some (if_statement, 3)
  | First.KWhile => Some (while_loop_start, 6)
  | _ => None
  end.

(** A [for] or [def] header that the main loop of the first
    implementation handles itself, with the lines of its block; every
    other line it hands to [processLine]. *)
Definition block_header (l : line) : bool :=
  match (if Str.startsWith (trimmed l) "for " then Re.exec Rx.re_for (trimmed l)
         else None) with
  | Some _ => true
  | None =>
      match (if Str.startsWith (trimmed l) "def " then Re.exec Rx.re_def (trimmed l)
             else None) with
      | Some _ => true
      | None => false
      end
  end.

(** *** A value with its objects unfolded *)

#[local] Unset Elimination Schemes.
Inductive tree : Type :=
| TUndef | TNull | TBool (b : bool) | TNum (z : Z) | TNaN | TStr (s : string)
| TArr (items : list tree)
| TObj (fields : list (string * tree))
| TFun (name : string) (params : list string) (body : list string) (closure : tree)
| TLoop.
#[local] Set Elimination Schemes.

(** The value a reference stands for, objects unfolded *)
Fixpoint deep (n : nat) (h : heap) (v : value) : tree :=
  match v with
  | VUndef => TUndef
  | VNull => TNull
  | VBool b => TBool b
  | VNum z => TNum z
  | VNaN => TNaN
  | VStr s => TStr s
  | VRef l =>
      match n with
      | 0 => TLoop
      | S n' =>
          match h !! l with
          | Some (OArr els) => TArr (map (deep n' h) els)
          | Some (OObj fs) => TObj (map (fun p => (fst p, deep n' h (snd p))) fs)
          | Some (OFun name params body closure) =>
              TFun name params (map trimmed body) (deep n' h closure)
          | None => TLoop
          end
      end
  end.

(** What a value reads as in a heap: no chain of distinct objects is
    longer than the heap. *)
Definition view (h : heap) (v : value) : tree := deep (length h) h v.

(** *** Protected locations

    The objects of the snapshots taken so far are protected: a computation
    must leave them as they are, and must neither receive nor return a
    reference to one of them. *)

(** A location is live when it is allocated and not protected. *)
Definition live (P : loc -> Prop) (n : nat) (l : loc) : Prop := l < n /\ ~ P l.

(** A value, and an object, that refer to locations in [Q] only *)
Definition val_ok (Q : loc -> Prop) (v : value) : Prop :=
  match v with VRef l => Q l | _ => True end.

Definition obj_ok (Q : loc -> Prop) (o : obj) : Prop :=
  match o with
  | OArr els => Forall (val_ok Q) els
  | OObj fs => Forall (fun p => val_ok Q (snd p)) fs
  | OFun _ _ _ closure => val_ok Q closure
  end.

(** The protected locations are allocated, and no object outside them
    refers to one of them or to a location not yet allocated. *)
Definition inv (P : loc -> Prop) (h : heap) : Prop :=
  (forall l, P l -> l < length h)
  /\ (forall l o, h !! l = Some o -> ~ P l -> obj_ok (live P (length h)) o).

(** The heap has grown and the protected objects are as they were. *)
Definition ext (P : loc -> Prop) (h h' : heap) : Prop :=
  length h <= length h' /\ (forall l, P l -> h' !! l = h !! l).

(** The data a computation is given or returns refer to locations in [Q]
    only: [valid Q a], by the type of [a]. *)
Class Valid (A : Type) : Type := valid : (loc -> Prop) -> A -> Prop.

(** What is valid stays so when more locations are allowed. *)
Class Monotone (A : Type) `{Valid A} : Prop :=
  valid_impl : forall (Q Q' : loc -> Prop) (a : A),
    (forall l, Q l -> Q' l) -> valid Q a -> valid Q' a.
Arguments Monotone A {_}.

(** What a computation started in [h] must leave: the protected objects as
    they were, whether it returns or throws, and a result that refers to
    live locations only. *)
Definition post {A} `{Valid A} (P : loc -> Prop) (h : heap) (r : res A) : Prop :=
  match r with
  | Ok a h' => inv P h' /\ ext P h h' /\ valid (live P (length h')) a
  | Err _ h' => inv P h' /\ ext P h h'
  | NoRet => True
  end.

Definition valid_always {A} (Q : loc -> Prop) (a : A) : Prop := True.

Definition valid_opt {A} `{Valid A} (Q : loc -> Prop) (o : option A) : Prop :=
  match o with Some a => valid Q a | None => True end.

#[export] Instance valid_value : Valid value := val_ok.
#[export] Instance valid_obj : Valid obj := obj_ok.
#[export] Instance valid_string : Valid string := valid_always.
#[export] Instance valid_bool : Valid bool := valid_always.
#[export] Instance valid_nat : Valid nat := valid_always.
#[export] Instance valid_unit : Valid unit := valid_always.
#[export] Instance valid_list {A} `{Valid A} : Valid (list A) :=
  fun Q l => Forall (valid Q) l.
#[export] Instance valid_prod {A B} `{Valid A} `{Valid B} : Valid (A * B) :=
  fun Q p => valid Q (fst p) /\ valid Q (snd p).
#[export] Instance valid_option {A} `{Valid A} : Valid (option A) := valid_opt.
#[export] Instance valid_pending : Valid pending := fun Q p => valid Q (p_vars p).
#[export] Instance valid_result : Valid result := fun Q r => valid Q (r_variables r).

(** A helper function is sound when for every protected set it leaves the
    protected objects alone and returns a value that refers to none. *)
Definition native_ok (f : list value -> M value) : Prop :=
  forall P h args, inv P h -> valid (live P (length h)) args -> post P h (f args h).

Definition valid_bind (Q : loc -> Prop) (b : binding) : Prop :=
  match b with BVal v => val_ok Q v | BNative f => native_ok f end.

#[export] Instance valid_binding : Valid binding := valid_bind.

(** The engine touches only what its arguments reach, and makes up no
    reference. *)
Record host_ok (H : host) : Prop := {
  ok_new_function : forall P bindings body h,
    inv P h -> valid (live P (length h)) bindings ->
    post P h (new_function H bindings body h);
  ok_json_parse : forall P text h, inv P h -> post P h (json_parse H text h);
  ok_json_stringify : forall P v h,
    inv P h -> valid (live P (length h)) v -> post P h (json_stringify H v h);
  ok_object_to_string : forall P l h,
    inv P h -> live P (length h) l -> post P h (object_to_string H l h);
  ok_binop : forall P op a b h,
    inv P h -> valid (live P (length h)) a -> valid (live P (length h)) b ->
    post P h (binop H op a b h);
  ok_is_nan : forall P text h, inv P h -> post P h (is_nan H text h);
  ok_parse_float : forall P text h, inv P h -> post P h (parse_float H text h);
  ok_parse_int : forall P v h,
    inv P h -> valid (live P (length h)) v -> post P h (parse_int H v h)
}.

(** *** The stretches of the heap that hold the snapshots *)

(** The objects a snapshot is made of lie in a stretch of the heap: the
    locations from [fst r] up to [snd r]. *)
Definition region : Type := nat * nat.

Definition inside (r : region) (l : loc) : Prop := fst r <= l < snd r.

(** The protected locations, with the stretches of the snapshots taken
    since *)
Definition guard (P : loc -> Prop) (rs : list region) (l : loc) : Prop :=
  P l \/ Exists (fun r => inside r l) rs.

(** No object of the stretch refers to an object outside it. *)
Definition closed (h : heap) (r : region) : Prop :=
  forall l, inside r l -> exists o, h !! l = Some o /\ obj_in (fst r) (snd r) o.

(** The snapshot of the step lies in the stretch. *)
Definition snapshot_in (s : step) (r : region) : Prop :=
  val_in (fst r) (snd r) (s_variables s).

(** The stretches follow one another between [lo] and [hi]. *)
Fixpoint ordered (lo : nat) (rs : list region) (hi : nat) : Prop :=
  match rs with
  | [] => lo <= hi
  | r :: rs' => lo <= fst r /\ fst r <= snd r /\ ordered (snd r) rs' hi
  end.

(** The steps [ss] have their snapshots in the stretches [rs], one after
    the other from [lo] on, and nothing else in the heap [h] refers to
    them. *)
Definition recorded (P : loc -> Prop) (lo : nat) (h : heap) (ss : list step)
    (rs : list region) : Prop :=
  Forall2 snapshot_in ss rs /\ ordered lo rs (length h) /\ Forall (closed h) rs
  /\ inv (guard P rs) h.

(** What [Q] protects and [P] does not was allocated from [n] on. *)
Definition fresh (P Q : loc -> Prop) (n : nat) : Prop :=
  forall l, Q l -> P l \/ n <= l.

#[export] Instance valid_step : Valid step := valid_always.

(** A computation that records steps: those of its result are [pre] and
    then new ones, each with a stretch of its own. *)
Definition track {A} `{Valid A} (steps : A -> list step) (pre : list step)
    (P : loc -> Prop) (h : heap) (r : res A) : Prop :=
  match r with
  | Ok a h' =>
      exists new rs, steps a = pre ++ new /\ recorded P (length h) h' new rs
                     /\ ext P h h' /\ valid (live (guard P rs) (length h')) a
  | _ => True
  end.

(** The values an object holds *)
Definition children (o : obj) : list value :=
  match o with
  | OArr els => els
  | OObj fs => map snd fs
  | OFun _ _ _ closure => [closure]
  end.

(** [reach h v l]: the object at [l] is [v], or an object inside it, at
    any depth. *)
Inductive reach (h : heap) : value -> loc -> Prop :=
| reach_here l : reach h (VRef l) l
| reach_child l o v l' :
    h !! l = Some o -> In v (children o) -> reach h v l' -> reach h (VRef l) l'.

#[export] Instance valid_ascii : Valid ascii := valid_always.
#[export] Instance valid_expr : Valid Mini.expr := valid_always.
#[export] Instance valid_token : Valid Mini.token := valid_always.

(** What a loop over nothing leaves in the trace: the step that opens the
    loop, with an empty list as its iterable, and the step that closes
    it; the variables and the output are as before. *)
Definition empty_loop (i : nat) (variables : env) (output : list string)
    (r : res (result * nat)) : Prop :=
  exists start finish next h',
    r = Ok (Result [start; finish] variables output, next) h'
    /\ s_action start = for_loop_start
    /\ (exists l, field "iterable" start = Some (VRef l) /\ h' !! l = Some (OArr []))
    /\ s_action finish = for_loop_end
    /\ i < next.

(** *** [__range] *)

(** The numbers [start], [start + step], ... : [n] of them *)
Definition arithmetic (start step : Z) (n : nat) : list value :=
  map (fun k => VNum (start + Z.of_nat k * step)) (seq 0 n).

(** How many numbers [start + k * step] lie before [stop], for a positive
    step *)
Definition count_up (start stop step : Z) : nat :=
  Z.to_nat ((stop - start + step - 1) / step).

(** An integer that the numbers of the source, which are doubles, carry
    exactly, and to which another one can be added exactly: at most
    [2^52] in magnitude. *)
Definition exact_integer (z : Z) : Prop := (- 2 ^ 52 <= z <= 2 ^ 52)%Z.

(** How many numbers [range(start, stop, step)] has *)
Definition range_count (start stop step : Z) : nat :=
  if (0 <? step)%Z then count_up start stop step
  else if (step <? 0)%Z then count_up stop start (- step)
  else 0.

(** *** The body of a block *)

(** A line with nothing but blanks *)
Definition blank (l : line) : bool := String.eqb (trimmed l) "".

(** *** The step of a line *)

(** What holds of the result whenever the computation returns one *)
Definition always {A} (Q : A -> Prop) (r : res A) : Prop :=
  match r with Ok a _ => Q a | _ => True end.

(** The actions of the step that a line of a given kind records, in the
    first and in the second implementation *)
Definition first_actions (k : First.kind) : list action :=
  match k with
  | First.KAssign => [assign; reassign]
  | First.KAugmented => [augmented_assign]
  | First.KListOp => [list_operation]
  | First.KPrint => [print]
  | First.KDef => [function_definition]
  | First.KCall => [function_call]
  | First.KFor => [for_loop_start]
  | First.KIf => [if_statement]
  | First.KWhile => [while_loop_start]
  | First.KExecute => [execute]
  | First.KNone => []
  end.

Definition second_actions (k : Second.kind) : list action :=
  match k with
  | Second.KAssign => [assign; reassign]
  | Second.KAugmented => [augmented_assign]
  | Second.KListOp => [list_operation]
  | Second.KDictOp => [dict_operation]
  | Second.KPrint => [print]
  | Second.KFor => [for_loop_start]
  | Second.KIf => [if_statement]
  | Second.KWhile => [while_loop_start]
  | Second.KDef => [function_definition]
  | Second.KCall => [function_call]
  | Second.KExecute => [execute]
  | Second.KNone => []
  end.

(** The output a step leaves, given the output before it: one more line
    if the step is a [print], the same otherwise *)
Definition output_after (a : action) (out out' : list string) : Prop :=
  match a with
  | print => exists text, out' = out ++ [text]
  | _ => out' = out
  end.

Definition pending_ok (allowed : list action) (out : list string) (o : option pending)
    : Prop :=
  match o with
  | Some p => In (p_action p) allowed /\ output_after (p_action p) out (p_out p)
  | None => True
  end.

(** The result of [processLine] for a line whose kind records the actions
    [allowed]: no step and the output as it was, or one step at the line,
    which is an [error] step with the output as it was or a step of the
    line's kind *)
Definition line_steps_ok (allowed : list action) (lineData : line) (out : list string)
    (r : result) : Prop :=
  match r_steps r with
  | [] => r_output r = out
  | [s] =>
      s_line s = originalIndex lineData
      /\ s_output s = r_output r
      /\ (s_action s = error /\ r_output r = out
          \/ In (s_action s) allowed /\ output_after (s_action s) out (r_output r))
  | _ => False
  end.

(** *** The output along the trace *)

(** Each step of [ss] leaves the output of the step before it, or [out]
    for the first, with one more line if it is a [print]. *)
Fixpoint chain (out : list string) (ss : list step) : Prop :=
  match ss with
  | [] => True
  | s :: ss' => output_after (s_action s) out (s_output s) /\ chain (s_output s) ss'
  end.

(** The output after the steps [ss] *)
Definition final_output (out : list string) (ss : list step) : list string :=
  match last ss with Some s => s_output s | None => out end.

(** The steps [ss] lead from the output [out] to the output [out']. *)
Definition steps_chain (out : list string) (ss : list step) (out' : list string) : Prop :=
  chain out ss /\ out' = final_output out ss.

Definition result_chain (out : list string) (r : result) : Prop :=
  steps_chain out (r_steps r) (r_output r).

(** *** The lines of the steps *)

(** A line that is neither blank nor a comment *)
Definition is_code (l : line) : bool :=
  negb (String.eqb (trimmed l) "" || Str.startsWith (trimmed l) "#").

(** [n] is the index that a line of [ls] carries, and the line is code. *)
Definition code_index (ls : list line) (n : nat) : Prop :=
  exists l, In l ls /\ is_code l = true /\ originalIndex l = n.

(** The steps [ss] are recorded at lines of [ls] that are code. *)
Definition at_lines (ls : list line) (ss : list step) : Prop :=
  Forall (fun s => code_index ls (s_line s)) ss.

(** *** The turns of a loop *)

(** What a [for_loop_iteration] step tells of its turn: [currentValue],
    [iterationIndex] and [totalIterations] *)
Definition turn_fields (s : step) : option value * option value * option value :=
  (field "currentValue" s, field "iterationIndex" s, field "totalIterations" s).

(** The turns of a loop over [items]: each item with its index and the
    number of items *)
Definition turns_over (items : list value)
    : list (option value * option value * option value) :=
  imap (fun i item => (Some item, Some (VNum (Z.of_nat i)),
                       Some (VNum (Z.of_nat (length items))))) items.

(** The [for_loop_iteration] steps among [ss] *)
Definition iteration_steps (ss : list step) : list step :=
  List.filter (has_action for_loop_iteration) ss.

(** *** The values of a comprehension *)

(** A comprehension without a condition: [condition] is the fourth group
    of the match, which is absent or empty. *)
Definition unconditional (condition : option string) : bool :=
  match condition with Some c => String.eqb c "" | None => true end.

(** *** What a snapshot reads as *)

(** The properties that [JSON.stringify] keeps: one whose value is
    [undefined] is left out. *)
Definition json_members (f : tree -> tree)
    : list (string * tree) -> list (string * tree) :=
  fix members (fs : list (string * tree)) : list (string * tree) :=
    match fs with
    | [] => []
    | (k, TUndef) :: fs' => members fs'
    | (k, t) :: fs' => (k, f t) :: members fs'
    end.

(** What [JSON.parse(JSON.stringify(x))] reads as, given what [x] reads
    as: [undefined] and [NaN] have become [null], and the properties that
    are [undefined] are gone. *)
Fixpoint jsonify (t : tree) : tree :=
  match t with
  | TUndef | TNaN => TNull
  | TArr items => TArr (map jsonify items)
  | TObj fields => TObj (json_members jsonify fields)
  | TFun name params body closure => TFun name params body (jsonify closure)
  | TNull | TBool _ | TNum _ | TStr _ | TLoop => t
  end.

(** No chain of objects from [v] is longer than [n]. *)
Fixpoint finite (n : nat) (h : heap) (v : value) : bool :=
  match v with
  | VRef l =>
      match n with
      | 0 => false
      | S n' =>
          match h !! l with
          | Some o => forallb (finite n' h) (children o)
          | None => false
          end
      end
  | _ => true
  end.

(** The object at [l] contains itself, at some depth. *)
Definition circular (h : heap) (l : loc) : Prop :=
  exists o v, h !! l = Some o /\ In v (children o) /\ reach h v l.

(** A reference below [m] *)
Definition val_below (m : nat) (v : value) : Prop :=
  match v with VRef l => l < m | _ => True end.

(** A function that copies a value into new objects which read as the
    [jsonify] of what the value reads as in [h0] *)
Definition reads_as (copy : value -> heap -> option (value * heap)) (n : nat) (h0 : heap)
    : Prop :=
  forall v h v' h', copy v h = Some (v', h') ->
    forall m e, val_below m v' -> deep m (h' ++ e) v' = jsonify (deep n h0 v).

(** *** The operations on a list *)

(** A value that is not a reference to an object *)
Definition is_scalar (v : value) : bool :=
  match v with VRef _ => false | _ => true end.

(** *** The stepper *)

(** The step counter is at a step of the trace, or at 0 when the trace is
    empty. *)
Definition in_trace (st : Stepper.state) : Prop :=
  (0 <= Stepper.e_step st)%Z
  /\ (Stepper.e_step st < Z.max 1 (Z.of_nat (length (Stepper.e_executionSteps st))))%Z.

(** The state shows the step [s]: its line and its output, and its
    variables if it has any. *)
Definition shows (st : Stepper.state) (s : step) : Prop :=
  Stepper.e_currentLine st = Z.of_nat (s_line s)
  /\ Stepper.e_output st = s_output s
  /\ (truthy (s_variables s) = true -> Stepper.e_variables st = Some (s_variables s)).

(** One of the updates of the state that the buttons, the slider and the
    timer make *)
Inductive command : Type :=
| CNext | CPrev | CJump (stepIndex : Z) | CToggle (lineIndex : nat).

Definition is_jump (c : command) : bool :=
  match c with CJump _ => true | _ => false end.

Definition run_command (c : command) (st : Stepper.state) : option Stepper.state :=
  match c with
  | CNext => Stepper.nextStep st
  | CPrev => Stepper.prevStep st
  | CJump i => Stepper.jumpToStep i st
  | CToggle l => Some (Stepper.toggleBreakpoint l st)
  end.

Fixpoint run_commands (cs : list command) (st : Stepper.state) : option Stepper.state :=
  match cs with
  | [] => Some st
  | c :: cs' =>
      match run_command c st with Some st' => run_commands cs' st' | None => None end
  end.

(** *** What the stepper displays *)

(** The line and the output of the state are those of a step of its
    trace, or those of a reset. *)
Definition displays (st : Stepper.state) : Prop :=
  (Stepper.e_output st = []
   \/ exists s, In s (Stepper.e_executionSteps st) /\ Stepper.e_output st = s_output s)
  /\ (Stepper.e_executionSteps st = [] /\ Stepper.e_currentLine st = (-1)%Z
      \/ exists s, In s (Stepper.e_executionSteps st)
                   /\ Stepper.e_currentLine st = Z.of_nat (s_line s)).

(** ** Proofs *)

(** *** The copy made by [JSON.parse(JSON.stringify(x))] *)

Lemma val_in_mono lo hi lo' hi' v :
  lo' <= lo -> hi <= hi' -> val_in lo hi v -> val_in lo' hi' v.
Proof. destruct v; simpl; auto; lia. Qed.

Lemma obj_in_mono lo hi lo' hi' o :
  lo' <= lo -> hi <= hi' -> obj_in lo hi o -> obj_in lo' hi' o.
Proof.
  intros Hlo Hhi. destruct o; simpl.
  - intros F. eapply Forall_impl; [exact F|]. intros v. by apply val_in_mono.
  - intros F. eapply Forall_impl; [exact F|]. intros p. by apply val_in_mono.
  - by apply val_in_mono.
Qed.

Lemma appended_trans h h1 h2 P Q R :
  appended h h1 P -> appended h1 h2 Q ->
  (length h <= length h1 <= length h2 -> P -> Q -> R) ->
  appended h h2 R.
Proof.
  intros (e1 & -> & F1 & HP) (e2 & -> & F2 & HQ) HR.
  exists (e1 ++ e2). rewrite !length_app in *. split; [by rewrite app_assoc|].
  split.
  - apply Forall_app; split.
    + eapply Forall_impl; [exact F1|]. intros o. apply obj_in_mono; lia.
    + eapply Forall_impl; [exact F2|]. intros o. apply obj_in_mono; lia.
  - apply HR; auto. lia.
Qed.

Lemma appended_refl h (P : Prop) : P -> appended h h P.
Proof. intros HP. exists []. rewrite app_nil_r. auto. Qed.

Lemma appended_alloc h h1 o P :
  appended h h1 P -> obj_in (length h) (S (length h1)) o ->
  appended h (h1 ++ [o]) (val_in (length h) (length (h1 ++ [o])) (VRef (length h1))).
Proof.
  intros (e1 & -> & F1 & HP) Ho.
  exists (e1 ++ [o]). rewrite !length_app in *. simpl in *.
  split; [by rewrite app_assoc|]. split.
  - apply Forall_app; split.
    + eapply Forall_impl; [exact F1|]. intros o'. apply obj_in_mono; lia.
    + constructor; [|constructor]. eapply obj_in_mono; [| |exact Ho]; lia.
  - lia.
Qed.

Lemma copy_elems_appended copy els :
  copies copy ->
  forall h els' h', copy_elems copy els h = Some (els', h') ->
    appended h h' (Forall (val_in (length h) (length h')) els').
Proof.
  intros Hc. induction els as [|e els IH]; simpl; intros h els' h' E.
  - injection E as <- <-. apply appended_refl. constructor.
  - destruct (copy e h) as [[e' h1]|] eqn:E1; [|discriminate].
    destruct (copy_elems copy els h1) as [[r h2]|] eqn:E2; [|discriminate].
    injection E as <- <-.
    eapply appended_trans; [eapply Hc; exact E1|eapply IH; exact E2|].
    intros Hlen Hv Hr. constructor.
    + eapply val_in_mono; [| |exact Hv]; lia.
    + eapply Forall_impl; [exact Hr|]. intros v. apply val_in_mono; lia.
Qed.

Lemma copy_fields_appended copy fs :
  copies copy ->
  forall h fs' h', copy_fields copy fs h = Some (fs', h') ->
    appended h h' (Forall (fun p => val_in (length h) (length h') (snd p)) fs').
Proof.
  intros Hc. induction fs as [|[k v] fs IH]; simpl; intros h fs' h' E.
  - injection E as <- <-. apply appended_refl. constructor.
  - assert (Hgen : forall w, match copy w h with
                    | Some (v', h1) =>
                        match copy_fields copy fs h1 with
                        | Some (r, h2) => Some ((k, v') :: r, h2)
                        | None => None
                        end
                    | None => None
                    end = Some (fs', h') ->
                  appended h h' (Forall (fun p => val_in (length h) (length h') (snd p)) fs')).
    { intros w E'.
      destruct (copy w h) as [[e' h1]|] eqn:E1; [|discriminate].
      destruct (copy_fields copy fs h1) as [[r h2]|] eqn:E2; [|discriminate].
      injection E' as <- <-.
      eapply appended_trans; [eapply Hc; exact E1|eapply IH; exact E2|].
      intros Hlen Hv Hr. constructor.
      - simpl. eapply val_in_mono; [| |exact Hv]; lia.
      - eapply Forall_impl; [exact Hr|]. intros p. apply val_in_mono; lia. }
    destruct v; [by apply IH | eapply Hgen; exact E ..].
Qed.

Lemma copy_value_copies depth h0 : copies (copy_value depth h0).
Proof.
  induction depth as [|d IH]; intros v h v' h' E; simpl in E; [discriminate|].
  destruct v; try (injection E as <- <-; apply appended_refl; exact I).
  destruct (h0 !! l) as [[els|fs|name params body closure]|] eqn:El; [| | |discriminate].
  - destruct (copy_elems _ els h) as [[els' h1]|] eqn:E1; [|discriminate].
    injection E as <- <-.
    pose proof E1 as A. eapply copy_elems_appended in A; [|exact IH].
    eapply appended_alloc; [exact A|]. simpl.
    destruct A as (e & -> & _ & F). eapply Forall_impl; [exact F|].
    intros v. apply val_in_mono; lia.
  - destruct (copy_fields _ fs h) as [[fs' h1]|] eqn:E1; [|discriminate].
    injection E as <- <-.
    pose proof E1 as A. eapply copy_fields_appended in A; [|exact IH].
    eapply appended_alloc; [exact A|]. simpl.
    destruct A as (e & -> & _ & F). eapply Forall_impl; [exact F|].
    intros v. apply val_in_mono; lia.
  - destruct (copy_value d h0 closure h) as [[c' h1]|] eqn:E1; [|discriminate].
    injection E as <- <-.
    pose proof E1 as A. apply IH in A.
    eapply appended_alloc; [exact A|]. simpl.
    destruct A as (e & -> & _ & F). eapply val_in_mono; [| |exact F]; lia.
Qed.

Lemma json_copy_appended vars h snap h' :
  json_copy vars h = Ok snap h' ->
  appended h h' (val_in (length h) (length h') snap).
Proof.
  unfold json_copy. intros E.
  destruct (copy_fields _ vars h) as [[fs h1]|] eqn:E1; [|discriminate].
  injection E as <- <-.
  pose proof E1 as A. eapply copy_fields_appended in A; [|apply copy_value_copies].
  eapply appended_alloc; [exact A|]. simpl.
  destruct A as (e & -> & _ & F). eapply Forall_impl; [exact F|].
  intros v. apply val_in_mono; lia.
Qed.


Lemma copy_elems_where c c' els :
  copies_where c c' ->
  forall ha r, copy_elems c els ha = Some r ->
  forall hb, exists r', copy_elems c' els hb = Some r'.
Proof.
  intros Hc. induction els as [|e els IH]; simpl; intros ha r E hb; [eauto|].
  destruct (c e ha) as [[e' h1]|] eqn:E1; [|discriminate].
  destruct (copy_elems c els h1) as [[r1 h2]|] eqn:E2; [|discriminate].
  destruct (Hc _ _ _ E1 hb) as [[e'' hb1] ->].
  destruct (IH _ _ E2 hb1) as [[r2 hb2] ->]. eauto.
Qed.

Lemma copy_fields_where c c' fs :
  copies_where c c' ->
  forall ha r, copy_fields c fs ha = Some r ->
  forall hb, exists r', copy_fields c' fs hb = Some r'.
Proof.
  intros Hc. induction fs as [|[k v] fs IH]; simpl; intros ha r E hb; [eauto|].
  assert (Hgen : forall w,
    match c w ha with
    | Some (v', h1) =>
        match copy_fields c fs h1 with
        | Some (r, h2) => Some ((k, v') :: r, h2)
        | None => None
        end
    | None => None
    end = Some r ->
    exists r', match c' w hb with
    | Some (v', h1) =>
        match copy_fields c' fs h1 with
        | Some (r, h2) => Some ((k, v') :: r, h2)
        | None => None
        end
    | None => None
    end = Some r').
  { intros w E'.
    destruct (c w ha) as [[e' h1]|] eqn:E1; [|discriminate].
    destruct (copy_fields c fs h1) as [[r1 h2]|] eqn:E2; [|discriminate].
    destruct (Hc _ _ _ E1 hb) as [[e'' hb1] ->].
    destruct (IH _ _ E2 hb1) as [[r2 hb2] ->]. eauto. }
  destruct v; [by eapply IH | eapply Hgen; exact E ..].
Qed.

Lemma copy_value_where depth :
  forall h0 depth' h0', depth <= depth' -> heap_sub h0 h0' ->
    copies_where (copy_value depth h0) (copy_value depth' h0').
Proof.
  induction depth as [|d IH]; intros h0 depth' h0' Hd Hsub v ha r E hb;
    [discriminate|].
  destruct depth' as [|d']; [lia|].
  destruct v; simpl in *; eauto.
  destruct (h0 !! l) as [o|] eqn:El; [|discriminate].
  rewrite (Hsub _ _ El).
  assert (Hw : copies_where (copy_value d h0) (copy_value d' h0'))
    by (apply IH; [lia|done]).
  destruct o as [els|fs|name params body closure].
  - destruct (copy_elems _ els ha) as [[els' h1]|] eqn:E1; [|discriminate].
    edestruct (@copy_elems_where) as [[? ?] ->]; [exact Hw|exact E1|]. eauto.
  - destruct (copy_fields _ fs ha) as [[fs' h1]|] eqn:E1; [|discriminate].
    edestruct (@copy_fields_where) as [[? ?] ->]; [exact Hw|exact E1|]. eauto.
  - destruct (copy_value d h0 closure ha) as [[c' h1]|] eqn:E1; [|discriminate].
    destruct (Hw _ _ _ E1 hb) as [[? ?] ->]. eauto.
Qed.

(** Variables that can be copied can still be copied after the heap has
    grown. *)
Lemma json_copy_stable vars h snap h' ext :
  json_copy vars h = Ok snap h' ->
  exists snap' h'', json_copy vars (h ++ ext) = Ok snap' h''.
Proof.
  unfold json_copy. intros E.
  destruct (copy_fields _ vars h) as [[fs h1]|] eqn:E1; [|discriminate].
  assert (Hw : copies_where (copy_value (S (length h)) h)
                 (copy_value (S (length (h ++ ext))) (h ++ ext))).
  { apply copy_value_where; [rewrite length_app; lia|].
    intros l o Hl. by apply lookup_app_l_Some. }
  edestruct (@copy_fields_where) as [[fs' h2] ->]; [exact Hw|exact E1|]. eauto.
Qed.

Lemma json_copy_again vars h snap h' :
  json_copy vars h = Ok snap h' ->
  exists snap' h'', json_copy vars h' = Ok snap' h''.
Proof.
  intros E. pose proof E as A. apply json_copy_appended in A.
  destruct A as (ext & -> & _).
  by eapply json_copy_stable.
Qed.


(** *** A [for] header whose iterable fails to evaluate *)

Ltac mred :=
  cbv beta iota zeta delta [bind ret throw noret try_catch alloc store get_heap negb];
  cbn [r_variables r_output r_steps].

Lemma first_char s c p :
  Str.startsWith s (String c p) = true -> exists s', s = String c s'.
Proof.
  destruct s as [|d s']; unfold Str.startsWith; simpl; [discriminate|].
  destruct (Ascii.eqb_spec c d) as [->|]; [eauto|discriminate].
Qed.

(** A [for] header at the top level of the first implementation whose
    iterable fails to evaluate *)
Lemma first_failed_iterable (H : host) (fuel : nat) (lines : list line)
    (i : nat) (lineData : line) (variables : env) (output : list string)
    (forMatch : Re.found) (msg : string) (h h1 : heap) (snap0 : value) (h0 : heap) :
  Str.startsWith (trimmed lineData) "for " = true ->
  Re.exec Rx.re_for (trimmed lineData) = Some forMatch ->
  First.safeEval H (Re.group_or_empty 2 forMatch) variables h = Err msg h1 ->
  json_copy variables h1 = Ok snap0 h0 ->
  exists start finish next h',
    First.turn H fuel lines i lineData variables output h
      = Ok (Result [start; finish] variables output, next) h'
    /\ s_action start = for_loop_start
    /\ (exists l, field "iterable" start = Some (VRef l) /\ h' !! l = Some (OArr []))
    /\ s_action finish = for_loop_end
    /\ i < next.
Proof.
  intros Hfor Hm Hfail Hcopy.
  pose proof Hfor as Et. apply first_char in Et. destruct Et as [rest Et].
  assert (Hb : String.eqb (trimmed lineData) "" || Str.startsWith (trimmed lineData) "#"
               = false) by (rewrite Et; reflexivity).
  unfold First.turn.
  destruct (block_after _ _) as [body passed].
  cbv zeta. rewrite Hb, Hfor, Hm.
  unfold First.for_block, First.for_iterable, Shared.for_iterable.
  set (h2 := h1 ++ [OArr []]).
  set (h3 := h2 ++ [OArr (map (fun l => VNum (Z.of_nat (originalIndex l))) body)]).
  pose proof Hcopy as Hc1.
  eapply (@json_copy_stable _ _ _ _ ([OArr []] ++ [OArr (map (fun l => VNum (Z.of_nat (originalIndex l))) body)])) in Hc1.
  destruct Hc1 as (snap & h4 & Hc1).
  rewrite app_assoc in Hc1. fold h2 h3 in Hc1.
  pose proof Hc1 as Hc2. apply json_copy_again in Hc2. destruct Hc2 as (snap' & h5 & Hc2).
  pose proof Hc1 as A. apply json_copy_appended in A. destruct A as (ext & Eh4 & _).
  assert (Hl4 : h4 !! length h1 = Some (OArr [])).
  { rewrite Eh4. unfold h3, h2. rewrite <- !app_assoc. apply list_lookup_middle. done. }
  pose proof Hc2 as A. apply json_copy_appended in A. destruct A as (ext' & Eh5 & _).
  assert (Hl5 : h5 !! length h1 = Some (OArr [])).
  { rewrite Eh5. by apply lookup_app_l_Some. }
  assert (Hit : is_iterable (VRef (length h1)) h2 = true).
  { unfold is_iterable, is_array, h2. by rewrite list_lookup_middle. }
  eexists _, _, _, h5. split.
  { mred. rewrite Hfail. mred. fold h2. rewrite Hit. mred.
    fold h3. rewrite Hc1. mred.
    unfold First.iterations, loop_test, iter_length, read_array. mred.
    rewrite Hl4. change (length (@nil value) <=? 0) with true. mred.
    rewrite Hc2. reflexivity. }
  split; [reflexivity|]. split; [eexists; split; [reflexivity|exact Hl5]|].
  split; [reflexivity|lia].
Qed.


(** The same header in the second implementation *)
Lemma second_failed_iterable (H : host) (fuel : nat) (lines : list line)
    (i : nat) (lineData : line) (variables : env) (output : list string)
    (forMatch : Re.found) (msg : string) (h h1 : heap) (snap0 : value) (h0 : heap) :
  Str.startsWith (trimmed lineData) "for " = true ->
  Re.exec Rx.re_for (trimmed lineData) = Some forMatch ->
  Second.safeEval H (Re.group_or_empty 2 forMatch) variables h = Err msg h1 ->
  json_copy variables h1 = Ok snap0 h0 ->
  exists start finish next h',
    Second.turn H fuel lines i lineData variables output h
      = Ok (Result [start; finish] variables output, next) h'
    /\ s_action start = for_loop_start
    /\ (exists l, field "iterable" start = Some (VRef l) /\ h' !! l = Some (OArr []))
    /\ s_action finish = for_loop_end
    /\ i < next.
Proof.
  intros Hfor Hm Hfail Hcopy.
  pose proof Hfor as Et. apply first_char in Et. destruct Et as [rest Et].
  assert (Hb : String.eqb (trimmed lineData) "" || Str.startsWith (trimmed lineData) "#"
               = false) by (rewrite Et; reflexivity).
  unfold Second.turn. cbv zeta. rewrite Hb, Hfor, Hm.
  set (body := Second.deeper _ _).
  unfold Second.for_block, Second.for_iterable, Shared.for_iterable.
  set (h2 := h1 ++ [OArr []]).
  set (h3 := h2 ++ [OArr (map (fun l => VNum (Z.of_nat (originalIndex l))) body)]).
  pose proof Hcopy as Hc1.
  eapply (@json_copy_stable _ _ _ _ ([OArr []] ++ [OArr (map (fun l => VNum (Z.of_nat (originalIndex l))) body)])) in Hc1.
  destruct Hc1 as (snap & h4 & Hc1).
  rewrite app_assoc in Hc1. fold h2 h3 in Hc1.
  pose proof Hc1 as Hc2. apply json_copy_again in Hc2. destruct Hc2 as (snap' & h5 & Hc2).
  pose proof Hc1 as A. apply json_copy_appended in A. destruct A as (ext & Eh4 & _).
  assert (Hl4 : h4 !! length h1 = Some (OArr [])).
  { rewrite Eh4. unfold h3, h2. rewrite <- !app_assoc. apply list_lookup_middle. done. }
  pose proof Hc2 as A. apply json_copy_appended in A. destruct A as (ext' & Eh5 & _).
  assert (Hl5 : h5 !! length h1 = Some (OArr [])).
  { rewrite Eh5. by apply lookup_app_l_Some. }
  assert (Hit : is_iterable (VRef (length h1)) h2 = true).
  { unfold is_iterable, is_array, h2. by rewrite list_lookup_middle. }
  eexists _, _, _, h5. split.
  { mred. rewrite Hfail. mred. fold h2. rewrite Hit. mred.
    fold h3. rewrite Hc1. mred.
    unfold Second.iterations, loop_test, iter_length, read_array. mred.
    rewrite Hl4. change (length (@nil value) <=? 0) with true. mred.
    rewrite Hc2. reflexivity. }
  split; [reflexivity|]. split; [eexists; split; [reflexivity|exact Hl5]|].
  split; [reflexivity|lia].
Qed.


(** C10. A [for] header at the top level whose iterable fails to evaluate
    is a loop over the empty list, in either implementation: the turn of
    the main loop pushes a [for_loop_start] step whose iterable is an
    empty list and a [for_loop_end] step, nothing between them and no
    [error] step, and does not fail. *)
Theorem failed_iterable_is_empty_loop :
  (forall (H : host) (fuel : nat) (lines : list line) (i : nat) (lineData : line)
          (variables : env) (output : list string) (forMatch : Re.found) (msg : string)
          (h h1 : heap) (snap0 : value) (h0 : heap),
     Str.startsWith (trimmed lineData) "for " = true ->
     Re.exec Rx.re_for (trimmed lineData) = Some forMatch ->
     First.safeEval H (Re.group_or_empty 2 forMatch) variables h = Err msg h1 ->
     json_copy variables h1 = Ok snap0 h0 ->
     empty_loop i variables output
       (First.turn H fuel lines i lineData variables output h))
  /\ (forall (H : host) (fuel : nat) (lines : list line) (i : nat) (lineData : line)
             (variables : env) (output : list string) (forMatch : Re.found) (msg : string)
             (h h1 : heap) (snap0 : value) (h0 : heap),
        Str.startsWith (trimmed lineData) "for " = true ->
        Re.exec Rx.re_for (trimmed lineData) = Some forMatch ->
        Second.safeEval H (Re.group_or_empty 2 forMatch) variables h = Err msg h1 ->
        json_copy variables h1 = Ok snap0 h0 ->
        empty_loop i variables output
          (Second.turn H fuel lines i lineData variables output h)).
Proof.
  split; intros H fuel lines i lineData variables output forMatch msg h h1 snap0 h0
    Hfor Hm Hfail Hcopy.
  - eapply first_failed_iterable; eassumption.
  - eapply second_failed_iterable; eassumption.
Qed.

Lemma failed_iterable_is_empty_loop_witness :
  empty_loop 0 [("n", VNum 1)] []
    (First.turn Mini.mini_host 0
       (make_lines (script ["for x in items:"; "    print(x)"])) 0
       (make_line 0 "for x in items:") [("n", VNum 1)] [] [])
  /\ empty_loop 0 [("n", VNum 1)] []
       (Second.turn Mini.mini_host 0
          (make_lines (script ["for x in items:"; "    print(x)"])) 0
          (make_line 0 "for x in items:") [("n", VNum 1)] [] []).
Proof.
  split.
  - eapply (proj1 failed_iterable_is_empty_loop);
      [reflexivity|vm_compute; reflexivity..].
  - eapply (proj2 failed_iterable_is_empty_loop);
      [reflexivity|vm_compute; reflexivity..].
Defined.

(** *** [if] and [while] headers *)

Lemma guard_header_inv t a skip :
  guard_header (First.classify t) = Some (a, skip) ->
  (First.classify t = First.KIf /\ a = if_statement /\ skip = 3
   /\ Str.startsWith t "if " = true)
  \/ (First.classify t = First.KWhile /\ a = while_loop_start /\ skip = 6
      /\ Str.startsWith t "while " = true).
Proof.
  intros Hg.
  destruct (First.classify t) eqn:Ec; try discriminate Hg;
    injection Hg as <- <-; [left|right]; repeat split;
    revert Ec; unfold First.classify;
    repeat match goal with
           | |- context [if ?b then _ else _] => destruct b eqn:?; try discriminate
           end; auto.
Qed.

Lemma turn_progress H fuel lines i lineData variables output h r next h' :
  First.turn H fuel lines i lineData variables output h = Ok (r, next) h' -> i < next.
Proof.
  unfold First.turn. destruct (block_after _ _) as [body passed]. cbv zeta.
  destruct (_ || _).
  { mred. intros [= <- <- <-]. lia. }
  destruct (if Str.startsWith _ "for " then _ else _).
  { mred. destruct (First.for_block _ _ _ _ _ _ _ _ _); try discriminate.
    intros [= <- <- <-]. lia. }
  destruct (if Str.startsWith _ "def " then _ else _).
  { mred. destruct (First.def_block _ _ _ _ _ _); try discriminate.
    intros [= <- <- <-]. lia. }
  mred. destruct (First.processLine _ _ _ _ _ _ _); try discriminate.
  intros [= <- <- <-]. lia.
Qed.

Lemma turn_processLine H fuel lines i l variables output h :
  block_header l = false ->
  First.turn H fuel lines i l variables output h
  = (do r <- First.processLine H fuel l variables output lines; ret (r, S i)) h.
Proof.
  unfold block_header, First.turn, First.processLine. cbv zeta. intros Hb.
  destruct (block_after _ _) as [body passed].
  destruct (String.eqb (trimmed l) "" || Str.startsWith (trimmed l) "#"); [done|].
  destruct (if Str.startsWith (trimmed l) "for " then _ else _); [done|].
  by destruct (if Str.startsWith (trimmed l) "def " then _ else _).
Qed.

Lemma drop_cons_lookup {A} (l : list A) j x rest :
  drop j l = x :: rest -> l !! j = Some x /\ drop (S j) l = rest.
Proof.
  revert j. induction l as [|y l IH]; intros j; [by destruct j|].
  destruct j as [|j]; simpl; [by intros [= -> ->]|]. apply IH.
Qed.

(** The main loop over a run of lines none of which is a [for] or [def]
    header: each line of the run goes through [processLine], once, in
    order. *)
Lemma main_loop_run H fuel lines indent0 rest :
  forall j variables output h n,
    drop j lines = rest ->
    forallb (fun l => negb (block_header l)) (fst (block_after rest indent0)) = true ->
    First.main_loop H fuel (snd (block_after rest indent0) + n) lines j variables output h
    = (do r <- First.loop_body H fuel (fst (block_after rest indent0)) lines variables output;
       do more <- First.main_loop H fuel n lines (j + snd (block_after rest indent0))
                    (r_variables r) (r_output r);
       ret (r_steps r ++ more)) h.
Proof.
  assert (Hstop : forall j variables output h n,
            First.main_loop H fuel n lines j variables output h
            = (do r <- First.loop_body H fuel [] lines variables output;
               do more <- First.main_loop H fuel n lines (j + 0) (r_variables r) (r_output r);
               ret (r_steps r ++ more)) h).
  { intros j variables output h n. simpl. unfold bind, ret. simpl. rewrite Nat.add_0_r.
    by destruct (First.main_loop H fuel n lines j variables output h). }
  induction rest as [|l rest IH]; intros j variables output h n Hd Hp; [apply Hstop|].
  apply drop_cons_lookup in Hd as [Hl Hd]. cbn [block_after] in *.
  destruct (String.eqb (trimmed l) "" || (indent0 <? indent l)) eqn:Ein; [|apply Hstop].
  destruct (block_after rest indent0) as [body passed] eqn:Eb. cbn [fst snd] in *.
  assert (Hl' : block_header l = false /\
                forallb (fun l => negb (block_header l)) body = true).
  { destruct (String.eqb (trimmed l) "") eqn:Et.
    - split; [|done]. apply String.eqb_eq in Et. unfold block_header. by rewrite Et.
    - cbn [forallb] in Hp. apply andb_true_iff in Hp as [Hp1 Hp2].
      split; [by apply negb_true_iff|done]. }
  destruct Hl' as [Hh Hb].
  cbn [Nat.add First.main_loop]. rewrite Hl. unfold bind at 1.
  rewrite turn_processLine by done.
  replace (j + S passed) with (S j + passed) by lia.
  assert (Hrest : forall r h1,
            (do more <- First.main_loop H fuel (passed + n) lines (S j) (r_variables r)
                          (r_output r);
             ret (r_steps r ++ more)) h1
            = (do r' <- First.loop_body H fuel body lines (r_variables r) (r_output r);
               do more <- First.main_loop H fuel n lines (S j + passed) (r_variables r')
                            (r_output r');
               ret (r_steps r ++ r_steps r' ++ more)) h1).
  { intros r h1. unfold bind at 1.
    rewrite (IH (S j) (r_variables r) (r_output r) h1 n Hd Hb). unfold bind, ret.
    destruct (First.loop_body H fuel body lines _ _ h1) as [r' h2| |]; [|done..].
    by destruct (First.main_loop H fuel n lines (S j + passed) _ _ h2). }
  destruct (String.eqb (trimmed l) "") eqn:Et.
  - unfold First.processLine. cbv zeta. rewrite Et. cbn [orb].
    unfold bind at 1. unfold ret at 1. unfold ret at 1.
    exact (Hrest (Result [] variables output) h).
  - cbn [First.loop_body]. specialize (Hrest). unfold bind, ret in *.
    destruct (First.processLine H fuel l variables output lines h) as [r h1| |]; [|done..].
    rewrite Hrest.
    destruct (First.loop_body H fuel body lines _ _ h1) as [r' h2| |]; [|done..].
    cbn [r_variables r_output r_steps].
    destruct (First.main_loop H fuel n lines (S j + passed) _ _ h2); [|done..].
    by rewrite app_assoc.
Qed.

(** C5, amended.  An [if cond:] or [while cond:] header that none of the
    earlier tests of [processLine] takes for another statement (the text
    starts with [if ] or [while ]; it holds no [=], or it holds one of
    [==], [!=], [<=], [>=], [+=], [-=], [*=], [/=], [%=]; and it matches
    neither the test for an augmented assignment nor the test for a list
    operation, which come first) has its guard evaluated
    once, a guard that fails to evaluate counting as false, and is
    recorded as one [if_statement] or [while_loop_start] step that
    carries the condition and its boolean result; the variables and the
    output are left as they were.  That is so in the body of a [for]
    loop, where the lines after the header follow as they would without
    it, and in the main loop, which goes on at the line after the header
    whatever the result: when no line of the body is a [for] or [def]
    header, every line of the body goes through [processLine] once, in
    order, and the loop then goes on after the body.  Every turn of the
    main loop moves forward, so no line, and no body of a [while], is
    visited by it a second time. *)
Theorem guard_recorded_once (H : host) (fuel : nat) (lines : list line) (i : nat)
    (lineData : line) (variables : env) (output : list string) (a : action) (skip : nat)
    (g : value) (h h1 : heap) (snap : value) (h2 : heap) :
  lines !! i = Some lineData ->
  guard_header (First.classify (trimmed lineData)) = Some (a, skip) ->
  let condition := Str.trim (Str.slice_between skip 1 (trimmed lineData)) in
  try_catch (First.safeEval H condition variables) (fun _ => ret (VBool false)) h
    = Ok g h1 ->
  json_copy variables h1 = Ok snap h2 ->
  let header :=
    Step (originalIndex lineData) a
      [("condition", VStr condition); ("conditionResult", VBool (truthy g))]
      snap output in
  let body := fst (block_after (drop (S i) lines) (indent lineData)) in
  let passed := snd (block_after (drop (S i) lines) (indent lineData)) in
  First.processLine H fuel lineData variables output lines h
    = Ok (Result [header] variables output) h2
  /\ (forall rest,
        First.loop_body H fuel (lineData :: rest) lines variables output h
        = (do r <- First.loop_body H fuel rest lines variables output;
           ret (Result (header :: r_steps r) (r_variables r) (r_output r))) h2)
  /\ First.turn H fuel lines i lineData variables output h
     = Ok (Result [header] variables output, S i) h2
  /\ (forall n,
        First.main_loop H fuel (S n) lines i variables output h
        = (do rest <- First.main_loop H fuel n lines (S i) variables output;
           ret (header :: rest)) h2)
  /\ (forallb (fun l => negb (block_header l)) body = true ->
      forall n,
        First.main_loop H fuel (S (passed + n)) lines i variables output h
        = (do r <- First.loop_body H fuel body lines variables output;
           do rest <- First.main_loop H fuel n lines (S i + passed)
                        (r_variables r) (r_output r);
           ret (header :: r_steps r ++ rest)) h2)
  /\ (forall j lj v o hj r next hj',
        First.turn H fuel lines j lj v o hj = Ok (r, next) hj' -> j < next).
Proof.
  intros Hi Hg condition Hguard Hcopy header body passed.
  apply guard_header_inv in Hg.
  assert (Hc : exists c rest, trimmed lineData = String c rest
                              /\ (c = "i" \/ c = "w")%char).
  { destruct Hg as [(_ & _ & _ & Hp)|(_ & _ & _ & Hp)];
      apply first_char in Hp; destruct Hp as [rest ->]; eauto. }
  destruct Hc as (c & rest & Et & Hc).
  assert (Hb : String.eqb (trimmed lineData) "" || Str.startsWith (trimmed lineData) "#"
               = false) by (rewrite Et; destruct Hc as [-> | ->]; reflexivity).
  assert (Hh : block_header lineData = false).
  { unfold block_header. rewrite Et. by destruct Hc as [-> | ->]. }
  assert (Hline : First.processLine H fuel lineData variables output lines h
                  = Ok (Result [header] variables output) h2).
  { assert (Hs : First.statement H fuel lineData variables output lines
                 = First.guard_statement H a skip (trimmed lineData) variables output).
    { unfold First.statement. cbv zeta.
      destruct Hg as [(-> & -> & -> & _)|(-> & -> & -> & _)]; reflexivity. }
    unfold First.processLine. cbv zeta. rewrite Hb.
    unfold guarded. rewrite Hs.
    unfold First.guard_statement, Shared.guard_statement. cbv zeta.
    fold condition. unfold bind at 1. rewrite Hguard.
    unfold ret, plain. cbn [p_vars p_out p_action p_fields]. by rewrite Hcopy. }
  assert (Hturn : First.turn H fuel lines i lineData variables output h
                  = Ok (Result [header] variables output, S i) h2).
  { rewrite turn_processLine by done. unfold bind. by rewrite Hline. }
  assert (Hmain : forall n,
            First.main_loop H fuel (S n) lines i variables output h
            = (do rest <- First.main_loop H fuel n lines (S i) variables output;
               ret (header :: rest)) h2).
  { intros n. cbn [First.main_loop]. rewrite Hi. unfold bind at 1. by rewrite Hturn. }
  split; [exact Hline|]. split; [|split; [exact Hturn|split; [exact Hmain|split]]].
  - intros rest'. cbn [First.loop_body]. unfold bind at 1. by rewrite Hline.
  - intros Hp n. rewrite Hmain. unfold bind at 1. subst body passed.
    rewrite (@main_loop_run H fuel lines (indent lineData) (drop (S i) lines) (S i)
               variables output h2 n eq_refl Hp).
    set (body := fst (block_after (drop (S i) lines) (indent lineData))).
    set (passed := snd (block_after (drop (S i) lines) (indent lineData))).
    unfold bind, ret.
    destruct (First.loop_body H fuel body lines variables output h2) as [r h3| |]; [|done..].
    by destruct (First.main_loop H fuel n lines (S i + passed) _ _ h3).
  - intros. eapply turn_progress; eassumption.
Qed.

Lemma guard_recorded_once_witness :
  let lines := make_lines (script ["while x > 1:"; "    print(x)"; "y = 2"]) in
  (exists header h2,
      First.turn Mini.mini_host 0 lines 0 (make_line 0 "while x > 1:") [("x", VNum 0)] [] []
      = Ok (Result [header] [("x", VNum 0)] [], 1) h2
      /\ s_action header = while_loop_start
      /\ field "conditionResult" header = Some (VBool false)
      /\ First.main_loop Mini.mini_host 0 (S (1 + 1)) lines 0 [("x", VNum 0)] [] []
         = (do r <- First.loop_body Mini.mini_host 0 [make_line 1 "    print(x)"] lines
                      [("x", VNum 0)] [];
            do rest <- First.main_loop Mini.mini_host 0 1 lines 2 (r_variables r) (r_output r);
            ret (header :: r_steps r ++ rest)) h2)
  /\ (exists header h2,
        First.processLine Mini.mini_host 0 (make_line 0 "while x > 1:") [("x", VNum 5)] []
          lines []
        = Ok (Result [header] [("x", VNum 5)] []) h2
        /\ field "conditionResult" header = Some (VBool true))
  /\ (exists header h2,
        First.processLine Mini.mini_host 0 (make_line 0 "while x > 1:") [] [] lines []
        = Ok (Result [header] [] []) h2
        /\ field "conditionResult" header = Some (VBool false)).
Proof.
  intros lines. split; [|split].
  - eexists; eexists.
    pose proof (@guard_recorded_once Mini.mini_host 0 lines 0 (make_line 0 "while x > 1:")
                  [("x", VNum 0)] [] while_loop_start 6 (VBool false) [] []
                  (VRef 0) [OObj [("x", VNum 0)]] eq_refl eq_refl eq_refl eq_refl)
      as (_ & _ & Ht & _ & Hm & _).
    split; [exact Ht|]. split; [reflexivity|]. split; [reflexivity|].
    exact (Hm eq_refl 1).
  - eexists; eexists.
    pose proof (@guard_recorded_once Mini.mini_host 0 lines 0 (make_line 0 "while x > 1:")
                  [("x", VNum 5)] [] while_loop_start 6 (VBool true) [] []
                  (VRef 0) [OObj [("x", VNum 5)]] eq_refl eq_refl eq_refl eq_refl)
      as (Hp & _).
    split; [exact Hp|reflexivity].
  - eexists; eexists.
    pose proof (@guard_recorded_once Mini.mini_host 0 lines 0 (make_line 0 "while x > 1:")
                  [] [] while_loop_start 6 (VBool false) [] []
                  (VRef 0) [OObj []] eq_refl eq_refl eq_refl eq_refl)
      as (Hp & _).
    split; [exact Hp|reflexivity].
Defined.

(** C5, the counterexample.  A header that an earlier test of
    [processLine] takes for another statement is not recorded as an [if]:
    [if xs.pop() > 0:] matches the test for a list operation, so the line
    pops the list and records a [list_operation] step, and nothing
    evaluates the guard; [if(x > 1):], which does not start with [if ],
    records no step at all. *)
Theorem if_header_taken_for_a_list_operation :
  (exists tr h,
      First.parseCode Mini.mini_host 0
        (script ["xs = [1, 2]"; "if xs.pop() > 0:"; "    y = 1"]) [] = Ok tr h
      /\ map (fun s => (s_line s, s_action s)) tr
         = [(0, assign); (1, list_operation); (2, assign)]
      /\ (fun s => view h (s_variables s)) <$> last tr
         = Some (TObj [("xs", TArr [TNum 1]); ("y", TNum 1)]))
  /\ (exists tr h,
        First.parseCode Mini.mini_host 0
          (script ["x = 5"; "if(x > 1):"; "    y = 1"]) [] = Ok tr h
        /\ map (fun s => (s_line s, s_action s)) tr = [(0, assign); (2, assign)]).
Proof.
  split.
  - eexists; eexists. split; [vm_compute; reflexivity|]. split; vm_compute; reflexivity.
  - eexists; eexists. split; vm_compute; reflexivity.
Qed.

(** *** An assignment whose right-hand side fails to evaluate *)

Lemma obj_get_set {A} k (v : A) o : obj_get k (obj_set k v o) = Some v.
Proof.
  induction o as [|[k' v'] o IH]; simpl.
  - by rewrite String.eqb_refl.
  - destruct (String.eqb k k') eqn:E; simpl.
    + by rewrite String.eqb_refl.
    + destruct (key_before k k'); simpl.
      * by rewrite String.eqb_refl.
      * by rewrite E.
Qed.

(** A property that holds a string is copied as it is. *)
Lemma copy_fields_text depth h0 k s fs :
  obj_get k fs = Some (VStr s) ->
  forall h fs' h', copy_fields (copy_value (S depth) h0) fs h = Some (fs', h') ->
    obj_get k fs' = Some (VStr s).
Proof.
  induction fs as [|[k' v] fs IH]; [discriminate|].
  intros Hget h fs' h' E. cbn [obj_get] in Hget. cbn [copy_fields] in E.
  destruct (String.eqb k k') eqn:Ek.
  - injection Hget as ->. cbn [copy_value] in E.
    destruct (copy_fields _ fs h) as [[r h2]|]; [|discriminate].
    injection E as <- <-. cbn [obj_get]. by rewrite Ek.
  - assert (Hrec : forall hh r hh', copy_fields (copy_value (S depth) h0) fs hh = Some (r, hh')
                     -> obj_get k r = Some (VStr s)) by (intros; eapply IH; eauto).
    destruct v;
      try (destruct (copy_value (S depth) h0 _ h) as [[v' h1]|]; [|discriminate];
           destruct (copy_fields _ fs h1) as [[r h2]|] eqn:E2; [|discriminate];
           injection E as <- <-; cbn [obj_get]; rewrite Ek; eapply Hrec; exact E2).
    eapply Hrec; exact E.
Qed.

(** C2, amended.  On the line [y = z + 1] with [z] unbound the evaluation
    of [z + 1] fails, and the assignment falls back on the text of the
    expression: the line records one [assign] step ([reassign] when [y]
    was bound), not an [error] step, and the snapshot of that step binds
    [y] to the string [z + 1]. *)
Theorem undefined_name_kept_as_text (H : host) (fuel : nat) (lineData : line)
    (vars : env) (out : list string) (lines : list line) (msg : string)
    (h h1 h2 : heap) (snap : value) (h3 : heap) :
  trimmed lineData = "y = z + 1" ->
  First.safeEval H "z + 1" vars h = Err msg h1 ->
  is_nan H "z + 1" h1 = Ok true h2 ->
  json_copy (obj_set "y" (VStr "z + 1") vars) h2 = Ok snap h3 ->
  let s :=
    Step (originalIndex lineData)
      (match prop "y" vars with VUndef => assign | _ => reassign end)
      [("variable", VStr "y"); ("value", VStr "z + 1"); ("oldValue", prop "y" vars);
       ("expression", VStr "z + 1")]
      snap out in
  First.processLine H fuel lineData vars out lines h
    = Ok (Result [s] (obj_set "y" (VStr "z + 1") vars) out) h3
  /\ s_action s <> error
  /\ exists fs, shown h3 s = Some fs /\ obj_get "y" fs = Some (VStr "z + 1").
Proof.
  intros Et Hfail Hnan Hcopy s. split; [|split].
  - unfold First.processLine, guarded, First.statement. cbv zeta. rewrite Et.
    change (String.eqb "y = z + 1" "" || Str.startsWith "y = z + 1" "#") with false.
    replace (First.classify "y = z + 1") with First.KAssign by (vm_compute; reflexivity).
    cbv iota. unfold First.assignment.
    replace (Str.split "=" "y = z + 1") with ["y "; " z + 1"] by (vm_compute; reflexivity).
    cbn [hd tl Str.join].
    replace (Str.trim "y ") with "y" by (vm_compute; reflexivity).
    replace (Str.trim " z + 1") with "z + 1" by (vm_compute; reflexivity).
    unfold First.assigned_value.
    replace (Re.test Rx.re_list_comp_test "z + 1") with false by (vm_compute; reflexivity).
    replace (Re.exec Rx.re_call_expr "z + 1") with (@None Re.found)
      by (vm_compute; reflexivity).
    replace (Str.startsWith "z + 1" "{") with false by reflexivity.
    replace (Str.startsWith "z + 1" "[") with false by reflexivity.
    cbn [orb andb]. mred. rewrite Hfail. rewrite Hnan. cbn [negb].
    replace (String.eqb "z + 1" "True") with false by reflexivity.
    replace (String.eqb "z + 1" "False") with false by reflexivity.
    replace (String.eqb "z + 1" "None") with false by reflexivity.
    replace (quote_strip "z + 1") with (@None string) by (vm_compute; reflexivity).
    mred. unfold plain. cbn [p_vars p_out p_action p_fields]. rewrite Hcopy. reflexivity.
  - subst s. cbn [s_action]. destruct (prop "y" vars); discriminate.
  - unfold json_copy in Hcopy.
    destruct (copy_fields _ _ h2) as [[fs hh]|] eqn:Ec; [|discriminate].
    injection Hcopy as <- <-. exists fs. split.
    + unfold shown, s. cbn [s_variables]. by rewrite list_lookup_middle.
    + eapply copy_fields_text; [|exact Ec]. apply obj_get_set.
Qed.


Lemma undefined_name_kept_as_text_witness :
  exists s h3,
    First.processLine Mini.mini_host 0 (make_line 1 "y = z + 1") [("x", VNum 1)] []
      (make_lines (script ["x = 1"; "y = z + 1"])) []
    = Ok (Result [s] [("x", VNum 1); ("y", VStr "z + 1")] []) h3
    /\ s_action s <> error
    /\ exists fs, shown h3 s = Some fs /\ obj_get "y" fs = Some (VStr "z + 1").
Proof.
  eexists; eexists.
  eapply (@undefined_name_kept_as_text Mini.mini_host 0 (make_line 1 "y = z + 1")
            [("x", VNum 1)] [] (make_lines (script ["x = 1"; "y = z + 1"])));
    vm_compute; reflexivity.
Defined.

(** *** Computations that leave the protected objects alone *)

Lemma val_ok_impl (Q Q' : loc -> Prop) v :
  (forall l, Q l -> Q' l) -> val_ok Q v -> val_ok Q' v.
Proof. destruct v; simpl; auto. Qed.

Lemma obj_ok_impl (Q Q' : loc -> Prop) o :
  (forall l, Q l -> Q' l) -> obj_ok Q o -> obj_ok Q' o.
Proof.
  intros HQ. destruct o; simpl.
  - intros F. eapply Forall_impl; [exact F|]. intros v. by apply val_ok_impl.
  - intros F. eapply Forall_impl; [exact F|]. intros p. by apply val_ok_impl.
  - by apply val_ok_impl.
Qed.

#[export] Instance monotone_value : Monotone value.
Proof. exact val_ok_impl. Qed.
#[export] Instance monotone_obj : Monotone obj.
Proof. exact obj_ok_impl. Qed.
#[export] Instance monotone_string : Monotone string.
Proof. done. Qed.
#[export] Instance monotone_bool : Monotone bool.
Proof. done. Qed.
#[export] Instance monotone_nat : Monotone nat.
Proof. done. Qed.
#[export] Instance monotone_unit : Monotone unit.
Proof. done. Qed.

#[export] Instance monotone_list {A} `{Monotone A} : Monotone (list A).
Proof.
  intros Q Q' l HQ F. eapply Forall_impl; [exact F|]. intros a. by apply valid_impl.
Qed.

#[export] Instance monotone_prod {A B} `{Monotone A} `{Monotone B} : Monotone (A * B).
Proof. intros Q Q' p HQ [Va Vb]. split; eapply valid_impl; eauto. Qed.

#[export] Instance monotone_option {A} `{Monotone A} : Monotone (option A).
Proof.
  intros Q Q' o HQ. destruct o as [a|]; [|done]. by apply (valid_impl (A := A)).
Qed.

#[export] Instance monotone_pending : Monotone pending.
Proof. intros Q Q' p HQ. by apply (valid_impl (A := env)). Qed.

#[export] Instance monotone_result : Monotone result.
Proof. intros Q Q' r HQ. by apply (valid_impl (A := env)). Qed.

#[export] Instance monotone_binding : Monotone binding.
Proof. intros Q Q' b HQ. destruct b as [v|f]; [by apply val_ok_impl|done]. Qed.

(** *** Rules *)

Lemma live_grow P n n' l : n <= n' -> live P n l -> live P n' l.
Proof. unfold live. intros ? [? ?]. split; [lia|done]. Qed.

Lemma valid_grow {A} `{Monotone A} P n n' (a : A) :
  n <= n' -> valid (live P n) a -> valid (live P n') a.
Proof. intros Hn. apply valid_impl. intros l. by apply live_grow. Qed.

Lemma ext_refl P h : ext P h h.
Proof. split; [lia|done]. Qed.

Lemma ext_trans P h h1 h2 : ext P h h1 -> ext P h1 h2 -> ext P h h2.
Proof.
  intros [L1 E1] [L2 E2]. split; [lia|]. intros l Hl. by rewrite E2, E1.
Qed.

Lemma post_weaken {A} `{Valid A} P h h1 (r : res A) :
  ext P h h1 -> post P h1 r -> post P h r.
Proof.
  intros X. destruct r as [a h'|msg h'|]; simpl; [| |done].
  - intros (I & X' & V). split; [done|]. split; [by eapply ext_trans|done].
  - intros (I & X'). split; [done|]. by eapply ext_trans.
Qed.

Lemma post_ret {A} `{Valid A} P h (a : A) :
  inv P h -> valid (live P (length h)) a -> post P h (ret a h).
Proof. intros I V. simpl. split; [done|]. split; [apply ext_refl|done]. Qed.

Lemma post_throw {A} `{Valid A} P h msg : inv P h -> post (A := A) P h (throw msg h).
Proof. intros I. simpl. split; [done|apply ext_refl]. Qed.

Lemma post_bind {A B} `{Valid A} `{Valid B} P (m : M A) (k : A -> M B) h :
  post P h (m h) ->
  (forall a h1, inv P h1 -> length h <= length h1 ->
                valid (live P (length h1)) a -> post P h1 (k a h1)) ->
  post P h (bind m k h).
Proof.
  unfold bind. destruct (m h) as [a h1|msg h1|]; simpl; [| |done].
  - intros (I & X & V) Hk. eapply post_weaken; [exact X|].
    apply Hk; [done|apply X|done].
  - intros (I & X) _. done.
Qed.

Lemma post_try_catch {A} `{Valid A} P (m : M A) handler h :
  post P h (m h) ->
  (forall msg h1, inv P h1 -> length h <= length h1 -> post P h1 (handler msg h1)) ->
  post P h (try_catch m handler h).
Proof.
  unfold try_catch. destruct (m h) as [a h1|msg h1|]; simpl; [| |done].
  - intros (I & X & V) _. done.
  - intros (I & X) Hk. eapply post_weaken; [exact X|]. apply Hk; [done|apply X].
Qed.

Lemma post_get_heap {B} `{Valid B} P (k : heap -> M B) h :
  post P h (k h h) -> post P h (bind get_heap k h).
Proof. done. Qed.

Lemma inv_app P h o :
  inv P h -> obj_ok (live P (length h)) o -> inv P (h ++ [o]).
Proof.
  intros [Hb Hl] Ho. split.
  - intros l Hp. rewrite length_app. specialize (Hb l Hp). lia.
  - intros l o' E Hn. rewrite length_app. simpl.
    eapply (@obj_ok_impl (live P (length h))); [intros l'; apply live_grow; lia|].
    apply lookup_app_Some in E as [E|[Hge E]].
    + by eapply Hl.
    + apply list_lookup_singleton_Some in E as [_ <-]. done.
Qed.

Lemma ext_app P h ext0 : (forall l, P l -> l < length h) -> ext P h (h ++ ext0).
Proof.
  intros Hb. split; [rewrite length_app; lia|].
  intros l Hp. apply lookup_app_l. by apply Hb.
Qed.

Lemma post_alloc P h o :
  inv P h -> valid (live P (length h)) o -> post P h (alloc o h).
Proof.
  intros I V. simpl. split; [by apply inv_app|]. split; [apply ext_app, I|].
  rewrite length_app. simpl. split; [lia|].
  intros Hp. apply I in Hp. lia.
Qed.

Lemma post_store P h l o :
  inv P h -> live P (length h) l -> valid (live P (length h)) o ->
  post P h (store l o h).
Proof.
  intros [Hb Hl] [Hlt Hn] V. unfold store. cbn [post].
  assert (Hlen : length (<[l:=o]> h) = length h) by apply length_insert.
  split; [split|split; [split|done]].
  - intros l' Hp. rewrite Hlen. by apply Hb.
  - intros l' o' E Hn'. rewrite Hlen.
    destruct (decide (l = l')) as [<-|Hne].
    + rewrite list_lookup_insert_eq in E by done. by injection E as <-.
    + rewrite list_lookup_insert_ne in E by done. by eapply Hl.
  - rewrite Hlen. lia.
  - intros l' Hp. apply list_lookup_insert_ne. intros ->. done.
Qed.

Lemma inv_lookup P h l o :
  inv P h -> live P (length h) l -> h !! l = Some o -> obj_ok (live P (length h)) o.
Proof. intros [_ Hl] [_ Hn] E. by eapply Hl. Qed.

Lemma post_read_array P h v :
  inv P h -> valid (live P (length h)) v -> post P h (read_array v h).
Proof.
  intros I V. unfold read_array. destruct v; try done.
  destruct (h !! l) as [[els| |]|] eqn:E; try done.
  apply post_ret; [done|]. by apply (inv_lookup I V E).
Qed.

Lemma post_write_array P h v els :
  inv P h -> valid (live P (length h)) v -> valid (live P (length h)) els ->
  post P h (write_array v els h).
Proof.
  intros I V Ve. unfold write_array. destruct v; try done.
  by apply post_store.
Qed.

Lemma post_mapM {A B} `{Monotone B} P (f : A -> M B) l h :
  inv P h ->
  (forall x h1, In x l -> inv P h1 -> length h <= length h1 -> post P h1 (f x h1)) ->
  post P h (mapM f l h).
Proof.
  revert h. induction l as [|x l IH]; intros h I Hf; cbn [mapM].
  - apply post_ret; [done|constructor].
  - apply post_bind; [apply Hf; [by left|done|lia]|].
    intros y h1 I1 L1 Vy. apply post_bind.
    + apply IH; [done|]. intros x' h2 Hin I2 L2. apply Hf; [by right|done|lia].
    + intros ys h2 I2 L2 Vys. apply post_ret; [done|].
      constructor; [|done]. eapply valid_grow; [|exact Vy]. done.
Qed.


Lemma valid_nil {A} `{Valid A} Q : valid Q (@nil A).
Proof. constructor. Qed.

Lemma valid_cons {A} `{Valid A} Q (a : A) l : valid Q a -> valid Q l -> valid Q (a :: l).
Proof. by constructor. Qed.

Lemma valid_app {A} `{Valid A} Q (a b : list A) :
  valid Q a -> valid Q b -> valid Q (a ++ b).
Proof. intros Va Vb. apply Forall_app. by split. Qed.

Lemma valid_In {A} `{Valid A} Q (l : list A) x : valid Q l -> In x l -> valid Q x.
Proof.
  intros F Hin. unfold valid, valid_list in F. rewrite Forall_forall in F.
  apply F. by apply list_elem_of_In.
Qed.

Lemma valid_pair {A B} `{Valid A} `{Valid B} Q (a : A) (b : B) :
  valid Q a -> valid Q b -> valid Q (a, b).
Proof. by split. Qed.

Lemma valid_strings Q (l : list string) : valid Q l.
Proof. apply Forall_forall. intros x _. exact I. Qed.

Lemma valid_take {A} `{Valid A} Q n (l : list A) : valid Q l -> valid Q (take n l).
Proof. apply Forall_take. Qed.

Lemma valid_drop {A} `{Valid A} Q n (l : list A) : valid Q l -> valid Q (drop n l).
Proof. apply Forall_drop. Qed.

Lemma valid_last_default (els : list value) Q :
  valid Q els -> valid Q (default VUndef (last els)).
Proof.
  intros F. destruct (last els) as [v|] eqn:E; simpl; [|done].
  apply last_Some in E as [l' ->]. apply Forall_app in F as [_ F]. by inversion F.
Qed.

Lemma valid_plain Q a fields (vars : env) out :
  valid Q vars -> valid Q (plain a fields vars out).
Proof. done. Qed.

Lemma valid_lookup_default (els : list value) i Q :
  valid Q els -> valid Q (default VUndef (els !! i)).
Proof.
  intros F. destruct (els !! i) as [v|] eqn:E; simpl; [|done].
  eapply (Forall_lookup_1 _ _ _ _ F E).
Qed.

Lemma valid_range_from Q start n : valid Q (range_from start n).
Proof. unfold range_from. apply Forall_map, Forall_forall. intros x _. exact I. Qed.

Lemma valid_range_loop Q n : forall i stop step, valid Q (range_loop n i stop step).
Proof.
  induction n as [|n IH]; intros i stop step; cbn [range_loop]; [constructor|].
  destruct (if (0 <? step)%Z then (i <? stop)%Z else (stop <? i)%Z); [|constructor].
  constructor; [exact I|apply IH].
Qed.

Lemma valid_obj_set {A} `{Valid A} Q k (v : A) o :
  valid Q v -> valid Q o -> valid Q (obj_set k v o).
Proof.
  intros Vv. induction o as [|[k' v'] o IH]; intros Vo; cbn [obj_set].
  - constructor; [|constructor]. split; [exact I|exact Vv].
  - inversion Vo as [|? ? Vh Vt]; subst.
    destruct (String.eqb k k'); [|destruct (key_before k k')].
    + constructor; [split; [exact I|exact Vv]|exact Vt].
    + constructor; [split; [exact I|exact Vv]|exact Vo].
    + constructor; [exact Vh|by apply IH].
Qed.

Lemma valid_obj_assign {A} `{Valid A} Q (a b : list (string * A)) :
  valid Q a -> valid Q b -> valid Q (obj_assign a b).
Proof.
  unfold obj_assign. revert a. induction b as [|[k v] b IH]; intros a Va Vb; simpl.
  - exact Va.
  - inversion Vb as [|? ? [_ Vh] Vt]; subst. apply IH; [|exact Vt].
    by apply valid_obj_set.
Qed.

Lemma valid_prop Q k (o : env) : valid Q o -> valid Q (prop k o).
Proof.
  unfold prop. induction o as [|[k' v'] o IH]; intros Vo; cbn [obj_get]; [exact I|].
  inversion Vo as [|? ? [_ Vh] Vt]; subst.
  destruct (String.eqb k k'); [exact Vh|by apply IH].
Qed.

Lemma valid_obj_get Q k (o : env) v : valid Q o -> obj_get k o = Some v -> valid Q v.
Proof.
  intros Vo E. pose proof (valid_prop k Vo) as Vp. unfold prop in Vp. by rewrite E in Vp.
Qed.

Lemma valid_string_items Q s : valid Q (string_items s).
Proof. unfold string_items. apply Forall_map, Forall_forall. intros x _. exact I. Qed.

Lemma valid_bind_params Q params : forall args scope,
  valid Q args -> valid Q scope -> valid Q (First.bind_params params args scope).
Proof.
  induction params as [|p params IH]; intros args scope Va Vs; cbn [First.bind_params];
    [done|].
  destruct args as [|a args]; [done|]. inversion Va; subst.
  apply IH; [done|]. by apply valid_obj_set.
Qed.

Lemma valid_OArr Q (els : list value) : valid Q els -> valid Q (OArr els).
Proof. done. Qed.

Lemma valid_OObj Q (fs : env) : valid Q fs -> valid Q (OObj fs).
Proof.
  intros F. simpl. eapply Forall_impl; [exact F|]. by intros [k v] [_ Vv].
Qed.

Lemma valid_OFun Q name params body (closure : value) :
  valid Q closure -> valid Q (OFun name params body closure).
Proof. done. Qed.

Lemma valid_map_VStr Q (l : list string) : valid Q (map VStr l).
Proof. apply Forall_map, Forall_forall. intros x _. exact I. Qed.

Lemma valid_map_VNum {A} Q (f : A -> Z) (l : list A) : valid Q (map (fun x => VNum (f x)) l).
Proof. apply Forall_map, Forall_forall. intros x _. exact I. Qed.

Ltac valid_grow_tac :=
  first
    [ (eapply valid_grow; [|eassumption]; lia)
    | (eapply (valid_grow (A := value)); [|eassumption]; lia)
    | (eapply (valid_grow (A := list (string * value))); [|eassumption]; lia)
    | (eapply (valid_grow (A := list value)); [|eassumption]; lia) ].

Ltac valid_core :=
  lazymatch goal with
  | |- valid _ (_, _) => apply valid_pair; valid_core
  | |- valid _ (_ :: _) => apply valid_cons; valid_core
  | |- valid _ [] => apply valid_nil
  | |- valid _ (_ ++ _) => apply valid_app; valid_core
  | |- valid _ (take _ _) => apply valid_take; valid_core
  | |- valid _ (drop _ _) => apply valid_drop; valid_core
  | |- valid _ (default VUndef (_ !! _)) => apply valid_lookup_default; valid_core
  | |- valid _ (default VUndef (last _)) => apply valid_last_default; valid_core
  | |- valid _ (obj_set _ _ _) => apply valid_obj_set; valid_core
  | |- valid _ (prop _ _) => apply valid_prop; valid_core
  | |- valid _ (plain _ _ _ _) => apply valid_plain; valid_core
  | |- valid _ (Some _) => change (valid_opt) with (@valid_opt); cbn [valid valid_option valid_opt]; valid_core
  | |- valid _ (OArr _) => apply valid_OArr; valid_core
  | |- valid _ (OObj _) => apply valid_OObj; valid_core
  | |- valid _ (OFun _ _ _ _) => apply valid_OFun; valid_core
  | |- valid _ (map VStr _) => apply valid_map_VStr
  | |- valid _ (map (fun x => VNum _) _) => apply valid_map_VNum
  | |- valid _ (string_items _) => apply valid_string_items
  | |- valid _ (range_from _ _) => apply valid_range_from
  | |- valid _ (range_loop _ _ _ _) => apply valid_range_loop
  | |- valid _ (First.bind_params _ _ _) => apply valid_bind_params; valid_core
  | |- _ => first [ assumption | exact I | apply valid_strings | valid_grow_tac ]
  end.

Ltac split_valid :=
  repeat match goal with
         | Hv : valid _ (_, _) |- _ =>
             let Va := fresh "Va" in let Vb := fresh "Vb" in
             destruct Hv as [Va Vb]; cbn [fst snd] in Va, Vb
         end.

Ltac valid_tac := split_valid; valid_core.

Ltac frame_step :=
  lazymatch goal with
  | |- post _ _ (bind get_heap _ _) => apply post_get_heap
  | |- post _ _ (bind _ _ _) => apply post_bind; [|intros ? ? ? ? ?]
  | |- post _ _ (try_catch _ _ _) => apply post_try_catch; [|intros ? ? ? ?]
  | |- post _ _ (ret _ _) => apply post_ret; [assumption|]
  | |- post _ _ (throw _ _) => apply post_throw; assumption
  | |- post _ _ (noret _) => exact I
  | |- post _ _ (alloc _ _) => apply post_alloc; [assumption|]
  | |- post _ _ (read_array _ _) => apply post_read_array; [assumption|]
  | |- post _ _ (write_array _ _ _) => apply post_write_array; [assumption| |]
  | |- post _ _ ((if ?b then _ else _) _) => destruct b eqn:?
  | |- post _ _ ((let '(_, _) := ?p in _) _) => destruct p eqn:?
  | |- post _ _ (match ?x with _ => _ end _) => destruct x eqn:?
  | |- post _ _ (match ?x with _ => _ end) => destruct x eqn:?
  end.

Ltac frame := repeat (frame_step; try valid_tac).

Section HelpersSound.
Variable H : host.
Hypothesis HH : host_ok H.
Variable P : loc -> Prop.

Lemma post_js_String v h :
  inv P h -> valid (live P (length h)) v -> post P h (js_String H v h).
Proof.
  intros Hi V. unfold js_String. destruct v; frame.
  by apply (ok_object_to_string HH).
Qed.

Lemma post_repr depth : forall v h,
  inv P h -> valid (live P (length h)) v -> post P h (repr H depth v h).
Proof.
  induction depth as [|d IH]; intros v h Hi V; destruct v; cbn [repr]; frame.
  - by apply (ok_json_stringify HH).
  - by apply (ok_json_stringify HH).
  - apply post_mapM; [done|]. intros x h1 Hin I1 L1. apply IH; [done|].
    pose proof (inv_lookup Hi V Heqo) as F. simpl in F.
    eapply valid_grow; [exact L1|]. rewrite Forall_forall in F. apply F.
    by apply list_elem_of_In.
  - by apply (ok_json_stringify HH).
  - by apply (ok_json_stringify HH).
Qed.

Lemma post___repr v h :
  inv P h -> valid (live P (length h)) v -> post P h (__repr H v h).
Proof. intros Hi V. unfold __repr. frame. by apply post_repr. Qed.

Lemma post_repr_items els h :
  inv P h -> valid (live P (length h)) els -> post P h (repr_items H els h).
Proof.
  intros Hi V. unfold repr_items. frame.
  apply post_mapM; [done|]. intros x h1 Hin I1 L1. apply post___repr; [done|].
  eapply valid_grow; [exact L1|]. by eapply valid_In.
Qed.

Lemma post_print_arg v h :
  inv P h -> valid (live P (length h)) v -> post P h (print_arg H v h).
Proof.
  intros Hi V. unfold print_arg. destruct v; try (by apply post_js_String); frame.
  - apply post_repr_items; [done|]. by apply (inv_lookup Hi V Heqo).
  - by apply (ok_json_stringify HH).
  - by apply (ok_json_stringify HH).
Qed.

Lemma post___print args h :
  inv P h -> valid (live P (length h)) args -> post P h (__print H args h).
Proof.
  intros Hi V. unfold __print. frame.
  apply post_mapM; [done|]. intros x h1 Hin I1 L1. apply post_print_arg; [done|].
  eapply valid_grow; [exact L1|]. by eapply valid_In.
Qed.

Lemma post_array_from n start h : inv P h -> post P h (array_from n start h).
Proof. intros Hi. unfold array_from. frame. Qed.

Lemma post___range args h : inv P h -> post P h (__range args h).
Proof.
  intros Hi. unfold __range.
  repeat match goal with
         | |- post _ _ (match ?x with _ => _ end _) => destruct x
         end;
    first [ exact I
          | by apply post_array_from
          | solve [frame] ].
Qed.

Lemma post___len args h : inv P h -> post P h (__len args h).
Proof.
  intros Hi. unfold __len.
  destruct (match args with a :: _ => a | [] => VUndef end); frame.
Qed.

End HelpersSound.

Lemma native___print H : host_ok H -> native_ok (__print H).
Proof. intros HH P h args Hi V. by apply post___print. Qed.

Lemma native___repr H :
  host_ok H ->
  native_ok (fun args =>
    do s <- __repr H (match args with a :: _ => a | [] => VUndef end); ret (VStr s)).
Proof.
  intros HH P h args Hi V. frame. apply post___repr; [done..|].
  destruct args as [|a args]; [exact I|]. by inversion V.
Qed.

Lemma native___range : native_ok __range.
Proof. intros P h args Hi V. by apply post___range. Qed.

Lemma native___len : native_ok __len.
Proof. intros P h args Hi V. by apply post___len. Qed.

Lemma valid_allVariables H Q (variables : env) :
  host_ok H -> valid Q variables -> valid Q (allVariables H variables).
Proof.
  intros HH V. unfold allVariables. apply valid_obj_assign.
  - apply Forall_map. eapply Forall_impl; [exact V|]. intros [k v] [_ Vv].
    split; [exact I|exact Vv].
  - unfold helperFunctions. repeat constructor; simpl.
    + by apply native___print.
    + by apply native___repr.
    + apply native___range.
    + apply native___len.
Qed.


Lemma post_json_copy P vars h : inv P h -> post P h (json_copy vars h).
Proof.
  intros Hi. destruct (json_copy vars h) as [snap h'|msg h'|] eqn:E; cbn [post].
  - pose proof E as A. apply json_copy_appended in A.
    destruct A as (e & -> & F & Vs).
    assert (Hnew : forall l, length h <= l < length (h ++ e) -> live P (length (h ++ e)) l).
    { intros l [Hlo Hhi]. split; [done|]. intros Hp. apply Hi in Hp. lia. }
    assert (Hv : forall v, val_in (length h) (length (h ++ e)) v ->
                           val_ok (live P (length (h ++ e))) v).
    { intros v. destruct v; simpl; auto. }
    split; [split|split].
    + intros l Hp. apply Hi in Hp. rewrite length_app. lia.
    + intros l o El Hn. apply lookup_app_Some in El as [El|[Hge El]].
      * eapply obj_ok_impl; [|eapply Hi; eauto].
        intros l'. apply live_grow. rewrite length_app. lia.
      * rewrite Forall_forall in F.
        assert (Ho : obj_in (length h) (length (h ++ e)) o).
        { apply F. eapply list_elem_of_lookup_2. exact El. }
        revert Ho. destruct o; simpl.
        -- intros G. eapply Forall_impl; [exact G|]. intros v. apply Hv.
        -- intros G. eapply Forall_impl; [exact G|]. intros p. apply Hv.
        -- apply Hv.
    + apply ext_app, Hi.
    + by apply Hv.
  - unfold json_copy in E. destruct (copy_fields _ _ _) as [[? ?]|]; [discriminate|].
    injection E as <- <-. split; [done|apply ext_refl].
  - done.
Qed.

Lemma post_iter_length P v h :
  inv P h -> valid (live P (length h)) v -> post P h (iter_length v h).
Proof. intros Hi V. unfold iter_length. destruct v; frame. Qed.

Lemma post_iter_item P v i h :
  inv P h -> valid (live P (length h)) v -> post P h (iter_item v i h).
Proof.
  intros Hi V. unfold iter_item. destruct v; frame.
Qed.

Lemma post_loop_test {A} `{Valid A} P v i (turn : nat -> M A) (done : M A) h :
  inv P h -> valid (live P (length h)) v ->
  (forall len h1, inv P h1 -> length h <= length h1 -> post P h1 (turn len h1)) ->
  (forall h1, inv P h1 -> length h <= length h1 -> post P h1 (done h1)) ->
  post P h (loop_test v i turn done h).
Proof.
  intros Hi V Ht Hd. unfold loop_test. frame.
  - by apply post_iter_length.
  - by apply Hd.
  - by apply Ht.
Qed.

Section EvaluationSound.
Variable H : host.
Hypothesis HH : host_ok H.
Variable fuel : nat.
Variable P : loc -> Prop.

Lemma post_safeEval e vars h :
  inv P h -> valid (live P (length h)) vars -> post P h (First.safeEval H e vars h).
Proof.
  intros Hi V. unfold First.safeEval. frame.
  apply (ok_new_function HH); [done|]. by apply valid_allVariables.
Qed.

Lemma post_comprehension_turns n : forall i iterableValue variables iterVar expr condition acc h,
  inv P h -> valid (live P (length h)) iterableValue ->
  valid (live P (length h)) variables -> valid (live P (length h)) acc ->
  post P h (First.comprehension_turns H n i iterableValue variables iterVar expr
              condition acc h).
Proof.
  induction n as [|n IH]; intros i iterableValue variables iterVar expr condition acc h
    Hi Vi Vv Va; cbn [First.comprehension_turns]; [exact I|].
  apply post_bind; [by apply post_iter_item|]. intros item h1 I1 L1 Vitem.
  assert (Vt : valid (live P (length h1)) (obj_set iterVar item variables)).
  { apply valid_obj_set; [done|valid_tac]. }
  apply post_bind.
  { destruct condition as [c|]; frame. apply post_safeEval; [done|valid_tac]. }
  intros keep h2 I2 L2 _.
  apply post_bind.
  { destruct keep; frame. apply post_safeEval; [done|valid_tac]. }
  intros acc' h3 I3 L3 Vacc'.
  apply post_loop_test; [done|valid_tac| |].
  - intros len h4 I4 L4. apply IH; try done; valid_tac.
  - intros h4 I4 L4. frame.
Qed.

Lemma post_comprehension_loop iterableValue variables iterVar expr condition h :
  inv P h -> valid (live P (length h)) iterableValue ->
  valid (live P (length h)) variables ->
  post P h (First.comprehension_loop H fuel iterableValue variables iterVar expr
              condition h).
Proof.
  intros Hi Vi Vv. unfold First.comprehension_loop.
  apply post_loop_test; [done|done| |].
  - intros len h1 I1 L1. apply post_comprehension_turns; try done; valid_tac.
  - intros h1 I1 L1. frame.
Qed.

Lemma post_parseListComprehension e vars h :
  inv P h -> valid (live P (length h)) vars ->
  post P h (First.parseListComprehension H fuel e vars h).
Proof.
  intros Hi V. unfold First.parseListComprehension. frame.
  - by apply post_safeEval.
  - apply post_comprehension_loop; [done|valid_tac|valid_tac].
Qed.

Lemma post_spread_object v h :
  inv P h -> valid (live P (length h)) v -> post P h (First.spread_object v h).
Proof.
  intros Hi V. unfold First.spread_object. destruct v; try (by apply post_ret; [|constructor]).
  destruct (h !! l) as [[| fs |]|] eqn:E; try exact I.
  apply post_ret; [done|]. pose proof (inv_lookup Hi V E) as F. simpl in F.
  eapply Forall_impl; [exact F|]. intros [k v] Vv. split; [exact I|exact Vv].
Qed.

Lemma post_function_body funcName body scope h :
  inv P h -> valid (live P (length h)) scope ->
  post P h (First.function_body H funcName body scope h).
Proof.
  intros Hi V. unfold First.function_body. frame. by apply post_safeEval.
Qed.

Lemma post_handleFunctionCall funcName args variables output h :
  inv P h -> valid (live P (length h)) args -> valid (live P (length h)) variables ->
  post P h (First.handleFunctionCall H funcName args variables output h).
Proof.
  intros Hi Va Vv. unfold First.handleFunctionCall. frame.
  - apply post_spread_object; [done|].
    pose proof (valid_prop funcName Vv) as Vf. rewrite Heqv in Vf.
    apply (inv_lookup Hi Vf Heqo).
  - apply post_function_body; [done|]. valid_tac.
Qed.

End EvaluationSound.


Section SharedSound.
Variable H : host.
Hypothesis HH : host_ok H.
Variable fuel : nat.
Variable P : loc -> Prop.

(** The statements shared by the two implementations, for a [safeEval]
    that is sound *)
Section SharedStatements.
Variable safeEval : string -> env -> M value.
Hypothesis post_eval : forall e vars h,
  inv P h -> valid (live P (length h)) vars -> post P h (safeEval e vars h).

Ltac close_shared :=
  try solve
    [ apply post_eval; [done|valid_tac]
    | apply post___repr; [done..|valid_tac]
    | apply post_js_String; [done..|valid_tac]
    | apply (ok_parse_int HH); [done|valid_tac]
    | apply (ok_binop HH); [done|valid_tac|valid_tac] ].

Lemma post_augmented_assignment t vars out h :
  inv P h -> valid (live P (length h)) vars ->
  post P h (Shared.augmented_assignment H safeEval t vars out h).
Proof.
  intros Hi V. unfold Shared.augmented_assignment. frame; close_shared.
Qed.

Lemma post_list_method operation listName args list vars h :
  inv P h -> valid (live P (length h)) list -> valid (live P (length h)) vars ->
  post P h (Shared.list_method H safeEval operation listName args list vars h).
Proof.
  intros Hi Vl Vv. unfold Shared.list_method, Shared.safeEval_undefined.
  frame; close_shared.
Qed.

Lemma post_list_operation_statement t vars out h :
  inv P h -> valid (live P (length h)) vars ->
  post P h (Shared.list_operation_statement H safeEval t vars out h).
Proof.
  intros Hi V. unfold Shared.list_operation_statement, copy_array. frame; close_shared.
  apply post_list_method; valid_tac.
Qed.

Lemma post_for_iterable e vars h :
  inv P h -> valid (live P (length h)) vars ->
  post P h (Shared.for_iterable safeEval e vars h).
Proof.
  intros Hi V. unfold Shared.for_iterable. frame; close_shared.
Qed.

Lemma post_for_statement t vars out h :
  inv P h -> valid (live P (length h)) vars ->
  post P h (Shared.for_statement safeEval t vars out h).
Proof.
  intros Hi V. unfold Shared.for_statement. frame; close_shared.
  by apply post_for_iterable.
Qed.

Lemma post_guard_statement a skip t vars out h :
  inv P h -> valid (live P (length h)) vars ->
  post P h (Shared.guard_statement safeEval a skip t vars out h).
Proof.
  intros Hi V. unfold Shared.guard_statement. frame; close_shared.
Qed.

End SharedStatements.

End SharedSound.


Section StatementsSound.
Variable H : host.
Hypothesis HH : host_ok H.
Variable fuel : nat.
Variable P : loc -> Prop.

Ltac close_first :=
  try solve
    [ apply post_safeEval; [done..|valid_tac]
    | apply post___repr; [done..|valid_tac]
    | apply post_repr_items; [done..|valid_tac]
    | apply post_js_String; [done..|valid_tac]
    | apply post_json_copy; done
    | apply (ok_json_parse HH); done
    | apply (ok_is_nan HH); done
    | apply (ok_parse_float HH); done
    | apply post_parseListComprehension; [done..|valid_tac]
    | apply post_handleFunctionCall; [done..|valid_tac|valid_tac] ].

Lemma post_mapM_safeEval (f : string -> string) vars l h :
  inv P h -> valid (live P (length h)) vars ->
  post P h (mapM (fun arg => First.safeEval H (f arg) vars) l h).
Proof.
  intros Hi V. apply post_mapM; [done|]. intros x h1 _ I1 L1.
  apply post_safeEval; [done..|valid_tac].
Qed.

Lemma post_assigned_value e vars out lines idx h :
  inv P h -> valid (live P (length h)) vars ->
  post P h (First.assigned_value H fuel e vars out lines idx h).
Proof.
  intros Hi V. unfold First.assigned_value. frame; close_first.
  apply (post_mapM_safeEval (fun x => x)); [done|valid_tac].
Qed.

Lemma post_assignment t vars out lines idx h :
  inv P h -> valid (live P (length h)) vars ->
  post P h (First.assignment H fuel t vars out lines idx h).
Proof.
  intros Hi V. unfold First.assignment. frame; close_first.
  by apply post_assigned_value.
Qed.

Lemma post_print_statement t vars out h :
  inv P h -> valid (live P (length h)) vars ->
  post P h (First.print_statement H t vars out h).
Proof.
  intros Hi V. unfold First.print_statement. frame; close_first.
  - apply post_mapM; [done|]. intros x h1 _ I1 L1. frame; close_first.
  - apply post_mapM; [done|]. intros x h2 Hin I2 L2.
    assert (Vx : valid (live P (length h2)) x).
    { eapply valid_grow; [exact L2|].
      match goal with Hl : valid _ ?l, Hx : In x ?l |- _ => exact (valid_In _ Hl Hx) end. }
    frame; close_first.
Qed.

Lemma post_def_statement t vars out h :
  inv P h -> valid (live P (length h)) vars ->
  post P h (First.def_statement t vars out h).
Proof.
  intros Hi V. unfold First.def_statement. frame; close_first.
Qed.

Lemma post_call_statement t vars out h :
  inv P h -> valid (live P (length h)) vars ->
  post P h (First.call_statement H t vars out h).
Proof.
  intros Hi V. unfold First.call_statement. frame; close_first.
  apply (post_mapM_safeEval Str.trim); [done|valid_tac].
Qed.

Lemma post_statement lineData vars out lines h :
  inv P h -> valid (live P (length h)) vars ->
  post P h (First.statement H fuel lineData vars out lines h).
Proof.
  intros Hi V. unfold First.statement.
  destruct (First.classify (trimmed lineData)).
  - by apply post_assignment.
  - apply post_augmented_assignment; try done. intros. by apply post_safeEval.
  - apply post_list_operation_statement; try done. intros. by apply post_safeEval.
  - by apply post_print_statement.
  - by apply post_def_statement.
  - by apply post_call_statement.
  - apply post_for_statement; try done. intros. by apply post_safeEval.
  - apply post_guard_statement; try done. intros. by apply post_safeEval.
  - apply post_guard_statement; try done. intros. by apply post_safeEval.
  - frame.
  - frame.
Qed.

End StatementsSound.


(** *** Computations that record steps *)

#[export] Instance monotone_step : Monotone step.
Proof. done. Qed.

Lemma inv_iff (P Q : loc -> Prop) h : (forall l, P l <-> Q l) -> inv P h -> inv Q h.
Proof.
  intros E [Hb Hl]. split.
  - intros l Hq. apply Hb. by apply E.
  - intros l o El Hn. eapply obj_ok_impl; [|eapply Hl; [exact El|]].
    + intros l' [? Hp]. split; [done|]. intros Hq. apply Hp. by apply E.
    + intros Hp. apply Hn. by apply E.
Qed.

Lemma ext_impl (P Q : loc -> Prop) h h' : (forall l, Q l -> P l) -> ext P h h' -> ext Q h h'.
Proof. intros E [L X]. split; [done|]. intros l Hq. by apply X, E. Qed.

Lemma guard_nil P l : guard P [] l <-> P l.
Proof.
  unfold guard. split; [|by left]. intros [?|E]; [done|]. by apply Exists_nil in E.
Qed.

Lemma guard_app P rs1 rs2 l : guard (guard P rs1) rs2 l <-> guard P (rs1 ++ rs2) l.
Proof. unfold guard. rewrite Exists_app. tauto. Qed.

Lemma guard_base (P : loc -> Prop) rs l : P l -> guard P rs l.
Proof. by left. Qed.

Lemma ordered_le lo rs hi : ordered lo rs hi -> lo <= hi.
Proof.
  revert lo. induction rs as [|r rs IH]; simpl; intros lo; [done|].
  intros (? & ? & O). apply IH in O. lia.
Qed.

Lemma ordered_weaken lo lo' rs hi : lo' <= lo -> ordered lo rs hi -> ordered lo' rs hi.
Proof. destruct rs as [|r rs]; simpl; [lia|]. intros ? (? & ? & ?). split; [lia|done]. Qed.

Lemma ordered_app lo rs1 mid rs2 hi :
  ordered lo rs1 mid -> ordered mid rs2 hi -> ordered lo (rs1 ++ rs2) hi.
Proof.
  revert lo. induction rs1 as [|r rs1 IH]; simpl; intros lo.
  - intros ?. by apply ordered_weaken.
  - intros (? & ? & O) O2. split; [done|]. split; [done|]. by apply IH.
Qed.

Lemma ordered_inside lo rs hi r l :
  ordered lo rs hi -> In r rs -> inside r l -> lo <= l < hi.
Proof.
  revert lo. induction rs as [|r' rs IH]; simpl; intros lo; [done|].
  intros (? & ? & O) [->|Hin] Hl.
  - apply ordered_le in O. unfold inside in Hl. lia.
  - specialize (IH _ O Hin Hl). lia.
Qed.

Lemma ordered_apart lo rs hi i j ri rj :
  ordered lo rs hi -> i < j -> rs !! i = Some ri -> rs !! j = Some rj ->
  snd ri <= fst rj.
Proof.
  revert lo i j. induction rs as [|r rs IH]; intros lo i j O Hij Ei Ej; [done|].
  destruct O as (? & ? & O). destruct j as [|j]; [lia|]. simpl in Ej.
  destruct i as [|i]; simpl in Ei.
  - injection Ei as <-. destruct rs as [|r' rs]; [done|].
    assert (Hin : In rj (r' :: rs)).
    { apply list_elem_of_In. eapply list_elem_of_lookup_2. exact Ej. }
    clear IH Ej. revert Hin O. generalize (snd r). generalize (r' :: rs).
    induction l as [|a l IHl]; [done|]. intros n [->|Hin] (? & ? & O); [done|].
    specialize (IHl _ Hin O). lia.
  - eapply IH; [exact O| |exact Ei|exact Ej]. lia.
Qed.

Lemma live_fresh P Q n n' l : fresh P Q n -> n <= n' -> live P n l -> live Q n' l.
Proof.
  intros F L [Hl Hp]. split; [lia|]. intros Hq. destruct (F l Hq); [done|lia].
Qed.

Lemma valid_fresh {A} `{Monotone A} P Q n n' (a : A) :
  fresh P Q n -> n <= n' -> valid (live P n) a -> valid (live Q n') a.
Proof. intros F L. apply valid_impl. intros l. by apply live_fresh. Qed.

Lemma fresh_guard P lo rs hi n : ordered lo rs hi -> n <= lo -> fresh P (guard P rs) n.
Proof.
  intros O L l [Hp|E]; [by left|]. right. apply Exists_exists in E as (r & Hin & Hl).
  apply list_elem_of_In in Hin. pose proof (@ordered_inside _ _ _ _ _ O Hin Hl). lia.
Qed.

Lemma recorded_nil P lo h : inv P h -> lo <= length h -> recorded P lo h [] [].
Proof.
  intros Hi L. split; [constructor|]. split; [done|]. split; [constructor|].
  eapply inv_iff; [|exact Hi]. intros l. symmetry. apply guard_nil.
Qed.

Lemma closed_ext (P : loc -> Prop) h h' r :
  (forall l, inside r l -> P l) -> ext P h h' -> closed h r -> closed h' r.
Proof.
  intros Hp [_ X] C l Hl. destruct (C l Hl) as (o & E & Ho). exists o.
  split; [|done]. rewrite X; [done|]. by apply Hp.
Qed.

Lemma recorded_app P lo h1 h2 ss1 rs1 ss2 rs2 :
  recorded P lo h1 ss1 rs1 -> recorded (guard P rs1) (length h1) h2 ss2 rs2 ->
  ext (guard P rs1) h1 h2 -> recorded P lo h2 (ss1 ++ ss2) (rs1 ++ rs2).
Proof.
  intros (F1 & O1 & C1 & I1) (F2 & O2 & C2 & I2) X.
  split; [by apply Forall2_app|]. split; [by eapply ordered_app|]. split.
  - apply Forall_app. split; [|done]. rewrite Forall_forall in C1 |- *.
    intros r Hin. eapply closed_ext; [|exact X|by apply C1].
    intros l Hl. right. apply Exists_exists. eauto.
  - eapply inv_iff; [|exact I2]. intros l. apply guard_app.
Qed.

(** Taking a snapshot *)
Lemma snapshot_recorded P vars h snap h' (s : step) :
  inv P h -> json_copy vars h = Ok snap h' -> s_variables s = snap ->
  recorded P (length h) h' [s] [(length h, length h')] /\ ext P h h'.
Proof.
  intros Hi E Es. apply json_copy_appended in E. destruct E as (e & -> & F & Vs).
  assert (L : length h <= length (h ++ e)) by (rewrite length_app; lia).
  split; [|apply ext_app, Hi]. split; [|split; [|split]].
  - constructor; [|constructor]. unfold snapshot_in. by rewrite Es.
  - simpl. lia.
  - constructor; [|constructor]. intros l [Hlo Hhi]. simpl in Hlo, Hhi.
    destruct (lookup_lt_is_Some_2 (h ++ e) l Hhi) as [o El]. exists o.
    split; [done|]. simpl. apply lookup_app_Some in El as [El|[_ El]].
    + apply lookup_lt_Some in El. lia.
    + rewrite Forall_forall in F. apply F. eapply list_elem_of_lookup_2. exact El.
  - destruct Hi as [Hb Hl]. split.
    + intros l [Hp|Ex]; [apply Hb in Hp; lia|].
      apply Exists_cons in Ex as [[_ ?]|Ex]; [done|]. by apply Exists_nil in Ex.
    + intros l o El Hn.
      assert (Hlt : l < length h).
      { apply lookup_lt_Some in El. destruct (decide (l < length h)); [done|].
        exfalso. apply Hn. right. apply Exists_cons. left. split; simpl; lia. }
      rewrite lookup_app_l in El by done.
      eapply obj_ok_impl; [|eapply Hl; [exact El|]].
      * intros l'. apply live_fresh; [|done].
        eapply (@fresh_guard P (length h) [(length h, length (h ++ e))]); [|done].
        simpl. split; [done|]. split; [done|]. exact (le_n _).
      * intros Hp. apply Hn. by left.
Qed.

Lemma track_ret {A} `{Monotone A} (steps : A -> list step) pre P h (a : A) :
  inv P h -> valid (live P (length h)) a -> steps a = pre ->
  track steps pre P h (ret a h).
Proof.
  intros Hi V E. exists [], []. rewrite app_nil_r. split; [done|].
  split; [apply recorded_nil; [done|lia]|]. split; [apply ext_refl|].
  eapply valid_impl; [|exact V]. intros l [? Hp]. split; [done|].
  intros G. apply Hp. by apply (guard_nil P l).
Qed.

Lemma track_weaken {A} `{Valid A} (steps : A -> list step) pre P h h1 (r : res A) :
  ext P h h1 -> track steps pre P h1 r -> track steps pre P h r.
Proof.
  intros X. destruct r as [a h'| |]; simpl; [|done..].
  intros (new & rs & E & (F & O & C & Hi) & X' & V). exists new, rs.
  split; [done|]. split; [|split; [by eapply ext_trans|done]].
  split; [done|]. split; [|done]. eapply ordered_weaken; [|exact O]. apply X.
Qed.

(** A computation that records nothing, and then one that does *)
Lemma track_post {A B} `{Valid A} `{Valid B} (steps : B -> list step) pre P
    (m : M A) (k : A -> M B) h :
  post P h (m h) ->
  (forall a h1, inv P h1 -> length h <= length h1 ->
                valid (live P (length h1)) a -> track steps pre P h1 (k a h1)) ->
  track steps pre P h (bind m k h).
Proof.
  unfold bind. destruct (m h) as [a h1|msg h1|]; simpl; [|done..].
  intros (Hi & X & V) Hk. eapply track_weaken; [exact X|].
  apply Hk; [done|apply X|done].
Qed.

Lemma track_bind {A B} `{Valid A} `{Monotone B} (sA : A -> list step)
    (sB : B -> list step) pre P (m : M A) (k : A -> M B) h :
  track sA pre P h (m h) ->
  (forall a h1 Q, inv Q h1 -> length h <= length h1 -> fresh P Q (length h) ->
                  valid (live Q (length h1)) a -> track sB (sA a) Q h1 (k a h1)) ->
  track sB pre P h (bind m k h).
Proof.
  unfold bind. destruct (m h) as [a h1|msg h1|]; simpl; [|done..].
  intros (new1 & rs1 & E1 & R1 & X1 & V1) Hk.
  assert (O1 : ordered (length h) rs1 (length h1)) by apply R1.
  specialize (Hk a h1 (guard P rs1)).
  destruct (k a h1) as [b h2|msg h2|]; simpl; [|done..].
  destruct Hk as (new2 & rs2 & E2 & R2 & X2 & V2).
  - apply R1.
  - apply X1.
  - by eapply fresh_guard.
  - done.
  - exists (new1 ++ new2), (rs1 ++ rs2). split; [by rewrite E2, E1, app_assoc|].
    split; [by eapply recorded_app|]. split.
    + eapply ext_trans; [exact X1|]. eapply ext_impl; [|exact X2]. intros l. apply guard_base.
    + eapply valid_impl; [|exact V2]. intros l [? Hn]. split; [done|].
      intros G. apply Hn. by apply guard_app.
Qed.

Lemma track_shift {A} `{Valid A} (steps : A -> list step) pre P h (r : res A) :
  track steps [] P h r -> track (fun a => pre ++ steps a) pre P h r.
Proof.
  destruct r as [a h'| |]; simpl; [|done..].
  intros (new & rs & E & R). exists new, rs. by rewrite E.
Qed.

Lemma track_snapshot {B} `{Monotone B} (steps : B -> list step) pre P vars
    (mk : value -> step) (k : value -> M B) h :
  (forall v, s_variables (mk v) = v) ->
  inv P h ->
  (forall snap h1 Q, inv Q h1 -> length h <= length h1 -> fresh P Q (length h) ->
                     track steps (pre ++ [mk snap]) Q h1 (k snap h1)) ->
  track steps pre P h (bind (json_copy vars) k h).
Proof.
  intros Hmk Hi Hk. unfold bind. destruct (json_copy vars h) as [snap h1|msg h1|] eqn:E;
    simpl; [|done..].
  destruct (@snapshot_recorded P vars h snap h1 (mk snap) Hi E (Hmk snap)) as [R1 X1].
  assert (O1 : ordered (length h) [(length h, length h1)] (length h1)) by apply R1.
  specialize (Hk snap h1 (guard P [(length h, length h1)])).
  destruct (k snap h1) as [b h2|msg h2|]; simpl; [|done..].
  destruct Hk as (new2 & rs2 & E2 & R2 & X2 & V2).
  - apply R1.
  - apply X1.
  - by eapply fresh_guard.
  - exists ([mk snap] ++ new2), ([(length h, length h1)] ++ rs2).
    split; [by rewrite E2, app_assoc|].
    split; [by eapply recorded_app|]. split.
    + eapply ext_trans; [exact X1|]. eapply ext_impl; [|exact X2]. intros l. apply guard_base.
    + eapply valid_impl; [|exact V2]. intros l [? Hn]. split; [done|].
      intros G. apply Hn. by apply guard_app.
Qed.


Lemma valid_carry {A} `{Monotone A} (P Q : loc -> Prop) (n n0 n' : nat) (a : A) :
  fresh P Q n -> n0 <= n -> n0 <= n' -> valid (live P n0) a -> valid (live Q n') a.
Proof.
  intros F L L'. apply valid_fresh; [|done]. intros l Hq.
  destruct (F l Hq); [by left|right; lia].
Qed.

(** [carry F V h1]: what was valid before the steps were recorded is valid
    after. *)
Ltac carry F V h1 :=
  eapply (@valid_carry _ _ _ _ _ _ _ (length h1) _ F) in V; [|lia|lia].

Ltac track_sub :=
  lazymatch goal with
  | |- track _ ?pre _ _ (bind _ _ _) =>
      eapply (@track_bind _ _ _ _ _ (fun r => pre ++ r_steps r)); [apply track_shift|]
  end.

Lemma track_loop_test {A} `{Valid A} (steps : A -> list step) pre P v i
    (turn : nat -> M A) (done : M A) h :
  inv P h -> valid (live P (length h)) v ->
  (forall len h1, inv P h1 -> length h <= length h1 -> track steps pre P h1 (turn len h1)) ->
  (forall h1, inv P h1 -> length h <= length h1 -> track steps pre P h1 (done h1)) ->
  track steps pre P h (loop_test v i turn done h).
Proof.
  intros Hi V Ht Hd. unfold loop_test. apply track_post; [by apply post_iter_length|].
  intros len h1 I1 L1 _. destruct (len <=? i); [by apply Hd|by apply Ht].
Qed.

Lemma track_error_result P i msg vars out h :
  inv P h -> valid (live P (length h)) vars ->
  track r_steps [] P h (error_result i msg vars out h).
Proof.
  intros Hi V. unfold error_result.
  apply (@track_snapshot _ _ _ r_steps [] P vars
           (fun snap => Step i error [("error", VStr msg)] snap out)); [done..|].
  intros snap h1 Q I1 L1 F. carry F V h1. by apply track_ret.
Qed.

Lemma track_guarded P i vars out (statement : M (option pending)) h :
  inv P h -> valid (live P (length h)) vars -> post P h (statement h) ->
  track r_steps [] P h (guarded i vars out statement h).
Proof.
  intros Hi V. unfold guarded.
  destruct (statement h) as [[p|] h1|msg h1|]; cbn [post]; [| | |done].
  - intros (I1 & X1 & V1). eapply track_weaken; [exact X1|].
    destruct (json_copy (p_vars p) h1) as [snap h2|msg h2|] eqn:E; [| |done].
    + pose proof (@track_snapshot _ _ _ r_steps [] P (p_vars p)
                    (fun snap => Step i (p_action p) (p_fields p) snap (p_out p))
                    (fun snap => ret (Result [Step i (p_action p) (p_fields p) snap (p_out p)]
                                        (p_vars p) (p_out p))) h1) as T.
      unfold bind in T. rewrite E in T. apply T; [done..|].
      intros snap' h3 Q I3 L3 F. change (valid (live P (length h1)) (p_vars p)) in V1. carry F V1 h3. by apply track_ret.
    + assert (h2 = h1) as ->.
      { unfold json_copy in E. destruct (copy_fields _ _ _) as [[? ?]|]; [done|].
        by injection E. }
      unfold error_result, bind. by rewrite E.
  - intros (I1 & X1 & _). eapply track_weaken; [exact X1|].
    apply (@track_ret _ _ _ r_steps [] P h1 (Result [] vars out)); [done| |done].
    eapply valid_grow; [apply X1|done].
  - intros (I1 & X1). eapply track_weaken; [exact X1|].
    apply track_error_result; [done|]. eapply valid_grow; [apply X1|done].
Qed.

Section TraceSound.
Variable H : host.
Hypothesis HH : host_ok H.
Variable fuel : nat.

Lemma track_processLine P lineData vars out lines h :
  inv P h -> valid (live P (length h)) vars ->
  track r_steps [] P h (First.processLine H fuel lineData vars out lines h).
Proof.
  intros Hi V. unfold First.processLine.
  destruct (_ || _).
  - by apply track_ret.
  - apply track_guarded; [done..|]. by apply post_statement.
Qed.

Lemma track_loop_body loopBody lines : forall P variables output h,
  inv P h -> valid (live P (length h)) variables ->
  track r_steps [] P h (First.loop_body H fuel loopBody lines variables output h).
Proof.
  induction loopBody as [|bodyLine loopBody IH]; intros P variables output h Hi V;
    cbn [First.loop_body].
  - by apply track_ret.
  - eapply track_bind; [by apply track_processLine|].
    intros r h1 Q I1 L1 F1 V1.
    track_sub; [by apply IH|].
    intros r' h2 Q' I2 L2 F2 V2. by apply track_ret.
Qed.

Lemma track_turns n : forall P iterIndex len originalIndex iterVar iterableValue loopBody
    lines variables output h,
  inv P h -> valid (live P (length h)) iterableValue ->
  valid (live P (length h)) variables ->
  track r_steps [] P h
    (First.turns H fuel n iterIndex len originalIndex iterVar iterableValue loopBody lines
       variables output h).
Proof.
  induction n as [|n IH]; intros P iterIndex len originalIndex iterVar iterableValue
    loopBody lines variables output h Hi Vi Vv; cbn [First.turns]; [done|].
  apply track_post; [by apply post_iter_item|]. intros item h1 I1 L1 Vitem.
  assert (Vt : valid (live P (length h1)) (obj_set iterVar item variables)).
  { apply valid_obj_set; [done|valid_tac]. }
  apply (@track_snapshot _ _ _ r_steps [] P (obj_set iterVar item variables)
           (fun snap => Step originalIndex for_loop_iteration
              [("iterVar", VStr iterVar); ("currentValue", item);
               ("iterationIndex", VNum (Z.of_nat iterIndex));
               ("totalIterations", VNum (Z.of_nat len))] snap output)); [done..|].
  intros snap h2 Q I2 L2 F2. carry F2 Vt h2. carry F2 Vi h2.
  track_sub; [by apply track_loop_body|].
  intros r h3 Q3 I3 L3 F3 V3. carry F3 Vi h3.
  track_sub.
  { apply track_loop_test; [done..| |].
    - intros len' h4 I4 L4. apply IH; [done| |].
      + eapply valid_grow; [exact L4|done].
      + eapply valid_grow; [exact L4|done].
    - intros h4 I4 L4. apply track_ret; [done| |done].
      eapply valid_grow; [exact L4|done]. }
  intros r' h4 Q4 I4 L4 F4 V4. apply track_ret; [done|done|].
  cbn [r_steps]. by rewrite <- app_assoc.
Qed.

Lemma track_iterations P originalIndex iterVar iterableValue loopBody lines variables
    output h :
  inv P h -> valid (live P (length h)) iterableValue ->
  valid (live P (length h)) variables ->
  track r_steps [] P h
    (First.iterations H fuel originalIndex iterVar iterableValue loopBody lines
       variables output h).
Proof.
  intros Hi Vi Vv. unfold First.iterations. apply track_loop_test; [done..| |].
  - intros len h1 I1 L1. apply track_turns; [done| |]; eapply valid_grow; [exact L1|done|exact L1|done].
  - intros h1 I1 L1. apply track_ret; [done| |done]. eapply valid_grow; [exact L1|done].
Qed.

Lemma track_for_block P lineData forMatch loopBody lines variables output h :
  inv P h -> valid (live P (length h)) variables ->
  track r_steps [] P h
    (First.for_block H fuel lineData forMatch loopBody lines variables output h).
Proof.
  intros Hi V. unfold First.for_block.
  apply track_post.
  { apply post_for_iterable; [|done..]. intros. by apply post_safeEval. }
  intros iterableValue h1 I1 L1 Vi.
  apply track_post; [apply post_alloc; [done|valid_tac]|].
  intros bodyIndices h2 I2 L2 Vb.
  assert (Vv : valid (live P (length h2)) variables) by valid_tac.
  assert (Vi2 : valid (live P (length h2)) iterableValue) by valid_tac.
  apply (@track_snapshot _ _ _ r_steps [] P variables
           (fun snap => Step (originalIndex lineData) for_loop_start
              [("iterVar", VStr (Re.group_or_empty 1 forMatch));
               ("iterable", iterableValue); ("loopBody", bodyIndices)] snap output));
    [done..|].
  intros snap h3 Q I3 L3 F3. carry F3 Vv h3. carry F3 Vi2 h3.
  track_sub; [by apply track_iterations|].
  intros r h4 Q4 I4 L4 F4 V4.
  apply (@track_snapshot _ _ _ r_steps _ Q4 (r_variables r)
           (fun snap' => Step (originalIndex lineData) for_loop_end
              [("iterVar", VStr (Re.group_or_empty 1 forMatch))] snap' (r_output r)));
    [done..|].
  intros snap' h5 Q5 I5 L5 F5. change (valid (live Q4 (length h4)) (r_variables r)) in V4. carry F5 V4 h5.
  apply track_ret; [done|done|]. cbn [r_steps]. by rewrite <- app_assoc.
Qed.

Lemma track_def_block P lineData funcMatch functionBody variables output h :
  inv P h -> valid (live P (length h)) variables ->
  track r_steps [] P h
    (First.def_block lineData funcMatch functionBody variables output h).
Proof.
  intros Hi V. unfold First.def_block.
  apply track_post; [by apply post_json_copy|]. intros closure h1 I1 L1 Vc.
  apply track_post; [apply post_alloc; [done|valid_tac]|]. intros func h2 I2 L2 Vf.
  apply track_post; [apply post_alloc; [done|valid_tac]|]. intros paramsArray h3 I3 L3 Vp.
  assert (Vv : valid (live P (length h3))
                 (obj_set (Re.group_or_empty 1 funcMatch) func variables)).
  { apply valid_obj_set; valid_tac. }
  apply (@track_snapshot _ _ _ r_steps [] P _
           (fun snap => Step (originalIndex lineData) function_definition
              [("functionName", VStr (Re.group_or_empty 1 funcMatch));
               ("params", paramsArray);
               ("bodyLines", VNum (Z.of_nat (length functionBody)))] snap output));
    [done..|].
  intros snap h4 Q I4 L4 F4. carry F4 Vv h4. by apply track_ret.
Qed.

Lemma track_turn P lines i lineData variables output h :
  inv P h -> valid (live P (length h)) variables ->
  track (fun p : result * nat => r_steps (fst p)) [] P h
    (First.turn H fuel lines i lineData variables output h).
Proof.
  intros Hi V. unfold First.turn.
  destruct (block_after _ _) as [body passed].
  destruct (_ || _).
  { apply track_ret; [done| |done]. split; [done|exact I]. }
  destruct (if Str.startsWith _ "for " then _ else _) as [forMatch|].
  { eapply (@track_bind _ _ _ _ _ r_steps); [by apply track_for_block|].
    intros r h1 Q I1 L1 F1 V1. apply track_ret; [done| |done]. split; [done|exact I]. }
  destruct (if Str.startsWith _ "def " then _ else _) as [funcMatch|].
  { eapply (@track_bind _ _ _ _ _ r_steps); [by apply track_def_block|].
    intros r h1 Q I1 L1 F1 V1. apply track_ret; [done| |done]. split; [done|exact I]. }
  eapply (@track_bind _ _ _ _ _ r_steps); [by apply track_processLine|].
  intros r h1 Q I1 L1 F1 V1. apply track_ret; [done| |done]. split; [done|exact I].
Qed.

Lemma track_main_loop n : forall P lines i variables output h,
  inv P h -> valid (live P (length h)) variables ->
  track (fun ss : list step => ss) [] P h
    (First.main_loop H fuel n lines i variables output h).
Proof.
  induction n as [|n IH]; intros P lines i variables output h Hi V; cbn [First.main_loop].
  { apply track_ret; [done|constructor|done]. }
  destruct (lines !! i) as [lineData|]; [|apply track_ret; [done|constructor|done]].
  eapply (@track_bind _ _ _ _ _ (fun p : result * nat => r_steps (fst p)));
    [by apply track_turn|].
  intros [r next] h1 Q I1 L1 F1 [V1 _]. cbn [fst snd] in *.
  eapply (@track_bind _ _ _ _ _ (fun rest => r_steps r ++ rest)).
  { apply (@track_shift _ _ (fun ss : list step => ss)). by apply IH. }
  intros rest h2 Q2 I2 L2 F2 V2. apply track_ret; [done| |done].
  apply Forall_forall. intros ? ?. exact I.
Qed.

Lemma inv_empty : inv (fun _ => False) [].
Proof. split; [done|]. intros l o E. by rewrite lookup_nil in E. Qed.

Lemma parseCode_recorded codeString ss h :
  First.parseCode H fuel codeString [] = Ok ss h ->
  exists rs, Forall2 snapshot_in ss rs /\ ordered 0 rs (length h) /\ Forall (closed h) rs.
Proof.
  intros E. unfold First.parseCode in E.
  pose proof (@track_main_loop (length (make_lines codeString)) (fun _ => False)
                (make_lines codeString) 0 [] [] [] inv_empty) as T.
  rewrite E in T. destruct T as (new & rs & -> & (F & O & C & _) & _); [constructor|].
  exists rs. done.
Qed.

End TraceSound.


(** *** The statements of the second implementation *)

Lemma valid_imap_items Q (els : list value) :
  valid Q els -> valid Q (imap (fun i e => (Str.of_nat i, e)) els).
Proof.
  intros F. unfold valid, valid_list in *.
  apply Forall_forall. intros [k v] Hin. apply list_elem_of_lookup in Hin as [i Hi].
  rewrite list_lookup_imap in Hi. destruct (els !! i) as [e|] eqn:E; [|done].
  simpl in Hi. injection Hi as <- <-. split; [exact I|].
  eapply Forall_lookup_1; [exact F|exact E].
Qed.

Lemma valid_obj_delete Q k (fs : env) : valid Q fs -> valid Q (obj_delete k fs).
Proof.
  intros F. unfold obj_delete. unfold valid, valid_list in *.
  apply Forall_forall. intros p Hin. apply list_elem_of_In, filter_In in Hin as [Hin _].
  rewrite Forall_forall in F. apply F. by apply list_elem_of_In.
Qed.

Lemma valid_fields Q (fs : env) : obj_ok Q (OObj fs) -> valid Q fs.
Proof.
  intros F. simpl in F. unfold valid, valid_list. eapply Forall_impl; [exact F|].
  intros [k v] Vv. split; [exact I|exact Vv].
Qed.

Section SecondSound.
Variable H : host.
Hypothesis HH : host_ok H.
Variable fuel : nat.
Variable P : loc -> Prop.

Lemma post_second_safeEval e vars h :
  inv P h -> valid (live P (length h)) vars -> post P h (Second.safeEval H e vars h).
Proof.
  intros Hi V. unfold Second.safeEval. apply post_try_catch.
  { apply (ok_new_function HH); [done|]. by apply valid_allVariables. }
  intros msg h1 I1 L1.
  repeat lazymatch goal with
         | |- post _ _ ((if ?b then _ else _) _) => destruct b
         | |- post _ _ (match ?x with _ => _ end _) => destruct x eqn:?
         | |- post _ _ ((let _ := _ in _) _) => cbv zeta
         end;
    try solve [by apply post_throw | by apply post_ret].
  - apply post_ret; [done|]. eapply valid_grow; [exact L1|].
    eapply valid_obj_get; [exact V|eassumption].
  - frame; try solve [apply (ok_is_nan HH); done | apply (ok_parse_float HH); done].
Qed.

Ltac close_second :=
  try solve
    [ apply post_second_safeEval; [done..|valid_tac]
    | apply post___repr; [done..|valid_tac]
    | apply post_repr_items; [done..|valid_tac]
    | apply post_js_String; [done..|valid_tac]
    | apply post_json_copy; done
    | apply (ok_json_parse HH); done
    | apply (ok_is_nan HH); done
    | apply (ok_parse_float HH); done ].

Lemma post_second_assignment t vars out h :
  inv P h -> valid (live P (length h)) vars ->
  post P h (Second.assignment H t vars out h).
Proof.
  intros Hi V. unfold Second.assignment. frame; close_second.
Qed.

Lemma post_read_dict v h :
  inv P h -> valid (live P (length h)) v -> post P h (Second.read_dict v h).
Proof.
  intros Hi V. unfold Second.read_dict. destruct v; try exact I.
  destruct (h !! l) as [[| fs |]|] eqn:E; try exact I.
  apply post_ret; [done|]. apply valid_fields. by apply (inv_lookup Hi V E).
Qed.

Lemma post_write_dict v fs h :
  inv P h -> valid (live P (length h)) v -> valid (live P (length h)) fs ->
  post P h (Second.write_dict v fs h).
Proof.
  intros Hi V Vf. unfold Second.write_dict. destruct v; try exact I.
  apply post_store; [done|done|]. by apply valid_OObj.
Qed.

Lemma post_own_properties v h :
  inv P h -> valid (live P (length h)) v -> post P h (Second.own_properties v h).
Proof.
  intros Hi V. unfold Second.own_properties.
  destruct v; try (apply post_ret; [done|constructor]).
  - apply post_ret; [done|]. apply valid_imap_items, valid_string_items.
  - destruct (h !! l) as [[els| fs |]|] eqn:E; try exact I.
    + apply post_ret; [done|]. apply valid_imap_items. by apply (inv_lookup Hi V E).
    + apply post_ret; [done|]. apply valid_fields. by apply (inv_lookup Hi V E).
Qed.

Ltac close_dict :=
  try solve
    [ apply post_read_dict; [done..|valid_tac]
    | apply post_own_properties; [done..|valid_tac]
    | apply post_write_dict; [done|valid_tac|valid_tac] ].

Ltac from_dict :=
  match goal with
  | Hg : obj_get _ ?fs = Some ?v, Vf : valid (live P (length ?h)) ?fs |- _ =>
      lazymatch goal with
      | _ : valid (live P (length h)) v |- _ => fail
      | _ => assert (valid (live P (length h)) v)
               by (eapply valid_obj_get; [exact Vf|exact Hg])
      end
  end.

Lemma post_dict_method operation dictName args dict vars h :
  inv P h -> valid (live P (length h)) dict -> valid (live P (length h)) vars ->
  post P h (Second.dict_method H operation dictName args dict vars h).
Proof.
  intros Hi Vd Vv. unfold Second.dict_method, Second.property_key. cbv zeta.
  repeat lazymatch goal with
         | |- post _ _ ((if ?b then _ else _) _) => destruct b
         end.
  - frame; close_second; close_dict; try (from_dict; valid_tac).
  - frame; close_second; close_dict.
    apply valid_OArr, Forall_map, Forall_forall. intros x _. exact I.
  - frame; close_second; close_dict.
    apply valid_OArr. apply Forall_map.
    match goal with Vf : valid _ ?fs |- Forall _ ?fs =>
      eapply Forall_impl; [exact Vf|]; by intros [k v] [_ Vx] end.
  - frame; close_second; close_dict.
    apply post_mapM; [done|]. intros [k v] h2 Hin I2 L2.
    apply post_alloc; [done|]. apply valid_OArr.
    constructor; [exact I|]. constructor; [|constructor].
    match goal with Vf : valid _ ?fs, Hx : In _ ?fs |- _ =>
      pose proof (valid_In _ Vf Hx) as [_ Vx] end.
    eapply valid_grow; [exact L2|exact Vx].
  - frame; close_second; close_dict.
    apply post_write_dict; [done|valid_tac|]. apply valid_obj_assign; valid_tac.
  - frame; close_second; close_dict; try (from_dict; try valid_tac; close_second).
    apply post_write_dict; [done|valid_tac|]. apply valid_obj_delete. valid_tac.
  - frame.
Qed.

Lemma post_dict_operation_statement t vars out h :
  inv P h -> valid (live P (length h)) vars ->
  post P h (Second.dict_operation_statement H t vars out h).
Proof.
  intros Hi V. unfold Second.dict_operation_statement. frame; close_second; close_dict.
  apply post_dict_method; valid_tac.
Qed.

Lemma post_second_print_statement t vars out h :
  inv P h -> valid (live P (length h)) vars ->
  post P h (Second.print_statement H t vars out h).
Proof.
  intros Hi V. unfold Second.print_statement. frame; close_second.
Qed.

Lemma post_second_def_statement t vars out h :
  inv P h -> valid (live P (length h)) vars ->
  post P h (Second.def_statement t vars out h).
Proof.
  intros Hi V. unfold Second.def_statement. frame; close_second.
Qed.

Lemma post_second_call_statement t vars out h :
  inv P h -> valid (live P (length h)) vars ->
  post P h (Second.call_statement H t vars out h).
Proof.
  intros Hi V. unfold Second.call_statement. frame; close_second.
  apply post_mapM; [done|]. intros x h1 _ I1 L1. apply post_second_safeEval; [done|valid_tac].
Qed.

Lemma post_second_statement lineData vars out h :
  inv P h -> valid (live P (length h)) vars ->
  post P h (Second.statement H lineData vars out h).
Proof.
  intros Hi V. unfold Second.statement.
  destruct (Second.classify (trimmed lineData)).
  - by apply post_second_assignment.
  - apply post_augmented_assignment; try done. intros. by apply post_second_safeEval.
  - apply post_list_operation_statement; try done. intros. by apply post_second_safeEval.
  - by apply post_dict_operation_statement.
  - by apply post_second_print_statement.
  - apply post_for_statement; try done. intros. by apply post_second_safeEval.
  - apply post_guard_statement; try done. intros. by apply post_second_safeEval.
  - apply post_guard_statement; try done. intros. by apply post_second_safeEval.
  - by apply post_second_def_statement.
  - by apply post_second_call_statement.
  - frame.
  - frame.
Qed.

End SecondSound.

(** *** The trace of the second implementation *)

Section SecondTraceSound.
Variable H : host.
Hypothesis HH : host_ok H.
Variable fuel : nat.

Lemma track_second_processLine P lineData vars out h :
  inv P h -> valid (live P (length h)) vars ->
  track r_steps [] P h (Second.processLine H lineData vars out h).
Proof.
  intros Hi V. unfold Second.processLine.
  destruct (_ || _).
  - by apply track_ret.
  - apply track_guarded; [done..|]. by apply post_second_statement.
Qed.

Lemma track_block body : forall P variables output h,
  inv P h -> valid (live P (length h)) variables ->
  track r_steps [] P h (Second.block H body variables output h).
Proof.
  induction body as [|bodyLine body IH]; intros P variables output h Hi V;
    cbn [Second.block].
  - by apply track_ret.
  - eapply track_bind; [by apply track_second_processLine|].
    intros r h1 Q I1 L1 F1 V1.
    track_sub; [by apply IH|].
    intros r' h2 Q' I2 L2 F2 V2. by apply track_ret.
Qed.

Lemma track_second_turns n : forall P iterIndex len originalIndex iterVar iterableValue
    loopBody variables output h,
  inv P h -> valid (live P (length h)) iterableValue ->
  valid (live P (length h)) variables ->
  track r_steps [] P h
    (Second.turns H n iterIndex len originalIndex iterVar iterableValue loopBody
       variables output h).
Proof.
  induction n as [|n IH]; intros P iterIndex len originalIndex iterVar iterableValue
    loopBody variables output h Hi Vi Vv; cbn [Second.turns]; [done|].
  apply track_post; [by apply post_iter_item|]. intros item h1 I1 L1 Vitem.
  assert (Vt : valid (live P (length h1)) (obj_set iterVar item variables)).
  { apply valid_obj_set; [done|valid_tac]. }
  apply (@track_snapshot _ _ _ r_steps [] P (obj_set iterVar item variables)
           (fun snap => Step originalIndex for_loop_iteration
              [("iterVar", VStr iterVar); ("currentValue", item);
               ("iterationIndex", VNum (Z.of_nat iterIndex));
               ("totalIterations", VNum (Z.of_nat len))] snap output)); [done..|].
  intros snap h2 Q I2 L2 F2. carry F2 Vt h2. carry F2 Vi h2.
  track_sub; [by apply track_block|].
  intros r h3 Q3 I3 L3 F3 V3. carry F3 Vi h3.
  track_sub.
  { apply track_loop_test; [done..| |].
    - intros len' h4 I4 L4. apply IH; [done| |].
      + eapply valid_grow; [exact L4|done].
      + eapply valid_grow; [exact L4|done].
    - intros h4 I4 L4. apply track_ret; [done| |done].
      eapply valid_grow; [exact L4|done]. }
  intros r' h4 Q4 I4 L4 F4 V4. apply track_ret; [done|done|].
  cbn [r_steps]. by rewrite <- app_assoc.
Qed.

Lemma track_second_iterations P originalIndex iterVar iterableValue loopBody variables
    output h :
  inv P h -> valid (live P (length h)) iterableValue ->
  valid (live P (length h)) variables ->
  track r_steps [] P h
    (Second.iterations H fuel originalIndex iterVar iterableValue loopBody
       variables output h).
Proof.
  intros Hi Vi Vv. unfold Second.iterations. apply track_loop_test; [done..| |].
  - intros len h1 I1 L1.
    apply track_second_turns; [done| |]; eapply valid_grow; [exact L1|done|exact L1|done].
  - intros h1 I1 L1. apply track_ret; [done| |done]. eapply valid_grow; [exact L1|done].
Qed.

Lemma track_second_for_block P lineData forMatch loopBody variables output h :
  inv P h -> valid (live P (length h)) variables ->
  track r_steps [] P h
    (Second.for_block H fuel lineData forMatch loopBody variables output h).
Proof.
  intros Hi V. unfold Second.for_block.
  apply track_post.
  { apply post_for_iterable; [|done..]. intros. by apply post_second_safeEval. }
  intros iterableValue h1 I1 L1 Vi.
  apply track_post; [apply post_alloc; [done|valid_tac]|].
  intros bodyIndices h2 I2 L2 Vb.
  assert (Vv : valid (live P (length h2)) variables) by valid_tac.
  assert (Vi2 : valid (live P (length h2)) iterableValue) by valid_tac.
  apply (@track_snapshot _ _ _ r_steps [] P variables
           (fun snap => Step (originalIndex lineData) for_loop_start
              [("iterVar", VStr (Re.group_or_empty 1 forMatch));
               ("iterable", iterableValue); ("loopBody", bodyIndices)] snap output));
    [done..|].
  intros snap h3 Q I3 L3 F3. carry F3 Vv h3. carry F3 Vi2 h3.
  track_sub; [by apply track_second_iterations|].
  intros r h4 Q4 I4 L4 F4 V4.
  apply (@track_snapshot _ _ _ r_steps _ Q4 (r_variables r)
           (fun snap' => Step (originalIndex lineData) for_loop_end
              [("iterVar", VStr (Re.group_or_empty 1 forMatch))] snap' (r_output r)));
    [done..|].
  intros snap' h5 Q5 I5 L5 F5.
  change (valid (live Q4 (length h4)) (r_variables r)) in V4. carry F5 V4 h5.
  apply track_ret; [done|done|]. cbn [r_steps]. by rewrite <- app_assoc.
Qed.

Lemma track_control_block P lineData body variables output h :
  inv P h -> valid (live P (length h)) variables ->
  track r_steps [] P h (Second.control_block H lineData body variables output h).
Proof.
  intros Hi V. unfold Second.control_block.
  apply (@track_snapshot _ _ _ r_steps [] P variables
           (fun snap => Step (originalIndex lineData) control_structure_start
              [("code", VStr (trimmed lineData))] snap output)); [done..|].
  intros snap h1 Q I1 L1 F1. carry F1 V h1.
  track_sub; [by apply track_block|].
  intros r h2 Q2 I2 L2 F2 V2.
  apply (@track_snapshot _ _ _ r_steps _ Q2 (r_variables r)
           (fun snap' => Step (originalIndex lineData) control_structure_end
              [("code", VStr (trimmed lineData))] snap' (r_output r))); [done..|].
  intros snap' h3 Q3 I3 L3 F3.
  change (valid (live Q2 (length h2)) (r_variables r)) in V2. carry F3 V2 h3.
  apply track_ret; [done|done|]. cbn [r_steps]. by rewrite <- app_assoc.
Qed.

Lemma track_second_turn P lines i lineData variables output h :
  inv P h -> valid (live P (length h)) variables ->
  track (fun p : result * nat => r_steps (fst p)) [] P h
    (Second.turn H fuel lines i lineData variables output h).
Proof.
  intros Hi V. unfold Second.turn. cbv zeta.
  destruct (_ || _).
  { apply track_ret; [done| |done]. split; [done|exact I]. }
  destruct (if Str.startsWith _ "for " then _ else _) as [forMatch|].
  { eapply (@track_bind _ _ _ _ _ r_steps); [by apply track_second_for_block|].
    intros r h1 Q I1 L1 F1 V1. apply track_ret; [done| |done]. split; [done|exact I]. }
  destruct (Str.endsWith _ ":").
  { eapply (@track_bind _ _ _ _ _ r_steps); [by apply track_control_block|].
    intros r h1 Q I1 L1 F1 V1. apply track_ret; [done| |done]. split; [done|exact I]. }
  eapply (@track_bind _ _ _ _ _ r_steps); [by apply track_second_processLine|].
  intros r h1 Q I1 L1 F1 V1. apply track_ret; [done| |done]. split; [done|exact I].
Qed.

Lemma track_second_main_loop n : forall P lines i variables output h,
  inv P h -> valid (live P (length h)) variables ->
  track (fun ss : list step => ss) [] P h
    (Second.main_loop H fuel n lines i variables output h).
Proof.
  induction n as [|n IH]; intros P lines i variables output h Hi V; cbn [Second.main_loop].
  { apply track_ret; [done|constructor|done]. }
  destruct (lines !! i) as [lineData|]; [|apply track_ret; [done|constructor|done]].
  eapply (@track_bind _ _ _ _ _ (fun p : result * nat => r_steps (fst p)));
    [by apply track_second_turn|].
  intros [r next] h1 Q I1 L1 F1 [V1 _]. cbn [fst snd] in *.
  eapply (@track_bind _ _ _ _ _ (fun rest => r_steps r ++ rest)).
  { apply (@track_shift _ _ (fun ss : list step => ss)). by apply IH. }
  intros rest h2 Q2 I2 L2 F2 V2. apply track_ret; [done| |done].
  apply Forall_forall. intros ? ?. exact I.
Qed.

Lemma second_parseCode_recorded codeString ss h :
  Second.parseCode H fuel codeString [] = Ok ss h ->
  exists rs, Forall2 snapshot_in ss rs /\ ordered 0 rs (length h) /\ Forall (closed h) rs.
Proof.
  intros E. unfold Second.parseCode in E.
  pose proof (@track_second_main_loop (length (make_lines codeString)) (fun _ => False)
                (make_lines codeString) 0 [] [] [] inv_empty) as T.
  rewrite E in T. destruct T as (new & rs & -> & (F & O & C & _) & _); [constructor|].
  exists rs. done.
Qed.

End SecondTraceSound.

(** *** The executable engine leaves the protected objects alone *)

#[export] Instance monotone_ascii : Monotone ascii.
Proof. done. Qed.

Lemma valid_chars Q (l : list ascii) : valid Q l.
Proof. apply Forall_forall. intros x _. exact I. Qed.

Lemma post_lift {A} `{Valid A} P (o : Mini.outcome A) h :
  inv P h -> (forall a, o = Mini.Val a -> valid (live P (length h)) a) ->
  post P h (Mini.lift o h).
Proof.
  intros Hi V. destruct o as [a|msg|]; simpl; [|by split; [|apply ext_refl]|done].
  split; [done|]. split; [apply ext_refl|]. by apply V.
Qed.

Ltac prim :=
  repeat lazymatch goal with
         | |- post _ _ (match ?x with _ => _ end _) => destruct x
         | |- post _ _ ((if ?b then _ else _) _) => destruct b
         | |- post _ _ (ret _ _) => apply post_ret; [assumption|]
         | |- post _ _ (throw _ _) => apply post_throw; assumption
         | |- post _ _ (noret _) => exact I
         | |- post _ _ (bind _ _ _) => apply post_bind; [|intros ? ? ? ? ?]
         end;
  try exact I; try apply valid_chars.

Section MiniHost.
Variable P : loc -> Prop.

Lemma post_checked z h : inv P h -> post P h (Mini.checked z h).
Proof. intros Hi. unfold Mini.checked. prim. Qed.

Lemma post_power x y h : inv P h -> post P h (Mini.power x y h).
Proof. intros Hi. unfold Mini.power. prim. by apply post_checked. Qed.

Lemma post_arith op a b h : inv P h -> post P h (Mini.arith op a b h).
Proof.
  intros Hi. unfold Mini.arith.
  prim; first [by apply post_checked | by apply post_power].
Qed.

Lemma post_less a b h : inv P h -> post P h (Mini.less a b h).
Proof. intros Hi. unfold Mini.less. prim. Qed.

Lemma post_less_eq a b h : inv P h -> post P h (Mini.less_eq a b h).
Proof. intros Hi. unfold Mini.less_eq. prim. Qed.

Lemma post_loose_eq a b h : inv P h -> post P h (Mini.loose_eq a b h).
Proof. intros Hi. unfold Mini.loose_eq. prim. Qed.

Lemma post_binary op a b h : inv P h -> post P h (Mini.binary op a b h).
Proof.
  intros Hi. unfold Mini.binary.
  repeat lazymatch goal with
         | |- post _ _ ((if ?b then _ else _) _) => destruct b
         end;
    first [ by apply post_arith
          | apply post_bind;
            [first [by apply post_less | by apply post_less_eq | by apply post_loose_eq]
            |intros; by apply post_ret]
          | by apply post_ret
          | exact I ].
Qed.

Lemma valid_field Q (fs : list (string * value)) k x :
  Forall (fun p => val_ok Q (snd p)) fs -> obj_get k fs = Some x -> val_ok Q x.
Proof.
  induction fs as [|[k' x'] fs IH]; [done|]. intros F E. simpl in E.
  inversion F; subst. destruct (String.eqb k k'); [by injection E as <-|by apply IH].
Qed.

Lemma post_member v name h :
  inv P h -> valid (live P (length h)) v -> post P h (Mini.member v name h).
Proof.
  intros Hi V. unfold Mini.member. destruct v; try solve [frame].
  apply post_get_heap.
  destruct (h !! l) as [[els|fs|]|] eqn:E; [frame| |exact I|exact I].
  destruct (obj_get name fs) as [x|] eqn:Ex; [|exact I].
  apply post_ret; [done|]. pose proof (inv_lookup Hi V E) as F.
  by eapply valid_field.
Qed.

Lemma post_index v i h :
  inv P h -> valid (live P (length h)) v -> post P h (Mini.index v i h).
Proof.
  intros Hi V. unfold Mini.index.
  destruct v as [| | |z| |s|l]; try solve [destruct i; frame].
  { destruct i; try exact I. apply post_ret; [done|]. destruct (_ <? _)%Z; [exact I|].
    apply valid_lookup_default, valid_string_items. }
  apply post_get_heap.
  destruct (h !! l) as [[els|fs|]|] eqn:E; [| |destruct i; exact I..].
  - destruct i; try exact I. apply post_ret; [done|]. destruct (z <? 0)%Z; [exact I|].
    apply valid_lookup_default. by apply (inv_lookup Hi V E).
  - destruct i; try exact I. destruct (obj_get s fs) as [x|] eqn:Ex; [|exact I].
    apply post_ret; [done|]. pose proof (inv_lookup Hi V E) as F.
    by eapply valid_field.
Qed.

Lemma post_eval n : forall bindings e h,
  inv P h -> valid (live P (length h)) bindings ->
  post P h (Mini.eval n bindings e h).
Proof.
  induction n as [|n IH]; intros bindings e h Hi V; [exact I|].
  assert (Hargs : forall (items : list Mini.expr) h1,
            inv P h1 -> length h <= length h1 ->
            post P h1 (mapM (Mini.eval n bindings) items h1)).
  { intros items h1 I1 L1. apply post_mapM; [done|]. intros x h2 _ I2 L2.
    apply IH; [done|]. eapply valid_grow; [|exact V]. lia. }
  assert (Hsub : forall e' h1, inv P h1 -> length h <= length h1 ->
                               post P h1 (Mini.eval n bindings e' h1)).
  { intros e' h1 I1 L1. apply IH; [done|]. eapply valid_grow; [|exact V]. lia. }
  destruct e; cbn [Mini.eval].
  - frame.
  - frame.
  - destruct (obj_get x bindings) as [[v|g]|] eqn:E; [| |frame].
    + apply post_ret; [done|]. assert (Vb : valid (live P (length h)) (BVal v)).
      { clear - V E. induction bindings as [|[k b] bs IHb]; [done|]. simpl in E.
        inversion V as [|? ? [_ Vh] Vt]; subst.
        destruct (String.eqb x k); [by injection E as <-|by apply IHb]. }
      exact Vb.
    + exact I.
  - apply post_bind; [apply Hargs; [done|lia]|]. intros vs h1 I1 L1 Vs.
    apply post_alloc; [done|]. exact Vs.
  - apply post_bind; [apply Hsub; [done|lia]|]. intros v h1 I1 L1 Vv.
    destruct (String.eqb op "!"); [by apply post_ret|].
    destruct v as [| |[|]| | | |]; cbn [Mini.to_number]; first [exact I | by apply post_ret].
  - destruct (String.eqb op "&&").
    { apply post_bind; [apply Hsub; [done|lia]|]. intros v h1 I1 L1 Vv.
      destruct (truthy v); [by apply Hsub|by apply post_ret]. }
    destruct (String.eqb op "||").
    { apply post_bind; [apply Hsub; [done|lia]|]. intros v h1 I1 L1 Vv.
      destruct (truthy v); [by apply post_ret|by apply Hsub]. }
    apply post_bind; [apply Hsub; [done|lia]|]. intros v h1 I1 L1 Vv.
    apply post_bind; [by apply Hsub|]. intros w h2 I2 L2 Vw.
    by apply post_binary.
  - destruct e; try exact I.
    + destruct (obj_get x bindings) as [[v|g]|] eqn:E.
      * apply post_bind; [apply Hargs; [done|lia]|]. intros vs h1 I1 L1 Vs.
        by apply post_throw.
      * apply post_bind; [apply Hargs; [done|lia]|]. intros vs h1 I1 L1 Vs.
        assert (Vb : valid (live P (length h)) (BNative g)).
        { clear - V E. induction bindings as [|[k b] bs IHb]; [done|]. simpl in E.
          inversion V as [|? ? [_ Vh] Vt]; subst.
          destruct (String.eqb x k); [by injection E as <-|by apply IHb]. }
        by apply Vb.
      * destruct (Mini.mem _ _); [exact I|by apply post_throw].
    + destruct e; try exact I.
      destruct (obj_get x bindings); [exact I|].
      destruct (String.eqb x "Math"); [|exact I].
      apply post_bind; [apply Hargs; [done|lia]|]. intros vs h1 I1 L1 Vs.
      repeat lazymatch goal with
             | |- post _ _ ((if ?b then _ else _) _) => destruct b
             | |- post _ _ (match ?x with _ => _ end _) => destruct x
             end; first [exact I | by apply post_ret | by apply post_power].
  - apply post_bind; [apply Hsub; [done|lia]|]. intros v h1 I1 L1 Vv.
    by apply post_member.
  - apply post_bind; [apply Hsub; [done|lia]|]. intros v h1 I1 L1 Vv.
    apply post_bind; [by apply Hsub|]. intros k h2 I2 L2 Vk.
    apply post_index; [done|]. eapply valid_grow; [exact L2|done].
  - apply post_bind; [apply Hsub; [done|lia]|]. intros v h1 I1 L1 Vv.
    by apply Hsub.
Qed.

Lemma post_mini_new_function bindings body h :
  inv P h -> valid (live P (length h)) bindings ->
  post P h (Mini.mini_new_function bindings body h).
Proof.
  intros Hi V. unfold Mini.mini_new_function.
  destruct (_ && _); [|exact I].
  apply post_bind; [by apply post_lift|]. intros _ h1 I1 L1 _.
  apply post_bind; [apply post_lift; [done|]; intros; apply Forall_forall; by intros|].
  intros ts h2 I2 L2 _.
  apply post_bind; [apply post_lift; [done|]; intros a _; by destruct a|].
  intros e h3 I3 L3 _. destruct e as [e|]; [|by apply post_ret].
  apply post_eval; [done|]. eapply valid_grow; [|exact V]. lia.
Qed.

Lemma post_json_string l h : inv P h -> post P h (Mini.json_string l h).
Proof.
  intros Hi. unfold Mini.json_string. prim. split; [exact I|apply valid_chars].
Qed.

Lemma post_json_number negative l h : inv P h -> post P h (Mini.json_number negative l h).
Proof.
  intros Hi. unfold Mini.json_number. prim. split; [exact I|apply valid_chars].
Qed.

Lemma post_json n :
  (forall l h, inv P h -> post P h (Mini.json_value n l h))
  /\ (forall k l h, inv P h -> post P h (Mini.json_elements n k l h))
  /\ (forall k l acc h, inv P h -> valid (live P (length h)) acc ->
                        post P h (Mini.json_members n k l acc h)).
Proof.
  induction n as [|n (IHv & IHe & IHm)]; [by repeat split|].
  split; [|split].
  - intros l h Hi. cbn [Mini.json_value].
    repeat lazymatch goal with
           | |- post _ _ (match ?x with _ => _ end _) => destruct x
           | |- post _ _ ((if ?b then _ else _) _) => destruct b
           | |- post _ _ (throw _ _) => apply post_throw; assumption
           end;
      try solve [ by apply post_json_number
                | apply post_ret; [done|]; split; [exact I|apply valid_chars]
                | frame; try solve [by apply post_json_string | split; [done|apply valid_chars]
                                   | by apply IHe | apply IHm; [done|constructor] ] ].
  - intros k l h Hi. cbn [Mini.json_elements].
    frame; try solve [by apply IHv | by apply IHe
                     | split_valid; apply valid_pair; [valid_tac|apply valid_chars] ].
  - intros k l acc h Hi V. cbn [Mini.json_members].
    frame; try solve [by apply post_json_string | by apply IHv
                     | split_valid; apply valid_pair; [valid_tac|apply valid_chars]
                     | apply IHm; [done|valid_tac] ].
Qed.

Lemma post_mini_json_parse text h : inv P h -> post P h (Mini.mini_json_parse text h).
Proof.
  intros Hi. unfold Mini.mini_json_parse. frame. by apply post_json.
Qed.

Lemma post_mini_json_stringify v h : inv P h -> post P h (Mini.mini_json_stringify v h).
Proof.
  intros Hi. unfold Mini.mini_json_stringify. apply post_get_heap.
  destruct v; try exact I; by apply post_lift.
Qed.

Lemma post_mini_object_to_string l h :
  inv P h -> post P h (Mini.mini_object_to_string l h).
Proof.
  intros Hi. unfold Mini.mini_object_to_string. apply post_get_heap. by apply post_lift.
Qed.

Lemma post_mini_is_nan text h : inv P h -> post P h (Mini.mini_is_nan text h).
Proof. intros Hi. unfold Mini.mini_is_nan. prim. Qed.

Lemma post_mini_parse_float text h : inv P h -> post P h (Mini.mini_parse_float text h).
Proof. intros Hi. unfold Mini.mini_parse_float. prim. by apply post_checked. Qed.

Lemma post_mini_parse_int v h : inv P h -> post P h (Mini.mini_parse_int v h).
Proof. intros Hi. unfold Mini.mini_parse_int. prim; by apply post_checked. Qed.

End MiniHost.

Lemma mini_host_ok : host_ok Mini.mini_host.
Proof.
  constructor; simpl; intros.
  - by apply post_mini_new_function.
  - by apply post_mini_json_parse.
  - by apply post_mini_json_stringify.
  - by apply post_mini_object_to_string.
  - by apply post_arith.
  - by apply post_mini_is_nan.
  - by apply post_mini_parse_float.
  - by apply post_mini_parse_int.
Qed.


(** *** Snapshots do not alias *)

Lemma children_in lo hi o v : obj_in lo hi o -> In v (children o) -> val_in lo hi v.
Proof.
  destruct o as [els|fs|name params body closure]; simpl; intros F Hin.
  - rewrite Forall_forall in F. apply F. by apply list_elem_of_In.
  - apply in_map_iff in Hin as (p & <- & Hin). rewrite Forall_forall in F.
    apply F. by apply list_elem_of_In.
  - by destruct Hin as [<-|[]].
Qed.

Lemma reach_inside h r v l :
  closed h r -> val_in (fst r) (snd r) v -> reach h v l -> inside r l.
Proof.
  intros C V R. induction R as [l|l o v l' E Hin R IH]; [exact V|].
  apply IH. destruct (C l V) as (o' & E' & Ho). rewrite E in E'. injection E' as <-.
  by eapply children_in.
Qed.

Lemma deep_store h r l0 o n : forall v,
  closed h r -> ~ inside r l0 -> val_in (fst r) (snd r) v ->
  deep n (<[l0:=o]> h) v = deep n h v.
Proof.
  induction n as [|n IH]; intros v C Hn V; destruct v as [| | | | | |l]; try reflexivity.
  cbn [deep]. assert (Hne : l0 <> l) by (intros ->; by apply Hn).
  rewrite list_lookup_insert_ne by done.
  destruct (C l V) as (o' & E & Ho). rewrite E.
  destruct o' as [els|fs|name params body closure]; simpl in Ho.
  - f_equal. apply map_ext_in. intros v Hin. apply IH; [done..|].
    rewrite Forall_forall in Ho. apply Ho. by apply list_elem_of_In.
  - f_equal. apply map_ext_in. intros p Hin. f_equal. apply IH; [done..|].
    rewrite Forall_forall in Ho. apply Ho. by apply list_elem_of_In.
  - f_equal. by apply IH.
Qed.

Lemma regions_apart lo (rs : list region) hi i j ri rj l :
  ordered lo rs hi -> i <> j -> rs !! i = Some ri -> rs !! j = Some rj ->
  inside ri l -> ~ inside rj l.
Proof.
  intros O Hij Ei Ej [Hlo Hhi] [Hlo' Hhi'].
  destruct (Nat.lt_total i j) as [Hlt|[->|Hgt]]; [|done|].
  - pose proof (@ordered_apart lo rs hi i j ri rj O Hlt Ei Ej). lia.
  - pose proof (@ordered_apart lo rs hi j i rj ri O Hgt Ej Ei). lia.
Qed.

(** C8. In the trace that either implementation builds for a program,
    the snapshots of two different steps share no object: a location
    reached from the [variables] of step [i] is not reached from the
    [variables] of step [j], and whatever is stored there, the
    [variables] of step [j] read as before. *)
Theorem snapshots_do_not_alias (H : host) (fuel : nat) (codeString : string)
    (steps : list step) (h : heap) (i j : nat) (si sj : step) (l : loc) (o : obj) :
  host_ok H ->
  First.parseCode H fuel codeString [] = Ok steps h
  \/ Second.parseCode H fuel codeString [] = Ok steps h ->
  steps !! i = Some si -> steps !! j = Some sj -> i <> j ->
  reach h (s_variables si) l ->
  ~ reach h (s_variables sj) l
  /\ view (<[l:=o]> h) (s_variables sj) = view h (s_variables sj).
Proof.
  intros HH E Ei Ej Hij R.
  assert (Hrec : exists rs, Forall2 snapshot_in steps rs /\ ordered 0 rs (length h)
                            /\ Forall (closed h) rs).
  { destruct E as [E|E].
    - exact (@parseCode_recorded H HH fuel codeString steps h E).
    - exact (@second_parseCode_recorded H HH fuel codeString steps h E). }
  destruct Hrec as (rs & F & O & C).
  destruct (Forall2_lookup_l _ _ _ _ _ F Ei) as (ri & Eri & Vi).
  destruct (Forall2_lookup_l _ _ _ _ _ F Ej) as (rj & Erj & Vj).
  rewrite Forall_forall in C.
  assert (Ci : closed h ri) by (apply C; eapply list_elem_of_lookup_2; exact Eri).
  assert (Cj : closed h rj) by (apply C; eapply list_elem_of_lookup_2; exact Erj).
  pose proof (@reach_inside h ri _ l Ci Vi R) as Hl.
  pose proof (@regions_apart _ _ _ _ _ _ _ _ O Hij Eri Erj Hl) as Hn.
  split.
  - intros R'. apply Hn. by eapply (@reach_inside h rj).
  - unfold view. rewrite length_insert. by eapply deep_store.
Qed.

Lemma snapshots_do_not_alias_witness :
  exists steps h si sj l,
    First.parseCode Mini.mini_host 0 (script ["xs = [1, 2]"; "xs.append(3)"]) [] = Ok steps h
    /\ steps !! 0 = Some si /\ steps !! 1 = Some sj
    /\ reach h (s_variables si) l
    /\ ~ reach h (s_variables sj) l
    /\ view (<[l:=OArr []]> h) (s_variables sj) = view h (s_variables sj).
Proof.
  eexists; eexists; eexists; eexists; eexists.
  split; [vm_compute; reflexivity|].
  split; [reflexivity|]. split; [reflexivity|].
  split; [eapply reach_child; [reflexivity|left; reflexivity|apply reach_here]|].
  eapply (@snapshots_do_not_alias Mini.mini_host 0
            (script ["xs = [1, 2]"; "xs.append(3)"]) _ _ 0 1 _ _ 1 (OArr []) mini_host_ok);
    [left; vm_compute; reflexivity|reflexivity|reflexivity|lia|].
  eapply reach_child; [reflexivity|left; reflexivity|apply reach_here].
Defined.

(** ** The worked examples of the specification *)

(** C4. For [for n in range(3):] with body [print(n)] the trace is one
    [for_loop_start], three pairs of [for_loop_iteration] and [print] with
    [n] bound to 0, 1, 2 in turn and [totalIterations] 3 on each
    iteration, then one [for_loop_end]; the output of the final step is
    ["0"; "1"; "2"].  The loop takes three turns. *)
Theorem loop_unrolling (fuel : nat) :
  3 <= fuel ->
  exists tr h,
    First.parseCode Mini.mini_host fuel (script ["for n in range(3):"; "    print(n)"]) []
      = Ok tr h
    /\ map s_action tr
       = [for_loop_start; for_loop_iteration; print; for_loop_iteration; print;
          for_loop_iteration; print; for_loop_end]
    /\ map (fun s => (field "currentValue" s, field "totalIterations" s, shown h s))
           (List.filter (has_action for_loop_iteration) tr)
       = [(Some (VNum 0), Some (VNum 3), Some [("n", VNum 0)]);
          (Some (VNum 1), Some (VNum 3), Some [("n", VNum 1)]);
          (Some (VNum 2), Some (VNum 3), Some [("n", VNum 2)])]
    /\ map (fun s => (field "outputText" s, shown h s))
           (List.filter (has_action print) tr)
       = [(Some (VStr "0"), Some [("n", VNum 0)]);
          (Some (VStr "1"), Some [("n", VNum 1)]);
          (Some (VStr "2"), Some [("n", VNum 2)])]
    /\ s_output <$> last tr = Some ["0"; "1"; "2"].
Proof.
  intros Hfuel.
  destruct fuel as [|[|[|k]]]; try lia.
  eexists; eexists; split; [vm_compute; reflexivity|].
  vm_compute; repeat split.
Qed.

Lemma loop_unrolling_witness :
  3 <= 3 /\
  exists tr h,
    First.parseCode Mini.mini_host 3 (script ["for n in range(3):"; "    print(n)"]) []
      = Ok tr h
    /\ map s_action tr
       = [for_loop_start; for_loop_iteration; print; for_loop_iteration; print;
          for_loop_iteration; print; for_loop_end]
    /\ map (fun s => (field "currentValue" s, field "totalIterations" s, shown h s))
           (List.filter (has_action for_loop_iteration) tr)
       = [(Some (VNum 0), Some (VNum 3), Some [("n", VNum 0)]);
          (Some (VNum 1), Some (VNum 3), Some [("n", VNum 1)]);
          (Some (VNum 2), Some (VNum 3), Some [("n", VNum 2)])]
    /\ map (fun s => (field "outputText" s, shown h s))
           (List.filter (has_action print) tr)
       = [(Some (VStr "0"), Some [("n", VNum 0)]);
          (Some (VStr "1"), Some [("n", VNum 1)]);
          (Some (VStr "2"), Some [("n", VNum 2)])]
    /\ s_output <$> last tr = Some ["0"; "1"; "2"].
Proof. split; [lia | apply (loop_unrolling (fuel := 3)); lia]. Defined.

(** C3. [2 ** 10] evaluates to 1024; [7 // 2] does not evaluate to 3:
    whatever the engine, the text [safeEval] hands it for [7 // 2] is
    [return 7 Math.floor 2;], which is not an expression, and the call
    ends in the exception of [safeEval].  The second implementation
    rewrites both operators into text that is not an expression. *)
Theorem floor_division_and_power :
  First.jsExpression "2 ** 10" = "Math.pow(2, 10)"
  /\ First.safeEval Mini.mini_host "2 ** 10" [] [] = Ok (VNum 1024) []
  /\ First.jsExpression "7 // 2" = "7 Math.floor 2"
  /\ (forall (H : host) (variables : env),
        First.safeEval H "7 // 2" variables
        = try_catch
            (new_function H (allVariables H variables) "return 7 Math.floor 2;")
            (fun msg => throw ("Error evaluating: 7 // 2 - " +:+ msg)))
  /\ First.safeEval Mini.mini_host "7 // 2" [] []
     = Err "Error evaluating: 7 // 2 - Unexpected identifier 'Math'" []
  /\ Second.jsExpression "7 // 2" = "7 Math.floor($1/$2) 2"
  /\ Second.jsExpression "2 ** 10" = "2 Math.pow($1,$2) 10".
Proof.
  split; [vm_compute; reflexivity|].
  split; [vm_compute; reflexivity|].
  split; [vm_compute; reflexivity|].
  split.
  { intros H variables. unfold First.safeEval.
    replace (First.jsExpression "7 // 2") with "7 Math.floor 2" by (vm_compute; reflexivity).
    reflexivity. }
  repeat split; vm_compute; reflexivity.
Qed.

(** C1. A [for] header at the top level whose iterable is not a list or a
    string is not turned into an [error] step: the exception leaves
    [parseCode], and there is no trace.  The same header inside a loop
    body goes through [processLine], whose [catch] makes the [error] step. *)
Theorem top_level_for_aborts (fuel : nat) :
  First.parseCode Mini.mini_host fuel (script ["for x in 5:"; "    print(x)"]) []
    = Err "'number' object is not iterable" []
  /\ exists tr h,
       First.parseCode Mini.mini_host (S fuel)
         (script ["for i in [1]:"; "    for x in 5:"]) [] = Ok tr h
       /\ map (fun s => (s_line s, s_action s, field "error" s)) tr
          = [(0, for_loop_start, None); (0, for_loop_iteration, None);
             (1, error, Some (VStr "'number' object is not iterable"));
             (0, for_loop_end, None)].
Proof.
  split; [vm_compute; reflexivity|].
  eexists; eexists; split; vm_compute; reflexivity.
Qed.

(** C6. A body line that is not a [return] makes the call fail: the
    function below prints nothing and returns nothing, the call is an
    [error] step. *)
Theorem function_body_statement_fails (fuel : nat) :
  exists tr h,
    First.parseCode Mini.mini_host fuel (script ["def f():"; "    print(1)"; "f()"]) []
      = Ok tr h
    /\ map (fun s => (s_line s, s_action s, field "error" s, s_output s)) tr
       = [(0, function_definition, None, []);
          (2, error,
           Some (VStr "Function call error: Error in function 'f': lines is not defined"),
           [])].
Proof. eexists; eexists; split; vm_compute; reflexivity. Qed.

(** C9. In the second implementation [d.get] on an absent key gives
    [None] or the default and records a [dict_operation] step, but
    [d.pop] never reaches the dictionary operations: the test for a list
    operation, which comes first, matches [.pop(] and fails on a
    dictionary, with or without a default. *)
Theorem dict_pop_taken_for_list_pop (fuel : nat) :
  exists tr h,
    Second.parseCode Mini.mini_host fuel
      (script ["d = {'a': 1}"; "d.get('b')"; "d.get('b', 7)"; "d.pop('b', 0)"; "d.pop('b')"])
      [] = Ok tr h
    /\ map (fun s => (s_action s, field "resultValue" s, field "error" s)) tr
       = [(assign, None, None);
          (dict_operation, Some VNull, None);
          (dict_operation, Some (VNum 7), None);
          (error, None, Some (VStr "'object' object has no attribute 'pop'"));
          (error, None, Some (VStr "'object' object has no attribute 'pop'"))].
Proof. eexists; eexists; split; vm_compute; reflexivity. Qed.

(** C2, as the specification states it, fails on [x = 1], [y = z + 1]:
    no step of the trace is an [error], and [y] is bound. *)
Lemma undefined_name_no_error_step :
  exists tr h,
    First.parseCode Mini.mini_host 0 (script ["x = 1"; "y = z + 1"]) [] = Ok tr h
    /\ ~ (exists s, In s tr /\ s_action s = error)
    /\ (shown h <$> last tr) = Some (Some [("x", VNum 1); ("y", VStr "z + 1")]).
Proof.
  eexists; eexists; split; [vm_compute; reflexivity|].
  split; [|vm_compute; reflexivity].
  intros (s & Hin & Herr). simpl in Hin.
  destruct Hin as [<-|[<-|[]]]; discriminate Herr.
Qed.

(** ** Further properties of the code *)

(** *** [__range] *)

Lemma arithmetic_S start step n :
  arithmetic start step (S n) = VNum start :: arithmetic (start + step) step n.
Proof.
  unfold arithmetic. cbn [seq map]. f_equal; [f_equal; lia|].
  rewrite <- seq_shift, map_map. apply map_ext. intros k. f_equal. lia.
Qed.

Lemma range_loop_up step stop : forall fuel i,
  (0 < step)%Z -> Z.to_nat (stop - i) <= fuel ->
  range_loop fuel i stop step = arithmetic i step (count_up i stop step).
Proof.
  intros fuel i Hs. revert i. induction fuel as [|fuel IH]; intros i Hf.
  - assert (stop <= i)%Z by lia.
    assert ((stop - i + step - 1) / step <= 0)%Z.
    { apply Z.lt_succ_r. apply Z.div_lt_upper_bound; lia. }
    unfold count_up. replace (Z.to_nat _) with 0 by lia. reflexivity.
  - cbn [range_loop]. replace (0 <? step)%Z with true by lia.
    destruct (i <? stop)%Z eqn:E.
    + assert (Hc : count_up i stop step = S (count_up (i + step) stop step)).
      { unfold count_up.
        replace (stop - i + step - 1)%Z with ((stop - (i + step) + step - 1) + 1 * step)%Z
          by lia.
        rewrite Z.div_add by lia.
        assert (0 <= (stop - (i + step) + step - 1) / step)%Z
          by (apply Z.div_pos; lia).
        lia. }
      rewrite Hc, arithmetic_S. f_equal. apply IH. lia.
    + assert ((stop - i + step - 1) / step <= 0)%Z.
      { apply Z.lt_succ_r. apply Z.div_lt_upper_bound; lia. }
      unfold count_up. replace (Z.to_nat _) with 0 by lia. reflexivity.
Qed.

Lemma range_loop_down step stop : forall fuel i,
  (step < 0)%Z -> Z.to_nat (i - stop) <= fuel ->
  range_loop fuel i stop step = arithmetic i step (count_up stop i (- step)).
Proof.
  intros fuel i Hs. revert i. induction fuel as [|fuel IH]; intros i Hf.
  - assert (i <= stop)%Z by lia.
    assert ((i - stop + - step - 1) / - step <= 0)%Z.
    { apply Z.lt_succ_r. apply Z.div_lt_upper_bound; lia. }
    unfold count_up. replace (Z.to_nat _) with 0 by lia. reflexivity.
  - cbn [range_loop]. replace (0 <? step)%Z with false by lia.
    destruct (stop <? i)%Z eqn:E.
    + assert (Hc : count_up stop i (- step) = S (count_up stop (i + step) (- step))).
      { unfold count_up.
        replace (i - stop + - step - 1)%Z
          with (((i + step) - stop + - step - 1) + 1 * - step)%Z by lia.
        rewrite Z.div_add by lia.
        assert (0 <= ((i + step) - stop + - step - 1) / - step)%Z
          by (apply Z.div_pos; lia).
        lia. }
      rewrite Hc, arithmetic_S. f_equal. apply IH. lia.
    + assert ((i - stop + - step - 1) / - step <= 0)%Z.
      { apply Z.lt_succ_r. apply Z.div_lt_upper_bound; lia. }
      unfold count_up. replace (Z.to_nat _) with 0 by lia. reflexivity.
Qed.

Lemma range_from_arithmetic start n : range_from start n = arithmetic start 1 n.
Proof. unfold range_from, arithmetic. apply map_ext. intros k. f_equal. lia. Qed.

(** X1. For integers that the doubles of the source carry exactly, of at
    most [2^52] in magnitude, and a result of at most 4294967295 numbers,
    the greatest length of an array, [__range(start, stop, step)] is
    Python's [range]: a new array of the numbers [start + k * step]
    before [stop], below it for a positive step and above it for a
    negative one, in order.  With a step of 0, where Python raises an
    error, the result is the empty list when [start <= stop]. *)
Theorem range_with_step (start stop step : Z) (h : heap) :
  exact_integer start -> exact_integer stop -> exact_integer step ->
  (step = 0 -> start <= stop)%Z ->
  (Z.of_nat (range_count start stop step) <= 4294967295)%Z ->
  __range [VNum start; VNum stop; VNum step] h
  = Ok (VRef (length h))
       (h ++ [OArr (arithmetic start step (range_count start stop step))]).
Proof.
  intros _ _ _ H0 _. unfold __range, range_count.
  destruct (0 <? step)%Z eqn:Ep; [|destruct (step <? 0)%Z eqn:En].
  - replace (step =? 0)%Z with false by lia. cbn [andb].
    unfold alloc. rewrite range_loop_up by lia. reflexivity.
  - replace (step =? 0)%Z with false by lia. cbn [andb].
    unfold alloc. rewrite range_loop_down by lia. reflexivity.
  - assert (step = 0)%Z as -> by lia. specialize (H0 eq_refl).
    replace (stop <? start)%Z with false by lia. cbn [Z.eqb andb].
    unfold alloc. cbn [range_loop Z.ltb Z.compare].
    by replace (stop <? start)%Z with false by lia.
Qed.

Lemma range_with_step_witness :
  __range [VNum 10; VNum 1; VNum (-4)] []
  = Ok (VRef 0) [OArr (arithmetic 10 (-4) (range_count 10 1 (-4)))]
  /\ arithmetic 10 (-4) (range_count 10 1 (-4)) = [VNum 10; VNum 6; VNum 2].
Proof.
  split; [|reflexivity].
  apply (@range_with_step 10 1 (-4) []); unfold exact_integer; try lia.
  vm_compute. discriminate.
Defined.

(** X2. For integers of at most [2^52] in magnitude, with one or two
    arguments [__range] is [__range] with the missing start 0 and the
    missing step 1, as long as the count stays within 4294967295, the
    greatest length that [Array.from] accepts. *)
Theorem range_default_step (a b : Z) (h : heap) :
  exact_integer a -> exact_integer b ->
  (b - a <= 4294967295)%Z ->
  __range [VNum a; VNum b] h = __range [VNum a; VNum b; VNum 1] h
  /\ (a = 0%Z -> __range [VNum b] h = __range [VNum 0; VNum b; VNum 1] h).
Proof.
  intros _ _ Hb.
  assert (E : forall a b, (b - a <= 4294967295)%Z ->
              array_from (b - a) a h = __range [VNum a; VNum b; VNum 1] h).
  { clear. intros a b Hb. unfold __range. change (1 =? 0)%Z with false. cbn [andb].
    unfold array_from. replace (4294967295 <? b - a)%Z with false by lia.
    unfold alloc. cbv beta. rewrite range_loop_up by lia. rewrite range_from_arithmetic.
    unfold count_up. do 4 f_equal. rewrite Z.div_1_r. f_equal. lia. }
  split.
  - by apply E.
  - intros ->. rewrite <- E by done. simpl. by rewrite Z.sub_0_r.
Qed.

Lemma range_default_step_witness :
  __range [VNum 2; VNum 5] [] = __range [VNum 2; VNum 5; VNum 1] [].
Proof.
  apply (proj1 (@range_default_step 2 5 [] ltac:(unfold exact_integer; lia)
                  ltac:(unfold exact_integer; lia) ltac:(lia))).
Defined.

(** *** The parameters of a call *)

Lemma obj_get_set_ne {A} k k' (v : A) o :
  k <> k' -> obj_get k (obj_set k' v o) = obj_get k o.
Proof.
  intros Hne. assert (E : String.eqb k k' = false) by by apply String.eqb_neq.
  induction o as [|[k0 v0] o IH]; simpl.
  - by rewrite E.
  - destruct (String.eqb k' k0) eqn:E0.
    + apply String.eqb_eq in E0 as <-. simpl. by rewrite E.
    + destruct (key_before k' k0); simpl.
      * by rewrite E.
      * by rewrite IH.
Qed.

Lemma prop_set k v o : prop k (obj_set k v o) = v.
Proof. unfold prop. by rewrite obj_get_set. Qed.

Lemma prop_set_ne k k' v o : k <> k' -> prop k (obj_set k' v o) = prop k o.
Proof. intros Hne. unfold prop. by rewrite obj_get_set_ne. Qed.

Lemma bind_params_other q : forall params args scope,
  ~ In q (take (length args) params) ->
  prop q (First.bind_params params args scope) = prop q scope.
Proof.
  induction params as [|p params IH]; intros args scope Hq; [done|].
  destruct args as [|a args]; [done|]. cbn [First.bind_params].
  simpl in Hq. rewrite IH by tauto. apply prop_set_ne. intros ->. apply Hq. by left.
Qed.

(** X3. A call binds parameter [i] to argument [i] for every [i] below
    both counts: with parameter names that differ from one another, the
    scope maps each such parameter to its argument; arguments beyond the
    parameters are dropped, and a parameter without an argument, like any
    other name, is left as the closure has it. *)
Theorem parameters_bound_by_position (params : list string) (args : list value)
    (scope : env) :
  NoDup params ->
  (forall i p a, params !! i = Some p -> args !! i = Some a ->
                 prop p (First.bind_params params args scope) = a)
  /\ (forall q, ~ In q (take (length args) params) ->
                prop q (First.bind_params params args scope) = prop q scope).
Proof.
  intros Hnd. split; [|intros q; apply bind_params_other].
  revert args scope. induction params as [|p0 params IH]; intros args scope i p a Ep Ea;
    [done|].
  destruct args as [|a0 args]; [done|]. cbn [First.bind_params].
  apply NoDup_cons in Hnd as [Hnin Hnd].
  destruct i as [|i]; simpl in Ep, Ea.
  - injection Ep as <-. injection Ea as <-.
    rewrite bind_params_other; [apply prop_set|].
    intros Hin. apply Hnin. apply list_elem_of_In in Hin.
    by apply (subseteq_take (length args) params).
  - by eapply IH.
Qed.

Lemma parameters_bound_by_position_witness :
  prop "b" (First.bind_params ["a"; "b"; "c"] [VNum 1; VNum 2] [("c", VStr "kept")])
  = VNum 2
  /\ prop "c" (First.bind_params ["a"; "b"; "c"] [VNum 1; VNum 2] [("c", VStr "kept")])
     = VStr "kept".
Proof.
  assert (Hnd : NoDup ["a"; "b"; "c"]).
  { repeat (apply NoDup_cons_2;
              [rewrite list_elem_of_In; simpl; intuition discriminate|]).
    apply NoDup_nil_2. }
  split.
  - apply (proj1 (@parameters_bound_by_position ["a"; "b"; "c"] [VNum 1; VNum 2]
                    [("c", VStr "kept")] Hnd) 1); reflexivity.
  - apply (proj2 (@parameters_bound_by_position ["a"; "b"; "c"] [VNum 1; VNum 2]
                    [("c", VStr "kept")] Hnd)).
    simpl. intros [H|[H|[]]]; discriminate.
Defined.

(** *** The body of a block *)


(** X4. The body that the first implementation gives a [for] or [def]
    header: the lines passed over are the longest run of lines after the
    header that are blank or indented deeper than it, the body is that
    run without its blank lines, and the line after the run, if there is
    one, is neither blank nor deeper. *)
Theorem body_is_the_deeper_run (rest : list line) (indent0 : nat) :
  let body := fst (block_after rest indent0) in
  let passed := snd (block_after rest indent0) in
  passed <= length rest
  /\ Forall (fun l => blank l = true \/ indent0 < indent l) (take passed rest)
  /\ body = List.filter (fun l => negb (blank l)) (take passed rest)
  /\ (forall l, rest !! passed = Some l -> blank l = false /\ indent l <= indent0).
Proof.
  induction rest as [|l rest IH]; cbn zeta in *.
  - simpl. split; [lia|]. split; [constructor|]. split; [done|]. intros l E. done.
  - cbn [block_after]. fold (blank l).
    destruct (block_after rest indent0) as [body n]. cbn [fst snd] in IH.
    destruct IH as (Hn & Hall & Hbody & Hnext).
    destruct (blank l || (indent0 <? indent l)) eqn:E; cbn [fst snd].
    + split; [simpl; lia|]. split; [|split].
      * cbn [take]. constructor; [|done].
        apply orb_true_iff in E as [E|E]; [by left|right]. by apply Nat.ltb_lt.
      * cbn [take List.filter]. destruct (blank l); cbn [negb]; by rewrite Hbody.
      * intros l' El. by apply Hnext.
    + split; [simpl; lia|]. split; [constructor|]. split; [reflexivity|].
      intros l' El. injection El as <-. apply orb_false_iff in E as [E1 E2].
      split; [done|]. apply Nat.ltb_ge in E2. lia.
Qed.

(** X5. The body that the second implementation gives a header: the
    longest run of lines after it that are indented deeper; a line that
    is not deeper, a blank line too, ends it. *)
Theorem second_body_is_the_deeper_prefix (rest : list line) (indent0 : nat) :
  let body := Second.deeper rest indent0 in
  body = take (length body) rest
  /\ Forall (fun l => indent0 < indent l) body
  /\ (forall l, rest !! length body = Some l -> indent l <= indent0).
Proof.
  induction rest as [|l rest IH]; cbn zeta in *.
  - simpl. split; [done|]. split; [constructor|]. intros l E. done.
  - cbn [Second.deeper]. destruct IH as (Ht & Hall & Hnext).
    destruct (indent0 <? indent l) eqn:E.
    + cbn [length take]. split; [by rewrite <- Ht|]. split.
      * constructor; [by apply Nat.ltb_lt|done].
      * intros l' El. by apply Hnext.
    + split; [reflexivity|]. split; [constructor|].
      intros l' El. injection El as <-. apply Nat.ltb_ge in E. lia.
Qed.

(** *** The arguments of a call *)

Lemma split_args_loop_no_comma l : forall current depth inString argParts,
  ~ In ","%char l ->
  split_args_loop l current depth inString argParts = (argParts, rev l ++ current).
Proof.
  induction l as [|c l IH]; intros current depth inString argParts Hn; [done|].
  assert (Ascii.eqb c "," = false) as Ec.
  { apply Ascii.eqb_neq. intros ->. apply Hn. by left. }
  assert (~ In ","%char l) as Hn' by (intros Hi; apply Hn; by right).
  cbn [split_args_loop rev]. rewrite <- app_assoc. cbn [app].
  destruct inString as [stringChar|].
  - destruct (Ascii.eqb c stringChar); by apply IH.
  - rewrite Ec. cbn [andb].
    repeat (match goal with |- context [if ?b then _ else _] => destruct b end);
      by apply IH.
Qed.

(** X6. An argument list without a comma is one argument, with the
    blanks around it removed, whatever quotes and brackets it holds; a
    blank argument list is no argument. *)
Theorem one_argument_without_comma (argsStr : string) :
  ~ In ","%char (Str.chars argsStr) ->
  split_args argsStr
  = if String.eqb (Str.trim argsStr) "" then [] else [Str.trim argsStr].
Proof.
  intros Hn. unfold split_args. destruct (String.eqb (Str.trim argsStr) "") eqn:E; [done|].
  rewrite split_args_loop_no_comma by done.
  rewrite app_nil_r, rev_involutive. unfold Str.chars, Str.of_chars.
  rewrite string_of_list_ascii_of_string. by rewrite E.
Qed.

Lemma one_argument_without_comma_witness :
  split_args " xs[1] + f(2) "
  = if String.eqb (Str.trim " xs[1] + f(2) ") "" then [] else [Str.trim " xs[1] + f(2) "].
Proof.
  apply (@one_argument_without_comma " xs[1] + f(2) ").
  vm_compute. intuition discriminate.
Defined.

(** *** What a computation returns *)

Lemma always_ret {A} (Q : A -> Prop) a h : Q a -> always Q (ret a h).
Proof. done. Qed.

Lemma always_bind {A B} (R : A -> Prop) (Q : B -> Prop) (m : M A) (k : A -> M B) h :
  always R (m h) -> (forall a h1, R a -> always Q (k a h1)) -> always Q (bind m k h).
Proof.
  unfold bind. destruct (m h) as [a h1| |]; simpl; [|done..]. intros Ha Hk. by apply Hk.
Qed.

Lemma always_true {A} (r : res A) : always (fun _ => True) r.
Proof. by destruct r. Qed.

Lemma always_bind_any {A B} (Q : B -> Prop) (m : M A) (k : A -> M B) h :
  (forall a h1, always Q (k a h1)) -> always Q (bind m k h).
Proof.
  intros Hk. eapply always_bind; [apply always_true|]. intros a h1 _. apply Hk.
Qed.

Lemma always_try_catch {A} (Q : A -> Prop) (m : M A) handler h :
  always Q (m h) -> (forall msg h1, always Q (handler msg h1)) ->
  always Q (try_catch m handler h).
Proof.
  unfold try_catch. destruct (m h) as [a h1|msg h1|]; simpl; [done| |done].
  intros _ Hk. apply Hk.
Qed.

Lemma always_impl {A} (Q Q' : A -> Prop) (r : res A) :
  (forall a, Q a -> Q' a) -> always Q r -> always Q' r.
Proof. intros HQ. destruct r; simpl; auto. Qed.

Lemma always_ok {A} (Q : A -> Prop) (r : res A) a h : always Q r -> r = Ok a h -> Q a.
Proof. by intros HQ ->. Qed.

Ltac wp_step :=
  lazymatch goal with
  | |- always _ (bind _ _ _) => apply always_bind_any; intros ? ?
  | |- always _ (try_catch _ _ _) => apply always_try_catch; [|intros ? ?]
  | |- always _ (ret _ _) => apply always_ret
  | |- always _ (throw _ _) => exact I
  | |- always _ (noret _) => exact I
  | |- always _ ((if ?b then _ else _) _) => destruct b
  | |- always _ ((let '(_, _) := ?p in _) _) => destruct p
  | |- always _ (match ?x with _ => _ end _) => destruct x
  | |- always _ (match ?x with _ => _ end) => destruct x
  end.

Ltac wp := repeat wp_step.

(** *** The step of a line *)

Lemma pending_plain allowed (a : action) fields vars out out' :
  In a allowed -> output_after a out out' ->
  pending_ok allowed out (plain a fields vars out').
Proof. by split. Qed.

Ltac fin := first [exact I | apply pending_plain; simpl; eauto].

Lemma json_copy_err vars h msg h' : json_copy vars h = Err msg h' -> h' = h.
Proof.
  unfold json_copy. destruct (copy_fields _ _ _) as [[? ?]|]; [done|]. by intros [= _ ->].
Qed.

Lemma guarded_ok allowed lineData vars out (m : M (option pending)) h :
  always (pending_ok allowed out) (m h) ->
  always (line_steps_ok allowed lineData out) (guarded (originalIndex lineData) vars out m h).
Proof.
  intros S. unfold guarded.
  destruct (m h) as [[p|] h1|msg h1|]; simpl in S.
  - destruct S as [Ha Ho].
    destruct (json_copy (p_vars p) h1) as [snap h2|msg h2|] eqn:E; [| |done].
    + simpl. unfold line_steps_ok. simpl. auto.
    + apply json_copy_err in E as E'. subst h2.
      unfold error_result, bind. by rewrite E.
  - by simpl.
  - unfold error_result, bind. destruct (json_copy vars h1); [|done..].
    simpl. unfold line_steps_ok. simpl. auto.
  - done.
Qed.

Section SharedShape.
Variable H : host.
Variable safeEval : string -> env -> M value.

Lemma augmented_assignment_pending allowed trimmed vars out h :
  In augmented_assign allowed ->
  always (pending_ok allowed out) (Shared.augmented_assignment H safeEval trimmed vars out h).
Proof. intros. unfold Shared.augmented_assignment. wp; fin. Qed.

Lemma list_operation_pending allowed trimmed vars out h :
  In list_operation allowed ->
  always (pending_ok allowed out)
    (Shared.list_operation_statement H safeEval trimmed vars out h).
Proof. intros. unfold Shared.list_operation_statement. wp; fin. Qed.

Lemma for_statement_pending allowed trimmed vars out h :
  In for_loop_start allowed ->
  always (pending_ok allowed out) (Shared.for_statement safeEval trimmed vars out h).
Proof. intros. unfold Shared.for_statement. wp; fin. Qed.

Lemma guard_statement_pending allowed a skip trimmed vars out h :
  In a allowed -> a <> print ->
  always (pending_ok allowed out) (Shared.guard_statement safeEval a skip trimmed vars out h).
Proof.
  intros. unfold Shared.guard_statement. wp; apply pending_plain; [done|].
  by destruct a.
Qed.

End SharedShape.

Section FirstShape.
Variable H : host.
Variable fuel : nat.

Lemma handleFunctionCall_output funcName args vars out h :
  always (fun p => snd p = out) (First.handleFunctionCall H funcName args vars out h).
Proof.
  unfold First.handleFunctionCall. wp. simpl. apply app_nil_r.
Qed.

Lemma assigned_value_output e vars out lines idx h :
  always (fun p => snd p = out) (First.assigned_value H fuel e vars out lines idx h).
Proof.
  unfold First.assigned_value. cbv zeta.
  repeat lazymatch goal with
         | |- always _ ((if ?b then _ else _) _) => destruct b
         | |- always _ (match ?x with _ => _ end _) => destruct x
         | |- always _ (bind get_heap _ _) => apply always_bind_any; intros ? ?
         end;
    try (apply always_bind_any; intros ? ?; by apply always_ret).
  apply always_bind_any. intros args' h1'.
  apply always_try_catch; [apply handleFunctionCall_output|]. by intros.
Qed.

Lemma first_statement_pending lineData vars out lines h :
  always (pending_ok (first_actions (First.classify (trimmed lineData))) out)
    (First.statement H fuel lineData vars out lines h).
Proof.
  unfold First.statement. cbv zeta.
  destruct (First.classify (trimmed lineData)).
  - unfold First.assignment. cbv zeta.
    eapply always_bind; [apply assigned_value_output|].
    intros [v out'] h1 E. simpl in E. subst out'. apply always_ret.
    destruct (prop _ vars); apply pending_plain; simpl; auto.
  - apply augmented_assignment_pending. simpl; auto.
  - apply list_operation_pending. simpl; auto.
  - unfold First.print_statement. wp; fin.
  - unfold First.def_statement. wp; fin.
  - unfold First.call_statement. cbv zeta.
    destruct (Re.exec _ _); [|by apply always_ret].
    apply always_bind_any. intros h0 h1. destruct (is_function _ _); [|done].
    apply always_bind_any. intros args h2.
    apply always_try_catch; [|by intros].
    eapply always_bind; [apply handleFunctionCall_output|].
    intros [v out'] h3 E. simpl in E. subst out'. wp. simpl. auto.
  - apply for_statement_pending. simpl; auto.
  - apply guard_statement_pending; [simpl; auto|done].
  - apply guard_statement_pending; [simpl; auto|done].
  - wp; fin.
  - by apply always_ret.
Qed.

Lemma first_processLine_ok lineData vars out lines h :
  always (line_steps_ok (first_actions (First.classify (trimmed lineData))) lineData out)
    (First.processLine H fuel lineData vars out lines h).
Proof.
  unfold First.processLine. cbv zeta. destruct (_ || _); [by apply always_ret|].
  apply guarded_ok, first_statement_pending.
Qed.

End FirstShape.

Section SecondShape.
Variable H : host.

Lemma second_statement_pending lineData vars out h :
  always (pending_ok (second_actions (Second.classify (trimmed lineData))) out)
    (Second.statement H lineData vars out h).
Proof.
  unfold Second.statement. cbv zeta.
  destruct (Second.classify (trimmed lineData)).
  - unfold Second.assignment. cbv zeta.
    apply always_bind_any. intros v h1. apply always_ret.
    destruct (prop _ vars); apply pending_plain; simpl; auto.
  - apply augmented_assignment_pending. simpl; auto.
  - apply list_operation_pending. simpl; auto.
  - unfold Second.dict_operation_statement. wp; fin.
  - unfold Second.print_statement. wp; fin.
  - apply for_statement_pending. simpl; auto.
  - apply guard_statement_pending; [simpl; auto|done].
  - apply guard_statement_pending; [simpl; auto|done].
  - unfold Second.def_statement. wp; fin.
  - unfold Second.call_statement. wp; fin.
  - wp; fin.
  - by apply always_ret.
Qed.

Lemma second_processLine_ok lineData vars out h :
  always (line_steps_ok (second_actions (Second.classify (trimmed lineData))) lineData out)
    (Second.processLine H lineData vars out h).
Proof.
  unfold Second.processLine. cbv zeta. destruct (_ || _); [by apply always_ret|].
  apply guarded_ok, second_statement_pending.
Qed.

End SecondShape.

(** *** The output along the trace *)

Lemma final_output_app out ss ss' :
  final_output out (ss ++ ss') = final_output (final_output out ss) ss'.
Proof.
  unfold final_output. rewrite last_app. by destruct (last ss').
Qed.

Lemma final_output_cons out s ss : final_output out (s :: ss) = final_output (s_output s) ss.
Proof. apply (final_output_app out [s] ss). Qed.

Lemma chain_app out ss ss' :
  chain out ss -> chain (final_output out ss) ss' -> chain out (ss ++ ss').
Proof.
  revert out. induction ss as [|s ss IH]; intros out; simpl; [done|].
  intros [Hs Hss] Hss'. split; [done|]. apply IH; [done|]. by rewrite final_output_cons in Hss'.
Qed.

Lemma steps_chain_nil out : steps_chain out [] out.
Proof. done. Qed.

Lemma steps_chain_app out ss out1 ss' out2 :
  steps_chain out ss out1 -> steps_chain out1 ss' out2 -> steps_chain out (ss ++ ss') out2.
Proof.
  intros [C ->] [C' ->]. split.
  - by apply chain_app.
  - by rewrite final_output_app.
Qed.

Lemma steps_chain_cons out s ss out' :
  output_after (s_action s) out (s_output s) -> steps_chain (s_output s) ss out' ->
  steps_chain out (s :: ss) out'.
Proof.
  intros Hs [C ->]. split; simpl; [done|]. by rewrite final_output_cons.
Qed.

Lemma steps_chain_one out s :
  output_after (s_action s) out (s_output s) -> steps_chain out [s] (s_output s).
Proof. intros Hs. by apply steps_chain_cons. Qed.

Lemma result_chain_nil vars out : result_chain out (Result [] vars out).
Proof. done. Qed.

Lemma line_steps_chain allowed lineData out r :
  line_steps_ok allowed lineData out r -> result_chain out r.
Proof.
  unfold line_steps_ok, result_chain. destruct (r_steps r) as [|s [|? ?]]; [by intros ->| |done].
  intros (_ & <- & Hs). apply steps_chain_one.
  destruct Hs as [[-> <-]|[_ Hs]]; done.
Qed.

Section FirstChain.
Variable H : host.
Variable fuel : nat.

Lemma first_processLine_chain lineData vars out lines h :
  always (result_chain out) (First.processLine H fuel lineData vars out lines h).
Proof.
  eapply always_impl; [|apply first_processLine_ok]. apply line_steps_chain.
Qed.

Lemma first_loop_body_chain loopBody lines vars out h :
  always (result_chain out) (First.loop_body H fuel loopBody lines vars out h).
Proof.
  revert vars out h. induction loopBody as [|l body IH]; intros vars out h; simpl.
  - apply result_chain_nil.
  - eapply always_bind; [apply first_processLine_chain|]. intros r h1 Hr.
    eapply always_bind; [apply IH|]. intros r' h2 Hr'.
    apply always_ret. by apply (steps_chain_app Hr).
Qed.

Lemma first_turns_chain n i len idx iterVar iterable loopBody lines vars out h :
  always (result_chain out)
    (First.turns H fuel n i len idx iterVar iterable loopBody lines vars out h).
Proof.
  revert i len vars out h. induction n as [|n IH]; intros i len vars out h; simpl; [done|].
  apply always_bind_any. intros item h1.
  apply always_bind_any. intros snap h2.
  eapply always_bind; [apply first_loop_body_chain|]. intros r h3 Hr.
  eapply always_bind with (R := result_chain (r_output r)).
  - unfold loop_test. apply always_bind_any. intros len' h4.
    destruct (_ <=? _); [apply always_ret; apply result_chain_nil|apply IH].
  - intros r' h4 Hr'. apply always_ret.
    apply steps_chain_cons; [done|]. by apply (steps_chain_app Hr).
Qed.

Lemma first_iterations_chain idx iterVar iterable loopBody lines vars out h :
  always (result_chain out)
    (First.iterations H fuel idx iterVar iterable loopBody lines vars out h).
Proof.
  unfold First.iterations, loop_test. apply always_bind_any. intros len h1.
  destruct (len <=? 0); [apply always_ret; apply result_chain_nil|apply first_turns_chain].
Qed.

Lemma first_for_block_chain lineData forMatch loopBody lines vars out h :
  always (result_chain out)
    (First.for_block H fuel lineData forMatch loopBody lines vars out h).
Proof.
  unfold First.for_block. cbv zeta.
  apply always_bind_any. intros iterable h1.
  apply always_bind_any. intros indices h2.
  apply always_bind_any. intros snap h3.
  eapply always_bind; [apply first_iterations_chain|]. intros r h4 Hr.
  apply always_bind_any. intros snap' h5. apply always_ret.
  apply steps_chain_cons; [done|]. apply (steps_chain_app Hr).
  by apply steps_chain_cons.
Qed.

Lemma first_def_block_chain lineData funcMatch body vars out h :
  always (result_chain out) (First.def_block lineData funcMatch body vars out h).
Proof. unfold First.def_block. wp. by apply steps_chain_cons. Qed.

Lemma first_turn_chain lines i lineData vars out h :
  always (fun p => result_chain out (fst p)) (First.turn H fuel lines i lineData vars out h).
Proof.
  unfold First.turn. cbv zeta. destruct (block_after _ _) as [body passed].
  destruct (_ || _); [apply always_ret; apply result_chain_nil|].
  destruct (if Str.startsWith _ "for " then _ else _).
  { eapply always_bind; [apply first_for_block_chain|]. intros r h1 Hr. by apply always_ret. }
  destruct (if Str.startsWith _ "def " then _ else _).
  { eapply always_bind; [apply first_def_block_chain|]. intros r h1 Hr. by apply always_ret. }
  eapply always_bind; [apply first_processLine_chain|]. intros r h1 Hr. by apply always_ret.
Qed.

Lemma first_main_loop_chain n lines i vars out h :
  always (chain out) (First.main_loop H fuel n lines i vars out h).
Proof.
  revert i vars out h. induction n as [|n IH]; intros i vars out h; simpl; [done|].
  destruct (lines !! i) as [lineData|]; [|done].
  eapply always_bind; [apply first_turn_chain|]. intros [r next] h1 [C E]. simpl in C, E.
  eapply always_bind; [apply IH|]. intros rest h2 Hrest. apply always_ret.
  apply chain_app; [done|]. by rewrite <- E.
Qed.

End FirstChain.

Section SecondChain.
Variable H : host.
Variable fuel : nat.

Lemma second_processLine_chain lineData vars out h :
  always (result_chain out) (Second.processLine H lineData vars out h).
Proof.
  eapply always_impl; [|apply second_processLine_ok]. apply line_steps_chain.
Qed.

Lemma second_block_chain body vars out h :
  always (result_chain out) (Second.block H body vars out h).
Proof.
  revert vars out h. induction body as [|l body IH]; intros vars out h; simpl.
  - apply result_chain_nil.
  - eapply always_bind; [apply second_processLine_chain|]. intros r h1 Hr.
    eapply always_bind; [apply IH|]. intros r' h2 Hr'.
    apply always_ret. by apply (steps_chain_app Hr).
Qed.

Lemma second_turns_chain n i len idx iterVar iterable loopBody vars out h :
  always (result_chain out)
    (Second.turns H n i len idx iterVar iterable loopBody vars out h).
Proof.
  revert i len vars out h. induction n as [|n IH]; intros i len vars out h; simpl; [done|].
  apply always_bind_any. intros item h1.
  apply always_bind_any. intros snap h2.
  eapply always_bind; [apply second_block_chain|]. intros r h3 Hr.
  eapply always_bind with (R := result_chain (r_output r)).
  - unfold loop_test. apply always_bind_any. intros len' h4.
    destruct (_ <=? _); [apply always_ret; apply result_chain_nil|apply IH].
  - intros r' h4 Hr'. apply always_ret.
    apply steps_chain_cons; [done|]. by apply (steps_chain_app Hr).
Qed.

Lemma second_iterations_chain idx iterVar iterable loopBody vars out h :
  always (result_chain out)
    (Second.iterations H fuel idx iterVar iterable loopBody vars out h).
Proof.
  unfold Second.iterations, loop_test. apply always_bind_any. intros len h1.
  destruct (len <=? 0); [apply always_ret; apply result_chain_nil|apply second_turns_chain].
Qed.

Lemma second_for_block_chain lineData forMatch loopBody vars out h :
  always (result_chain out)
    (Second.for_block H fuel lineData forMatch loopBody vars out h).
Proof.
  unfold Second.for_block. cbv zeta.
  apply always_bind_any. intros iterable h1.
  apply always_bind_any. intros indices h2.
  apply always_bind_any. intros snap h3.
  eapply always_bind; [apply second_iterations_chain|]. intros r h4 Hr.
  apply always_bind_any. intros snap' h5. apply always_ret.
  apply steps_chain_cons; [done|]. apply (steps_chain_app Hr).
  by apply steps_chain_cons.
Qed.

Lemma second_control_block_chain lineData body vars out h :
  always (result_chain out) (Second.control_block H lineData body vars out h).
Proof.
  unfold Second.control_block. cbv zeta.
  apply always_bind_any. intros snap h1.
  eapply always_bind; [apply second_block_chain|]. intros r h2 Hr.
  apply always_bind_any. intros snap' h3. apply always_ret.
  apply steps_chain_cons; [done|]. apply (steps_chain_app Hr).
  by apply steps_chain_cons.
Qed.

Lemma second_turn_chain lines i lineData vars out h :
  always (fun p => result_chain out (fst p)) (Second.turn H fuel lines i lineData vars out h).
Proof.
  unfold Second.turn. cbv zeta.
  destruct (_ || _); [apply always_ret; apply result_chain_nil|].
  destruct (if Str.startsWith _ "for " then _ else _).
  { eapply always_bind; [apply second_for_block_chain|]. intros r h1 Hr. by apply always_ret. }
  destruct (Str.endsWith _ _).
  { eapply always_bind; [apply second_control_block_chain|]. intros r h1 Hr.
    by apply always_ret. }
  eapply always_bind; [apply second_processLine_chain|]. intros r h1 Hr. by apply always_ret.
Qed.

Lemma second_main_loop_chain n lines i vars out h :
  always (chain out) (Second.main_loop H fuel n lines i vars out h).
Proof.
  revert i vars out h. induction n as [|n IH]; intros i vars out h; simpl; [done|].
  destruct (lines !! i) as [lineData|]; [|done].
  eapply always_bind; [apply second_turn_chain|]. intros [r next] h1 [C E]. simpl in C, E.
  eapply always_bind; [apply IH|]. intros rest h2 Hrest. apply always_ret.
  apply chain_app; [done|]. by rewrite <- E.
Qed.

End SecondChain.

Lemma chain_adjacent out ss i s s' :
  chain out ss -> ss !! i = Some s -> ss !! S i = Some s' ->
  output_after (s_action s') (s_output s) (s_output s').
Proof.
  revert out i. induction ss as [|s0 ss IH]; intros out i; [done|].
  intros [_ Hss]. destruct i as [|i]; simpl.
  - intros [= ->]. destruct ss as [|s1 ss]; [done|]. intros [= ->]. apply Hss.
  - by apply (IH (s_output s0)).
Qed.

Lemma output_after_prefix a out out' : output_after a out out' -> out `prefix_of` out'.
Proof.
  destruct a; simpl; try (by intros ->). intros [text ->]. by apply prefix_app_r.
Qed.

Lemma chain_prefix out ss i j si sj :
  chain out ss -> i <= j -> ss !! i = Some si -> ss !! j = Some sj ->
  s_output si `prefix_of` s_output sj.
Proof.
  intros C Hij Hi. revert sj. induction Hij as [|j Hij IH]; intros sj Hj.
  - by assert (si = sj) as -> by congruence.
  - destruct (ss !! j) as [s|] eqn:E.
    + etrans; [by apply IH|]. eapply output_after_prefix, chain_adjacent; eauto.
    + apply lookup_ge_None in E. apply lookup_lt_Some in Hj. lia.
Qed.

(** X7. Whenever [processLine] of the first implementation returns, it
    has recorded no step and left the output as it was, or one step at
    the line: an [error] step with the output as it was, or a step whose
    action is that of the line's kind, with one more line of output if it
    is a [print] and the output as it was otherwise. *)
Theorem first_line_records_its_kind (H : host) (fuel : nat) (lineData : line) (vars : env)
    (out : list string) (lines : list line) (h : heap) (r : result) (h' : heap) :
  First.processLine H fuel lineData vars out lines h = Ok r h' ->
  line_steps_ok (first_actions (First.classify (trimmed lineData))) lineData out r.
Proof. intros E. eapply always_ok; [apply first_processLine_ok|exact E]. Qed.

Lemma first_line_records_its_kind_witness :
  exists r h',
    First.processLine Mini.mini_host 0 (make_line 4 "  print(1 + 2)") [] ["a"] [] [] = Ok r h'
    /\ line_steps_ok (first_actions (First.classify (trimmed (make_line 4 "  print(1 + 2)"))))
         (make_line 4 "  print(1 + 2)") ["a"] r.
Proof.
  eexists; eexists. split; [vm_compute; reflexivity|].
  eapply (@first_line_records_its_kind Mini.mini_host 0 (make_line 4 "  print(1 + 2)")
            [] ["a"] [] []).
  vm_compute; reflexivity.
Defined.

(** X8. Whenever [processLine] of the second implementation returns, it
    has recorded no step and left the output as it was, or one step at
    the line: an [error] step with the output as it was, or a step whose
    action is that of the line's kind in the second implementation, with
    one more line of output if it is a [print] and the output as it was
    otherwise. *)
Theorem second_line_records_its_kind (H : host) (lineData : line) (vars : env)
    (out : list string) (h : heap) (r : result) (h' : heap) :
  Second.processLine H lineData vars out h = Ok r h' ->
  line_steps_ok (second_actions (Second.classify (trimmed lineData))) lineData out r.
Proof. intros E. eapply always_ok; [apply second_processLine_ok|exact E]. Qed.

Lemma second_line_records_its_kind_witness :
  exists r h',
    Second.processLine Mini.mini_host (make_line 4 "  print(1 + 2)") [] ["a"] [] = Ok r h'
    /\ line_steps_ok (second_actions (Second.classify (trimmed (make_line 4 "  print(1 + 2)"))))
         (make_line 4 "  print(1 + 2)") ["a"] r.
Proof.
  eexists; eexists. split; [vm_compute; reflexivity|].
  eapply (@second_line_records_its_kind Mini.mini_host (make_line 4 "  print(1 + 2)")
            [] ["a"] []).
  vm_compute; reflexivity.
Defined.

(** X9. Along the trace of either implementation the output only grows,
    and only at [print] steps: the first step has the empty output, or
    one line if it is a [print]; every later step has the output of the
    step before it, with one more line if it is a [print]; so the output
    of a step is a prefix of the output of every later step. *)
Theorem output_grows_at_prints (H : host) (fuel : nat) (codeString : string)
    (steps : list step) (h : heap) :
  First.parseCode H fuel codeString [] = Ok steps h
  \/ Second.parseCode H fuel codeString [] = Ok steps h ->
  (forall s, steps !! 0 = Some s -> output_after (s_action s) [] (s_output s))
  /\ (forall i s s', steps !! i = Some s -> steps !! S i = Some s' ->
        output_after (s_action s') (s_output s) (s_output s'))
  /\ (forall i j si sj, i <= j -> steps !! i = Some si -> steps !! j = Some sj ->
        s_output si `prefix_of` s_output sj).
Proof.
  intros E. assert (chain [] steps) as C.
  { destruct E as [E|E].
    - eapply always_ok; [apply first_main_loop_chain|exact E].
    - eapply always_ok; [apply second_main_loop_chain|exact E]. }
  split; [|split].
  - intros s Hs. destruct steps as [|s0 ss]; [done|]. injection Hs as ->. apply C.
  - intros i s s' Hi Hj. eapply chain_adjacent; [exact C|exact Hi|exact Hj].
  - intros i j si sj Hij Hi Hj. eapply chain_prefix; [exact C|exact Hij|exact Hi|exact Hj].
Qed.

Lemma output_grows_at_prints_witness :
  exists steps h s s',
    First.parseCode Mini.mini_host 0 (script ["print(1)"; "x = 2"; "print(x)"]) [] = Ok steps h
    /\ steps !! 1 = Some s /\ steps !! 2 = Some s'
    /\ output_after (s_action s') (s_output s) (s_output s').
Proof.
  eexists; eexists; eexists; eexists.
  split; [vm_compute; reflexivity|]. split; [reflexivity|]. split; [reflexivity|].
  refine (proj1 (proj2 (@output_grows_at_prints Mini.mini_host 0
            (script ["print(1)"; "x = 2"; "print(x)"]) _ _ _)) 1 _ _ _ _);
    [left; vm_compute; reflexivity|reflexivity|reflexivity].
Defined.

(** *** The lines of the steps *)

Lemma code_index_incl ls ls' n : incl ls ls' -> code_index ls n -> code_index ls' n.
Proof. intros I (l & Hl & Hc & Hn). exists l. auto. Qed.

Lemma at_lines_incl ls ls' ss : incl ls ls' -> at_lines ls ss -> at_lines ls' ss.
Proof.
  intros I Hs. eapply Forall_impl; [exact Hs|]. intros s. by apply code_index_incl.
Qed.

Lemma at_lines_app ls ss ss' : at_lines ls ss -> at_lines ls ss' -> at_lines ls (ss ++ ss').
Proof. apply Forall_app_2. Qed.

Lemma line_steps_at allowed lineData out r :
  is_code lineData = true -> line_steps_ok allowed lineData out r ->
  at_lines [lineData] (r_steps r).
Proof.
  intros Hc. unfold line_steps_ok, at_lines.
  destruct (r_steps r) as [|s [|? ?]]; [by constructor| |done].
  intros (Hl & _). repeat constructor. exists lineData. split; [by left|]. by split.
Qed.

Lemma block_after_incl rest indent0 : incl (fst (block_after rest indent0)) rest.
Proof.
  induction rest as [|l rest IH]; simpl; [apply incl_nil_l|].
  destruct (_ || _); [|by apply incl_nil_l].
  destruct (block_after rest indent0) as [body n]. simpl in *.
  destruct (String.eqb _ _).
  - by apply incl_tl.
  - apply incl_cons; [by left|by apply incl_tl].
Qed.

Lemma deeper_incl rest indent0 : incl (Second.deeper rest indent0) rest.
Proof.
  induction rest as [|l rest IH]; simpl; [apply incl_nil_l|].
  destruct (_ <? _); [|by apply incl_nil_l].
  apply incl_cons; [by left|by apply incl_tl].
Qed.

Lemma drop_incl {A} n (l : list A) : incl (drop n l) l.
Proof. intros x Hx. rewrite <- (take_drop n l). apply in_or_app. by right. Qed.

Lemma lookup_In {A} (l : list A) i x : l !! i = Some x -> In x l.
Proof. intros E. apply list_elem_of_In. by eapply list_elem_of_lookup_2. Qed.

Section FirstLines.
Variable H : host.
Variable fuel : nat.

Lemma first_processLine_at lineData vars out lines h :
  always (fun r => at_lines [lineData] (r_steps r))
    (First.processLine H fuel lineData vars out lines h).
Proof.
  destruct (is_code lineData) eqn:Hc.
  - eapply always_impl; [|apply first_processLine_ok]. intros r. by apply line_steps_at.
  - unfold First.processLine. cbv zeta. unfold is_code in Hc.
    destruct (_ || _); [|done]. apply always_ret. constructor.
Qed.

Lemma first_loop_body_at loopBody lines vars out h :
  always (fun r => at_lines loopBody (r_steps r))
    (First.loop_body H fuel loopBody lines vars out h).
Proof.
  revert vars out h. induction loopBody as [|l body IH]; intros vars out h; simpl.
  - constructor.
  - eapply always_bind; [apply first_processLine_at|]. intros r h1 Hr.
    eapply always_bind; [apply IH|]. intros r' h2 Hr'.
    apply always_ret. simpl. apply at_lines_app.
    + eapply at_lines_incl; [|exact Hr]. apply incl_cons; [by left|apply incl_nil_l].
    + eapply at_lines_incl; [|exact Hr']. apply incl_tl, incl_refl.
Qed.

Lemma first_turns_at ls n i len idx iterVar iterable loopBody lines vars out h :
  code_index ls idx -> incl loopBody ls ->
  always (fun r => at_lines ls (r_steps r))
    (First.turns H fuel n i len idx iterVar iterable loopBody lines vars out h).
Proof.
  intros Hidx Hb.
  revert i len vars out h. induction n as [|n IH]; intros i len vars out h; simpl; [done|].
  apply always_bind_any. intros item h1.
  apply always_bind_any. intros snap h2.
  eapply always_bind; [apply first_loop_body_at|]. intros r h3 Hr.
  eapply always_bind with (R := fun r => at_lines ls (r_steps r)).
  - unfold loop_test. apply always_bind_any. intros len' h4.
    destruct (_ <=? _); [apply always_ret; constructor|apply IH].
  - intros r' h4 Hr'. apply always_ret. simpl. constructor; [done|].
    apply at_lines_app; [|done]. by eapply at_lines_incl.
Qed.

Lemma first_iterations_at ls idx iterVar iterable loopBody lines vars out h :
  code_index ls idx -> incl loopBody ls ->
  always (fun r => at_lines ls (r_steps r))
    (First.iterations H fuel idx iterVar iterable loopBody lines vars out h).
Proof.
  intros Hidx Hb. unfold First.iterations, loop_test. apply always_bind_any. intros len h1.
  destruct (len <=? 0); [apply always_ret; constructor|by apply first_turns_at].
Qed.

Lemma first_for_block_at ls lineData forMatch loopBody lines vars out h :
  code_index ls (originalIndex lineData) -> incl loopBody ls ->
  always (fun r => at_lines ls (r_steps r))
    (First.for_block H fuel lineData forMatch loopBody lines vars out h).
Proof.
  intros Hidx Hb. unfold First.for_block. cbv zeta.
  apply always_bind_any. intros iterable h1.
  apply always_bind_any. intros indices h2.
  apply always_bind_any. intros snap h3.
  eapply always_bind; [by apply (first_iterations_at (ls := ls))|]. intros r h4 Hr.
  apply always_bind_any. intros snap' h5. apply always_ret. simpl.
  constructor; [done|]. apply at_lines_app; [done|]. by repeat constructor.
Qed.

Lemma first_def_block_at ls lineData funcMatch body vars out h :
  code_index ls (originalIndex lineData) ->
  always (fun r => at_lines ls (r_steps r))
    (First.def_block lineData funcMatch body vars out h).
Proof. intros Hidx. unfold First.def_block. wp. by repeat constructor. Qed.

Lemma first_turn_at lines i lineData vars out h :
  lines !! i = Some lineData ->
  always (fun p => at_lines lines (r_steps (fst p)) /\ i < snd p)
    (First.turn H fuel lines i lineData vars out h).
Proof.
  intros Hi. unfold First.turn. cbv zeta.
  pose proof (block_after_incl (drop (S i) lines) (indent lineData)) as Hb.
  destruct (block_after _ _) as [body passed]. simpl in Hb.
  assert (incl body lines) as Hb' by (eapply incl_tran; [exact Hb|apply drop_incl]).
  destruct (_ || _) eqn:Hc; [apply always_ret; split; [constructor|simpl; lia]|].
  assert (code_index lines (originalIndex lineData)) as Hidx.
  { exists lineData. split; [by eapply lookup_In|]. split; [|done].
    unfold is_code. by rewrite Hc. }
  destruct (if Str.startsWith _ "for " then _ else _).
  { eapply always_bind; [by apply (first_for_block_at (ls := lines))|].
    intros r h1 Hr. apply always_ret. split; [done|simpl; lia]. }
  destruct (if Str.startsWith _ "def " then _ else _).
  { eapply always_bind; [by apply (first_def_block_at (ls := lines))|].
    intros r h1 Hr. apply always_ret. split; [done|simpl; lia]. }
  eapply always_bind; [apply first_processLine_at|]. intros r h1 Hr.
  apply always_ret. split; [|simpl; lia]. simpl.
  eapply at_lines_incl; [|exact Hr]. apply incl_cons; [by eapply lookup_In|apply incl_nil_l].
Qed.

Lemma first_main_loop_at n lines i vars out h :
  always (at_lines lines) (First.main_loop H fuel n lines i vars out h).
Proof.
  revert i vars out h. induction n as [|n IH]; intros i vars out h; simpl; [constructor|].
  destruct (lines !! i) as [lineData|] eqn:Hi; [|constructor].
  eapply always_bind; [by apply first_turn_at|]. intros [r next] h1 [Hr _]. simpl in Hr.
  eapply always_bind; [apply IH|]. intros rest h2 Hrest. apply always_ret.
  by apply at_lines_app.
Qed.


End FirstLines.

Section SecondLines.
Variable H : host.
Variable fuel : nat.

Lemma second_processLine_at lineData vars out h :
  always (fun r => at_lines [lineData] (r_steps r))
    (Second.processLine H lineData vars out h).
Proof.
  destruct (is_code lineData) eqn:Hc.
  - eapply always_impl; [|apply second_processLine_ok]. intros r. by apply line_steps_at.
  - unfold Second.processLine. cbv zeta. unfold is_code in Hc.
    destruct (_ || _); [|done]. apply always_ret. constructor.
Qed.

Lemma second_block_at body vars out h :
  always (fun r => at_lines body (r_steps r)) (Second.block H body vars out h).
Proof.
  revert vars out h. induction body as [|l body IH]; intros vars out h; simpl.
  - constructor.
  - eapply always_bind; [apply second_processLine_at|]. intros r h1 Hr.
    eapply always_bind; [apply IH|]. intros r' h2 Hr'.
    apply always_ret. simpl. apply at_lines_app.
    + eapply at_lines_incl; [|exact Hr]. apply incl_cons; [by left|apply incl_nil_l].
    + eapply at_lines_incl; [|exact Hr']. apply incl_tl, incl_refl.
Qed.

Lemma second_turns_at ls n i len idx iterVar iterable loopBody vars out h :
  code_index ls idx -> incl loopBody ls ->
  always (fun r => at_lines ls (r_steps r))
    (Second.turns H n i len idx iterVar iterable loopBody vars out h).
Proof.
  intros Hidx Hb.
  revert i len vars out h. induction n as [|n IH]; intros i len vars out h; simpl; [done|].
  apply always_bind_any. intros item h1.
  apply always_bind_any. intros snap h2.
  eapply always_bind; [apply second_block_at|]. intros r h3 Hr.
  eapply always_bind with (R := fun r => at_lines ls (r_steps r)).
  - unfold loop_test. apply always_bind_any. intros len' h4.
    destruct (_ <=? _); [apply always_ret; constructor|apply IH].
  - intros r' h4 Hr'. apply always_ret. simpl. constructor; [done|].
    apply at_lines_app; [|done]. by eapply at_lines_incl.
Qed.

Lemma second_iterations_at ls idx iterVar iterable loopBody vars out h :
  code_index ls idx -> incl loopBody ls ->
  always (fun r => at_lines ls (r_steps r))
    (Second.iterations H fuel idx iterVar iterable loopBody vars out h).
Proof.
  intros Hidx Hb. unfold Second.iterations, loop_test. apply always_bind_any. intros len h1.
  destruct (len <=? 0); [apply always_ret; constructor|by apply second_turns_at].
Qed.

Lemma second_for_block_at ls lineData forMatch loopBody vars out h :
  code_index ls (originalIndex lineData) -> incl loopBody ls ->
  always (fun r => at_lines ls (r_steps r))
    (Second.for_block H fuel lineData forMatch loopBody vars out h).
Proof.
  intros Hidx Hb. unfold Second.for_block. cbv zeta.
  apply always_bind_any. intros iterable h1.
  apply always_bind_any. intros indices h2.
  apply always_bind_any. intros snap h3.
  eapply always_bind; [by apply (second_iterations_at (ls := ls))|]. intros r h4 Hr.
  apply always_bind_any. intros snap' h5. apply always_ret. simpl.
  constructor; [done|]. apply at_lines_app; [done|]. by repeat constructor.
Qed.

Lemma second_control_block_at ls lineData body vars out h :
  code_index ls (originalIndex lineData) -> incl body ls ->
  always (fun r => at_lines ls (r_steps r))
    (Second.control_block H lineData body vars out h).
Proof.
  intros Hidx Hb. unfold Second.control_block. cbv zeta.
  apply always_bind_any. intros snap h1.
  eapply always_bind; [apply second_block_at|]. intros r h2 Hr.
  apply always_bind_any. intros snap' h3. apply always_ret. simpl.
  constructor; [done|]. apply at_lines_app; [by eapply at_lines_incl|]. by repeat constructor.
Qed.

Lemma second_turn_at lines i lineData vars out h :
  lines !! i = Some lineData ->
  always (fun p => at_lines lines (r_steps (fst p)) /\ i < snd p)
    (Second.turn H fuel lines i lineData vars out h).
Proof.
  intros Hi. unfold Second.turn. cbv zeta.
  pose proof (deeper_incl (drop (S i) lines) (indent lineData)) as Hb.
  assert (incl (Second.deeper (drop (S i) lines) (indent lineData)) lines) as Hb'
    by (eapply incl_tran; [exact Hb|apply drop_incl]).
  destruct (_ || _) eqn:Hc; [apply always_ret; split; [constructor|simpl; lia]|].
  assert (code_index lines (originalIndex lineData)) as Hidx.
  { exists lineData. split; [by eapply lookup_In|]. split; [|done].
    unfold is_code. by rewrite Hc. }
  destruct (if Str.startsWith _ "for " then _ else _).
  { eapply always_bind; [by apply (second_for_block_at (ls := lines))|].
    intros r h1 Hr. apply always_ret. split; [done|simpl; lia]. }
  destruct (Str.endsWith _ _).
  { eapply always_bind; [by apply (second_control_block_at (ls := lines))|].
    intros r h1 Hr. apply always_ret. split; [done|simpl; lia]. }
  eapply always_bind; [apply second_processLine_at|]. intros r h1 Hr.
  apply always_ret. split; [|simpl; lia]. simpl.
  eapply at_lines_incl; [|exact Hr]. apply incl_cons; [by eapply lookup_In|apply incl_nil_l].
Qed.

Lemma second_main_loop_at n lines i vars out h :
  always (at_lines lines) (Second.main_loop H fuel n lines i vars out h).
Proof.
  revert i vars out h. induction n as [|n IH]; intros i vars out h; simpl; [constructor|].
  destruct (lines !! i) as [lineData|] eqn:Hi; [|constructor].
  eapply always_bind; [by apply second_turn_at|]. intros [r next] h1 [Hr _]. simpl in Hr.
  eapply always_bind; [apply IH|]. intros rest h2 Hrest. apply always_ret.
  by apply at_lines_app.
Qed.


End SecondLines.

Lemma make_lines_lookup codeString i l :
  make_lines codeString !! i = Some l -> originalIndex l = i.
Proof.
  unfold make_lines. rewrite list_lookup_imap.
  destruct (_ !! i); simpl; [|done]. by intros [= <-].
Qed.

Lemma make_lines_code_index codeString n :
  code_index (make_lines codeString) n ->
  exists l, make_lines codeString !! n = Some l /\ is_code l = true.
Proof.
  intros (l & Hl & Hc & Hn). apply list_elem_of_In, list_elem_of_lookup_1 in Hl as [i Hi].
  apply make_lines_lookup in Hi as Ho. exists l. split; [|done]. congruence.
Qed.

(** X10. Every step of a trace of either implementation is recorded at a
    line of the program, and that line is neither blank nor a comment. *)
Theorem steps_point_at_code (H : host) (fuel : nat) (codeString : string)
    (steps : list step) (h : heap) (s : step) :
  First.parseCode H fuel codeString [] = Ok steps h
  \/ Second.parseCode H fuel codeString [] = Ok steps h ->
  In s steps ->
  exists l, make_lines codeString !! s_line s = Some l /\ is_code l = true.
Proof.
  intros E Hs. apply make_lines_code_index.
  assert (at_lines (make_lines codeString) steps) as A.
  { destruct E as [E|E].
    - eapply always_ok; [apply first_main_loop_at|exact E].
    - eapply always_ok; [apply second_main_loop_at|exact E]. }
  unfold at_lines in A. rewrite List.Forall_forall in A. by apply A.
Qed.

Lemma steps_point_at_code_witness :
  exists steps h s,
    Second.parseCode Mini.mini_host 0 (script ["# squares"; ""; "x = 3"; "print(x * x)"]) []
      = Ok steps h
    /\ steps !! 1 = Some s
    /\ exists l, make_lines (script ["# squares"; ""; "x = 3"; "print(x * x)"]) !! s_line s
                 = Some l /\ is_code l = true.
Proof.
  eexists; eexists; eexists.
  split; [vm_compute; reflexivity|]. split; [reflexivity|].
  refine (@steps_point_at_code Mini.mini_host 0
            (script ["# squares"; ""; "x = 3"; "print(x * x)"]) _ _ _ _ _);
    [right; vm_compute; reflexivity|right; left; reflexivity].
Defined.



(** *** The turns of a loop *)

Lemma iteration_steps_app ss ss' :
  iteration_steps (ss ++ ss') = iteration_steps ss ++ iteration_steps ss'.
Proof. apply List.filter_app. Qed.

Lemma line_steps_no_iteration allowed lineData out r :
  ~ In for_loop_iteration allowed -> line_steps_ok allowed lineData out r ->
  iteration_steps (r_steps r) = [].
Proof.
  intros Hn. unfold line_steps_ok, iteration_steps.
  destruct (r_steps r) as [|s [|? ?]]; [done| |done].
  intros (_ & _ & Hs). simpl. unfold has_action.
  destruct (s_action s); try done. destruct Hs as [[? _]|[Hs _]]; [done|]. by destruct Hn.
Qed.

Lemma first_actions_no_iteration k : ~ In for_loop_iteration (first_actions k).
Proof. destruct k; simpl; intuition discriminate. Qed.

Lemma second_actions_no_iteration k : ~ In for_loop_iteration (second_actions k).
Proof. destruct k; simpl; intuition discriminate. Qed.

Lemma turns_over_drop items i item :
  items !! i = Some item ->
  drop i (turns_over items)
  = (Some item, Some (VNum (Z.of_nat i)), Some (VNum (Z.of_nat (length items))))
    :: drop (S i) (turns_over items).
Proof.
  intros Hi. unfold turns_over.
  apply drop_S. by rewrite list_lookup_imap, Hi.
Qed.

Lemma string_items_length s : length (string_items s) = Str.len s.
Proof. unfold string_items, Str.len. apply length_map. Qed.

Section FirstTurns.
Variable H : host.
Variable fuel : nat.

Lemma first_loop_body_no_iteration loopBody lines vars out h :
  always (fun r => iteration_steps (r_steps r) = [])
    (First.loop_body H fuel loopBody lines vars out h).
Proof.
  revert vars out h. induction loopBody as [|l body IH]; intros vars out h; simpl; [done|].
  eapply always_bind with (R := fun r => iteration_steps (r_steps r) = []).
  - eapply always_impl; [|apply first_processLine_ok]. intros r.
    apply line_steps_no_iteration, first_actions_no_iteration.
  - intros r h1 Hr. eapply always_bind; [apply IH|]. intros r' h2 Hr'.
    apply always_ret. simpl. by rewrite iteration_steps_app, Hr, Hr'.
Qed.

Lemma first_turns_string n i idx iterVar s loopBody lines vars out h :
  i < Str.len s ->
  always (fun r => map turn_fields (iteration_steps (r_steps r))
                   = drop i (turns_over (string_items s)))
    (First.turns H fuel n i (Str.len s) idx iterVar (VStr s) loopBody lines vars out h).
Proof.
  revert i vars out h. induction n as [|n IH]; intros i vars out h Hi; simpl; [done|].
  destruct (string_items s !! i) as [item|] eqn:Ei;
    [|apply lookup_ge_None in Ei; rewrite string_items_length in Ei; lia].
  unfold bind at 1. simpl.
  apply always_bind_any. intros snap h2.
  eapply always_bind; [apply first_loop_body_no_iteration|]. intros r h3 Hr.
  eapply always_bind
    with (R := fun r' => map turn_fields (iteration_steps (r_steps r'))
                         = drop (S i) (turns_over (string_items s))).
  - unfold loop_test. unfold bind at 1. simpl.
    destruct (Str.len s <=? S i) eqn:El.
    + apply always_ret. simpl. rewrite drop_ge; [done|].
      unfold turns_over. rewrite length_imap, string_items_length.
      apply Nat.leb_le in El. lia.
    + apply IH. apply Nat.leb_gt in El. lia.
  - intros r' h4 Hr'. apply always_ret. simpl.
    change (iteration_steps (?x :: ?l)) with (x :: iteration_steps l).
    rewrite iteration_steps_app, Hr. simpl. rewrite Hr'.
    rewrite (turns_over_drop _ _ Ei). by rewrite string_items_length.
Qed.

Lemma first_iterations_string idx iterVar s loopBody lines vars out h :
  always (fun r => map turn_fields (iteration_steps (r_steps r))
                   = turns_over (string_items s))
    (First.iterations H fuel idx iterVar (VStr s) loopBody lines vars out h).
Proof.
  unfold First.iterations, loop_test. unfold bind. simpl.
  destruct (Str.len s <=? 0) eqn:El.
  - simpl. apply Nat.leb_le in El. unfold string_items, Str.len in *.
    destruct (Str.chars s); [done|simpl in El; lia].
  - apply (first_turns_string fuel (i := 0)). apply Nat.leb_gt in El. lia.
Qed.

End FirstTurns.

Section SecondTurns.
Variable H : host.
Variable fuel : nat.

Lemma second_block_no_iteration body vars out h :
  always (fun r => iteration_steps (r_steps r) = []) (Second.block H body vars out h).
Proof.
  revert vars out h. induction body as [|l body IH]; intros vars out h; simpl; [done|].
  eapply always_bind with (R := fun r => iteration_steps (r_steps r) = []).
  - eapply always_impl; [|apply second_processLine_ok]. intros r.
    apply line_steps_no_iteration, second_actions_no_iteration.
  - intros r h1 Hr. eapply always_bind; [apply IH|]. intros r' h2 Hr'.
    apply always_ret. simpl. by rewrite iteration_steps_app, Hr, Hr'.
Qed.

Lemma second_turns_string n i idx iterVar s loopBody vars out h :
  i < Str.len s ->
  always (fun r => map turn_fields (iteration_steps (r_steps r))
                   = drop i (turns_over (string_items s)))
    (Second.turns H n i (Str.len s) idx iterVar (VStr s) loopBody vars out h).
Proof.
  revert i vars out h. induction n as [|n IH]; intros i vars out h Hi; simpl; [done|].
  destruct (string_items s !! i) as [item|] eqn:Ei;
    [|apply lookup_ge_None in Ei; rewrite string_items_length in Ei; lia].
  unfold bind at 1. simpl.
  apply always_bind_any. intros snap h2.
  eapply always_bind; [apply second_block_no_iteration|]. intros r h3 Hr.
  eapply always_bind
    with (R := fun r' => map turn_fields (iteration_steps (r_steps r'))
                         = drop (S i) (turns_over (string_items s))).
  - unfold loop_test. unfold bind at 1. simpl.
    destruct (Str.len s <=? S i) eqn:El.
    + apply always_ret. simpl. rewrite drop_ge; [done|].
      unfold turns_over. rewrite length_imap, string_items_length.
      apply Nat.leb_le in El. lia.
    + apply IH. apply Nat.leb_gt in El. lia.
  - intros r' h4 Hr'. apply always_ret. simpl.
    change (iteration_steps (?x :: ?l)) with (x :: iteration_steps l).
    rewrite iteration_steps_app, Hr. simpl. rewrite Hr'.
    rewrite (turns_over_drop _ _ Ei). by rewrite string_items_length.
Qed.

Lemma second_iterations_string idx iterVar s loopBody vars out h :
  always (fun r => map turn_fields (iteration_steps (r_steps r))
                   = turns_over (string_items s))
    (Second.iterations H fuel idx iterVar (VStr s) loopBody vars out h).
Proof.
  unfold Second.iterations, loop_test. unfold bind. simpl.
  destruct (Str.len s <=? 0) eqn:El.
  - simpl. apply Nat.leb_le in El. unfold string_items, Str.len in *.
    destruct (Str.chars s); [done|simpl in El; lia].
  - apply (second_turns_string fuel (i := 0)). apply Nat.leb_gt in El. lia.
Qed.

End SecondTurns.

(** X12. A loop over a string takes one turn for each of its characters,
    whatever its body does: the [for_loop_iteration] steps it records are,
    in order, one for each character, with the character as
    [currentValue], its position as [iterationIndex] and the length of the
    string as [totalIterations]. *)
Theorem string_loop_turns (H : host) (fuel : nat) (originalIndex : nat) (iterVar s : string)
    (loopBody lines : list line) (variables : env) (output : list string) (h : heap)
    (r : result) (h' : heap) :
  First.iterations H fuel originalIndex iterVar (VStr s) loopBody lines variables output h
    = Ok r h'
  \/ Second.iterations H fuel originalIndex iterVar (VStr s) loopBody variables output h
     = Ok r h' ->
  map turn_fields (iteration_steps (r_steps r)) = turns_over (string_items s).
Proof.
  intros [E|E].
  - pose proof (first_iterations_string H fuel originalIndex iterVar s loopBody lines
                  variables output h) as A.
    by rewrite E in A.
  - pose proof (second_iterations_string H fuel originalIndex iterVar s loopBody
                  variables output h) as A.
    by rewrite E in A.
Qed.

Lemma string_loop_turns_witness :
  exists r h',
    First.iterations Mini.mini_host 2 0 "c" (VStr "ab") [make_line 1 "  print(c)"] [] [] [] []
      = Ok r h'
    /\ map turn_fields (iteration_steps (r_steps r)) = turns_over (string_items "ab").
Proof.
  eexists; eexists. split; [vm_compute; reflexivity|].
  refine (@string_loop_turns Mini.mini_host 2 0 "c" "ab" [make_line 1 "  print(c)"] [] [] []
            [] _ _ _).
  left; vm_compute; reflexivity.
Defined.

(** *** The values of a comprehension *)

Section Comprehension.
Variable H : host.
Variable fuel : nat.

Lemma comprehension_turns_string n i s vars iterVar expr condition acc h :
  i < Str.len s ->
  always (fun items =>
            length items <= length acc + (Str.len s - i)
            /\ (unconditional condition = true ->
                length items = length acc + (Str.len s - i)))
    (First.comprehension_turns H n i (VStr s) vars iterVar expr condition acc h).
Proof.
  revert i acc h. induction n as [|n IH]; intros i acc h Hi; simpl; [done|].
  unfold bind at 1. simpl.
  eapply always_bind
    with (R := fun keep : bool => unconditional condition = true -> keep = true).
  { destruct condition as [c|]; simpl; [|done].
    destruct (String.eqb c ""); simpl; [done|]. wp. done. }
  intros keep h1 Hk.
  eapply always_bind
    with (R := fun acc' : list value =>
                 length acc' <= S (length acc)
                 /\ (unconditional condition = true -> length acc' = S (length acc))).
  { destruct keep.
    - wp. rewrite length_app. simpl. lia.
    - apply always_ret. split; [lia|]. intros U. by specialize (Hk U). }
  intros acc' h2 [Hle Heq].
  unfold loop_test. unfold bind at 1. simpl.
  destruct (Str.len s <=? S i) eqn:El.
  - apply always_ret. apply Nat.leb_le in El. split; [lia|].
    intros U. rewrite (Heq U). lia.
  - apply Nat.leb_gt in El. eapply always_impl; [|apply IH; lia].
    intros items [Hle' Heq']. split; [lia|]. intros U. rewrite (Heq' U), (Heq U). lia.
Qed.

Lemma comprehension_loop_string s vars iterVar expr condition h :
  always (fun items =>
            length items <= Str.len s
            /\ (unconditional condition = true -> length items = Str.len s))
    (First.comprehension_loop H fuel (VStr s) vars iterVar expr condition h).
Proof.
  unfold First.comprehension_loop, loop_test. unfold bind. simpl.
  destruct (Str.len s <=? 0) eqn:El.
  - simpl. apply Nat.leb_le in El. split; [lia|]. intros _. lia.
  - apply Nat.leb_gt in El.
    eapply always_impl; [|apply (@comprehension_turns_string fuel 0); lia].
    intros items [Hle Heq]. simpl in *. split; [lia|]. intros U. rewrite (Heq U). lia.
Qed.

End Comprehension.

(** X13. A list comprehension over a string yields at most one value for
    each character, and exactly one for each when it has no condition,
    whatever the expression evaluates to. *)
Theorem comprehension_over_a_string (H : host) (fuel : nat) (s : string) (variables : env)
    (iterVar expr : string) (condition : option string) (h : heap) (items : list value)
    (h' : heap) :
  First.comprehension_loop H fuel (VStr s) variables iterVar expr condition h = Ok items h' ->
  length items <= Str.len s
  /\ (unconditional condition = true -> length items = Str.len s).
Proof.
  intros E.
  pose proof (comprehension_loop_string H fuel s variables iterVar expr condition h) as A.
  by rewrite E in A.
Qed.

Lemma comprehension_over_a_string_witness :
  exists items h',
    First.comprehension_loop Mini.mini_host 3 (VStr "abc") [] "c" "c + c" None [] = Ok items h'
    /\ length items <= Str.len "abc"
    /\ (unconditional None = true -> length items = Str.len "abc").
Proof.
  eexists; eexists. split; [vm_compute; reflexivity|].
  refine (@comprehension_over_a_string Mini.mini_host 3 "abc" [] "c" "c + c" None [] _ _ _).
  vm_compute; reflexivity.
Defined.

(** *** What a snapshot reads as *)

Lemma finite_mono n m h v : n <= m -> finite n h v = true -> finite m h v = true.
Proof.
  revert m v. induction n as [|n IH]; intros m v Hm; destruct v; simpl; try done;
    try (by destruct m).
  destruct m as [|m]; [lia|]. simpl. destruct (h !! l) as [o|]; [|done].
  rewrite !forallb_forall. intros F v Hv. apply IH; [lia|]. by apply F.
Qed.

Lemma finite_kid n h l o v :
  finite n h (VRef l) = true -> h !! l = Some o -> In v (children o) ->
  exists n', n = S n' /\ finite n' h v = true.
Proof.
  destruct n as [|n]; simpl; [done|]. intros F Hl Hv. rewrite Hl in F.
  exists n. split; [done|].
  rewrite forallb_forall in F. by apply F.
Qed.

Lemma finite_reach n h v l : finite n h v = true -> reach h v l -> finite n h (VRef l) = true.
Proof.
  intros F R. revert n F. induction R as [l|l o v l' Hl Hv R IH]; intros n F; [done|].
  destruct (@finite_kid n h l o v F Hl Hv) as (n' & -> & F').
  apply (@finite_mono n'); [lia|]. by apply IH.
Qed.

Lemma circular_not_finite n h l : circular h l -> finite n h (VRef l) = false.
Proof.
  intros (o & v & Hl & Hv & R). induction n as [|n IH]; [done|].
  destruct (finite (S n) h (VRef l)) eqn:F; [|done].
  destruct (@finite_kid (S n) h l o v F Hl Hv) as (n' & [= <-] & F').
  pose proof (@finite_reach n h v l F' R). congruence.
Qed.

Lemma deep_finite n m h v : finite n h v = true -> n <= m -> deep m h v = deep n h v.
Proof.
  revert m v. induction n as [|n IH]; intros m v F Hm; destruct v; simpl in *;
    try done; try (by destruct m).
  destruct m as [|m]; [lia|]. simpl. destruct (h !! l) as [o|]; [|done].
  rewrite forallb_forall in F. destruct o as [els|fs|name params body closure]; simpl in F.
  - f_equal. apply map_ext_in. intros v Hv. apply IH; [by apply F|lia].
  - f_equal. apply map_ext_in. intros [k v] Hv. simpl. f_equal.
    apply IH; [|lia]. apply F. apply in_map_iff. by exists (k, v).
  - f_equal. apply IH; [|lia]. apply F. by left.
Qed.

(** A chain of [S n] objects below an object that no shorter chain
    exhausts *)
Lemma finite_chain h n l :
  finite (S n) h (VRef l) = true -> finite n h (VRef l) = false ->
  exists ls, length ls = S n /\ NoDup ls
    /\ Forall (fun l' => l' < length h /\ finite (S n) h (VRef l') = true) ls.
Proof.
  revert l. induction n as [|n IH]; intros l F Fn.
  - exists [l]. split; [done|]. split; [apply NoDup_singleton|].
    constructor; [|constructor]. split; [|done].
    simpl in F. destruct (h !! l) eqn:E; [|done]. by apply lookup_lt_Some in E.
  - assert (exists o, h !! l = Some o) as [o Hl].
    { simpl in F. destruct (h !! l); [eauto|done]. }
    assert (forallb (finite (S n) h) (children o) = true) as Fk
      by (change (finite (S (S n)) h (VRef l)) with
            (match h !! l with Some o => forallb (finite (S n) h) (children o)
                             | None => false end) in F; by rewrite Hl in F).
    assert (forallb (finite n h) (children o) = false) as Fk'
      by (change (finite (S n) h (VRef l)) with
            (match h !! l with Some o => forallb (finite n h) (children o)
                             | None => false end) in Fn; by rewrite Hl in Fn).
    assert (exists v, In v (children o) /\ finite n h v = false) as (v & Hv & Fv).
    { clear -Fk'. induction (children o) as [|v vs IHv]; [done|].
      simpl in Fk'. destruct (finite n h v) eqn:E.
      - destruct IHv as (v' & ? & ?); [done|]. exists v'. split; [by right|done].
      - exists v. split; [by left|done]. }
    rewrite forallb_forall in Fk. specialize (Fk v Hv).
    destruct v as [| | | | | |l2]; try (by destruct n).
    destruct (IH l2 Fk Fv) as (ls & Hlen & Hnd & Hall).
    exists (l :: ls). split; [simpl; lia|]. split.
    + apply NoDup_cons. split; [|done]. intros Hin.
      rewrite Forall_forall in Hall. apply Hall in Hin as [_ Hin]. congruence.
    + constructor.
      * split; [by apply lookup_lt_Some in Hl|done].
      * eapply Forall_impl; [exact Hall|]. intros l' [? ?]. split; [done|].
        by apply (@finite_mono (S n)); [lia|].
Qed.

Lemma chain_bound (ls : list nat) N :
  NoDup ls -> Forall (fun l => l < N) ls -> length ls <= N.
Proof.
  intros Hnd Hall. transitivity (length (seq 0 N)); [|by rewrite length_seq].
  apply submseteq_length.
  apply NoDup_submseteq; [done|]. intros x Hx. rewrite Forall_forall in Hall.
  apply elem_of_seq. specialize (Hall x Hx). lia.
Qed.

(** No chain of distinct objects is longer than the heap. *)
Lemma finite_heap n h v : finite n h v = true -> finite (length h) h v = true.
Proof.
  destruct v as [| | | | | |l]; try (by destruct (length h)).
  induction n as [|n IH]; [done|]. intros F.
  destruct (finite n h (VRef l)) eqn:Fn; [by apply IH|].
  destruct (@finite_chain h n l F Fn) as (ls & Hlen & Hnd & Hall).
  apply (@finite_mono (S n)); [|done]. rewrite <- Hlen. apply chain_bound; [done|].
  eapply Forall_impl; [exact Hall|]. by intros l' [? _].
Qed.

Lemma finite_scalar n h v : (forall l, v <> VRef l) -> finite n h v = true.
Proof. intros Hv. destruct v; try (by destruct n). by destruct (Hv l). Qed.

Lemma copy_elems_finite copy n h0 els :
  (forall v h r, copy v h = Some r -> finite n h0 v = true) ->
  forall h r, copy_elems copy els h = Some r -> forallb (finite n h0) els = true.
Proof.
  intros Hc. induction els as [|e els IH]; simpl; intros h r E; [done|].
  destruct (copy e h) as [[e' h1]|] eqn:E1; [|discriminate].
  destruct (copy_elems copy els h1) as [[r1 h2]|] eqn:E2; [|discriminate].
  apply andb_true_iff. split; [by eapply Hc|by eapply IH].
Qed.

Lemma copy_fields_finite copy n h0 fs :
  (forall v h r, copy v h = Some r -> finite n h0 v = true) ->
  forall h r, copy_fields copy fs h = Some r ->
    forallb (finite n h0) (map snd fs) = true.
Proof.
  intros Hc. induction fs as [|[k v] fs IH]; simpl; intros h r E; [done|].
  apply andb_true_iff.
  assert (Hgen : match copy v h with
                 | Some (v', h1) =>
                     match copy_fields copy fs h1 with
                     | Some (r, h2) => Some ((k, v') :: r, h2)
                     | None => None
                     end
                 | None => None
                 end = Some r ->
                 finite n h0 v = true /\ forallb (finite n h0) (map snd fs) = true).
  { intros E'. destruct (copy v h) as [[e' h1]|] eqn:E1; [|discriminate].
    destruct (copy_fields copy fs h1) as [[r1 h2]|] eqn:E2; [|discriminate].
    split; [by eapply Hc|by eapply IH]. }
  destruct v; try (by apply Hgen).
  split; [by destruct n|by eapply IH].
Qed.

Lemma copy_value_finite d h0 v h r : copy_value d h0 v h = Some r -> finite d h0 v = true.
Proof.
  revert v h r. induction d as [|d IH]; intros v h r E; simpl in E; [discriminate|].
  destruct v; try done. simpl.
  destruct (h0 !! l) as [[els|fs|name params body closure]|]; [| | |discriminate]; simpl.
  - destruct (copy_elems _ els h) as [[els' h1]|] eqn:E1; [|discriminate].
    by eapply copy_elems_finite.
  - destruct (copy_fields _ fs h) as [[fs' h1]|] eqn:E1; [|discriminate].
    by eapply copy_fields_finite.
  - destruct (copy_value d h0 closure h) as [[c' h1]|] eqn:E1; [|discriminate].
    apply andb_true_iff. split; [by eapply IH|done].
Qed.

Lemma val_in_below lo hi m v : val_in lo hi v -> hi <= m -> val_below m v.
Proof. destruct v; simpl; try done. lia. Qed.

Lemma copy_elems_reads copy n h0 els :
  copies copy -> reads_as copy n h0 ->
  forall h els' h', copy_elems copy els h = Some (els', h') ->
  forall m e, length h' <= m ->
    map (deep m (h' ++ e)) els' = map jsonify (map (deep n h0) els).
Proof.
  intros Hc Hr. induction els as [|x els IH]; simpl; intros h els' h' E m e Hm.
  - by injection E as <- <-.
  - destruct (copy x h) as [[x' h1]|] eqn:E1; [|discriminate].
    destruct (copy_elems copy els h1) as [[r h2]|] eqn:E2; [|discriminate].
    injection E as <- <-. simpl.
    pose proof (Hc _ _ _ _ E1) as (e1 & -> & _ & V1).
    pose proof (@copy_elems_appended copy els Hc _ _ _ E2) as (e2 & -> & _ & _).
    f_equal.
    + rewrite <- app_assoc. apply (Hr _ _ _ _ E1).
      eapply val_in_below; [exact V1|]. rewrite !length_app in *. lia.
    + by eapply IH.
Qed.

Lemma copy_fields_reads copy n h0 fs :
  copies copy -> reads_as copy n h0 ->
  forall h fs' h', copy_fields copy fs h = Some (fs', h') ->
  forall m e, length h' <= m ->
    map (fun p => (fst p, deep m (h' ++ e) (snd p))) fs'
    = json_members jsonify (map (fun p => (fst p, deep n h0 (snd p))) fs).
Proof.
  intros Hc Hr. induction fs as [|[k v] fs IH]; simpl; intros h fs' h' E m e Hm.
  - by injection E as <- <-.
  - assert (Hgen : v <> VUndef ->
                   match copy v h with
                   | Some (v', h1) =>
                       match copy_fields copy fs h1 with
                       | Some (r, h2) => Some ((k, v') :: r, h2)
                       | None => None
                       end
                   | None => None
                   end = Some (fs', h') ->
                   map (fun p => (fst p, deep m (h' ++ e) (snd p))) fs'
                   = (k, jsonify (deep n h0 v))
                     :: json_members jsonify (map (fun p => (fst p, deep n h0 (snd p))) fs)).
    { intros Hv E'. destruct (copy v h) as [[v' h1]|] eqn:E1; [|discriminate].
      destruct (copy_fields copy fs h1) as [[r h2]|] eqn:E2; [|discriminate].
      injection E' as <- <-. simpl.
      pose proof (Hc _ _ _ _ E1) as (e1 & -> & _ & V1).
      pose proof (@copy_fields_appended copy fs Hc _ _ _ E2) as (e2 & -> & _ & _).
      f_equal.
      - f_equal. rewrite <- app_assoc. apply (Hr _ _ _ _ E1).
        eapply val_in_below; [exact V1|]. rewrite !length_app in *. lia.
      - by eapply IH. }
    destruct v as [| | | | | |l]; try (rewrite Hgen; [by destruct n|done|done]).
    + replace (deep n h0 VUndef) with TUndef by (by destruct n). by eapply IH.
    + rewrite Hgen; [|done|done]. destruct n as [|n]; [done|]. simpl.
      by destruct (h0 !! l) as [[?|?|? ? ? ?]|].
Qed.

Lemma copy_value_reads d h0 n : d <= n -> reads_as (copy_value d h0) n h0.
Proof.
  revert n. induction d as [|d IH]; intros n Hn v h v' h' E m e Hm; simpl in E;
    [discriminate|].
  destruct n as [|n]; [lia|].
  destruct v as [| | | | | |l];
    try (injection E as <- <-; by destruct m).
  destruct (h0 !! l) as [[els|fs|name params body closure]|] eqn:El; [| | |discriminate].
  - destruct (copy_elems _ els h) as [[els' h1]|] eqn:E1; [|discriminate].
    injection E as <- <-. simpl in Hm. destruct m as [|m]; [lia|].
    simpl. rewrite El. rewrite <- app_assoc.
    rewrite lookup_app_r, Nat.sub_diag by lia. simpl. f_equal.
    eapply copy_elems_reads; [apply copy_value_copies|apply IH; lia|exact E1|lia].
  - destruct (copy_fields _ fs h) as [[fs' h1]|] eqn:E1; [|discriminate].
    injection E as <- <-. simpl in Hm. destruct m as [|m]; [lia|].
    simpl. rewrite El. rewrite <- app_assoc.
    rewrite lookup_app_r, Nat.sub_diag by lia. simpl. f_equal.
    eapply copy_fields_reads; [apply copy_value_copies|apply IH; lia|exact E1|lia].
  - destruct (copy_value d h0 closure h) as [[c' h1]|] eqn:E1; [|discriminate].
    injection E as <- <-. simpl in Hm. destruct m as [|m]; [lia|].
    simpl. rewrite El. rewrite <- app_assoc.
    rewrite lookup_app_r, Nat.sub_diag by lia. simpl. f_equal.
    apply (IH n ltac:(lia) _ _ _ _ E1).
    pose proof (@copy_value_copies d h0 _ _ _ _ E1) as (e1 & -> & _ & V1).
    eapply val_in_below; [exact V1|]. lia.
Qed.

Lemma json_copy_reads (variables : env) (h : heap) (snap : value) (h' : heap) :
  json_copy variables h = Ok snap h' ->
  view h' snap = jsonify (TObj (map (fun p => (fst p, view h (snd p))) variables)).
Proof.
  unfold json_copy. intros E.
  destruct (copy_fields _ variables h) as [[fs h1]|] eqn:E1; [|discriminate].
  injection E as <- <-. unfold view. rewrite length_app. simpl length.
  replace (length h1 + 1) with (S (length h1)) by lia. simpl.
  rewrite lookup_app_r, Nat.sub_diag by lia. simpl. f_equal.
  assert (reads_as (copy_value (S (length h)) h) (S (length h)) h) as R
    by (apply copy_value_reads; lia).
  rewrite (@copy_fields_reads _ _ _ variables (@copy_value_copies _ _) R _ _ _ E1
             (length h1) [OObj fs] ltac:(lia)).
  pose proof (@copy_fields_finite (copy_value (S (length h)) h) (S (length h)) h variables
                (fun v h2 r => @copy_value_finite _ _ v h2 r) _ _ E1) as F.
  rewrite forallb_forall in F.
  assert (forall p, In p variables -> deep (S (length h)) h (snd p) = deep (length h) h (snd p))
    as D.
  { intros p Hp. apply deep_finite; [|lia]. eapply finite_heap, F. by apply in_map. }
  f_equal. apply map_ext_in. intros p Hp. by rewrite D.
Qed.

Lemma json_copy_finite vars h snap h' :
  json_copy vars h = Ok snap h' ->
  forall p, In p vars -> finite (length h) h (snd p) = true.
Proof.
  unfold json_copy. intros E.
  destruct (copy_fields _ vars h) as [[fs h1]|] eqn:E1; [|discriminate].
  pose proof (@copy_fields_finite (copy_value (S (length h)) h) (S (length h)) h vars
                (fun v h2 r => @copy_value_finite _ _ v h2 r) _ _ E1) as F.
  rewrite forallb_forall in F. intros p Hp. eapply finite_heap, F. by apply in_map.
Qed.

Lemma deep_app n h e v : finite n h v = true -> deep n (h ++ e) v = deep n h v.
Proof.
  revert v. induction n as [|n IH]; intros v F; destruct v; simpl in *; try done.
  destruct (h !! l) as [o|] eqn:El; [|done].
  rewrite (lookup_app_l_Some _ _ _ _ El).
  rewrite forallb_forall in F. destruct o as [els|fs|name params body closure]; simpl in F.
  - f_equal. apply map_ext_in. intros v Hv. apply IH. by apply F.
  - f_equal. apply map_ext_in. intros [k v] Hv. simpl. f_equal.
    apply IH. apply F. apply in_map_iff. by exists (k, v).
  - f_equal. apply IH. apply F. by left.
Qed.

Lemma finite_app n h e v : finite n h v = true -> finite n (h ++ e) v = true.
Proof.
  revert v. induction n as [|n IH]; intros v F; destruct v; simpl in *; try done.
  destruct (h !! l) as [o|] eqn:El; [|done].
  rewrite (lookup_app_l_Some _ _ _ _ El).
  rewrite forallb_forall in *. intros v Hv. apply IH. by apply F.
Qed.

Lemma view_app h e v : finite (length h) h v = true -> view (h ++ e) v = view h v.
Proof.
  intros F. unfold view. rewrite <- (@deep_app (length h) h e v F).
  apply deep_finite; [by apply finite_app|]. rewrite length_app. lia.
Qed.

Lemma json_copy_shows vars h snap h' :
  json_copy vars h = Ok snap h' ->
  view h' snap = jsonify (TObj (map (fun p => (fst p, view h' (snd p))) vars)).
Proof.
  intros E. rewrite (@json_copy_reads vars h snap h' E). do 2 f_equal.
  pose proof (@json_copy_appended vars h snap h' E) as (e & Eh & _). subst h'.
  apply map_ext_in. intros p Hp. f_equal. symmetry. apply view_app.
  by eapply json_copy_finite.
Qed.

Lemma guarded_shows originalIndex vars out (m : M (option pending)) h r h' s :
  guarded originalIndex vars out m h = Ok r h' -> In s (r_steps r) ->
  view h' (s_variables s)
  = jsonify (TObj (map (fun p => (fst p, view h' (snd p))) (r_variables r))).
Proof.
  unfold guarded. destruct (m h) as [[p|] h1|msg h1|]; [| | |done].
  - destruct (json_copy (p_vars p) h1) as [snap h2|msg h2|] eqn:E; [| |done].
    + intros [= <- <-]. simpl. intros [<-|[]]. simpl. by eapply json_copy_shows.
    + unfold error_result, bind.
      destruct (json_copy (p_vars p) h2) as [snap h3| |] eqn:E'; [|done..].
      intros [= <- <-]. simpl. intros [<-|[]]. simpl. by eapply json_copy_shows.
  - by intros [= <- <-].
  - unfold error_result, bind.
    destruct (json_copy vars h1) as [snap h3| |] eqn:E'; [|done..].
    intros [= <- <-]. simpl. intros [<-|[]]. simpl. by eapply json_copy_shows.
Qed.

(** X14. The snapshot that [JSON.parse(JSON.stringify(variables))] makes
    reads, in the heap it leaves, as the variables read in the heap before
    it, objects unfolded to any depth, but for what JSON cannot carry: a
    variable that is [undefined] is left out, and so is such a property of
    an object; [undefined] and [NaN] inside a list are [null]. *)
Theorem snapshot_reads_as_the_variables (variables : env) (h : heap) (snap : value)
    (h' : heap) :
  json_copy variables h = Ok snap h' ->
  view h' snap = jsonify (TObj (map (fun p => (fst p, view h (snd p))) variables)).
Proof. apply json_copy_reads. Qed.
Lemma snapshot_reads_as_the_variables_witness :
  exists snap h',
    json_copy [("x", VNum 1); ("u", VUndef); ("xs", VRef 0)] [OArr [VNaN; VNum 2]] = Ok snap h'
    /\ view h' snap
       = jsonify (TObj (map (fun p => (fst p, view [OArr [VNaN; VNum 2]] (snd p)))
                          [("x", VNum 1); ("u", VUndef); ("xs", VRef 0)])).
Proof.
  eexists; eexists. split; [vm_compute; reflexivity|].
  apply (@snapshot_reads_as_the_variables
           [("x", VNum 1); ("u", VUndef); ("xs", VRef 0)] [OArr [VNaN; VNum 2]]).
  vm_compute; reflexivity.
Defined.

Lemma json_copy_circular vars h name v l :
  In (name, v) vars -> reach h v l -> circular h l ->
  json_copy vars h = Err "Converting circular structure to JSON" h.
Proof.
  intros Hv R C. unfold json_copy.
  destruct (copy_fields _ vars h) as [[fs h1]|] eqn:E1; [|done].
  pose proof (@copy_fields_finite (copy_value (S (length h)) h) (S (length h)) h vars
                (fun v h2 r => @copy_value_finite _ _ v h2 r) _ _ E1) as F.
  rewrite forallb_forall in F.
  assert (finite (S (length h)) h v = true) as Fv by (apply F; by apply (in_map snd) in Hv).
  pose proof (@finite_reach _ _ _ _ Fv R) as Fl.
  by rewrite (circular_not_finite _ C) in Fl.
Qed.

(** X15. When a variable holds an object that contains itself, the [try]
    of [processLine] cannot record the line: the snapshot for the step
    fails, and so does the snapshot for the [error] step that the [catch]
    builds, so that [processLine] itself throws, whether the statement
    has returned or thrown. *)
Theorem circular_variable_escapes_the_catch (originalIndex : nat) (vars : env)
    (out : list string) (statement : M (option pending)) (h h1 : heap)
    (shown_vars : env) (name : string) (v : value) (l : loc) :
  (exists p, statement h = Ok (Some p) h1 /\ shown_vars = p_vars p)
  \/ (exists msg, statement h = Err msg h1 /\ shown_vars = vars) ->
  In (name, v) shown_vars -> reach h1 v l -> circular h1 l ->
  exists msg, guarded originalIndex vars out statement h = Err msg h1.
Proof.
  intros S Hv R C. pose proof (@json_copy_circular _ _ _ _ _ Hv R C) as E.
  eexists. unfold guarded. destruct S as [(p & -> & ->)|(msg & -> & ->)].
  - rewrite E. unfold error_result, bind. by rewrite E.
  - unfold error_result, bind. by rewrite E.
Qed.

Lemma circular_variable_escapes_the_catch_witness :
  exists msg,
    guarded 1 [("xs", VRef 0)] []
      (First.statement Mini.mini_host 0 (make_line 1 "xs.append(xs)") [("xs", VRef 0)] [] [])
      [OArr [VNum 1]]
    = Err msg [OArr [VNum 1; VRef 0]; OArr [VNum 1]].
Proof.
  apply (@circular_variable_escapes_the_catch 1 [("xs", VRef 0)] [] _ [OArr [VNum 1]]
           [OArr [VNum 1; VRef 0]; OArr [VNum 1]] [("xs", VRef 0)] "xs" (VRef 0) 0).
  - right. eexists. split; [vm_compute; reflexivity|reflexivity].
  - by left.
  - apply reach_here.
  - exists (OArr [VNum 1; VRef 0]), (VRef 0).
    split; [reflexivity|]. split; [right; by left|apply reach_here].
Defined.

(** X16. The step that [processLine] records shows the variables as the
    line leaves them: in the heap [processLine] returns, the snapshot of
    the step reads as the variables of the result, objects unfolded to
    any depth, but for what JSON cannot carry. *)
Theorem step_shows_the_variables_left (H : host) (fuel : nat) (lineData : line)
    (vars : env) (out : list string) (lines : list line) (h : heap) (r : result)
    (h' : heap) (s : step) :
  First.processLine H fuel lineData vars out lines h = Ok r h'
  \/ Second.processLine H lineData vars out h = Ok r h' ->
  In s (r_steps r) ->
  view h' (s_variables s)
  = jsonify (TObj (map (fun p => (fst p, view h' (snd p))) (r_variables r))).
Proof.
  intros [E|E] Hs.
  - unfold First.processLine in E. cbv zeta in E.
    destruct (_ || _); [by injection E as <- <-|]. by eapply guarded_shows.
  - unfold Second.processLine in E. cbv zeta in E.
    destruct (_ || _); [by injection E as <- <-|]. by eapply guarded_shows.
Qed.

Lemma step_shows_the_variables_left_witness :
  exists r h' s,
    First.processLine Mini.mini_host 0 (make_line 1 "xs.append(4)") [("xs", VRef 0)] [] []
      [OArr [VNum 1]] = Ok r h'
    /\ r_steps r = [s]
    /\ view h' (s_variables s)
       = jsonify (TObj (map (fun p => (fst p, view h' (snd p))) (r_variables r))).
Proof.
  eexists; eexists; eexists. split; [vm_compute; reflexivity|]. split; [reflexivity|].
  refine (@step_shows_the_variables_left Mini.mini_host 0 (make_line 1 "xs.append(4)")
            [("xs", VRef 0)] [] [] [OArr [VNum 1]] _ _ _ _ _);
    [left; vm_compute; reflexivity|by left].
Defined.

(** *** Closures *)





(** *** The operations on a list *)

Section ListMethods.
Variable H : host.
Variable safeEval : string -> env -> M value.

Lemma repr_scalar v :
  is_scalar v = true -> exists text, forall h, __repr H v h = Ok text h.
Proof.
  intros Hv. destruct v as [| |[|]| | | |]; try done; eexists; intros h;
    unfold __repr, bind, get_heap; by destruct (length h).
Qed.

Lemma append_step listName args l vars h els v :
  h !! l = Some (OArr els) -> safeEval args vars h = Ok v h -> is_scalar v = true ->
  exists text,
    Shared.list_method H safeEval "append" listName args (VRef l) vars h
    = Ok (text, VNull) (<[l := OArr (els ++ [v])]> h).
Proof.
  intros Hl He Hv. destruct (@repr_scalar _ Hv) as [text Ht].
  unfold Shared.list_method. simpl. unfold bind. rewrite He. simpl. rewrite Hl.
  simpl. rewrite Ht. by eexists.
Qed.

Lemma pop_step listName l vars h els :
  h !! l = Some (OArr els) -> is_scalar (default VUndef (last els)) = true ->
  exists text,
    Shared.list_method H safeEval "pop" listName "" (VRef l) vars h
    = Ok (text, default VUndef (last els)) (<[l := OArr (take (length els - 1) els)]> h).
Proof.
  intros Hl Hv. destruct (@repr_scalar _ Hv) as [text Ht].
  unfold Shared.list_method. simpl. unfold bind. simpl. rewrite Hl.
  simpl. rewrite Ht. by eexists.
Qed.

End ListMethods.

(** X17. Appending a number, a string or another value that is not an
    object to a list and then popping its last element gives back that
    value and leaves the list as it was. *)
Theorem append_then_pop (H : host) (safeEval : string -> env -> M value)
    (listName args : string) (l : loc) (vars : env) (h : heap) (els : list value)
    (v : value) :
  h !! l = Some (OArr els) -> safeEval args vars h = Ok v h -> is_scalar v = true ->
  exists text h1,
    Shared.list_method H safeEval "append" listName args (VRef l) vars h = Ok (text, VNull) h1
    /\ h1 !! l = Some (OArr (els ++ [v]))
    /\ exists text',
         Shared.list_method H safeEval "pop" listName "" (VRef l) vars h1 = Ok (text', v) h.
Proof.
  intros Hl He Hv. destruct (@append_step H safeEval listName args l vars h els v Hl He Hv) as [text Ht].
  assert (<[l:=OArr (els ++ [v])]> h !! l = Some (OArr (els ++ [v]))) as Hl1.
  { apply list_lookup_insert_eq. by apply lookup_lt_Some in Hl. }
  exists text, (<[l := OArr (els ++ [v])]> h). split; [done|]. split; [done|].
  destruct (@pop_step H safeEval listName l vars _ _ Hl1) as [text' Ht'].
  { by rewrite last_snoc. }
  exists text'. rewrite Ht'. rewrite last_snoc. simpl. f_equal.
  rewrite list_insert_insert_eq, length_app. simpl.
  replace (length els + 1 - 1) with (length els) by lia.
  rewrite take_app_length. by apply list_insert_id.
Qed.

Lemma append_then_pop_witness :
  exists text h1,
    Shared.list_method Mini.mini_host (First.safeEval Mini.mini_host) "append" "xs" "x + 1"
      (VRef 0) [("xs", VRef 0); ("x", VNum 2)] [OArr [VNum 1]] = Ok (text, VNull) h1
    /\ h1 !! 0 = Some (OArr ([VNum 1] ++ [VNum 3]))
    /\ exists text',
         Shared.list_method Mini.mini_host (First.safeEval Mini.mini_host) "pop" "xs" ""
           (VRef 0) [("xs", VRef 0); ("x", VNum 2)] h1 = Ok (text', VNum 3) [OArr [VNum 1]].
Proof.
  apply (@append_then_pop Mini.mini_host (First.safeEval Mini.mini_host) "xs" "x + 1" 0
           [("xs", VRef 0); ("x", VNum 2)] [OArr [VNum 1]] [VNum 1] (VNum 3));
    [reflexivity|vm_compute; reflexivity|reflexivity].
Defined.

(** *** The stepper *)

Import Stepper.

Lemma step_at_Some steps i :
  (0 <= i < Z.of_nat (length steps))%Z -> exists s, step_at steps i = Some s.
Proof.
  intros Hi. unfold step_at. destruct (Z.ltb_spec i 0); [lia|].
  apply lookup_lt_is_Some_2. lia.
Qed.

Lemma show_Some prev i :
  (0 <= i < Z.of_nat (length (e_executionSteps prev)))%Z ->
  exists s, step_at (e_executionSteps prev) i = Some s
    /\ show prev i
       = Some (State i (if truthy (s_variables s) then Some (s_variables s)
                        else e_variables prev)
                 (Z.of_nat (s_line s)) (e_isRunning prev) (e_executionSteps prev)
                 (s_output s) (e_callStack prev) (e_breakpoints prev)).
Proof.
  intros Hi. destruct (step_at_Some _ Hi) as [s Hs]. exists s. split; [done|].
  unfold show. by rewrite Hs.
Qed.

Lemma run_command_in_trace c st :
  in_trace st ->
  exists st', run_command c st = Some st' /\ in_trace st'
    /\ e_executionSteps st' = e_executionSteps st.
Proof.
  intros [H0 H1]. destruct c as [| |i|l]; simpl.
  - unfold nextStep. destruct (Z.leb_spec (Z.of_nat (length (e_executionSteps st)) - 1)
                                 (e_step st)).
    + eexists. split; [done|]. by split.
    + destruct (@show_Some st (e_step st + 1)) as (s & _ & ->); [lia|].
      eexists. split; [done|]. split; [|done]. split; simpl; lia.
  - unfold prevStep. destruct (Z.leb_spec (e_step st) 0).
    + eexists. split; [done|]. by split.
    + destruct (@show_Some st (e_step st - 1)) as (s & _ & ->); [lia|].
      eexists. split; [done|]. split; [|done]. split; simpl; lia.
  - unfold jumpToStep.
    destruct (Z.ltb_spec i 0); simpl; [by eexists|].
    destruct (Z.leb_spec (Z.of_nat (length (e_executionSteps st))) i); [by eexists|].
    destruct (@show_Some st i) as (s & _ & ->); [lia|].
    eexists. split; [done|]. split; [|done]. split; simpl; lia.
  - eexists. split; [done|]. by split.
Qed.

Lemma run_commands_in_trace cs st :
  in_trace st ->
  exists st', run_commands cs st = Some st' /\ in_trace st'
    /\ e_executionSteps st' = e_executionSteps st.
Proof.
  revert st. induction cs as [|c cs IH]; intros st Hst; simpl; [by exists st|].
  destruct (run_command_in_trace c Hst) as (st1 & -> & H1 & E1).
  destruct (IH st1 H1) as (st2 & -> & H2 & E2). exists st2. split; [done|].
  split; [done|]. congruence.
Qed.

Lemma reset_in_trace steps prev : in_trace (resetVisualization steps prev).
Proof. split; simpl; lia. Qed.

Lemma initial_in_trace : in_trace initial.
Proof. split; simpl; lia. Qed.

Lemma run_command_shows c st st' :
  in_trace st -> run_command c st = Some st' -> e_step st' <> e_step st ->
  exists s, step_at (e_executionSteps st') (e_step st') = Some s /\ shows st' s.
Proof.
  intros [H0 H1]. destruct c as [| |i|l]; simpl.
  - unfold nextStep. destruct (Z.leb_spec (Z.of_nat (length (e_executionSteps st)) - 1)
                                 (e_step st)); [by intros [= <-]|].
    destruct (@show_Some st (e_step st + 1)) as (s & Hs & ->); [lia|].
    intros [= <-] _. exists s. split; [done|]. unfold shows. simpl.
    split; [done|]. split; [done|]. by intros ->.
  - unfold prevStep. destruct (Z.leb_spec (e_step st) 0); [by intros [= <-]|].
    destruct (@show_Some st (e_step st - 1)) as (s & Hs & ->); [lia|].
    intros [= <-] _. exists s. split; [done|]. unfold shows. simpl.
    split; [done|]. split; [done|]. by intros ->.
  - unfold jumpToStep.
    destruct (Z.ltb_spec i 0); simpl; [by intros [= <-]|].
    destruct (Z.leb_spec (Z.of_nat (length (e_executionSteps st))) i); [by intros [= <-]|].
    destruct (@show_Some st i) as (s & Hs & ->); [lia|].
    intros [= <-] _. exists s. split; [done|]. unfold shows. simpl.
    split; [done|]. split; [done|]. by intros ->.
  - by intros [= <-].
Qed.

Lemma single_step_stuck s cs st :
  Forall (fun c => is_jump c = false) cs ->
  e_executionSteps st = [s] -> e_step st = 0%Z ->
  exists st', run_commands cs st = Some st'
    /\ e_step st' = 0%Z /\ e_output st' = e_output st /\ e_variables st' = e_variables st
    /\ e_currentLine st' = e_currentLine st.
Proof.
  intros Hcs. revert st. induction Hcs as [|c cs Hc _ IH]; intros st Es E0; simpl.
  - by exists st.
  - assert (exists st1, run_command c st = Some st1 /\ e_executionSteps st1 = [s]
                        /\ e_step st1 = 0%Z /\ e_output st1 = e_output st
                        /\ e_variables st1 = e_variables st
                        /\ e_currentLine st1 = e_currentLine st) as (st1 & -> & ? & ? & E1 & E2 & E3).
    { destruct c as [| |i|l]; simpl; [| |done|].
      - unfold nextStep. rewrite Es, E0. simpl. eexists. split; [done|]. by simpl.
      - unfold prevStep. rewrite E0. simpl. by exists st.
      - eexists. split; [done|]. by simpl. }
    destruct (IH st1) as (st2 & -> & ? & ? & ? & ?); [done..|].
    exists st2. split; [done|]. split; [done|]. split; [congruence|]. split; congruence.
Qed.

Lemma nextStep_shows st st' :
  in_trace st -> nextStep st = Some st' ->
  (exists s, step_at (e_executionSteps st) (e_step st) = Some s /\ shows st s)
  \/ e_step st' <> e_step st ->
  exists s, step_at (e_executionSteps st') (e_step st') = Some s /\ shows st' s.
Proof.
  intros Hst E [Sh|Hne]; [|by apply (run_command_shows CNext Hst E)].
  destruct (Z.eq_dec (e_step st') (e_step st)) as [Eq|Ne];
    [|by apply (run_command_shows CNext Hst E)].
  revert E Eq. unfold nextStep.
  destruct (Z.leb_spec (Z.of_nat (length (e_executionSteps st)) - 1) (e_step st)).
  - by intros [= <-].
  - destruct (@show_Some st (e_step st + 1)) as (s & _ & ->); [destruct Hst; lia|].
    intros [= <-]. simpl. lia.
Qed.

Lemma ticks_advance n st :
  in_trace st ->
  exists st', ticks n st = Some st'
    /\ e_executionSteps st' = e_executionSteps st
    /\ e_step st'
       = Z.max (e_step st)
           (Z.min (e_step st + Z.of_nat n) (Z.of_nat (length (e_executionSteps st)) - 1))
    /\ ((exists s, step_at (e_executionSteps st) (e_step st) = Some s /\ shows st s)
        \/ e_step st' <> e_step st ->
        exists s, step_at (e_executionSteps st') (e_step st') = Some s /\ shows st' s).
Proof.
  revert st. induction n as [|n IH]; intros st Hst.
  - exists st. simpl. split; [done|]. split; [done|]. split; [destruct Hst; lia|].
    by intros [?|?].
  - simpl. destruct (run_command_in_trace CNext Hst) as (st1 & E1 & H1 & Es1).
    simpl in E1. rewrite E1.
    destruct (IH st1 H1) as (st2 & -> & Es2 & E2 & S2).
    exists st2. split; [done|]. split; [congruence|].
    assert (e_step st1
            = Z.max (e_step st)
                (Z.min (e_step st + 1) (Z.of_nat (length (e_executionSteps st)) - 1))) as E.
    { revert E1. unfold nextStep.
      destruct (Z.leb_spec (Z.of_nat (length (e_executionSteps st)) - 1) (e_step st)).
      - intros [= <-]. simpl. lia.
      - destruct (@show_Some st (e_step st + 1)) as (s & _ & ->); [destruct Hst; lia|].
        intros [= <-]. simpl. lia. }
    split; [rewrite E2, Es1, E; lia|].
    intros Hs. apply S2.
    destruct (Z.eq_dec (e_step st1) (e_step st)) as [Eq|Ne].
    + destruct Hs as [Hs|Hne]; [|right; congruence].
      left. apply (nextStep_shows Hst E1). by left.
    + left. apply (nextStep_shows Hst E1). by right.
Qed.

Lemma last_step_at (steps : list step) s :
  last steps = Some s -> step_at steps (Z.of_nat (length steps) - 1) = Some s.
Proof.
  intros Hl. unfold step_at. rewrite last_lookup in Hl.
  destruct steps as [|s0 ss]; [done|]. simpl length in *.
  destruct (Z.ltb_spec (Z.of_nat (S (length ss)) - 1) 0); [lia|].
  by replace (Z.to_nat (Z.of_nat (S (length ss)) - 1)) with (Nat.pred (S (length ss))) by lia.
Qed.

Lemma existsb_eqb_In l bps : existsb (Nat.eqb l) bps = true <-> In l bps.
Proof.
  rewrite existsb_exists. split.
  - intros (x & Hx & E). apply Nat.eqb_eq in E. by subst.
  - intros Hl. exists l. split; [done|]. apply Nat.eqb_refl.
Qed.

(** X18. After a reset, whatever the buttons, the slider and the timer do
    next, no update fails and the step counter stays at a step of the
    trace (at 0 if the trace is empty); the trace itself is not changed. *)
Theorem stepper_stays_in_trace (steps : list step) (prev : Stepper.state)
    (cs : list command) :
  exists st',
    run_commands cs (Stepper.resetVisualization steps prev) = Some st'
    /\ (0 <= Stepper.e_step st' < Z.max 1 (Z.of_nat (length steps)))%Z
    /\ Stepper.e_executionSteps st' = steps.
Proof.
  destruct (@run_commands_in_trace cs (resetVisualization steps prev))
    as (st' & E & [H0 H1] & Es); [apply reset_in_trace|].
  exists st'. split; [done|]. simpl in Es. rewrite Es in H1. by split.
Qed.

(** X19. An update that moves the step counter leaves the state showing
    the step it has moved to: the line of that step, its output, and its
    variables. *)
Theorem a_move_shows_its_step (c : command) (st st' : Stepper.state) :
  in_trace st -> run_command c st = Some st' ->
  Stepper.e_step st' <> Stepper.e_step st ->
  exists s, Stepper.step_at (Stepper.e_executionSteps st') (Stepper.e_step st') = Some s
            /\ shows st' s.
Proof. apply run_command_shows. Qed.

Lemma a_move_shows_its_step_witness :
  let st := Stepper.resetVisualization
              [Step 0 assign [] (VRef 0) []; Step 1 print [] (VRef 1) ["1"]] Stepper.initial in
  exists st' s,
    run_command CNext st = Some st'
    /\ Stepper.step_at (Stepper.e_executionSteps st') (Stepper.e_step st') = Some s
    /\ shows st' s.
Proof.
  intros st. eexists.
  destruct (@a_move_shows_its_step CNext st _ (reset_in_trace _ _) eq_refl) as (s & Hs & Sh).
  - simpl. lia.
  - exists s. split; [reflexivity|]. by split.
Defined.

(** X20. The state a reset leaves shows the line of the first step but
    neither its output nor its variables, and the counter is already at
    that step: when the trace has a single step, [nextStep], [prevStep],
    the timer and the breakpoints never bring them up. *)
Theorem single_step_is_never_shown (s : step) (prev : Stepper.state) (cs : list command) :
  Forall (fun c => is_jump c = false) cs ->
  exists st',
    run_commands cs (Stepper.resetVisualization [s] prev) = Some st'
    /\ Stepper.e_step st' = 0%Z
    /\ Stepper.e_currentLine st' = Z.of_nat (s_line s)
    /\ Stepper.e_output st' = []
    /\ Stepper.e_variables st' = None.
Proof.
  intros Hcs.
  destruct (@single_step_stuck s cs (resetVisualization [s] prev) Hcs eq_refl eq_refl)
    as (st' & E & E0 & Eo & Ev & El).
  exists st'. by repeat split.
Qed.

Lemma single_step_is_never_shown_witness :
  exists st',
    run_commands [CNext; CToggle 0; CPrev; CNext]
      (Stepper.resetVisualization [Step 0 print [] (VRef 0) ["1"]] Stepper.initial) = Some st'
    /\ Stepper.e_step st' = 0%Z
    /\ Stepper.e_currentLine st' = Z.of_nat 0
    /\ Stepper.e_output st' = []
    /\ Stepper.e_variables st' = None.
Proof.
  apply (@single_step_is_never_shown (Step 0 print [] (VRef 0) ["1"]) Stepper.initial
           [CNext; CToggle 0; CPrev; CNext]).
  repeat constructor.
Defined.

(** X21. [togglePlay] pressed while nothing runs and the counter is at
    the last step starts the trace over: with a trace of two steps or more,
    after at least as many ticks of the timer as there are steps after
    the first, the counter is at the last step and the state shows that
    step. *)
Theorem play_ends_at_the_last_step (steps : list step) (st : Stepper.state) (n : nat)
    (s : step) :
  Stepper.e_isRunning st = false ->
  (Z.of_nat (length (Stepper.e_executionSteps st)) - 1 <= Stepper.e_step st)%Z ->
  last steps = Some s -> 2 <= length steps -> length steps - 1 <= n ->
  exists st',
    Stepper.ticks n (Stepper.togglePlay steps st) = Some st'
    /\ Stepper.e_step st' = (Z.of_nat (length steps) - 1)%Z
    /\ shows st' s.
Proof.
  intros Hr He Hl H2 Hn. unfold togglePlay. rewrite Hr.
  replace (_ <=? _)%Z with true by lia.
  destruct (@ticks_advance n
              (State 0 None (e_currentLine (resetVisualization steps st)) true steps [] []
                 (e_breakpoints st)))
    as (st' & E & Es & Ei & Sh); [split; simpl; lia|].
  simpl in Es, Ei. exists st'. split; [exact E|].
  assert (e_step st' = (Z.of_nat (length steps) - 1)%Z) as E' by lia.
  split; [done|].
  destruct Sh as (s' & Hs' & Sh); [right; simpl; lia|].
  rewrite Es, E', (last_step_at _ Hl) in Hs'. by injection Hs' as <-.
Qed.

Lemma play_ends_at_the_last_step_witness :
  exists st',
    Stepper.ticks 3
      (Stepper.togglePlay
         [Step 0 assign [] (VRef 0) []; Step 1 print [] (VRef 1) ["1"]] Stepper.initial)
    = Some st'
    /\ Stepper.e_step st' = (Z.of_nat 2 - 1)%Z
    /\ shows st' (Step 1 print [] (VRef 1) ["1"]).
Proof.
  apply (@play_ends_at_the_last_step
           [Step 0 assign [] (VRef 0) []; Step 1 print [] (VRef 1) ["1"]] Stepper.initial 3
           (Step 1 print [] (VRef 1) ["1"]));
    [reflexivity|simpl; lia|reflexivity|simpl; lia|simpl; lia].
Defined.

(** X22. [toggleBreakpoint] flips the breakpoint of its line and of no
    other line, keeps the list free of duplicates, and changes nothing
    else in the state. *)
Theorem toggle_breakpoint_flips (lineIndex : nat) (st : Stepper.state) :
  let st' := Stepper.toggleBreakpoint lineIndex st in
  (In lineIndex (Stepper.e_breakpoints st') <-> ~ In lineIndex (Stepper.e_breakpoints st))
  /\ (forall l, l <> lineIndex ->
        (In l (Stepper.e_breakpoints st') <-> In l (Stepper.e_breakpoints st)))
  /\ (NoDup (Stepper.e_breakpoints st) -> NoDup (Stepper.e_breakpoints st'))
  /\ st' = Stepper.State (Stepper.e_step st) (Stepper.e_variables st)
             (Stepper.e_currentLine st) (Stepper.e_isRunning st)
             (Stepper.e_executionSteps st) (Stepper.e_output st) (Stepper.e_callStack st)
             (Stepper.e_breakpoints st').
Proof.
  simpl. unfold toggleBreakpoint. simpl.
  destruct (existsb (Nat.eqb lineIndex) (e_breakpoints st)) eqn:E.
  - apply existsb_eqb_In in E. repeat split.
    + rewrite List.filter_In. intros [_ Hn]. by rewrite Nat.eqb_refl in Hn.
    + tauto.
    + rewrite List.filter_In. tauto.
    + intros Hl. rewrite List.filter_In. split; [done|].
      apply negb_true_iff, Nat.eqb_neq. done.
    + intros Hn. apply NoDup_ListNoDup. apply List.NoDup_filter. by apply NoDup_ListNoDup.
  - assert (~ In lineIndex (e_breakpoints st)) as Hn.
    { intros Hi. apply existsb_eqb_In in Hi. congruence. }
    repeat split.
    + done.
    + intros _. apply in_or_app. right. by left.
    + intros Hi. apply in_app_or in Hi as [Hi|[Hi|[]]]; [done|congruence].
    + intros Hi. apply in_or_app. by left.
    + intros Hd. apply NoDup_app. split; [done|]. split.
      * intros x Hx Hx'. apply list_elem_of_In in Hx. apply list_elem_of_In in Hx'.
        destruct Hx' as [<-|[]]. done.
      * apply NoDup_singleton.
Qed.

(** *** What the stepper displays *)

Lemma step_at_In steps i s : Stepper.step_at steps i = Some s -> In s steps.
Proof.
  unfold Stepper.step_at. destruct (i <? 0)%Z; [done|]. apply lookup_In.
Qed.

Lemma show_displays prev i st' : Stepper.show prev i = Some st' -> displays st'.
Proof.
  unfold Stepper.show. destruct (Stepper.step_at _ i) as [s|] eqn:E; [|done].
  intros [= <-]. apply step_at_In in E. split; right; exists s; by split.
Qed.

Lemma run_command_displays c st st' :
  displays st -> run_command c st = Some st' -> displays st'.
Proof.
  intros D. destruct c as [| |i|l]; simpl.
  - unfold Stepper.nextStep. destruct (_ <=? _)%Z; [by intros [= <-]|apply show_displays].
  - unfold Stepper.prevStep. destruct (_ <=? _)%Z; [by intros [= <-]|apply show_displays].
  - unfold Stepper.jumpToStep. destruct (_ || _); [by intros [= <-]|apply show_displays].
  - by intros [= <-].
Qed.

Lemma run_commands_displays cs st st' :
  displays st -> run_commands cs st = Some st' -> displays st'.
Proof.
  revert st. induction cs as [|c cs IH]; intros st D; simpl; [by intros [= <-]|].
  destruct (run_command c st) as [st1|] eqn:E; [|done].
  apply IH. by eapply run_command_displays.
Qed.

Lemma reset_displays steps prev : displays (Stepper.resetVisualization steps prev).
Proof.
  split; [by left|]. simpl. destruct steps as [|s steps]; [by left|].
  right. exists s. split; [by left|done].
Qed.

Lemma In_lookup {A} (l : list A) x : In x l -> exists i, l !! i = Some x.
Proof. intros Hx. by apply list_elem_of_In, list_elem_of_lookup_1 in Hx. Qed.

(** X23. What the stepper displays comes from the trace: after a reset
    to the trace that [parseCode] returns, in either implementation, and
    any sequence of updates, the highlighted line is a line of the
    program that is neither blank nor a comment (or none, when the trace
    is empty), and the output shown is a prefix of the output of the last
    step. *)
Theorem stepper_displays_the_trace (H : host) (fuel : nat) (codeString : string)
    (steps : list step) (h : heap) (prev st' : Stepper.state) (cs : list command) :
  First.parseCode H fuel codeString [] = Ok steps h
  \/ Second.parseCode H fuel codeString [] = Ok steps h ->
  run_commands cs (Stepper.resetVisualization steps prev) = Some st' ->
  (steps = [] /\ Stepper.e_currentLine st' = (-1)%Z
   \/ exists n l, Stepper.e_currentLine st' = Z.of_nat n
                  /\ make_lines codeString !! n = Some l /\ is_code l = true)
  /\ (forall s, last steps = Some s -> Stepper.e_output st' `prefix_of` s_output s).
Proof.
  intros E R.
  destruct (@run_commands_in_trace cs (Stepper.resetVisualization steps prev))
    as (st1 & R1 & _ & Es); [apply reset_in_trace|].
  rewrite R in R1. injection R1 as <-. simpl in Es.
  pose proof (@run_commands_displays cs _ st' (reset_displays steps prev) R) as [Do Dl].
  rewrite Es in Do, Dl.
  assert (chain [] steps /\ at_lines (make_lines codeString) steps) as [C A].
  { destruct E as [E|E].
    - split; [eapply always_ok; [apply first_main_loop_chain|exact E]|
              eapply always_ok; [apply first_main_loop_at|exact E]].
    - split; [eapply always_ok; [apply second_main_loop_chain|exact E]|
              eapply always_ok; [apply second_main_loop_at|exact E]]. }
  split.
  - destruct Dl as [?|(s & Hs & El)]; [by left|right].
    unfold at_lines in A. rewrite List.Forall_forall in A.
    destruct (@make_lines_code_index codeString (s_line s) (A s Hs)) as (l & Hl & Hc).
    by exists (s_line s), l.
  - intros s Hl. destruct Do as [->|(s0 & Hs0 & ->)]; [apply prefix_nil|].
    destruct (@In_lookup _ steps s0 Hs0) as [i Hi]. rewrite last_lookup in Hl.
    eapply chain_prefix; [exact C| |exact Hi|exact Hl].
    apply lookup_lt_Some in Hi. lia.
Qed.

Lemma stepper_displays_the_trace_witness :
  exists steps h st',
    First.parseCode Mini.mini_host 0 (script ["x = 1"; ""; "print(x)"]) [] = Ok steps h
    /\ run_commands [CNext; CToggle 2; CJump 0]
         (Stepper.resetVisualization steps Stepper.initial) = Some st'
    /\ (steps = [] /\ Stepper.e_currentLine st' = (-1)%Z
        \/ exists n l, Stepper.e_currentLine st' = Z.of_nat n
                       /\ make_lines (script ["x = 1"; ""; "print(x)"]) !! n = Some l
                       /\ is_code l = true)
    /\ (forall s, last steps = Some s -> Stepper.e_output st' `prefix_of` s_output s).
Proof.
  eexists; eexists; eexists.
  split; [vm_compute; reflexivity|]. split; [vm_compute; reflexivity|].
  refine (@stepper_displays_the_trace Mini.mini_host 0 (script ["x = 1"; ""; "print(x)"])
            _ _ Stepper.initial _ [CNext; CToggle 2; CJump 0] _ _);
    [left; vm_compute; reflexivity|vm_compute; reflexivity].
Defined.
